(** * Crossword player: grid model, solving engine and persistence

    A shallow embedding of the browser crossword player
    (grid.js, game.js, storage.js, timer.js and the wiring of app.js) and
    of the script that fetches the puzzles (fetch-puzzles.js), together
    with the properties of its specification and further properties of
    the code.

    Conventions of the embedding:
    - JavaScript numbers used as coordinates, indices read from the outside
      and timestamps are [Z]; array positions produced by the code itself
      (word ids) are [nat].
    - A JavaScript array indexed by a number is a list read with [at_]:
      a negative or too large index gives [None] (JavaScript [undefined]).
    - The DOM input element of a cell is the record [Input]: its [value] and
      its [readOnly] flag; a black cell has no input ([None], JavaScript
      [null]).
    - Strings are [string].  The string functions of the platform that
      normalize typed text (Unicode decomposition, upper-casing) are taken
      as the interface [TextLib]; [asciiText] is their restriction to ASCII.
    - Callbacks and the calls into the persistence layer are recorded, in
      order, in the [log] of the session (a trace of effects).
    - The puzzle and solution grids are assumed to have the shape given by
      the dimensions ([wf_puzzle]); reading a missing row would raise a
      JavaScript TypeError, which is outside the model. *)

From Stdlib Require Import Ascii String DecimalString DecimalZ.
From stdpp Require Import gmap strings list sorting.

(** ** JavaScript arrays read by a number *)

Definition at_ {A : Type} (l : list A) (i : Z) : option A :=
  if (i <? 0)%Z then None else l !! Z.to_nat i.

Definition alterZ {A : Type} (f : A -> A) (i : Z) (l : list A) : list A :=
  if (i <? 0)%Z then l else alter f (Z.to_nat i) l.

Definition at2 {A : Type} (g : list (list A)) (r c : Z) : option A :=
  at_ g r ≫= fun line => at_ line c.

Definition alter2 {A : Type} (f : A -> A) (r c : Z) (g : list (list A))
  : list (list A) :=
  alterZ (alterZ f c) r g.

(** ** Data model (grid.js) *)

Inductive Direction := across | down.

Definition Coord : Type := (Z * Z)%type.

(** A cell of the [puzzle] grid: the block marker ['#'], a clue number, or
    anything else (the marker of a blank playable cell). *)
Inductive CellSpec := Block | Num (n : Z) | Blank.

Record PuzzleData := {
  height : Z;                          (* dimensions.height *)
  width : Z;                           (* dimensions.width *)
  puzzle : list (list CellSpec);
  solution : list (list string);
  cluesAcross : list (Z * string);     (* clues.Across || [] *)
  cluesDown : list (Z * string);       (* clues.Down || [] *)
  level : string;
  date : string
}.

Record Word := {
  id : nat;
  number : Z;
  direction : Direction;
  wcells : list Coord;                 (* word.cells *)
  clue : string
}.

Record CellWords := { cw_across : option nat; cw_down : option nat }.

Inductive CellClass := Active | Highlighted | Correct | Revealed.

Record Input := { value : string; readOnly : bool }.

Record Cell := {
  isBlack : bool;
  cnumber : option Z;
  input : option Input;
  classList : list CellClass
}.

#[global] Instance Direction_eq_dec : EqDecision Direction.
Proof. solve_decision. Defined.
#[global] Instance CellSpec_eq_dec : EqDecision CellSpec.
Proof. solve_decision. Defined.
#[global] Instance CellClass_eq_dec : EqDecision CellClass.
Proof. solve_decision. Defined.

Definition flip (d : Direction) : Direction :=
  match d with across => down | down => across end.

Definition cwDir (cw : CellWords) (d : Direction) : option nat :=
  match d with across => cw_across cw | down => cw_down cw end.

Definition setCwDir (d : Direction) (idx : nat) (cw : CellWords) : CellWords :=
  match d with
  | across => {| cw_across := Some idx; cw_down := cw_down cw |}
  | down => {| cw_across := cw_across cw; cw_down := Some idx |}
  end.

(** [puzzle[r][c]]; a missing entry of an existing row is [undefined], which
    the code treats like a blank playable cell. *)
Definition puzzleAt (p : PuzzleData) (r c : Z) : CellSpec :=
  default Blank (at2 (puzzle p) r c).

(** [solution[row][col]] *)
Definition solutionAt (p : PuzzleData) (r c : Z) : string :=
  default "" (at2 (solution p) r c).

Definition shape_ok {A : Type} (rows cols : Z) (g : list (list A)) : bool :=
  bool_decide (length g = Z.to_nat rows) &&
  forallb (fun line => bool_decide (length line = Z.to_nat cols)) g.

Definition wf_puzzle (p : PuzzleData) : bool :=
  bool_decide (0 ≤ height p)%Z && bool_decide (0 ≤ width p)%Z &&
  shape_ok (height p) (width p) (puzzle p) &&
  shape_ok (height p) (width p) (solution p).

(** ** buildWords *)

Section BuildWords.
Variable p : PuzzleData.

Definition allCoords : list Coord :=
  r ← seqZ 0 (height p); (fun c => (r, c)) <$> seqZ 0 (width p).

(** The first double loop of [buildWords]: a later cell carrying the same
    number overwrites an earlier one. *)
Definition numberToPos : gmap Z Coord :=
  fold_left
    (fun m rc =>
       match puzzleAt p rc.1 rc.2 with
       | Num val => <[val := rc]> m
       | _ => m
       end)
    allCoords ∅.

Definition isPlayable (r c : Z) : bool :=
  if ((r <? 0) || (height p <=? r) || (c <? 0) || (width p <=? c))%Z
  then false
  else negb (bool_decide (puzzleAt p r c = Block)).

Definition advance (d : Direction) (rc : Coord) : Coord :=
  match d with
  | across => (rc.1, (rc.2 + 1)%Z)
  | down => ((rc.1 + 1)%Z, rc.2)
  end.

(** The [while (isPlayable(..))] loop, with the number of iterations
    bounded by [fuel]; [walkFuel] is always enough (see [walk_stops]). *)
Fixpoint walk (fuel : nat) (d : Direction) (rc : Coord) : list Coord :=
  match fuel with
  | O => []
  | S fuel' =>
      if isPlayable rc.1 rc.2 then rc :: walk fuel' d (advance d rc) else []
  end.

Definition walkFuel : nat := Z.to_nat (height p + width p).

Definition initCellToWords : list (list CellWords) :=
  (fun _ => (fun _ => {| cw_across := None; cw_down := None |})
              <$> seqZ 0 (width p))
    <$> seqZ 0 (height p).

(** One iteration of a [for (const [num, clue] of clues.X)] loop.  The
    table [wordMap] that the loop also fills is never read and is left
    out. *)
Definition addWord (d : Direction)
    (acc : list Word * list (list CellWords)) (entry : Z * string)
  : list Word * list (list CellWords) :=
  match numberToPos !! entry.1 with
  | None => acc                                        (* continue *)
  | Some pos =>
      let wordCells := walk walkFuel d pos in
      let idx := length acc.1 in
      (acc.1 ++ [{| id := idx; number := entry.1; direction := d;
                    wcells := wordCells; clue := entry.2 |}],
       fold_left (fun m cell => alter2 (setCwDir d idx) cell.1 cell.2 m)
                 wordCells acc.2)
  end.

Definition buildWords : list Word * list (list CellWords) :=
  fold_left (addWord down) (cluesDown p)
    (fold_left (addWord across) (cluesAcross p) ([], initCellToWords)).

Definition words : list Word := buildWords.1.
Definition cellToWords : list (list CellWords) := buildWords.2.

(** [cellToWords[row]?.[col]?.[dir]] *)
Definition wordIdxAt (r c : Z) (d : Direction) : option nat :=
  at2 cellToWords r c ≫= fun cw => cwDir cw d.

(** ** render *)

Definition renderCell (val : CellSpec) : Cell :=
  let black := bool_decide (val = Block) in
  {| isBlack := black;
     cnumber := match val with Num n => Some n | _ => None end;
     input := if black then None else Some {| value := ""; readOnly := false |};
     classList := [] |}.

Definition render : list (list Cell) :=
  (fun r => (fun c => renderCell (puzzleAt p r c)) <$> seqZ 0 (width p))
    <$> seqZ 0 (height p).
End BuildWords.

(** ** Public cell accessors of the grid *)

Definition getCell (cells : list (list Cell)) (r c : Z) : option Cell :=
  at2 cells r c.

(** [cells[row]?.[col]?.input?.value || ''] *)
Definition getLetter (cells : list (list Cell)) (r c : Z) : string :=
  match getCell cells r c with
  | Some cell => match input cell with Some i => value i | None => "" end
  | None => ""
  end.

Definition setInput (f : Input -> Input) (cell : Cell) : Cell :=
  {| isBlack := isBlack cell; cnumber := cnumber cell;
     input := f <$> input cell; classList := classList cell |}.

Definition setValue (letter : string) (i : Input) : Input :=
  {| value := letter; readOnly := readOnly i |}.

Definition setReadOnly (i : Input) : Input :=
  {| value := value i; readOnly := true |}.

(** [setLetter]: nothing happens without a cell or on a black cell;
    otherwise the value of the input is overwritten. *)
Definition setLetter (r c : Z) (letter : string) (cells : list (list Cell))
  : list (list Cell) :=
  match getCell cells r c with
  | None => cells
  | Some cell =>
      if isBlack cell then cells
      else alter2 (setInput (setValue letter)) r c cells
  end.

(** [lockCell]: [if (cell?.input) cell.input.readOnly = true] *)
Definition lockCell (r c : Z) (cells : list (list Cell)) : list (list Cell) :=
  alter2 (setInput setReadOnly) r c cells.

Definition isLocked (cells : list (list Cell)) (r c : Z) : bool :=
  match getCell cells r c with
  | Some cell => match input cell with Some i => readOnly i | None => false end
  | None => false
  end.

Definition addClass (k : CellClass) (cell : Cell) : Cell :=
  {| isBlack := isBlack cell; cnumber := cnumber cell; input := input cell;
     classList := if bool_decide (k ∈ classList cell) then classList cell
                  else classList cell ++ [k] |}.

Definition removeClass (k : CellClass) (cell : Cell) : Cell :=
  {| isBlack := isBlack cell; cnumber := cnumber cell; input := input cell;
     classList := filter (fun k' => k' ≠ k) (classList cell) |}.

(** [setCellClass(row, col, className)] with [add = true] *)
Definition setCellClass (r c : Z) (k : CellClass) (cells : list (list Cell))
  : list (list Cell) :=
  alter2 (addClass k) r c cells.

(** ** Solving state (game.js) and the session *)

Record GameState := {
  st_level : string;
  st_date : string;
  grid : gmap Coord string;            (* 'row_col' -> letter *)
  revealed : gset Coord;               (* 'row_col' -> true *)
  correctWords : list nat;
  startTime : option Z;
  elapsed : Z;
  completed : bool;
  completedAt : option Z;
  hintsUsed : nat
}.

(** Calls that leave the grid and the game: the callbacks handed to
    [createGrid] and [createGame], and the calls into storage.js. *)
Inductive Effect :=
| CellSelect (r c : Z) (d : Direction) (w : option nat)   (* onCellSelect *)
| TimerStart                                               (* onTimerStart *)
| TimerRestore (secs : Z) (start : option Z)               (* onTimerRestore *)
| WordCorrect (idx : nat) (animate : bool)                 (* onWordCorrect *)
| ScheduleSave                                             (* scheduleSave *)
| SaveProgress (snapshot : GameState)                      (* saveProgress *)
| StatsUpdate (secs : Z) (hints : nat)      (* updateStatsOnComplete returned *)
| Complete (snapshot : GameState).                         (* onComplete *)

Record Session := {
  cells : list (list Cell);
  activeRow : Z;
  activeCol : Z;
  activeDirection : Direction;
  game : GameState;
  log : list Effect
}.

Definition withCells (f : list (list Cell) -> list (list Cell)) (s : Session)
  : Session :=
  {| cells := f (cells s); activeRow := activeRow s; activeCol := activeCol s;
     activeDirection := activeDirection s; game := game s; log := log s |}.

Definition withGame (f : GameState -> GameState) (s : Session) : Session :=
  {| cells := cells s; activeRow := activeRow s; activeCol := activeCol s;
     activeDirection := activeDirection s; game := f (game s); log := log s |}.

Definition withDirection (d : Direction) (s : Session) : Session :=
  {| cells := cells s; activeRow := activeRow s; activeCol := activeCol s;
     activeDirection := d; game := game s; log := log s |}.

Definition emit (e : Effect) (s : Session) : Session :=
  {| cells := cells s; activeRow := activeRow s; activeCol := activeCol s;
     activeDirection := activeDirection s; game := game s;
     log := log s ++ [e] |}.

Definition isComplete (e : Effect) : bool :=
  match e with Complete _ => true | _ => false end.
Definition isStatsUpdate (e : Effect) : bool :=
  match e with StatsUpdate _ _ => true | _ => false end.
Definition isSaveProgress (e : Effect) : bool :=
  match e with SaveProgress _ => true | _ => false end.
Definition isTimerStart (e : Effect) : bool :=
  match e with TimerStart => true | _ => false end.
Definition isWordCorrect (idx : nat) (e : Effect) : bool :=
  match e with WordCorrect i _ => bool_decide (i = idx) | _ => false end.

(** Number of effects of one kind in a trace. *)
Definition occurrences (f : Effect -> bool) (l : list Effect) : nat :=
  length (List.filter f l).

(** JavaScript [!state.startTime]: [null] and [0] are falsy. *)
Definition falsyTime (t : option Z) : bool :=
  match t with None => true | Some z => (z =? 0)%Z end.

(** [findIndex]: the position of the first match, or -1. *)
Fixpoint findIndexFrom {A : Type} (f : A -> bool) (l : list A) (i : Z) : Z :=
  match l with
  | [] => (-1)%Z
  | x :: l' => if f x then i else findIndexFrom f l' (i + 1)%Z
  end.

Definition findIndex {A : Type} (f : A -> bool) (l : list A) : Z :=
  findIndexFrom f l 0%Z.

(** Keys of a [keydown] event: the named keys of the [switch], and any other
    value of [e.key] (the space key is the string [" "]). *)
Inductive Key :=
| ArrowRight | ArrowLeft | ArrowDown | ArrowUp
| Tab (shiftKey : bool) | Enter | Backspace | Delete
| KeyText (key : string).

(** The string functions of the platform used on typed text:
    [isLetterKey k] is [k.length === 1 && /[a-zA-Z\u00C0-\u00FF]/.test(k)],
    [normalizeUpper t] is
    [t.normalize('NFD').replace(/[\u0300-\u036f]/g, '').toUpperCase()],
    [lastChar v] is [v.slice(-1)]. *)
Class TextLib := {
  isLetterKey : string -> bool;
  normalizeUpper : string -> string;
  lastChar : string -> string
}.

(** [updateStatsOnComplete] reads the statistics with [loadStats], whose
    [JSON.parse] is not guarded, and updates the fields of what it read:
    the call throws when the text stored under the statistics key is not
    JSON or is not a statistics record, and it returns (after [saveStats])
    otherwise.  A session calls it at most once, so that one flag tells
    what the call does. *)
Class StatsEntry := { statsUpdatable : bool }.

(** A call returns, or it throws; the session is left in a state in both
    cases.  Nothing in the player catches an exception: it leaves the
    functions on the stack one after the other, and then the listener. *)
Inductive Result := Done (s : Session) | Threw (s : Session).

Definition after (r : Result) : Session :=
  match r with Done s | Threw s => s end.

Definition threw (r : Result) : bool :=
  match r with Done _ => false | Threw _ => true end.

(** The statements after a call run when the call has returned. *)
Definition andThen (r : Result) (f : Session -> Result) : Result :=
  match r with Done s => f s | Threw s => Threw s end.

(** The same at the end of a listener, where the exception is dropped. *)
Definition finish (r : Result) (f : Session -> Session) : Session :=
  match r with Done s => f s | Threw s => s end.

Section Player.
Variable p : PuzzleData.

(** *** Highlighting and the active cell *)

Definition clearHighlights (cs : list (list Cell)) : list (list Cell) :=
  (fun line : list Cell =>
     (fun cell => if isBlack cell then cell
                  else removeClass Highlighted (removeClass Active cell))
       <$> line) <$> cs.

Definition highlightWord (wordIdx : option nat) (cs : list (list Cell))
  : list (list Cell) :=
  match wordIdx ≫= fun i => words p !! i with
  | None => cs
  | Some word =>
      fold_left (fun m rc => alter2 (addClass Highlighted) rc.1 rc.2 m)
                (wcells word) cs
  end.

(** [setActiveCell(row, col, dir)]; [dir = None] is a call without the
    third argument.  The call [input.focus()] is left out: the focus event
    it raises runs [handleCellFocus] on the cell that is already active,
    which does nothing. *)
Definition setActiveCell (row col : Z) (dir : option Direction)
    (s : Session) : Session :=
  let d0 := default (activeDirection s) dir in
  let cw := at2 (cellToWords p) row col in
  let d1 := match cw with
            | Some w => match cwDir w d0 with
                        | None => flip d0
                        | Some _ => d0
                        end
            | None => d0
            end in
  let wordIdx := cw ≫= fun w => cwDir w d1 in
  {| cells := highlightWord wordIdx
                (alter2 (addClass Active) row col (clearHighlights (cells s)));
     activeRow := row;
     activeCol := col;
     activeDirection := d1;
     game := game s;
     log := log s ++ [CellSelect row col d1 wordIdx] |}.

Definition getActiveWord (s : Session) : option Word :=
  if (activeRow s <? 0)%Z then None
  else wordIdxAt p (activeRow s) (activeCol s) (activeDirection s)
         ≫= fun i => words p !! i.

Definition toggleDirection (s : Session) : Session :=
  let other := flip (activeDirection s) in
  match wordIdxAt p (activeRow s) (activeCol s) other with
  | Some _ =>
      setActiveCell (activeRow s) (activeCol s) None (withDirection other s)
  | None => s
  end.

Definition isActive (s : Session) (rc : Coord) : bool :=
  bool_decide (rc.1 = activeRow s) && bool_decide (rc.2 = activeCol s).

Definition moveToNextCell (s : Session) : Session :=
  match getActiveWord s with
  | None => s
  | Some word =>
      let idx := findIndex (isActive s) (wcells word) in
      if (idx <? Z.of_nat (length (wcells word)) - 1)%Z then
        match at_ (wcells word) (idx + 1) with
        | Some next => setActiveCell next.1 next.2 None s
        | None => s
        end
      else s
  end.

Definition moveToPrevCell (s : Session) : Session :=
  match getActiveWord s with
  | None => s
  | Some word =>
      let idx := findIndex (isActive s) (wcells word) in
      if (0 <? idx)%Z then
        match at_ (wcells word) (idx - 1) with
        | Some prev => setActiveCell prev.1 prev.2 None s
        | None => s
        end
      else s
  end.

(** [!cells[c.row][c.col].input?.value] *)
Definition isEmptyCell (cs : list (list Cell)) (rc : Coord) : bool :=
  bool_decide (getLetter cs rc.1 rc.2 = "").

(** The first empty cell of a word, or its first cell; nothing for a word
    without cells. *)
Definition entryCell (cs : list (list Cell)) (word : Word) : option Coord :=
  match List.find (isEmptyCell cs) (wcells word) with
  | Some firstEmpty => Some firstEmpty
  | None => head (wcells word)
  end.

Definition moveToNextWord (reverse : bool) (s : Session) : Session :=
  match wordIdxAt p (activeRow s) (activeCol s) (activeDirection s) with
  | None => s
  | Some currentWordIdx =>
      let sameDir :=
        List.filter (fun w => bool_decide (direction w = activeDirection s))
                    (words p) in
      let curPos :=
        findIndex (fun w => bool_decide (id w = currentWordIdx)) sameDir in
      let n := Z.of_nat (length sameDir) in
      let nextPos :=
        if reverse
        then (if (0 <? curPos)%Z then curPos - 1 else n - 1)%Z
        else (if (curPos <? n - 1)%Z then curPos + 1 else 0)%Z in
      match at_ sameDir nextPos with
      | None => s
      | Some nextWord =>
          match entryCell (cells s) nextWord with
          | Some target =>
              setActiveCell target.1 target.2 (Some (direction nextWord)) s
          | None => s
          end
      end
  end.

Definition inGrid (r c : Z) : bool :=
  ((0 <=? r) && (r <? height p) && (0 <=? c) && (c <? width p))%Z.

(** The scan of [moveArrow]; the number of iterations is bounded by
    [fuel]. *)
Fixpoint moveArrowFrom (fuel : nat) (dr dc r c : Z) (s : Session) : Session :=
  match fuel with
  | O => s
  | S fuel' =>
      if inGrid r c then
        match getCell (cells s) r c with
        | Some cell =>
            if isBlack cell
            then moveArrowFrom fuel' dr dc (r + dr)%Z (c + dc)%Z s
            else setActiveCell r c None s
        | None => s
        end
      else s
  end.

Definition moveArrow (dr dc : Z) (s : Session) : Session :=
  moveArrowFrom (S (walkFuel p)) dr dc
                (activeRow s + dr)%Z (activeCol s + dc)%Z s.

Definition handleCellFocus (row col : Z) (s : Session) : Session :=
  if bool_decide (activeRow s = row) && bool_decide (activeCol s = col)
  then s else setActiveCell row col None s.

(** The [click] listener of a cell. *)
Definition handleClick (row col : Z) (s : Session) : Session :=
  if bool_decide (activeRow s = row) && bool_decide (activeCol s = col)
  then toggleDirection s else s.

Definition isPlayableCell (cs : list (list Cell)) (rc : Coord) : bool :=
  match getCell cs rc.1 rc.2 with
  | Some cell => negb (isBlack cell)
  | None => false
  end.

(** The first cell, row by row, that is not black. *)
Definition focusFirstCell (s : Session) : Session :=
  match List.find (isPlayableCell (cells s)) (allCoords p) with
  | Some rc => setActiveCell rc.1 rc.2 (Some across) s
  | None => s
  end.

Definition selectWord (wordIdx : nat) (s : Session) : Session :=
  match words p !! wordIdx with
  | None => s
  | Some word =>
      match entryCell (cells s) word with
      | Some target =>
          setActiveCell target.1 target.2 (Some (direction word)) s
      | None => s
      end
  end.

(** *** Word validation and completion *)

Definition markWordCorrect (wordIdx : nat) (animate : bool) (s : Session)
  : Session :=
  match words p !! wordIdx with
  | None => s
  | Some word =>
      emit (WordCorrect wordIdx animate)
        (withCells
           (fun cs =>
              fold_left
                (fun m rc => lockCell rc.1 rc.2 (setCellClass rc.1 rc.2 Correct m))
                (wcells word) cs) s)
  end.

Definition completeNow (now : Z) (g : GameState) : GameState :=
  {| st_level := st_level g; st_date := st_date g; grid := grid g;
     revealed := revealed g; correctWords := correctWords g;
     startTime := startTime g; elapsed := elapsed g;
     completed := true; completedAt := Some now; hintsUsed := hintsUsed g |}.

Context {stats : StatsEntry}.

(** The functions of the game are given twice: [checkCompletionE] and the
    like tell whether the call returned, and [checkCompletion] and the like
    are the session after the call. *)
Definition checkCompletionE (now : Z) (s : Session) : Result :=
  if completed (game s) then Done s
  else if bool_decide (length (correctWords (game s)) = length (words p)) then
    let s1 := withGame (completeNow now) s in
    let s2 := emit (SaveProgress (game s1)) s1 in
    if statsUpdatable then
      Done (emit (Complete (game s1))
              (emit (StatsUpdate (elapsed (game s1)) (hintsUsed (game s1))) s2))
    else Threw s2
  else Done s.

Definition checkCompletion (now : Z) (s : Session) : Session :=
  after (checkCompletionE now s).

Definition pushCorrect (wordIdx : nat) (g : GameState) : GameState :=
  {| st_level := st_level g; st_date := st_date g; grid := grid g;
     revealed := revealed g; correctWords := correctWords g ++ [wordIdx];
     startTime := startTime g; elapsed := elapsed g;
     completed := completed g; completedAt := completedAt g;
     hintsUsed := hintsUsed g |}.

Definition allFilled (cs : list (list Cell)) (word : Word) : bool :=
  forallb (fun rc => negb (bool_decide (getLetter cs rc.1 rc.2 = "")))
          (wcells word).

Definition allCorrect (cs : list (list Cell)) (word : Word) : bool :=
  forallb (fun rc => bool_decide (getLetter cs rc.1 rc.2 = solutionAt p rc.1 rc.2))
          (wcells word).

Definition checkWordE (now : Z) (wordIdx : nat) (s : Session) : Result :=
  if bool_decide (wordIdx ∈ correctWords (game s)) then Done s
  else match words p !! wordIdx with
       | None => Done s
       | Some word =>
           if negb (allFilled (cells s) word) then Done s
           else if allCorrect (cells s) word then
             checkCompletionE now
               (markWordCorrect wordIdx true (withGame (pushCorrect wordIdx) s))
           else Done s
       end.

Definition checkWord (now : Z) (wordIdx : nat) (s : Session) : Session :=
  after (checkWordE now wordIdx s).

(** [if (cw) { if (cw.across != null) ...; if (cw.down != null) ... }] *)
Definition checkWordsAtE (now : Z) (row col : Z) (s : Session) : Result :=
  match at2 (cellToWords p) row col with
  | None => Done s
  | Some cw =>
      andThen (match cw_across cw with
               | Some i => checkWordE now i s
               | None => Done s
               end)
        (fun s1 => match cw_down cw with
                   | Some i => checkWordE now i s1
                   | None => Done s1
                   end)
  end.

Definition checkWordsAt (now : Z) (row col : Z) (s : Session) : Session :=
  after (checkWordsAtE now row col s).

(** *** Letter input *)

Definition setStartTime (now : Z) (g : GameState) : GameState :=
  {| st_level := st_level g; st_date := st_date g; grid := grid g;
     revealed := revealed g; correctWords := correctWords g;
     startTime := Some now; elapsed := elapsed g;
     completed := completed g; completedAt := completedAt g;
     hintsUsed := hintsUsed g |}.

Definition withGridMap (f : gmap Coord string -> gmap Coord string)
    (g : GameState) : GameState :=
  {| st_level := st_level g; st_date := st_date g; grid := f (grid g);
     revealed := revealed g; correctWords := correctWords g;
     startTime := startTime g; elapsed := elapsed g;
     completed := completed g; completedAt := completedAt g;
     hintsUsed := hintsUsed g |}.

Definition onLetterInputE (now : Z) (row col : Z) (letter : string)
    (s : Session) : Result :=
  let s1 := if falsyTime (startTime (game s))
            then emit TimerStart (withGame (setStartTime now) s)
            else s in
  let s2 := if bool_decide (letter = "")
            then withGame (withGridMap (delete (row, col))) s1
            else withGame (withGridMap <[(row, col) := letter]>) s1 in
  andThen (checkWordsAtE now row col s2) (fun s3 => Done (emit ScheduleSave s3)).

Definition onLetterInput (now : Z) (row col : Z) (letter : string)
    (s : Session) : Session :=
  after (onLetterInputE now row col letter s).

(** *** Hints *)

(** [state.revealed[key] = true; state.hintsUsed++] *)
Definition markRevealed (key : Coord) (g : GameState) : GameState :=
  {| st_level := st_level g; st_date := st_date g; grid := grid g;
     revealed := {[key]} ∪ revealed g; correctWords := correctWords g;
     startTime := startTime g; elapsed := elapsed g;
     completed := completed g; completedAt := completedAt g;
     hintsUsed := S (hintsUsed g) |}.

Definition revealLetter (now : Z) (s : Session) : Session :=
  let row := activeRow s in
  let col := activeCol s in
  if ((row <? 0) || (col <? 0))%Z then s
  else match getCell (cells s) row col with
       | None => s
       | Some cell =>
           if isBlack cell then s
           else if isLocked (cells s) row col then s
           else
             let letter := solutionAt p row col in
             if bool_decide (letter = "") || bool_decide (letter = "#") then s
             else
               let s1 := withCells (setLetter row col letter) s in
               let s2 := withGame (withGridMap <[(row, col) := letter]>) s1 in
               let s3 := withGame (markRevealed (row, col)) s2 in
               let s4 := withCells (setCellClass row col Revealed) s3 in
               finish (checkWordsAtE now row col s4) (emit ScheduleSave)
       end.

(** The body shared by the loops of [revealWord] and [revealAll], after
    their [continue] tests. *)
Definition revealCell (s : Session) (rc : Coord) : Session :=
  let letter := solutionAt p rc.1 rc.2 in
  let s1 := withCells (setLetter rc.1 rc.2 letter) s in
  let s2 := withGame (withGridMap <[rc := letter]>) s1 in
  let s3 := if bool_decide (rc ∈ revealed (game s2)) then s2
            else withGame (markRevealed rc) s2 in
  withCells (setCellClass rc.1 rc.2 Revealed) s3.

Definition revealWordCell (s : Session) (rc : Coord) : Session :=
  if isLocked (cells s) rc.1 rc.2 then s else revealCell s rc.

Definition revealWord (now : Z) (s : Session) : Session :=
  match getActiveWord s with
  | None => s
  | Some word =>
      if bool_decide (id word ∈ correctWords (game s)) then s
      else
        finish
          (checkWordE now (id word) (fold_left revealWordCell (wcells word) s))
          (emit ScheduleSave)
  end.

Definition revealAllCell (s : Session) (rc : Coord) : Session :=
  match getCell (cells s) rc.1 rc.2 with
  | None => s
  | Some cell =>
      if isBlack cell || isLocked (cells s) rc.1 rc.2 then s
      else revealCell s rc
  end.

(** The last loop of [revealAll], which an exception leaves. *)
Fixpoint checkOpenWords (now : Z) (l : list nat) (s : Session) : Result :=
  match l with
  | [] => Done s
  | i :: l' =>
      andThen (if bool_decide (i ∈ correctWords (game s))
               then Done s else checkWordE now i s)
              (checkOpenWords now l')
  end.

Definition revealAll (now : Z) (s : Session) : Session :=
  let s1 := fold_left revealAllCell (allCoords p) s in
  finish (checkOpenWords now (seq 0 (length (words p))) s1) (emit ScheduleSave).

Definition updateElapsed (seconds : Z) (s : Session) : Session :=
  withGame
    (fun g =>
       {| st_level := st_level g; st_date := st_date g; grid := grid g;
          revealed := revealed g; correctWords := correctWords g;
          startTime := startTime g; elapsed := seconds;
          completed := completed g; completedAt := completedAt g;
          hintsUsed := hintsUsed g |}) s.

(** *** Construction and restore *)

Definition initialState : GameState :=
  {| st_level := level p; st_date := date p; grid := ∅; revealed := ∅;
     correctWords := []; startTime := None; elapsed := 0%Z;
     completed := false; completedAt := None; hintsUsed := 0 |}.

(** The grid as [createGrid] leaves it, next to the state literal of
    [createGame]. *)
Definition createGrid : Session :=
  {| cells := render p; activeRow := (-1)%Z; activeCol := (-1)%Z;
     activeDirection := across; game := initialState; log := [] |}.

(** [loadSaved]; [saved] is what [loadProgress(level, date)] returned, a
    record written earlier by [saveProgress] ([None] for [null]).  The
    letters are written back in the order of the keys of the map, which
    does not matter as the keys are distinct. *)
Definition loadSaved (saved : option GameState) (s : Session) : Session :=
  match saved with
  | None => s
  | Some sv =>
      let s0 := withGame (fun _ => sv) s in
      let s1 :=
        withCells
          (fun cs => fold_left (fun m kv => setLetter kv.1.1 kv.1.2 kv.2 m)
                               (map_to_list (grid sv)) cs) s0 in
      let s2 :=
        withCells
          (fun cs => fold_left (fun m rc => setCellClass rc.1 rc.2 Revealed m)
                               (elements (revealed sv)) cs) s1 in
      let s3 :=
        fold_left (fun s' i => markWordCorrect i false s')
                  (correctWords sv) s2 in
      emit (TimerRestore (elapsed sv) (startTime sv)) s3
  end.

(** [createGame(grid, puzzleData, callbacks)] ends with [loadSaved()]. *)
Definition createGame (saved : option GameState) : Session :=
  loadSaved saved createGrid.

(** [initPuzzle]: [createGrid], [createGame], [grid.focusFirstCell()]. *)
Definition initPuzzle (saved : option GameState) : Session :=
  focusFirstCell (createGame saved).

(** *** Keyboard and text input *)

Context {text : TextLib}.

Definition hasValue (s : Session) (row col : Z) : bool :=
  negb (bool_decide (getLetter (cells s) row col = "")).

Definition handleKeyDown (now : Z) (key : Key) (row col : Z) (s : Session)
  : Session :=
  match key with
  | ArrowRight => moveArrow 0 1 s
  | ArrowLeft => moveArrow 0 (-1) s
  | ArrowDown => moveArrow 1 0 s
  | ArrowUp => moveArrow (-1) 0 s
  | Tab shiftKey => moveToNextWord shiftKey s
  | Enter => moveToNextWord false s
  | Backspace =>
      if hasValue s row col then
        onLetterInput now row col "" (withCells (setLetter row col "") s)
      else
        let s1 := moveToPrevCell s in
        if ((0 <=? activeRow s1) && (0 <=? activeCol s1))%Z then
          onLetterInput now (activeRow s1) (activeCol s1) ""
            (withCells (setLetter (activeRow s1) (activeCol s1) "") s1)
        else s1
  | Delete =>
      onLetterInput now row col "" (withCells (setLetter row col "") s)
  | KeyText k =>
      if bool_decide (k = " ") then toggleDirection s
      else if isLetterKey k then
        let letter := normalizeUpper k in
        finish
          (onLetterInputE now row col letter
             (withCells (setLetter row col letter) s))
          moveToNextCell
      else s
  end.

(** The [input] listener (virtual keyboards).  The event follows an edit
    of the field of the cell by the browser: [v] is the text the edit has
    left in the field, which the listener reads as [e.target.value]. *)
Definition handleInput (now : Z) (v : string) (row col : Z) (s : Session)
  : Session :=
  let s0 := withCells (setLetter row col v) s in
  if bool_decide (v = "") then s0
  else
    let letter := normalizeUpper (lastChar v) in
    let s1 := withCells (setLetter row col "") s0 in
    finish
      (onLetterInputE now row col letter
         (withCells (setLetter row col letter) s1))
      moveToNextCell.

(** *** The session as a state machine *)

Inductive Event :=
| EvFocus (row col : Z)
| EvClick (row col : Z)
| EvKeyDown (key : Key) (row col : Z)
| EvInput (v : string) (row col : Z)
| EvRevealLetter
| EvRevealWord
| EvRevealAll
| EvTick (seconds : Z)
| EvSelectWord (wordIdx : nat).

(** One event, handled at clock reading [now] ([Date.now()]). *)
Definition step (s : Session) (ev : Z * Event) : Session :=
  let now := ev.1 in
  match ev.2 with
  | EvFocus row col => handleCellFocus row col s
  | EvClick row col => handleClick row col s
  | EvKeyDown key row col => handleKeyDown now key row col s
  | EvInput v row col => handleInput now v row col s
  | EvRevealLetter => revealLetter now s
  | EvRevealWord => revealWord now s
  | EvRevealAll => revealAll now s
  | EvTick seconds => updateElapsed seconds s
  | EvSelectWord wordIdx => selectWord wordIdx s
  end.

Definition run (evs : list (Z * Event)) (s : Session) : Session :=
  fold_left step evs s.

(** The listeners of a cell exist for the playable cells of the grid only,
    and the clock never reads 0 (the epoch itself). *)
Definition playableAt (row col : Z) : bool := isPlayable p row col.

Definition validEvent (ev : Z * Event) : bool :=
  negb (ev.1 =? 0)%Z &&
  match ev.2 with
  | EvFocus row col | EvClick row col
  | EvKeyDown _ row col | EvInput _ row col => playableAt row col
  | _ => true
  end.
End Player.

(** ** The text functions on ASCII

    An instance of [TextLib] that agrees with the browser on ASCII text: a
    key is a letter key when it is one of a-z or A-Z, upper-casing maps a-z
    to A-Z and there are no diacritics to remove.  It is used to run the
    session on examples. *)

Definition asciiUpperChar (c : ascii) : ascii :=
  let n := N_of_ascii c in
  if ((97 <=? n) && (n <=? 122))%N then ascii_of_N (n - 32) else c.

Fixpoint asciiUpper (t : string) : string :=
  match t with
  | EmptyString => EmptyString
  | String c t' => String (asciiUpperChar c) (asciiUpper t')
  end.

Definition asciiIsLetter (c : ascii) : bool :=
  let n := N_of_ascii c in
  (((65 <=? n) && (n <=? 90)) || ((97 <=? n) && (n <=? 122)))%N.

Definition asciiIsLetterKey (k : string) : bool :=
  match k with
  | String c EmptyString => asciiIsLetter c
  | _ => false
  end.

Fixpoint asciiLastChar (v : string) : string :=
  match v with
  | EmptyString => EmptyString
  | String c EmptyString => String c EmptyString
  | String _ v' => asciiLastChar v'
  end.

Definition asciiText : TextLib :=
  {| isLetterKey := asciiIsLetterKey;
     normalizeUpper := asciiUpper;
     lastChar := asciiLastChar |}.

(** ** Persistence (storage.js) *)

Module Storage.

(** *** JSON text *)

#[warnings="-register-all"]
Inductive Json :=
| JNull
| JBool (b : bool)
| JNumber (lexeme : string)
| JString (text : string)
| JArray (items : list Json)
| JObject (members : list (string * Json)).

Inductive Token :=
| TLBrace | TRBrace | TLBracket | TRBracket | TColon | TComma
| TString (text : string) | TNumber (lexeme : string)
| TTrue | TFalse | TNull.

(** Where a number is, following the JSON grammar: an optional minus, then
    0 or a nonzero digit followed by digits, then optionally a point and
    digits, then optionally e or E, an optional sign and digits. *)
Inductive NumPhase :=
| NMinus | NZero | NInt | NDot | NFrac | NExp | NExpSign | NExpDigits.

Inductive LexState :=
| LIdle
| LStr (acc : list ascii)                    (* inside a string *)
| LStrEsc (acc : list ascii)                 (* after a backslash *)
| LStrHex (remaining : nat) (acc : list ascii)    (* inside \uXXXX *)
| LNum (ph : NumPhase) (acc : list ascii)
| LLit (rest : list ascii) (tok : Token).    (* inside true, false, null *)

Definition code (c : ascii) : N := N_of_ascii c.

(** The double quote that delimits a JSON string. *)
Definition quoteChar : ascii := ascii_of_N 34.

Definition isWhitespace (c : ascii) : bool :=
  let n := code c in
  ((n =? 9) || (n =? 10) || (n =? 13) || (n =? 32))%N.

Definition isDigit (c : ascii) : bool :=
  let n := code c in ((48 <=? n) && (n <=? 57))%N.

Definition isDigit19 (c : ascii) : bool :=
  let n := code c in ((49 <=? n) && (n <=? 57))%N.

Definition isHex (c : ascii) : bool :=
  let n := code c in
  (((48 <=? n) && (n <=? 57)) || ((65 <=? n) && (n <=? 70))
   || ((97 <=? n) && (n <=? 102)))%N.

Definition isControl (c : ascii) : bool := (code c <? 32)%N.

Definition text_of (acc : list ascii) : string :=
  string_of_list_ascii (rev acc).

Definition numAccepting (ph : NumPhase) : bool :=
  match ph with
  | NZero | NInt | NFrac | NExpDigits => true
  | _ => false
  end.

(** A character read outside of any token. *)
Definition lexIdle (c : ascii) : option (list Token * LexState) :=
  if isWhitespace c then Some ([], LIdle)
  else if Ascii.eqb c "{" then Some ([TLBrace], LIdle)
  else if Ascii.eqb c "}" then Some ([TRBrace], LIdle)
  else if Ascii.eqb c "[" then Some ([TLBracket], LIdle)
  else if Ascii.eqb c "]" then Some ([TRBracket], LIdle)
  else if Ascii.eqb c ":" then Some ([TColon], LIdle)
  else if Ascii.eqb c "," then Some ([TComma], LIdle)
  else if Ascii.eqb c quoteChar then Some ([], LStr [])
  else if Ascii.eqb c "-" then Some ([], LNum NMinus [c])
  else if Ascii.eqb c "0" then Some ([], LNum NZero [c])
  else if isDigit19 c then Some ([], LNum NInt [c])
  else if Ascii.eqb c "t" then
    Some ([], LLit (list_ascii_of_string "rue") TTrue)
  else if Ascii.eqb c "f" then
    Some ([], LLit (list_ascii_of_string "alse") TFalse)
  else if Ascii.eqb c "n" then
    Some ([], LLit (list_ascii_of_string "ull") TNull)
  else None.

(** The next phase of a number on one more character, if it continues. *)
Definition numNext (ph : NumPhase) (c : ascii) : option NumPhase :=
  let isE := Ascii.eqb c "e" || Ascii.eqb c "E" in
  let isSign := Ascii.eqb c "+" || Ascii.eqb c "-" in
  match ph with
  | NMinus => if Ascii.eqb c "0" then Some NZero
              else if isDigit19 c then Some NInt else None
  | NZero => if Ascii.eqb c "." then Some NDot
             else if isE then Some NExp else None
  | NInt => if isDigit c then Some NInt
            else if Ascii.eqb c "." then Some NDot
            else if isE then Some NExp else None
  | NDot => if isDigit c then Some NFrac else None
  | NFrac => if isDigit c then Some NFrac
             else if isE then Some NExp else None
  | NExp => if isDigit c then Some NExpDigits
            else if isSign then Some NExpSign else None
  | NExpSign => if isDigit c then Some NExpDigits else None
  | NExpDigits => if isDigit c then Some NExpDigits else None
  end.

(** One character: the tokens completed by it and the next state, or
    [None] on a character that the grammar does not allow there. *)
Definition lexStep (st : LexState) (c : ascii)
  : option (list Token * LexState) :=
  match st with
  | LIdle => lexIdle c
  | LStr acc =>
      if Ascii.eqb c quoteChar then Some ([TString (text_of acc)], LIdle)
      else if Ascii.eqb c "\" then Some ([], LStrEsc (c :: acc))
      else if isControl c then None
      else Some ([], LStr (c :: acc))
  | LStrEsc acc =>
      if Ascii.eqb c "u" then Some ([], LStrHex 4 (c :: acc))
      else if Ascii.eqb c quoteChar || Ascii.eqb c "\" || Ascii.eqb c "/"
              || Ascii.eqb c "b" || Ascii.eqb c "f" || Ascii.eqb c "n"
              || Ascii.eqb c "r" || Ascii.eqb c "t"
      then Some ([], LStr (c :: acc))
      else None
  | LStrHex remaining acc =>
      if isHex c then
        match remaining with
        | 0 | 1 => Some ([], LStr (c :: acc))
        | S remaining' => Some ([], LStrHex remaining' (c :: acc))
        end
      else None
  | LNum ph acc =>
      match numNext ph c with
      | Some ph' => Some ([], LNum ph' (c :: acc))
      | None =>
          if numAccepting ph then
            match lexIdle c with
            | Some (toks, st') => Some (TNumber (text_of acc) :: toks, st')
            | None => None
            end
          else None
      end
  | LLit rest tok =>
      match rest with
      | [] => None
      | x :: rest' =>
          if Ascii.eqb c x then
            match rest' with
            | [] => Some ([tok], LIdle)
            | _ => Some ([], LLit rest' tok)
            end
          else None
      end
  end.

Fixpoint lexFrom (st : LexState) (l : list ascii) : option (list Token) :=
  match l with
  | [] =>
      match st with
      | LIdle => Some []
      | LNum ph acc =>
          if numAccepting ph then Some [TNumber (text_of acc)] else None
      | _ => None
      end
  | c :: l' =>
      match lexStep st c with
      | None => None
      | Some (toks, st') =>
          match lexFrom st' l' with
          | None => None
          | Some more => Some (toks ++ more)
          end
      end
  end.

(** Containers under construction, innermost first; items and members are
    kept in reverse. *)
Inductive Frame :=
| FArr (items : list Json)
| FObj (members : list (string * Json))
| FObjKey (members : list (string * Json)) (key : string).

Inductive Mode :=
| MValue                (* a value must follow *)
| MArrStart             (* after the opening bracket: a value or the closing one *)
| MArrNext              (* after an item: a comma or the closing bracket *)
| MObjStart             (* after the opening brace: a key or the closing one *)
| MKey                  (* after a comma in an object: a key *)
| MColon (key : string) (* after a key: the colon *)
| MObjNext              (* after a member: a comma or the closing brace *)
| MDone (v : Json).     (* the whole value has been read *)

(** A finished value goes into the innermost open container. *)
Definition attach (v : Json) (stack : list Frame) : option (list Frame * Mode) :=
  match stack with
  | [] => Some ([], MDone v)
  | FArr items :: stack' => Some (FArr (v :: items) :: stack', MArrNext)
  | FObjKey members key :: stack' =>
      Some (FObj ((key, v) :: members) :: stack', MObjNext)
  | FObj _ :: _ => None
  end.

Definition startValue (t : Token) (stack : list Frame)
  : option (list Frame * Mode) :=
  match t with
  | TLBracket => Some (FArr [] :: stack, MArrStart)
  | TLBrace => Some (FObj [] :: stack, MObjStart)
  | TString text => attach (JString text) stack
  | TNumber lexeme => attach (JNumber lexeme) stack
  | TTrue => attach (JBool true) stack
  | TFalse => attach (JBool false) stack
  | TNull => attach JNull stack
  | _ => None
  end.

Definition closeArray (stack : list Frame) : option (list Frame * Mode) :=
  match stack with
  | FArr items :: stack' => attach (JArray (rev items)) stack'
  | _ => None
  end.

Definition closeObject (stack : list Frame) : option (list Frame * Mode) :=
  match stack with
  | FObj members :: stack' => attach (JObject (rev members)) stack'
  | _ => None
  end.

Definition parseStep (st : list Frame * Mode) (t : Token)
  : option (list Frame * Mode) :=
  let (stack, mode) := st in
  match mode, t with
  | MValue, _ => startValue t stack
  | MArrStart, TRBracket => closeArray stack
  | MArrStart, _ => startValue t stack
  | MArrNext, TComma => Some (stack, MValue)
  | MArrNext, TRBracket => closeArray stack
  | MObjStart, TRBrace => closeObject stack
  | MObjStart, TString key => Some (stack, MColon key)
  | MKey, TString key => Some (stack, MColon key)
  | MColon key, TColon =>
      match stack with
      | FObj members :: stack' => Some (FObjKey members key :: stack', MValue)
      | _ => None
      end
  | MObjNext, TComma => Some (stack, MKey)
  | MObjNext, TRBrace => closeObject stack
  | _, _ => None
  end.

Fixpoint parseFrom (st : list Frame * Mode) (ts : list Token) : option Json :=
  match ts with
  | [] => match st with ([], MDone v) => Some v | _ => None end
  | t :: ts' =>
      match parseStep st t with
      | None => None
      | Some st' => parseFrom st' ts'
      end
  end.

(** [JSON.parse(text)]: the value, or [None] where it throws a
    SyntaxError.  Escapes inside strings are checked and kept as written;
    numbers are kept as their text. *)
Definition JSON_parse (text : string) : option Json :=
  match lexFrom LIdle (list_ascii_of_string text) with
  | None => None
  | Some ts => parseFrom ([], MValue) ts
  end.

(** *** localStorage *)

Inductive Exception := SyntaxError.

(** What a call does: it returns a value or throws. *)
Inductive Outcome (A : Type) :=
| Returned (a : A)
| Thrown (e : Exception).
Arguments Returned {A} a.
Arguments Thrown {A} e.

Definition PREFIX : string := "crosswords_".

Definition progressKey (lvl dt : string) : string :=
  PREFIX +:+ "progress_" +:+ lvl +:+ "_" +:+ dt.

Definition statsKey : string := PREFIX +:+ "stats".

(** [data ? JSON.parse(data) : alt]: [getItem] gives [null] for a missing
    key, and the empty string is falsy as well. *)
Definition parseOr {A : Type} (data : option string) (alt : A)
    (wrap : Json -> A) : Outcome A :=
  match data with
  | None => Returned alt
  | Some text =>
      if bool_decide (text = "") then Returned alt
      else match JSON_parse text with
           | Some v => Returned (wrap v)
           | None => Thrown SyntaxError
           end
  end.

(** [loadProgress]: [None] is the [null] it returns. *)
Definition loadProgress (localStorage : gmap string string)
    (lvl dt : string) : Outcome (option Json) :=
  parseOr (localStorage !! progressKey lvl dt) None Some.

Definition defaultStatsJson : Json :=
  JObject [("totalCompleted", JNumber "0");
           ("totalTime", JNumber "0");
           ("bestTime", JObject []);
           ("streak", JObject [("current", JNumber "0"); ("best", JNumber "0")]);
           ("history", JArray []);
           ("lastPlayed", JNull)].

Definition loadStats (localStorage : gmap string string) : Outcome Json :=
  parseOr (localStorage !! statsKey) defaultStatsJson (fun v => v).

(** *** Statistics *)

(** A date in the form YYYY-MM-DD, as [toISOString] writes it. *)
Record IsoDate := { year : Z; month : Z; day : Z }.

Definition isLeap (y : Z) : bool :=
  ((y mod 4 =? 0) && (negb (y mod 100 =? 0) || (y mod 400 =? 0)))%Z.

Definition daysInMonth (y m : Z) : Z :=
  if (m =? 2)%Z then (if isLeap y then 29 else 28)%Z
  else if ((m =? 4) || (m =? 6) || (m =? 9) || (m =? 11))%Z then 30%Z
  else 31%Z.

Definition validDate (d : IsoDate) : bool :=
  ((0 <=? year d) && (year d <=? 9999) && (1 <=? month d) && (month d <=? 12)
   && (1 <=? day d) && (day d <=? daysInMonth (year d) (month d)))%Z.

(** Days from 1970-01-01 to a date of the proleptic Gregorian calendar. *)
Definition epochDay (d : IsoDate) : Z :=
  let y := (if (month d <=? 2) then year d - 1 else year d)%Z in
  let era := (y / 400)%Z in
  let yoe := (y - era * 400)%Z in
  let mp := (if (2 <? month d) then month d - 3 else month d + 9)%Z in
  let doy := ((153 * mp + 2) / 5 + day d - 1)%Z in
  let doe := (yoe * 365 + yoe / 4 - yoe / 100 + doy)%Z in
  (era * 146097 + doe - 719468)%Z.

Definition msPerDay : Z := 86400000.

(** [new Date('YYYY-MM-DD')] as milliseconds since the epoch (UTC
    midnight); [None] is the Invalid Date, whose number is NaN. *)
Definition Date_parse (d : IsoDate) : option Z :=
  if validDate d then Some (epochDay d * msPerDay)%Z else None.

(** [Math.round(a / b)] for integers [a] and [b > 0]: halves go up. *)
Definition Math_round_div (a b : Z) : Z := ((2 * a + b) / (2 * b))%Z.

(** [Math.round((todayDate - lastDate) / 86400000)]; [None] is NaN. *)
Definition diffDays (lastPlayed today : IsoDate) : option Z :=
  match Date_parse lastPlayed, Date_parse today with
  | Some lastDate, Some todayDate =>
      Some (Math_round_div (todayDate - lastDate) msPerDay)
  | _, _ => None
  end.

Record HistoryEntry := {
  h_date : string;
  h_level : string;
  h_time : Z;
  h_hints : nat;
  h_noHints : bool
}.

Record Stats := {
  totalCompleted : Z;
  totalTime : Z;
  bestTime : gmap string Z;
  streakCurrent : Z;                 (* streak.current *)
  streakBest : Z;                    (* streak.best *)
  history : list HistoryEntry;
  lastPlayed : option IsoDate
}.

Definition defaultStats : Stats :=
  {| totalCompleted := 0; totalTime := 0; bestTime := ∅;
     streakCurrent := 0; streakBest := 0; history := [];
     lastPlayed := None |}.

(** The streak after the comparison of the dates. *)
Definition nextStreak (current : Z) (lastPlayed : option IsoDate)
    (today : IsoDate) : Z :=
  match lastPlayed with
  | Some lastP =>
      match diffDays lastP today with
      | Some d =>
          if (d =? 1)%Z then (current + 1)%Z
          else if (1 <? d)%Z then 1%Z
          else current
      | None => current
      end
  | None => 1%Z
  end.

(** The names that an object inherits from [Object.prototype].  Read on
    an object that has no property of its own under the name, they give a
    function (the prototype itself for [__proto__]): a value that is not
    falsy and that compares with a number as NaN does. *)
Definition inheritedNames : list string :=
  ["constructor"; "hasOwnProperty"; "isPrototypeOf"; "propertyIsEnumerable";
   "toLocaleString"; "toString"; "valueOf"; "__proto__";
   "__defineGetter__"; "__defineSetter__"; "__lookupGetter__";
   "__lookupSetter__"].

Definition inherited (name : string) : bool :=
  bool_decide (name ∈ inheritedNames).

(** [updateStatsOnComplete], on the record [stats] that [loadStats()]
    returned; [today] is [new Date().toISOString().split('T')[0]].  The
    result is the record that is saved and returned.  The map [bestTime]
    holds the own properties of the object [stats.bestTime]; for a level
    without an own property, [stats.bestTime[level]] is [undefined], or
    what the object inherits under that name, and then neither test of the
    [if] holds. *)
Definition updateStatsOnComplete (stats : Stats) (lvl dt : string)
    (secs : Z) (hints : nat) (today : IsoDate) : Stats :=
  let best :=
    match bestTime stats !! lvl with
    | Some b => if (b =? 0)%Z || (secs <? b)%Z
                then <[lvl := secs]> (bestTime stats) else bestTime stats
    | None => if inherited lvl then bestTime stats
              else <[lvl := secs]> (bestTime stats)
    end in
  let current := nextStreak (streakCurrent stats) (lastPlayed stats) today in
  let entry := {| h_date := dt; h_level := lvl; h_time := secs;
                  h_hints := hints; h_noHints := bool_decide (hints = 0) |} in
  let hist := entry :: history stats in
  {| totalCompleted := (totalCompleted stats + 1)%Z;
     totalTime := (totalTime stats + secs)%Z;
     bestTime := best;
     streakCurrent := current;
     streakBest := if (streakBest stats <? current)%Z then current
                   else streakBest stats;
     history := if (50 <? Z.of_nat (length hist))%Z then take 50 hist else hist;
     lastPlayed := Some today |}.

(** The calendar day after a date. *)
Definition nextDay (d : IsoDate) : IsoDate :=
  if (day d <? daysInMonth (year d) (month d))%Z
  then {| year := year d; month := month d; day := (day d + 1)%Z |}
  else if (month d <? 12)%Z
  then {| year := year d; month := (month d + 1)%Z; day := 1%Z |}
  else {| year := (year d + 1)%Z; month := 1%Z; day := 1%Z |}.

(** What is stored under a key cannot be used: there is nothing, or the
    text is not JSON. *)
Definition unreadable (data : option string) : Prop :=
  match data with
  | None => True
  | Some text => JSON_parse text = None
  end.

(** Loading never fails on missing or unreadable data. *)
Definition load_tolerant : Prop :=
  forall (localStorage : gmap string string) (lvl dt : string),
    (unreadable (localStorage !! progressKey lvl dt) ->
     loadProgress localStorage lvl dt = Returned None) /\
    (unreadable (localStorage !! statsKey) ->
     loadStats localStorage = Returned defaultStatsJson).

Definition corruptStore : gmap string string :=
  {[ statsKey := "{oops" ]}.

(** Statistics of a player who last played on 2024-02-28. *)
Definition feb28 : IsoDate := {| year := 2024; month := 2; day := 28 |}.
Definition feb29 : IsoDate := {| year := 2024; month := 2; day := 29 |}.

Definition mar2 : IsoDate := {| year := 2024; month := 3; day := 2 |}.

Definition streakStats : Stats :=
  {| totalCompleted := 4; totalTime := 1200; bestTime := ∅;
     streakCurrent := 4; streakBest := 6; history := [];
     lastPlayed := Some feb28 |}.

End Storage.

(** ** Notions used to state and prove the properties *)

(** *** Views of the grid of cells *)

(** What never changes in a cell: its kind, and whether it has an input. *)
Definition skeleton (cell : Cell) : bool * bool :=
  (isBlack cell, bool_decide (input cell = None)).

Definition gridMap {B : Type} (f : Cell -> B) (cs : list (list Cell))
  : list (list B) :=
  (fun line : list Cell => f <$> line) <$> cs.

Definition skel (cs : list (list Cell)) : list (list (bool * bool)) :=
  gridMap skeleton cs.

Definition cellCore (cell : Cell) : bool * option Input :=
  (isBlack cell, input cell).
Definition pValue (cell : Cell) : option string := value <$> input cell.
Definition pLock (cell : Cell) : option bool := readOnly <$> input cell.

Definition cores (cs : list (list Cell)) := gridMap cellCore cs.
Definition values (cs : list (list Cell)) := gridMap pValue cs.
Definition locks (cs : list (list Cell)) := gridMap pLock cs.

(** *** Words and the index *)

Definition labelStep (p : PuzzleData) (m : gmap Z Coord) (rc : Coord)
  : gmap Z Coord :=
  match puzzleAt p rc.1 rc.2 with
  | Num val => <[val := rc]> m
  | _ => m
  end.

Fixpoint advanceN (d : Direction) (k : nat) (rc : Coord) : Coord :=
  match k with O => rc | S k' => advanceN d k' (advance d rc) end.

(** Cells left before the edge of the grid, going in direction [d]. *)
Definition room (p : PuzzleData) (d : Direction) (rc : Coord) : nat :=
  match d with
  | across => Z.to_nat (width p - rc.2)
  | down => Z.to_nat (height p - rc.1)
  end.

(** The cell [j] steps to the right of (or below) the cell [(r, c)]. *)
Definition offsetCell (d : Direction) (r c : Z) (j : nat) : Coord :=
  match d with
  | across => (r, (c + Z.of_nat j)%Z)
  | down => ((r + Z.of_nat j)%Z, c)
  end.

(** The words that a list of clue entries contributes, with ids from
    [base] on: an entry whose number labels no cell is skipped. *)
Fixpoint wordsOfClues (p : PuzzleData) (d : Direction) (base : nat)
    (clues : list (Z * string)) : list Word :=
  match clues with
  | [] => []
  | e :: rest =>
      match numberToPos p !! e.1 with
      | None => wordsOfClues p d base rest
      | Some pos =>
          {| id := base; number := e.1; direction := d;
             wcells := walk p (walkFuel p) d pos; clue := e.2 |}
            :: wordsOfClues p d (S base) rest
      end
  end.

(** The clue entries whose number labels a cell of the grid. *)
Definition labelledEntries (p : PuzzleData) (clues : list (Z * string))
  : list (Z * string) :=
  List.filter (fun e => bool_decide (is_Some (numberToPos p !! e.1))) clues.

Definition idxAt (c2w : list (list CellWords)) (r c : Z) (d : Direction)
  : option nat :=
  at2 c2w r c ≫= fun cw => cwDir cw d.

Definition setCells (d : Direction) (idx : nat) (wc : list Coord)
    (c2w : list (list CellWords)) : list (list CellWords) :=
  fold_left (fun m cell => alter2 (setCwDir d idx) cell.1 cell.2 m) wc c2w.

(** What the two loops over the clues maintain. *)
Record indexInv (p : PuzzleData) (acc : list Word * list (list CellWords))
  : Prop := {
  inv_sound : forall r c d i,
    idxAt acc.2 r c d = Some i ->
    exists w, acc.1 !! i = Some w /\ direction w = d /\ (r, c) ∈ wcells w;
  inv_complete : forall i w rc,
    acc.1 !! i = Some w -> rc ∈ wcells w ->
    exists j, idxAt acc.2 rc.1 rc.2 (direction w) = Some j /\ i <= j;
  inv_shape : forall r c, is_Some (at2 acc.2 r c) <-> inGrid p r c = true
}.

(** The cell [rc] lies in the cell sequence of word [i], a word of
    direction [d]. *)
Definition inWord (p : PuzzleData) (i : nat) (d : Direction) (rc : Coord)
  : Prop :=
  exists w, words p !! i = Some w /\ direction w = d /\ rc ∈ wcells w.

(** The index maps a cell to a word id exactly when the cell lies in that
    word. *)
Definition index_exact (p : PuzzleData) : Prop :=
  forall r c d i, wordIdxAt p r c d = Some i <-> inWord p i d (r, c).

(** No two words of one direction share a cell. *)
Definition sameDirDisjoint (p : PuzzleData) : Prop :=
  forall i j w w' rc,
    words p !! i = Some w -> words p !! j = Some w' ->
    direction w = direction w' ->
    rc ∈ wcells w -> rc ∈ wcells w' -> i = j.

(** *** Navigation *)

Definition isCellSelect (e : Effect) : bool :=
  match e with CellSelect _ _ _ _ => true | _ => false end.

(** A step of navigation: only classes of cells, the active cell and the
    direction change, and only selections are notified. *)
Record navStep (s s' : Session) : Prop := {
  nav_cores : cores (cells s') = cores (cells s);
  nav_game : game s' = game s;
  nav_log : exists l, log s' = log s ++ l /\ forallb isCellSelect l = true
}.

(** The cell takes part in a word of direction [d]. *)
Definition supports (p : PuzzleData) (row col : Z) (d : Direction) : Prop :=
  is_Some (wordIdxAt p row col d).

(** A step of one cell along a row or a column, as the arrow keys give. *)
Definition unitStep (dr dc : Z) : Prop :=
  (dr = 0 /\ dc = 1)%Z \/ (dr = 0 /\ dc = -1)%Z \/
  (dr = 1 /\ dc = 0)%Z \/ (dr = -1 /\ dc = 0)%Z.

(** Cells of the grid from [(r, c)] on, going by [(dr, dc)]. *)
Definition arrowRoom (p : PuzzleData) (dr dc r c : Z) : nat :=
  if inGrid p r c then
    if (dc =? 1)%Z then Z.to_nat (width p - c)
    else if (dc =? -1)%Z then Z.to_nat (c + 1)
    else if (dr =? 1)%Z then Z.to_nat (height p - r)
    else Z.to_nat (r + 1)
  else 0.

(** *** Validation *)

Definition lockWordCells (word : Word) (cs : list (list Cell))
  : list (list Cell) :=
  fold_left (fun m rc => lockCell rc.1 rc.2 (setCellClass rc.1 rc.2 Correct m))
            (wcells word) cs.

(** A call on [s] that [updateStatsOnComplete] has left by an exception,
    in [s']: the statistics cannot be updated, every word is validated,
    and the puzzle has just been marked complete and saved, which is the
    last call made. *)
Definition interrupted (p : PuzzleData) {stats : StatsEntry} (s s' : Session)
  : Prop :=
  statsUpdatable = false /\ completed (game s') = true /\
  length (correctWords (game s')) = length (words p) /\
  exists l, log s' = log s ++ l ++ [SaveProgress (game s')].

(** The branch of [checkWord] taken when the word is correct. *)
Definition validated (p : PuzzleData) {stats : StatsEntry} (now : Z) (i : nat)
    (s : Session) : Session :=
  checkCompletion p now (markWordCorrect p i true (withGame (pushCorrect i) s)).

(** *** Hints *)

(** A loop over cells that reveals the cells passing the guard [g]. *)
Definition revealLoop (p : PuzzleData)
    (g : list (list Cell) -> Coord -> bool)
    (l : list Coord) (s : Session) : Session :=
  fold_left (fun s' rc => if g (cells s') rc then revealCell p s' rc else s') l s.

Definition unlocked (cs : list (list Cell)) (rc : Coord) : bool :=
  negb (isLocked cs rc.1 rc.2).

(** The cells [revealAll] acts on: playable and not locked. *)
Definition revealable (cs : list (list Cell)) (rc : Coord) : bool :=
  match getCell cs rc.1 rc.2 with
  | None => false
  | Some cell => negb (isBlack cell || isLocked cs rc.1 rc.2)
  end.

(** A guard that reads only the lock flags and the kind of the cells. *)
Definition stableGuard (g : list (list Cell) -> Coord -> bool) : Prop :=
  forall cs cs' rc, locks cs' = locks cs -> skel cs' = skel cs -> g cs' rc = g cs rc.

(** What does not change in a game state when a cell is revealed. *)
Definition sameProgress (g g' : GameState) : Prop :=
  correctWords g' = correctWords g /\ completed g' = completed g /\
  completedAt g' = completedAt g /\ startTime g' = startTime g.

(** *** Progress of a session *)

(** The validated words are distinct ids of words, and a completed puzzle
    has all its words validated. *)
Definition gameInv (p : PuzzleData) (g : GameState) : Prop :=
  NoDup (correctWords g) /\
  (forall i, i ∈ correctWords g -> i < length (words p)) /\
  (completed g = true -> length (correctWords g) = length (words p)).

Definition game_ok (p : PuzzleData) (g : GameState) : bool :=
  bool_decide (NoDup (correctWords g)) &&
  forallb (fun i => i <? length (words p)) (correctWords g) &&
  implb (completed g) (length (correctWords g) =? length (words p)).

(** A saved progress that [saveProgress] can have written. *)
Definition saved_ok (p : PuzzleData) (saved : option GameState) : bool :=
  match saved with None => true | Some g => game_ok p g end.

Definition validatedCount (s : Session) : nat := length (correctWords (game s)).

(** Between [s] and [s'] the count of validated words becomes equal to the
    number of words. *)
Definition reaches (p : PuzzleData) (s s' : Session) : bool :=
  negb (validatedCount s =? length (words p)) &&
  (validatedCount s' =? length (words p)).

Definition bump (b : bool) : nat := if b then 1 else 0.

(** The progress of a game between [s] and [s']: when the count reaches the
    number of words, the puzzle is marked complete and saved; the
    statistics are updated and the completion callback is called as well
    when the statistics can be updated. *)
Record advances (p : PuzzleData) {stats : StatsEntry} (now : Z)
    (s s' : Session) : Prop := {
  adv_inv : gameInv p (game s');
  adv_mono : validatedCount s <= validatedCount s';
  adv_complete : occurrences isComplete (log s')
                 = occurrences isComplete (log s)
                   + bump (reaches p s s' && statsUpdatable);
  adv_stats : occurrences isStatsUpdate (log s')
              = occurrences isStatsUpdate (log s)
                + bump (reaches p s s' && statsUpdatable);
  adv_save : occurrences isSaveProgress (log s')
             = occurrences isSaveProgress (log s) + bump (reaches p s s');
  adv_flag : completed (game s') = completed (game s) || reaches p s s';
  adv_at : completedAt (game s')
           = if reaches p s s' then Some now else completedAt (game s)
}.

Definition evolves (p : PuzzleData) {stats : StatsEntry} (now : Z)
    (s s' : Session) : Prop :=
  skel (cells s') = skel (cells s) /\
  (gameInv p (game s) -> advances p now s s').

Definition counted (e : Effect) : bool :=
  isComplete e || isStatsUpdate e || isSaveProgress e || isTimerStart e.

(** Nothing that the completion or the clock depends on changes. *)
Record quiet (s s' : Session) : Prop := {
  q_skel : skel (cells s') = skel (cells s);
  q_progress : sameProgress (game s) (game s');
  q_log : exists l, log s' = log s ++ l /\
                    forallb (fun e => negb (counted e)) l = true
}.

Definition timerQuiet (s s' : Session) : Prop :=
  startTime (game s') = startTime (game s) /\
  occurrences isTimerStart (log s') = occurrences isTimerStart (log s).


(** The first statement of [onLetterInput]. *)
Definition startClock (now : Z) (s : Session) : Session :=
  if falsyTime (startTime (game s))
  then emit TimerStart (withGame (setStartTime now) s) else s.

(** The second statement of [onLetterInput]. *)
Definition storeLetter (row col : Z) (letter : string) (s : Session) : Session :=
  if bool_decide (letter = "")
  then withGame (withGridMap (delete (row, col))) s
  else withGame (withGridMap <[(row, col) := letter]>) s.

(** The session after one iteration of the last loop of [revealAll]. *)
Definition checkIfOpen (p : PuzzleData) {stats : StatsEntry} (now : Z)
    (s' : Session) (i : nat) : Session :=
  if bool_decide (i ∈ correctWords (game s')) then s' else checkWord p now i s'.

(** [setLetter] followed by the [onLetterInput] callback, as the key and
    input handlers do. *)
Definition typed (p : PuzzleData) {stats : StatsEntry} (now : Z) (row col : Z)
    (letter : string) (s : Session) : Session :=
  onLetterInput p now row col letter (withCells (setLetter row col letter) s).



(** *** Example puzzles and sessions *)

(** A first visit: nothing is stored under the statistics key, [loadStats]
    returns the empty record and the update returns. *)
Definition firstVisit : StatsEntry := {| statsUpdatable := true |}.

(** A text that is not JSON is stored under the statistics key, as in
    [Storage.corruptStore]: [loadStats] throws. *)
Definition brokenStats : StatsEntry := {| statsUpdatable := false |}.

(** Two across clues whose labelled cells lie in one run. *)
Definition overlapPuzzle : PuzzleData :=
  {| height := 1; width := 2;
     puzzle := [[Num 1; Num 2]];
     solution := [["A"; "B"]];
     cluesAcross := [(1%Z, "first"); (2%Z, "second")];
     cluesDown := [];
     level := "daily"; date := "2026-02-15" |}.

(** An across word AB and a down word AC that cross in the first cell. *)
Definition crossPuzzle : PuzzleData :=
  {| height := 2; width := 2;
     puzzle := [[Num 1; Blank]; [Blank; Block]];
     solution := [["A"; "B"]; ["C"; "#"]];
     cluesAcross := [(1%Z, "first row")];
     cluesDown := [(1%Z, "first column")];
     level := "daily"; date := "2026-02-15" |}.

(** One playable cell and no clue. *)
Definition loneCellPuzzle : PuzzleData :=
  {| height := 1; width := 1;
     puzzle := [[Blank]];
     solution := [["A"]];
     cluesAcross := [];
     cluesDown := [];
     level := "daily"; date := "2026-02-15" |}.

Definition typeAB : list (Z * Event) :=
  [(1%Z, EvKeyDown (KeyText "a") 0 0); (2%Z, EvKeyDown (KeyText "b") 0 1)].

(** The across word of [crossPuzzle] typed in: both its cells are locked. *)
Definition crossAcrossSolved : Session :=
  run crossPuzzle (text := asciiText) (stats := firstVisit)
          typeAB (initPuzzle crossPuzzle None).

(** Then the cursor is put on the last cell of the down word. *)
Definition crossDownActive : Session :=
  handleCellFocus crossPuzzle 1 0 crossAcrossSolved.

Definition acrossWord : Word :=
  {| id := 0; number := 1; direction := across;
     wcells := [(0%Z, 0%Z); (0%Z, 1%Z)]; clue := "first row" |}.

Definition downWord : Word :=
  {| id := 1; number := 1; direction := down;
     wcells := [(0%Z, 0%Z); (1%Z, 0%Z)]; clue := "first column" |}.

(** The letters of the across word written into its cells, not yet
    checked. *)
Definition crossAcrossFilled : Session :=
  withCells (setLetter 0 1 "B")
    (withCells (setLetter 0 0 "A") (initPuzzle crossPuzzle None)).

(** *** Statements that do not hold as they are worded *)


(** [revealWord] on a word of n cells, k of them revealed, adds n - k to
    the counter. *)
Definition revealWord_counts_all (p : PuzzleData) (now : Z) (s : Session)
  : Prop :=
  forall word, getActiveWord p s = Some word ->
    hintsUsed (game (revealWord p (stats := firstVisit) now s))
    = hintsUsed (game s)
      + (length (wcells word)
         - length (filter (fun rc => rc ∈ revealed (game s)) (wcells word))).

(** On a cell that takes part in no word, [setActiveCell] leaves the
    direction as it was. *)
Definition isolated_direction_unchanged (p : PuzzleData) : Prop :=
  forall s row col dir,
    inGrid p row col = true ->
    wordIdxAt p row col across = None -> wordIdxAt p row col down = None ->
    activeDirection (setActiveCell p row col dir s) = activeDirection s.


(** ** The clock (timer.js) *)

Module Timer.

(** [String(n)] for an integer [n]. *)
Definition String_of_Z (n : Z) : string :=
  NilZero.string_of_int (Z.to_int n).

(** [s.padStart(n, c)] for a pad string [c] of one character. *)
Definition padStart (n : nat) (c : ascii) (s : string) : string :=
  string_of_list_ascii (replicate (n - String.length s) c) +:+ s.

(** [formatTime(seconds)] for an integer number of seconds: [%] is the
    remainder that takes the sign of the dividend, [Math.floor] of a
    quotient is the quotient rounded down. *)
Definition formatTime (seconds : Z) : string :=
  let h := (seconds / 3600)%Z in
  let m := (Z.rem seconds 3600 / 60)%Z in
  let s := Z.rem seconds 60 in
  if (0 <? h)%Z then
    String_of_Z h +:+ ":" +:+ padStart 2 "0" (String_of_Z m)
      +:+ ":" +:+ padStart 2 "0" (String_of_Z s)
  else
    padStart 2 "0" (String_of_Z m) +:+ ":" +:+ padStart 2 "0" (String_of_Z s).

(** The variables of [createTimer], the text shown by the display element,
    and the intervals of the page set by this timer and not yet cleared
    ([setInterval] hands out the handle [nextHandle]). *)
Record State := {
  elapsed : Z;
  intervalId : option nat;
  running : bool;
  started : bool;
  textContent : string;
  intervals : gset nat;
  nextHandle : nat
}.

Definition updateDisplay (t : State) : State :=
  {| elapsed := elapsed t; intervalId := intervalId t; running := running t;
     started := started t; textContent := formatTime (elapsed t);
     intervals := intervals t; nextHandle := nextHandle t |}.

(** [createTimer(displayEl)] up to its [return]. *)
Definition createTimer : State :=
  updateDisplay
    {| elapsed := 0; intervalId := None; running := false; started := false;
       textContent := ""; intervals := ∅; nextHandle := 0 |}.

(** [tick]: the callback of the interval.  [onTick] is the listener set
    through the setter of the same name, acting on the rest of the page
    (a state of type [W]). *)
Definition tick {W : Type} (onTick : option (Z -> W -> W)) (tw : State * W)
  : State * W :=
  let t1 :=
    updateDisplay
      {| elapsed := (elapsed tw.1 + 1)%Z; intervalId := intervalId tw.1;
         running := running tw.1; started := started tw.1;
         textContent := textContent tw.1; intervals := intervals tw.1;
         nextHandle := nextHandle tw.1 |} in
  (t1, match onTick with Some f => f (elapsed t1) tw.2 | None => tw.2 end).

Definition start (t : State) : State :=
  if running t then t
  else {| elapsed := elapsed t; intervalId := Some (nextHandle t);
          running := true; started := true; textContent := textContent t;
          intervals := {[nextHandle t]} ∪ intervals t;
          nextHandle := S (nextHandle t) |}.

Definition pause (t : State) : State :=
  if negb (running t) then t
  else {| elapsed := elapsed t; intervalId := None; running := false;
          started := started t; textContent := textContent t;
          intervals := match intervalId t with
                       | Some h => intervals t ∖ {[h]}
                       | None => intervals t
                       end;
          nextHandle := nextHandle t |}.

Definition stop (t : State) : State := pause t.

(** [restore(savedElapsed)]; [None] is a missing value, and
    [savedElapsed || 0] also turns 0 into 0. *)
Definition restore (savedElapsed : option Z) (t : State) : State :=
  let e := match savedElapsed with
           | Some z => if (z =? 0)%Z then 0%Z else z
           | None => 0%Z
           end in
  updateDisplay
    {| elapsed := e; intervalId := intervalId t; running := running t;
       started := (0 <? e)%Z; textContent := textContent t;
       intervals := intervals t; nextHandle := nextHandle t |}.

Definition getElapsed (t : State) : Z := elapsed t.

(** The listener of [visibilitychange]; [hidden] is [document.hidden]. *)
Definition visibilityChange (hidden : bool) (t : State) : State :=
  if negb (started t) then t
  else if hidden then pause t else start t.

(** One second passes: every interval that is set calls [tick]. *)
Definition second {W : Type} (onTick : option (Z -> W -> W)) (tw : State * W)
  : State * W :=
  Nat.iter (size (intervals tw.1)) (tick onTick) tw.

(** What can happen to a timer. *)
Inductive Op :=
| OpStart | OpPause | OpStop
| OpRestore (savedElapsed : option Z)
| OpVisibility (hidden : bool)
| OpSecond.

Definition apply {W : Type} (onTick : option (Z -> W -> W)) (tw : State * W)
    (op : Op) : State * W :=
  match op with
  | OpStart => (start tw.1, tw.2)
  | OpPause => (pause tw.1, tw.2)
  | OpStop => (stop tw.1, tw.2)
  | OpRestore saved => (restore saved tw.1, tw.2)
  | OpVisibility hidden => (visibilityChange hidden tw.1, tw.2)
  | OpSecond => second onTick tw
  end.

Definition runOps {W : Type} (onTick : option (Z -> W -> W)) (ops : list Op)
    (tw : State * W) : State * W :=
  fold_left (apply onTick) ops tw.

(** Number of colons in a text. *)
Fixpoint colons (s : string) : nat :=
  match s with
  | EmptyString => 0
  | String c s' => (if Ascii.eqb c ":" then 1 else 0) + colons s'
  end.

(** The two-digit fields of the display, for 0 to 59. *)
Definition clockFields : list string :=
  (fun k => padStart 2 "0" (String_of_Z (Z.of_nat k))) <$> seq 0 60.

(** The interval whose handle the timer holds is the only one that is
    set, and it is set exactly while the timer runs. *)
Definition tidy (t : State) : Prop :=
  match intervalId t with
  | Some h => running t = true /\ intervals t = {[h]}
  | None => running t = false /\ intervals t = ∅
  end.

(** The display shows the time of the timer. *)
Definition shown (t : State) : Prop := textContent t = formatTime (elapsed t).

End Timer.

(** [formatTimeFallback] of app.js. *)
Definition formatTimeFallback (seconds : Z) : string :=
  let m := (seconds / 60)%Z in
  let s := Z.rem seconds 60 in
  Timer.padStart 2 "0" (Timer.String_of_Z m) +:+ ":"
    +:+ Timer.padStart 2 "0" (Timer.String_of_Z s).

(** ** Writing to localStorage (storage.js, app.js) *)

Module Saving.
Import Storage.

Section Stringify.
(** [JSON.stringify] on the values that are saved. *)
Context {V : Type}.
Variable JSON_stringify : V -> string.

Definition saveProgress (localStorage : gmap string string)
    (lvl dt : string) (gameState : V) : gmap string string :=
  <[progressKey lvl dt := JSON_stringify gameState]> localStorage.

Definition saveStats (localStorage : gmap string string) (stats : V)
  : gmap string string :=
  <[statsKey := JSON_stringify stats]> localStorage.
End Stringify.

(** *** The theme (app.js) *)

Definition THEME_KEY : string := "crosswords_theme".

(** [getEffectiveTheme]; [prefersDark] is what the media query
    [(prefers-color-scheme: dark)] answers. *)
Definition getEffectiveTheme (localStorage : gmap string string)
    (prefersDark : bool) : string :=
  match localStorage !! THEME_KEY with
  | Some saved =>
      if bool_decide (saved = "") then (if prefersDark then "dark" else "light")
      else saved
  | None => if prefersDark then "dark" else "light"
  end.

(** The page as far as the theme goes: the storage and the class name of
    the document element. *)
Record Page := { storage : gmap string string; className : string }.

(** The [click] listener of the theme button. *)
Definition themeClick (prefersDark : bool) (pg : Page) : Page :=
  let next :=
    if bool_decide (getEffectiveTheme (storage pg) prefersDark = "dark")
    then "light" else "dark" in
  {| storage := <[THEME_KEY := next]> (storage pg); className := next |}.

(** *** A history of completions *)

(** The arguments of one call of [updateStatsOnComplete], and the day of
    the call. *)
Record Completion := {
  c_level : string;
  c_date : string;
  c_secs : Z;
  c_hints : nat;
  c_today : IsoDate
}.

Definition recordCompletion (stats : Stats) (c : Completion) : Stats :=
  updateStatsOnComplete stats (c_level c) (c_date c) (c_secs c) (c_hints c)
                        (c_today c).

(** The statistics after a list of completions, the first on a browser
    without statistics; every call reads what the call before it saved. *)
Definition afterCompletions (cs : list Completion) : Stats :=
  fold_left recordCompletion cs defaultStats.

Definition entryOf (c : Completion) : HistoryEntry :=
  {| h_date := c_date c; h_level := c_level c; h_time := c_secs c;
     h_hints := c_hints c; h_noHints := bool_decide (c_hints c = 0) |}.

(** The least number of a list. *)
Definition least (l : list Z) : option Z :=
  match l with
  | [] => None
  | x :: l' => Some (foldr Z.min x l')
  end.

Definition timesOf (lvl : string) (cs : list Completion) : list Z :=
  c_secs <$> filter (fun c => c_level c = lvl) cs.

End Saving.

(** ** Notions for the further properties *)

(** *** Classes and arrow steps *)

(** The class list of the element of a cell. *)
Definition classesAt (cs : list (list Cell)) (r c : Z) : list CellClass :=
  match getCell cs r c with
  | Some cell => classList cell
  | None => []
  end.

(** The cell [j] arrow steps away from the active cell. *)
Definition arrowCell (s : Session) (dr dc : Z) (j : nat) : Coord :=
  ((activeRow s + Z.of_nat j * dr)%Z, (activeCol s + Z.of_nat j * dc)%Z).

(** The words of the active direction, in the order of the word list. *)
Definition sameDir (p : PuzzleData) (s : Session) : list Word :=
  List.filter (fun w => bool_decide (direction w = activeDirection s)) (words p).

(** The position after [k] among [n] words when going round. *)
Definition nextPos (reverse : bool) (k n : nat) : nat :=
  if reverse then (if k is S k' then k' else n - 1)
  else (if S k <? n then S k else 0).

(** The reading order of the cells: row by row, from left to right. *)
Definition rowMajor (a b : Coord) : Prop :=
  (a.1 < b.1)%Z \/ (a.1 = b.1 /\ a.2 < b.2)%Z.

(** *** What a session keeps *)

(** The classes that navigation never removes. *)
Definition kept (k : CellClass) : bool :=
  match k with Correct | Revealed => true | _ => false end.

Definition notRestore (e : Effect) : bool :=
  match e with TimerRestore _ _ => false | _ => true end.

(** What is never lost from [s] to [s']. *)
Record progress (s s' : Session) : Prop := {
  pr_skel : skel (cells s') = skel (cells s);
  pr_level : st_level (game s') = st_level (game s);
  pr_date : st_date (game s') = st_date (game s);
  pr_hints : hintsUsed (game s) <= hintsUsed (game s');
  pr_revealed : revealed (game s) ⊆ revealed (game s');
  pr_correct : correctWords (game s) `prefix_of` correctWords (game s');
  pr_completed : completed (game s) = true -> completed (game s') = true;
  pr_locks : forall r c,
    isLocked (cells s) r c = true -> isLocked (cells s') r c = true;
  pr_marks : forall r c k, kept k = true ->
    k ∈ classesAt (cells s) r c -> k ∈ classesAt (cells s') r c
}.

(** The elapsed time stays, and the calls made do not restore the timer. *)
Definition calm (s s' : Session) : Prop :=
  elapsed (game s') = elapsed (game s) /\
  exists l, log s' = log s ++ l /\ forallb notRestore l = true.

Definition grows (s s' : Session) : Prop := progress s s' /\ calm s s'.

(** An input event that follows an edit which has emptied the field: the
    listener returns at once, and the game is told nothing. *)
Definition emptyInput (ev : Z * Event) : bool :=
  match ev.2 with EvInput v _ _ => bool_decide (v = "") | _ => false end.

Definition noEmptyInput (evs : list (Z * Event)) : bool :=
  forallb (fun ev => negb (emptyInput ev)) evs.

(** The letters on the board are the letters of the saved grid; where
    fields may have been emptied ([erased]), a cell shows the letter of the
    saved grid or nothing. *)
Definition mirrored (erased : bool) (s : Session) : Prop :=
  forall r c,
    getLetter (cells s) r c = default "" (grid (game s) !! (r, c)) \/
    (erased = true /\ getLetter (cells s) r c = "").

(** The keys of the saved grid are playable cells. *)
Definition keysPlayable (p : PuzzleData) (s : Session) : Prop :=
  forall r c, is_Some (grid (game s) !! (r, c)) -> isPlayable p r c = true.

(** The locked cells are the cells of the validated words. *)
Definition lockedByWords (p : PuzzleData) (s : Session) : Prop :=
  forall r c, isLocked (cells s) r c = true <->
    exists i w, i ∈ correctWords (game s) /\ words p !! i = Some w /\
                (r, c) ∈ wcells w.

(** The marks on the cells follow the state: a cell is marked correct
    when it is locked, and marked revealed when its key is in the revealed
    set. *)
Definition markedByState (s : Session) : Prop :=
  forall r c,
    (Correct ∈ classesAt (cells s) r c <-> isLocked (cells s) r c = true) /\
    (Revealed ∈ classesAt (cells s) r c <-> (r, c) ∈ revealed (game s)).

(** There is no active cell, in a grid without playable cells, or the
    active cell is a playable cell. *)
Definition cursorOk (p : PuzzleData) (s : Session) : Prop :=
  (activeRow s = (-1)%Z /\ activeCol s = (-1)%Z /\
   forall r c, isPlayable p r c = false) \/
  isPlayable p (activeRow s) (activeCol s) = true.

Record sound (p : PuzzleData) (erased : bool) (s : Session) : Prop := {
  snd_board : skel (cells s) = skel (render p);
  snd_mirror : mirrored erased s;
  snd_locks : lockedByWords p s;
  snd_marks : markedByState s;
  snd_keys : keysPlayable p s
}.

(** The cursor stays where it is. *)
Definition sameCursor (s s' : Session) : Prop :=
  activeRow s' = activeRow s /\ activeCol s' = activeCol s /\
  activeDirection s' = activeDirection s.

(** Locking and marking a cell, as [markWordCorrect] does. *)
Definition lockAndMark (cell : Cell) : Cell :=
  setInput setReadOnly (addClass Correct cell).

(** A user event other than a tick of the timer. *)
Definition userEvent (ev : Z * Event) : bool :=
  match ev.2 with EvTick _ => false | _ => true end.

(** The session is left as it is, or a cell is selected; on a board of
    the puzzle the cell is playable. *)
Definition selects (p : PuzzleData) (s s' : Session) : Prop :=
  s' = s \/
  exists r c dir, s' = setActiveCell p r c dir s /\
    (skel (cells s) = skel (render p) -> isPlayable p r c = true).

(** The board has the shape of the puzzle and the cursor is in place. *)
Definition steady (p : PuzzleData) (s : Session) : Prop :=
  skel (cells s) = skel (render p) /\ cursorOk p s.

(** Closes the side conditions on a game state that a step leaves as it
    is or extends. *)
Ltac solve_game := simpl; first [done | lia | set_solver | by apply prefix_app_r].

(** ** The page (app.js)

    [initPuzzle] of app.js makes the timer, the grid and the game, and
    connects them: the callbacks of the game act on the timer, and the
    timer reports every tick to the game.  The callbacks change the timer
    only, so they are run on the calls that the handler of an event has
    logged. *)

Module App.

Record Globals := {
  session : Session;
  timer : Timer.State
}.

(** [onTimerStart], [onTimerRestore] and [onComplete], as they act on
    the timer. *)
Definition callback (e : Effect) (t : Timer.State) : Timer.State :=
  match e with
  | TimerStart => Timer.start t
  | TimerRestore secs _ =>
      let t1 := Timer.restore (Some secs) t in
      if (0 <? secs)%Z then Timer.start t1 else t1
  | Complete _ => Timer.stop t
  | _ => t
  end.

Definition callbacks (l : list Effect) (t : Timer.State) : Timer.State :=
  fold_left (fun t' e => callback e t') l t.

(** What happens on the page: an event of the grid or of a button, a
    second that passes, the page is hidden or shown again. *)
Inductive PageEvent :=
| Ui (ev : Z * Event)
| Second
| VisibilityChange (hidden : bool).

Section Page.
Variable p : PuzzleData.
Context {stats : StatsEntry} {text : TextLib}.

(** [initPuzzle(level, date)] for the puzzle [p]; [saved] is the progress
    that [createGame] finds. *)
Definition init (saved : option GameState) : Globals :=
  let s := initPuzzle p saved in
  {| session := s; timer := callbacks (log s) Timer.createTimer |}.

Definition pageStep (a : Globals) (ev : PageEvent) : Globals :=
  match ev with
  | Ui e =>
      let s' := step p (session a) e in
      {| session := s';
         timer := callbacks (drop (length (log (session a))) (log s')) (timer a) |}
  | Second =>
      let tw := Timer.second (Some updateElapsed) (timer a, session a) in
      {| session := tw.2; timer := tw.1 |}
  | VisibilityChange hidden =>
      {| session := session a;
         timer := Timer.visibilityChange hidden (timer a) |}
  end.

Definition pageRun (evs : list PageEvent) (a : Globals) : Globals :=
  fold_left pageStep evs a.

(** The ticks come from the timer, not from the grid or a button. *)
Definition pageEvent (ev : PageEvent) : bool :=
  match ev with
  | Ui e => userEvent e && validEvent p e
  | _ => true
  end.

End Page.
End App.

(** Calls that do not start the timer. *)
Definition noStart (e : Effect) : bool :=
  match e with TimerStart | TimerRestore _ _ => false | _ => true end.

(** Calls that do not stop the timer. *)
Definition noStop (e : Effect) : bool :=
  match e with Complete _ | TimerRestore _ _ => false | _ => true end.

(** Calls that leave the timer alone. *)
Definition inert (e : Effect) : bool := noStart e && noStop e.

(** From [s] to [s'] the timer is not started, and a puzzle that becomes
    completed reports it when the statistics can be updated; when they
    cannot, no completion is reported. *)
Definition settles {stats : StatsEntry} (s s' : Session) : Prop :=
  exists l, log s' = log s ++ l /\ forallb noStart l = true /\
    (statsUpdatable = false -> existsb isComplete l = false) /\
    (completed (game s) = false -> completed (game s') = true ->
     statsUpdatable = true -> existsb isComplete l = true).

(** From [s] to [s'] the timer is not stopped. *)
Definition opens (s s' : Session) : Prop :=
  exists l, log s' = log s ++ l /\ forallb noStop l = true /\
    completed (game s') = completed (game s).

(** The calls that start the timer come before the calls that stop it. *)
Definition ordered {stats : StatsEntry} (s s' : Session) : Prop :=
  exists s1, opens s s1 /\ settles s1 s'.

(** The state of the game and the timer agree. *)
Record wired (a : App.Globals) : Prop := {
  w_elapsed : elapsed (game (App.session a)) = Timer.elapsed (App.timer a);
  w_shown : Timer.shown (App.timer a);
  w_tidy : Timer.tidy (App.timer a);
  w_started : Timer.running (App.timer a) = true ->
              Timer.started (App.timer a) = true
}.

(** ** Notions on typing and saving *)

(** The key [k.2], pressed at the clock reading [k.1] (which is not 0), is
    a letter key for the letter of the solution in the cell [rc]. *)
Definition rightKey (p : PuzzleData) {text : TextLib} (k : Z * string)
    (rc : Coord) : Prop :=
  k.1 <> 0%Z /\ k.2 <> " " /\ isLetterKey k.2 = true /\
  normalizeUpper k.2 = solutionAt p rc.1 rc.2 /\ solutionAt p rc.1 rc.2 <> "".

(** One key in each cell of a list of cells, in their order. *)
Definition typing (keys : list (Z * string)) (l : list Coord) : list (Z * Event) :=
  zip_with (fun k rc => (k.1, EvKeyDown (KeyText k.2) rc.1 rc.2)) keys l.

(** Between [s] and [s'] a save is scheduled, or the last call made is the
    save of the state of [s']. *)
Definition savesLater (s s' : Session) : Prop :=
  exists l, log s' = log s ++ l /\
    (ScheduleSave ∈ l \/ last l = Some (SaveProgress (game s'))).

(** ** The scraper (fetch-puzzles.js)

    The loop of [main] for one level.  The directory of the level is the
    map from the dates that have a puzzle file to the content of the file,
    the network is the function [fetchPuzzle], and the old index is what
    [JSON.parse] of [index.json] gives.  The console, the pause between
    two requests and the time stamp of the index are left out. *)

Module Scraper.

(** What [fetchPuzzle] does: it returns the puzzle, returns [null] (the
    answer holds no puzzle), or throws (status not ok, or no answer). *)
Inductive Fetched (P : Type) : Type :=
| Puzzle (data : P)
| NotAvailable
| Failed.
Arguments Puzzle {P} data.
Arguments NotAvailable {P}.
Arguments Failed {P}.

Section Level.
Context {P : Type}.
Variable fetchPuzzle : string -> Fetched P.







End Level.
End Scraper.

(** *** Examples of completions and of a visit *)

(** Two completions of the daily puzzle on two days in a row. *)
Definition twoCompletions : list Saving.Completion :=
  [ {| Saving.c_level := "daily"; Saving.c_date := "2024-02-28";
       Saving.c_secs := 300; Saving.c_hints := 0;
       Saving.c_today := Storage.feb28 |};
    {| Saving.c_level := "daily"; Saving.c_date := "2024-02-29";
       Saving.c_secs := 200; Saving.c_hints := 2;
       Saving.c_today := Storage.feb29 |} ].

(** A visit of the page of [crossPuzzle]: the across word is typed while
    seconds pass and the page is hidden and shown again. *)
Definition crossVisit : list App.PageEvent :=
  [ App.Ui (1%Z, EvKeyDown (KeyText "a") 0 0); App.Second;
    App.VisibilityChange true; App.Second; App.VisibilityChange false;
    App.Ui (2%Z, EvKeyDown (KeyText "b") 0 1); App.Second ].

(** The keys a and b, pressed at the clock readings 1 and 2. *)
Definition abKeys : list (Z * string) := [(1%Z, "a"); (2%Z, "b")].

(** Two down words with a black cell between their first cells, and an
    across word through their last cells. *)
Definition gapPuzzle : PuzzleData :=
  {| height := 2; width := 3;
     puzzle := [[Num 1; Block; Num 2]; [Num 3; Blank; Blank]];
     solution := [["A"; "#"; "B"]; ["C"; "D"; "E"]];
     cluesAcross := [(3%Z, "second row")];
     cluesDown := [(1%Z, "first column"); (2%Z, "last column")];
     level := "daily"; date := "2026-02-15" |}.

(** The cursor of [gapPuzzle] put on the middle cell of the second row. *)
Definition gapMiddle : Session :=
  setActiveCell gapPuzzle 1 1 None (initPuzzle gapPuzzle None).

(** The key a in the first cell of [crossPuzzle], then an edit that
    empties the field of that cell. *)
Definition typeThenEmpty : list (Z * Event) :=
  [(1%Z, EvKeyDown (KeyText "a") 0 0); (2%Z, EvInput "" 0 0)].

(** Three completions, one of them of a level named [constructor]. *)
Definition oddCompletions : list Saving.Completion :=
  [ {| Saving.c_level := "daily"; Saving.c_date := "2024-02-28";
       Saving.c_secs := 300; Saving.c_hints := 0;
       Saving.c_today := Storage.feb28 |};
    {| Saving.c_level := "constructor"; Saving.c_date := "2024-02-28";
       Saving.c_secs := 100; Saving.c_hints := 0;
       Saving.c_today := Storage.feb28 |};
    {| Saving.c_level := "daily"; Saving.c_date := "2024-02-29";
       Saving.c_secs := 200; Saving.c_hints := 2;
       Saving.c_today := Storage.feb29 |} ].

(** * Properties *)

#[local] Set Warnings "-clear-no-such-hyp".

(** ** Arrays read by a number *)

Section Arrays.
Context {A : Type}.
Implicit Types (l : list A) (g : list (list A)) (f : A -> A).

Lemma at_alterZ f i j l :
  at_ (alterZ f i l) j = if decide (i = j) then f <$> at_ l j else at_ l j.
Proof.
  unfold at_, alterZ. case_decide as Hij.
  - subst j. destruct (i <? 0)%Z eqn:Hi; [done|]. by rewrite list_lookup_alter_eq.
  - destruct (j <? 0)%Z eqn:Hj; [done|]. destruct (i <? 0)%Z eqn:Hi; [done|].
    rewrite list_lookup_alter_ne; [done|]. lia.
Qed.

Lemma at_Some_bounds l i x : at_ l i = Some x -> (0 <= i < Z.of_nat (length l))%Z.
Proof.
  unfold at_. destruct (i <? 0)%Z eqn:Hi; [done|]. intros H%lookup_lt_Some. lia.
Qed.
End Arrays.

Lemma at2_alter2 {A} (f : A -> A) r c r' c' (g : list (list A)) :
  at2 (alter2 f r c g) r' c' =
  if decide ((r, c) = (r', c')) then f <$> at2 g r' c' else at2 g r' c'.
Proof.
  unfold at2, alter2. rewrite at_alterZ.
  case_decide as Hr.
  - subst r'. destruct (at_ g r) as [line|]; simpl.
    + rewrite at_alterZ. repeat case_decide; try done; congruence.
    + by case_decide.
  - case_decide; [congruence|done].
Qed.

Lemma alterZ_compose {A} (f g : A -> A) i (l : list A) :
  alterZ f i (alterZ g i l) = alterZ (f ∘ g) i l.
Proof.
  unfold alterZ. destruct (i <? 0)%Z; [done|]. by rewrite list_alter_alter_eq.
Qed.

Lemma alterZ_ext {A} (f g : A -> A) i (l : list A) :
  (forall x, f x = g x) -> alterZ f i l = alterZ g i l.
Proof.
  intros H. unfold alterZ. destruct (i <? 0)%Z; [done|]. apply list_alter_ext; [|done].
  intros x _. apply H.
Qed.

Lemma alter2_compose {A} (f g : A -> A) r c (m : list (list A)) :
  alter2 f r c (alter2 g r c m) = alter2 (f ∘ g) r c m.
Proof.
  unfold alter2. rewrite alterZ_compose. apply alterZ_ext. intros line. simpl.
  apply alterZ_compose.
Qed.

Lemma alter2_ext {A} (f g : A -> A) r c (m : list (list A)) :
  (forall x, f x = g x) -> alter2 f r c m = alter2 g r c m.
Proof.
  intros H. unfold alter2. apply alterZ_ext. intros line. by apply alterZ_ext.
Qed.



Lemma at_fmap {A B} (f : A -> B) (l : list A) i : at_ (f <$> l) i = f <$> at_ l i.
Proof. unfold at_. destruct (i <? 0)%Z; [done|]. by rewrite list_lookup_fmap. Qed.

Lemma at2_fmap {A B} (f : A -> B) (g : list (list A)) r c :
  at2 ((fun line : list A => f <$> line) <$> g) r c = f <$> at2 g r c.
Proof.
  unfold at2. rewrite at_fmap. destruct (at_ g r); simpl; [|done]. by rewrite at_fmap.
Qed.

Lemma fmap_alterZ {A B} (f : A -> B) (h : A -> A) (l : list A) i :
  (forall x, f (h x) = f x) -> f <$> alterZ h i l = f <$> l.
Proof.
  intros Hf. unfold alterZ. destruct (i <? 0)%Z; [done|].
  apply list_eq. intros j. rewrite !list_lookup_fmap, list_lookup_alter.
  case_decide as E; [|done]. rewrite E. destruct (l !! j); simpl; [|done]. by rewrite Hf.
Qed.

Lemma fmap2_alter2 {A B} (f : A -> B) (h : A -> A) (g : list (list A)) r c :
  (forall x, f (h x) = f x) ->
  (fun line : list A => f <$> line) <$> alter2 h r c g
  = (fun line : list A => f <$> line) <$> g.
Proof.
  intros Hf. unfold alter2. apply fmap_alterZ. intros line. by apply fmap_alterZ.
Qed.

Lemma at_seqZ_fmap {B} (f : Z -> B) n i :
  at_ (f <$> seqZ 0 n) i = if ((0 <=? i) && (i <? n))%Z then Some (f i) else None.
Proof.
  rewrite at_fmap. unfold at_.
  destruct (i <? 0)%Z eqn:Hi.
  - replace (0 <=? i)%Z with false by lia. done.
  - replace (0 <=? i)%Z with true by lia. simpl.
    destruct (i <? n)%Z eqn:Hn.
    + rewrite lookup_seqZ_lt by lia. simpl. f_equal. f_equal. lia.
    + rewrite lookup_seqZ_ge by lia. done.
Qed.

Lemma at2_render p r c :
  at2 (render p) r c =
  if inGrid p r c then Some (renderCell (puzzleAt p r c)) else None.
Proof.
  unfold at2, render, inGrid. rewrite at_seqZ_fmap.
  destruct ((0 <=? r) && (r <? height p))%Z; simpl; [|done].
  by rewrite at_seqZ_fmap.
Qed.

Lemma at2_skel cs r c : at2 (skel cs) r c = skeleton <$> at2 cs r c.
Proof. apply at2_fmap. Qed.

Lemma skel_cell p cs r c :
  skel cs = skel (render p) ->
  at2 cs r c = None /\ inGrid p r c = false \/
  exists cell, at2 cs r c = Some cell /\ inGrid p r c = true /\
    isBlack cell = bool_decide (puzzleAt p r c = Block) /\
    (input cell = None <-> puzzleAt p r c = Block).
Proof.
  intros Hs. pose proof (at2_skel cs r c) as H1.
  rewrite Hs, at2_skel, at2_render in H1.
  destruct (inGrid p r c); simpl in H1.
  - right. destruct (at2 cs r c) as [cell|]; [|done].
    exists cell. split; [done|]. split; [done|].
    simpl in H1. injection H1 as Hb Hi. unfold renderCell in *. cbn [isBlack input] in *.
    split; [done|].
    assert (Hiff : input cell = None <->
              (if bool_decide (puzzleAt p r c = Block) then None
               else Some {| value := ""; readOnly := false |}) = None).
    { rewrite <- (bool_decide_eq_true (input cell = None)), <- Hi.
      apply bool_decide_eq_true. }
    rewrite Hiff. case_bool_decide; naive_solver.
  - left. destruct (at2 cs r c); done.
Qed.

Lemma getLetter_setLetter_unplayable p cs r c letter :
  skel cs = skel (render p) ->
  inGrid p r c = false \/ puzzleAt p r c = Block ->
  getLetter cs r c = "" /\ setLetter r c letter cs = cs.
Proof.
  intros Hs Hrc. unfold getLetter, setLetter, getCell.
  destruct (skel_cell p cs r c Hs) as [[-> _]|(cell & -> & Hin & Hb & Hi)]; [done|].
  destruct Hrc as [Hout|Hblk]; [congruence|].
  rewrite Hb, bool_decide_eq_true_2 by done.
  apply Hi in Hblk. by rewrite Hblk.
Qed.

(** ** Labels and runs *)

Lemma elem_of_allCoords p r c :
  (r, c) ∈ allCoords p <-> inGrid p r c = true.
Proof.
  unfold allCoords, inGrid. rewrite list_elem_of_bind. split.
  - intros (r' & Hc & Hr). apply list_elem_of_fmap in Hc as (c' & Heq & Hc).
    injection Heq as -> ->. apply elem_of_seqZ in Hr, Hc. lia.
  - intros H. exists r. split.
    + apply list_elem_of_fmap. exists c. split; [done|]. apply elem_of_seqZ. lia.
    + apply elem_of_seqZ. lia.
Qed.


Lemma numberToPos_fold_sound p l (m : gmap Z Coord) n rc :
  fold_left (labelStep p) l m !! n = Some rc ->
  (rc ∈ l /\ puzzleAt p rc.1 rc.2 = Num n) \/ m !! n = Some rc.
Proof.
  revert m. induction l as [|a l IH]; intros m H; simpl in H; [by right|].
  apply IH in H as [[Hin Hp]|H].
  - left. split; [by right|done].
  - unfold labelStep in H. destruct (puzzleAt p a.1 a.2) as [|val|] eqn:Ha; try by right.
    destruct (decide (val = n)) as [->|Hne].
    + rewrite lookup_insert_eq in H. injection H as <-. left. split; [by left|done].
    + rewrite lookup_insert_ne in H by done. by right.
Qed.

Lemma numberToPos_fold_complete p l (m : gmap Z Coord) n :
  (exists rc, rc ∈ l /\ puzzleAt p rc.1 rc.2 = Num n) \/ is_Some (m !! n) ->
  is_Some (fold_left (labelStep p) l m !! n).
Proof.
  revert m. induction l as [|a l IH]; intros m H; simpl.
  - destruct H as [(rc & Hin & _)|H]; [by apply elem_of_nil in Hin|done].
  - apply IH. destruct H as [(rc & Hin & Hp)|H].
    + apply elem_of_cons in Hin as [->|Hin].
      * right. unfold labelStep. rewrite Hp. rewrite lookup_insert_eq. by eexists.
      * left. by exists rc.
    + right. unfold labelStep. destruct (puzzleAt p a.1 a.2) as [|val|]; try done.
      destruct (decide (val = n)) as [->|Hne].
      * rewrite lookup_insert_eq. by eexists.
      * by rewrite lookup_insert_ne.
Qed.

Lemma numberToPos_Some p n r c :
  numberToPos p !! n = Some (r, c) ->
  inGrid p r c = true /\ puzzleAt p r c = Num n.
Proof.
  intros H. apply (numberToPos_fold_sound p (allCoords p) ∅ n (r, c)) in H.
  destruct H as [[Hin Hp]|H]; [|by rewrite lookup_empty in H].
  split; [by apply elem_of_allCoords|done].
Qed.

Lemma numberToPos_is_Some p n :
  is_Some (numberToPos p !! n) <->
  exists r c, inGrid p r c = true /\ puzzleAt p r c = Num n.
Proof.
  split.
  - intros [[r c] H]. exists r, c. by apply numberToPos_Some.
  - intros (r & c & Hin & Hp).
    apply (numberToPos_fold_complete p (allCoords p) ∅ n). left.
    exists (r, c). split; [by apply elem_of_allCoords|done].
Qed.



Lemma isPlayable_inGrid p r c : isPlayable p r c = true -> inGrid p r c = true.
Proof.
  unfold isPlayable, inGrid.
  destruct ((r <? 0) || (height p <=? r) || (c <? 0) || (width p <=? c))%Z eqn:E; [done|].
  intros _. lia.
Qed.

Lemma isPlayable_spec p r c :
  isPlayable p r c = true <-> inGrid p r c = true /\ puzzleAt p r c <> Block.
Proof.
  unfold isPlayable, inGrid.
  destruct ((r <? 0) || (height p <=? r) || (c <? 0) || (width p <=? c))%Z eqn:E.
  - split; [done|]. intros [H _]. lia.
  - rewrite negb_true_iff, bool_decide_eq_false. split; [intros H; split; [lia|done]|tauto].
Qed.

Lemma room_advance p d rc :
  isPlayable p rc.1 rc.2 = true -> S (room p d (advance d rc)) = room p d rc.
Proof.
  intros H%isPlayable_inGrid. unfold inGrid in H. destruct rc as [r c].
  destruct d; simpl in *; lia.
Qed.

Lemma walk_spec p d fuel rc :
  room p d rc < fuel ->
  exists k, walk p fuel d rc = (fun i => advanceN d i rc) <$> seq 0 k /\
    (forall i, i < k -> isPlayable p (advanceN d i rc).1 (advanceN d i rc).2 = true) /\
    isPlayable p (advanceN d k rc).1 (advanceN d k rc).2 = false.
Proof.
  revert rc. induction fuel as [|fuel IH]; intros rc Hroom; [lia|].
  simpl. destruct (isPlayable p rc.1 rc.2) eqn:Hp.
  - destruct (IH (advance d rc)) as (k & Hw & Hall & Hstop).
    { pose proof (room_advance p d rc Hp). lia. }
    exists (S k). split; [|split].
    + rewrite Hw. simpl. f_equal. rewrite <- fmap_S_seq, <- list_fmap_compose. done.
    + intros [|i] Hi; simpl; [done|]. apply Hall. lia.
    + done.
  - exists 0. split; [done|]. split; [lia|done].
Qed.

Lemma room_walkFuel p d r c : inGrid p r c = true -> room p d (r, c) < walkFuel p.
Proof. unfold inGrid, room, walkFuel. destruct d; simpl; lia. Qed.

(** ** The list of words *)


Lemma advanceN_offset d j r c : advanceN d j (r, c) = offsetCell d r c j.
Proof.
  revert r c. induction j as [|j IH]; intros r c.
  - destruct d; simpl; f_equal; lia.
  - simpl. destruct d; simpl; rewrite IH; simpl; f_equal; lia.
Qed.


Lemma addWord_words p d clues acc :
  (fold_left (addWord p d) clues acc).1 = acc.1 ++ wordsOfClues p d (length acc.1) clues.
Proof.
  revert acc. induction clues as [|e rest IH]; intros acc; simpl.
  - by rewrite app_nil_r.
  - rewrite IH. unfold addWord. destruct (numberToPos p !! e.1) as [pos|]; simpl; [|done].
    rewrite length_app, <- app_assoc. simpl. do 3 f_equal. lia.
Qed.

Lemma words_eq p :
  words p = wordsOfClues p across 0 (cluesAcross p)
            ++ wordsOfClues p down (length (wordsOfClues p across 0 (cluesAcross p)))
                 (cluesDown p).
Proof.
  unfold words, buildWords. rewrite !addWord_words. done.
Qed.


Lemma wordsOfClues_entries p d base clues :
  (fun w => (number w, clue w, direction w)) <$> wordsOfClues p d base clues
  = (fun e => (e.1, e.2, d)) <$> labelledEntries p clues.
Proof.
  revert base. induction clues as [|e rest IH]; intros base; simpl; [done|].
  destruct (numberToPos p !! e.1) as [pos|] eqn:E; simpl.
  - f_equal. apply IH.
  - apply IH.
Qed.

Lemma wordsOfClues_lookup p d base clues i w :
  wordsOfClues p d base clues !! i = Some w ->
  id w = base + i /\ direction w = d /\
  exists pos, numberToPos p !! number w = Some pos /\
              wcells w = walk p (walkFuel p) d pos.
Proof.
  revert base i. induction clues as [|e rest IH]; intros base i H; simpl in H; [done|].
  destruct (numberToPos p !! e.1) as [pos|] eqn:E.
  - destruct i as [|i]; simpl in H.
    + injection H as <-. simpl. split; [lia|]. split; [done|]. by exists pos.
    + apply IH in H as (Hid & Hd & Hpos). split; [lia|done].
  - by apply IH.
Qed.

Lemma words_lookup p i w :
  words p !! i = Some w ->
  id w = i /\
  exists pos, numberToPos p !! number w = Some pos /\
              wcells w = walk p (walkFuel p) (direction w) pos.
Proof.
  rewrite words_eq. intros H. apply lookup_app_Some in H as [H|[Hle H]].
  - apply wordsOfClues_lookup in H as (Hid & Hd & pos & Hpos & Hc).
    split; [lia|]. exists pos. by rewrite Hd.
  - apply wordsOfClues_lookup in H as (Hid & Hd & pos & Hpos & Hc).
    split; [lia|]. exists pos. by rewrite Hd.
Qed.

Lemma walk_playable p fuel d rc x :
  x ∈ walk p fuel d rc -> isPlayable p x.1 x.2 = true.
Proof.
  revert rc. induction fuel as [|fuel IH]; intros rc H; simpl in H; [by apply elem_of_nil in H|].
  destruct (isPlayable p rc.1 rc.2) eqn:Hp; [|by apply elem_of_nil in H].
  apply elem_of_cons in H as [->|H]; [done|]. by eapply IH.
Qed.

(** The word of a labelled clue: a run from the labelled cell. *)
Lemma word_run p i w :
  words p !! i = Some w ->
  exists r c k,
    numberToPos p !! number w = Some (r, c) /\
    inGrid p r c = true /\ puzzleAt p r c = Num (number w) /\
    0 < k /\
    wcells w = offsetCell (direction w) r c <$> seq 0 k /\
    (forall j, j < k ->
       isPlayable p (offsetCell (direction w) r c j).1
                    (offsetCell (direction w) r c j).2 = true) /\
    isPlayable p (offsetCell (direction w) r c k).1
                 (offsetCell (direction w) r c k).2 = false.
Proof.
  intros H. apply words_lookup in H as (_ & [r c] & Hpos & Hcells).
  pose proof (numberToPos_Some p _ r c Hpos) as [Hin Hnum].
  destruct (walk_spec p (direction w) (walkFuel p) (r, c)) as (k & Hw & Hall & Hstop).
  { by apply room_walkFuel. }
  exists r, c, k. split; [done|]. split; [done|]. split; [done|].
  assert (Hplay : isPlayable p r c = true).
  { apply isPlayable_spec. split; [done|]. by rewrite Hnum. }
  split.
  { destruct k; [|lia]. simpl in Hstop. congruence. }
  split.
  { rewrite Hcells, Hw. apply list_fmap_ext. intros _ j _. apply advanceN_offset. }
  split.
  - intros j Hj. rewrite <- advanceN_offset. by apply Hall.
  - by rewrite <- advanceN_offset.
Qed.

(** ** The cell-to-word index *)


Lemma wordIdxAt_idxAt p r c d : wordIdxAt p r c d = idxAt (cellToWords p) r c d.
Proof. done. Qed.


Lemma cwDir_setCwDir d d' idx cw :
  cwDir (setCwDir d idx cw) d' = if decide (d' = d) then Some idx else cwDir cw d'.
Proof. by destruct d, d'. Qed.

Lemma setCells_is_Some d idx wc c2w r c :
  is_Some (at2 (setCells d idx wc c2w) r c) <-> is_Some (at2 c2w r c).
Proof.
  revert c2w. induction wc as [|a wc IH]; intros c2w; simpl; [done|].
  unfold setCells in *. simpl. rewrite IH, at2_alter2.
  case_decide; [|done]. by rewrite fmap_is_Some.
Qed.

Lemma setCells_other_dir d d' idx wc c2w r c :
  d' <> d -> idxAt (setCells d idx wc c2w) r c d' = idxAt c2w r c d'.
Proof.
  intros Hd. revert c2w. induction wc as [|a wc IH]; intros c2w; [done|].
  unfold setCells in *. simpl. rewrite IH. unfold idxAt. rewrite at2_alter2.
  case_decide; [|done]. destruct (at2 c2w r c) as [cw|]; simpl; [|done].
  rewrite cwDir_setCwDir. by case_decide.
Qed.

Lemma setCells_not_in d d' idx wc c2w r c :
  (r, c) ∉ wc -> idxAt (setCells d idx wc c2w) r c d' = idxAt c2w r c d'.
Proof.
  revert c2w. induction wc as [|a wc IH]; intros c2w Hn; [done|].
  apply not_elem_of_cons in Hn as [Hne Hn].
  unfold setCells in *. simpl. rewrite IH by done. unfold idxAt. rewrite at2_alter2.
  case_decide as E; [|done]. destruct a; simpl in E. congruence.
Qed.

Lemma setCells_in d idx wc c2w r c :
  (r, c) ∈ wc -> is_Some (at2 c2w r c) ->
  idxAt (setCells d idx wc c2w) r c d = Some idx.
Proof.
  revert c2w. induction wc as [|a wc IH]; intros c2w Hin Hs; [by apply elem_of_nil in Hin|].
  unfold setCells in *. simpl.
  destruct (decide ((r, c) ∈ wc)) as [Hin'|Hn].
  - apply IH; [done|]. rewrite at2_alter2. case_decide; [|done]. by rewrite fmap_is_Some.
  - apply elem_of_cons in Hin as [<-|Hin]; [|done].
    fold (setCells d idx wc (alter2 (setCwDir d idx) (r, c).1 (r, c).2 c2w)).
    rewrite setCells_not_in by done. unfold idxAt. simpl. rewrite at2_alter2.
    rewrite decide_True by done. destruct Hs as [cw ->]. simpl.
    rewrite cwDir_setCwDir. by rewrite decide_True.
Qed.

Section IndexInvariant.
Variable p : PuzzleData.


Lemma indexInv_init : indexInv p ([], initCellToWords p).
Proof.
  assert (Hat : forall r c, at2 (initCellToWords p) r c =
            if inGrid p r c then Some {| cw_across := None; cw_down := None |} else None).
  { intros r c. unfold at2, initCellToWords, inGrid. rewrite at_seqZ_fmap.
    destruct ((0 <=? r) && (r <? height p))%Z; simpl; [|done]. by rewrite at_seqZ_fmap. }
  split; simpl.
  - intros r c d i. unfold idxAt. rewrite Hat. destruct (inGrid p r c), d; done.
  - intros i w rc H. done.
  - intros r c. rewrite Hat. destruct (inGrid p r c); split; (done || by intros [? ?] || by eexists).
Qed.

Lemma indexInv_addWord d acc e : indexInv p acc -> indexInv p (addWord p d acc e).
Proof.
  intros [Hs Hc Hsh]. unfold addWord.
  destruct (numberToPos p !! e.1) as [pos|] eqn:Hpos; [|by split].
  set (wc := walk p (walkFuel p) d pos).
  set (idx := length acc.1).
  set (w := {| id := idx; number := e.1; direction := d; wcells := wc; clue := e.2 |}).
  fold (setCells d idx wc acc.2).
  assert (Hwc : forall r c, (r, c) ∈ wc -> is_Some (at2 acc.2 r c)).
  { intros r c Hin. apply Hsh. apply isPlayable_inGrid.
    by apply (walk_playable p _ _ _ (r, c)) in Hin. }
  split; simpl.
  - intros r c d' i Hi.
    destruct (decide ((r, c) ∈ wc)) as [Hin|Hn];
      [destruct (decide (d' = d)) as [->|Hd]|].
    + rewrite setCells_in in Hi by auto. injection Hi as <-.
      exists w. split; [|done]. by rewrite lookup_app_r, Nat.sub_diag.
    + rewrite setCells_other_dir in Hi by done.
      apply Hs in Hi as (w' & Hw' & Hd' & Hin'). exists w'.
      split; [|done]. by apply lookup_app_l_Some.
    + rewrite setCells_not_in in Hi by done.
      apply Hs in Hi as (w' & Hw' & Hd' & Hin'). exists w'.
      split; [|done]. by apply lookup_app_l_Some.
  - intros i w' [r c] Hw' Hin. simpl.
    apply lookup_app_Some in Hw' as [Hw'|[Hle Hw']].
    + destruct (Hc i w' (r, c) Hw' Hin) as (j & Hj & Hij). simpl in Hj.
      apply lookup_lt_Some in Hw'.
      destruct (decide ((r, c) ∈ wc)) as [Hin'|Hn];
        [destruct (decide (direction w' = d)) as [Hd|Hd]|].
      * exists idx. rewrite Hd, setCells_in by auto. split; [done|]. unfold idx. lia.
      * exists j. by rewrite setCells_other_dir.
      * exists j. by rewrite setCells_not_in.
    + destruct (i - length acc.1) as [|k] eqn:Hk; simpl in Hw'; [|done].
      injection Hw' as <-. simpl in *. exists idx.
      rewrite setCells_in by auto. split; [done|]. unfold idx. lia.
  - intros r c. rewrite setCells_is_Some. apply Hsh.
Qed.

Lemma indexInv_fold d clues acc :
  indexInv p acc -> indexInv p (fold_left (addWord p d) clues acc).
Proof.
  revert acc. induction clues as [|e rest IH]; intros acc H; simpl; [done|].
  apply IH. by apply indexInv_addWord.
Qed.

Lemma indexInv_buildWords : indexInv p (buildWords p).
Proof. unfold buildWords. do 2 apply indexInv_fold. apply indexInv_init. Qed.
End IndexInvariant.

Lemma wordIdxAt_sound p r c d i :
  wordIdxAt p r c d = Some i ->
  exists w, words p !! i = Some w /\ direction w = d /\ (r, c) ∈ wcells w.
Proof. apply (inv_sound p _ (indexInv_buildWords p)). Qed.

Lemma wordIdxAt_complete p i w rc :
  words p !! i = Some w -> rc ∈ wcells w ->
  exists j, wordIdxAt p rc.1 rc.2 (direction w) = Some j /\ i <= j.
Proof. apply (inv_complete p _ (indexInv_buildWords p)). Qed.

Lemma cellToWords_shape p r c :
  is_Some (at2 (cellToWords p) r c) <-> inGrid p r c = true.
Proof. apply (inv_shape p _ (indexInv_buildWords p)). Qed.

(** ** Words and index together *)





(** Claim C3, as worded, fails: in [overlapPuzzle] the second cell lies in
    the cell sequence of word 0, but the index maps it to word 1. *)
Lemma index_not_exact_on_overlap : ~ index_exact overlapPuzzle.
Proof.
  intros H. specialize (H 0%Z 1%Z across 0).
  destruct H as [_ H].
  assert (Hw : inWord overlapPuzzle 0 across (0%Z, 1%Z)).
  { eexists. split; [by vm_compute|]. split; [done|]. simpl.
    apply elem_of_cons. right. apply elem_of_cons. by left. }
  apply H in Hw. vm_compute in Hw. discriminate.
Qed.

(** Claim C3 (amended).  [buildWords] makes one word per clue entry whose
    number labels a cell, in the order of the clues (Across, then Down), and
    skips the other entries; the cells of a word are the run of playable
    cells from the labelled cell rightward (across) or downward (down) up to
    a black cell or the edge of the grid, and the run is not empty.  The
    index maps a cell to a word id for a direction only if the cell lies in
    that word; a cell that lies in a word of a direction is mapped to the
    last such word; and the index maps a cell to a word id exactly when the
    cell lies in that word as soon as no two words of one direction share a
    cell. *)
Theorem buildWords_spec (p : PuzzleData) :
  (fun w => (number w, clue w, direction w)) <$> words p
    = ((fun e => (e.1, e.2, across)) <$> labelledEntries p (cluesAcross p))
      ++ ((fun e => (e.1, e.2, down)) <$> labelledEntries p (cluesDown p))
  /\ (forall n, is_Some (numberToPos p !! n) <->
                exists r c, inGrid p r c = true /\ puzzleAt p r c = Num n)
  /\ (forall i w, words p !! i = Some w ->
        id w = i /\
        exists r c k,
          inGrid p r c = true /\ puzzleAt p r c = Num (number w) /\ 0 < k /\
          wcells w = offsetCell (direction w) r c <$> seq 0 k /\
          (forall j, j < k ->
             isPlayable p (offsetCell (direction w) r c j).1
                          (offsetCell (direction w) r c j).2 = true) /\
          isPlayable p (offsetCell (direction w) r c k).1
                       (offsetCell (direction w) r c k).2 = false)
  /\ (forall r c d i, wordIdxAt p r c d = Some i -> inWord p i d (r, c))
  /\ (forall i d rc, inWord p i d rc ->
        exists j, wordIdxAt p rc.1 rc.2 d = Some j /\ i <= j)
  /\ (sameDirDisjoint p -> index_exact p).
Proof.
  split; [|split; [|split; [|split; [|split]]]].
  - rewrite words_eq, fmap_app, !wordsOfClues_entries. done.
  - apply numberToPos_is_Some.
  - intros i w Hw. split; [by apply words_lookup in Hw as [? _]|].
    destruct (word_run p i w Hw) as (r & c & k & _ & H).
    exists r, c, k. exact H.
  - intros r c d i. apply wordIdxAt_sound.
  - intros i d rc (w & Hw & <- & Hin). by eapply wordIdxAt_complete.
  - intros Hdis r c d i. split; [apply wordIdxAt_sound|].
    intros (w & Hw & <- & Hin).
    destruct (wordIdxAt_complete p i w (r, c) Hw Hin) as (j & Hj & _).
    simpl in Hj. destruct (wordIdxAt_sound p r c _ j Hj) as (w' & Hw' & Hd & Hin').
    rewrite (Hdis i j w w' (r, c)); done.
Qed.

Lemma offsetCell_inj d r c : Inj (=) (=) (offsetCell d r c).
Proof. intros i j H. destruct d; simpl in H; injection H; lia. Qed.

Lemma words_NoDup p i w : words p !! i = Some w -> NoDup (wcells w).
Proof.
  intros H. destruct (word_run p i w H) as (r & c & k & _ & _ & _ & _ & -> & _).
  apply NoDup_fmap_2; [apply offsetCell_inj|apply NoDup_seq].
Qed.

Lemma words_cells_playable p i w rc :
  words p !! i = Some w -> rc ∈ wcells w -> isPlayable p rc.1 rc.2 = true.
Proof.
  intros H Hin. apply words_lookup in H as (_ & pos & _ & Hc).
  rewrite Hc in Hin. by apply walk_playable in Hin.
Qed.

(** ** Views of the grid *)




Lemma skel_gridMap cs : skel cs = gridMap skeleton cs.
Proof. done. Qed.

Lemma at2_gridMap {B} (f : Cell -> B) cs r c :
  at2 (gridMap f cs) r c = f <$> at2 cs r c.
Proof. apply at2_fmap. Qed.

Lemma gridMap_alter2 {B} (f : Cell -> B) h r c cs :
  (forall x, f (h x) = f x) -> gridMap f (alter2 h r c cs) = gridMap f cs.
Proof. apply fmap2_alter2. Qed.

Lemma gridMap_fold_alter2 {B} {X} (f : Cell -> B) (h : X -> Cell -> Cell)
    (pos : X -> Coord) (l : list X) cs :
  (forall a x, f (h a x) = f x) ->
  gridMap f (fold_left (fun m a => alter2 (h a) (pos a).1 (pos a).2 m) l cs)
  = gridMap f cs.
Proof.
  intros Hk. revert cs. induction l as [|a l IH]; intros cs; simpl; [done|].
  rewrite IH. by apply gridMap_alter2.
Qed.

Lemma gridMap_map {B} (f : Cell -> B) (h : Cell -> Cell) cs :
  (forall x, f (h x) = f x) ->
  gridMap f ((fun line : list Cell => h <$> line) <$> cs) = gridMap f cs.
Proof.
  intros Hk. unfold gridMap. rewrite <- list_fmap_compose.
  apply list_fmap_ext. intros _ line _. simpl. rewrite <- list_fmap_compose.
  apply list_fmap_ext. intros _ x _. simpl. apply Hk.
Qed.

(** The other views are functions of the cores. *)
Lemma gridMap_from_cores {B} (g : bool * option Input -> B) cs cs' :
  cores cs' = cores cs -> gridMap (g ∘ cellCore) cs' = gridMap (g ∘ cellCore) cs.
Proof.
  intros H. unfold cores, gridMap in *.
  assert (E : forall l : list (list Cell),
     (fun line : list Cell => (g ∘ cellCore) <$> line) <$> l
     = (fun line : list (bool * option Input) => g <$> line) <$>
         ((fun line : list Cell => cellCore <$> line) <$> l)).
  { intros l. rewrite <- list_fmap_compose. apply list_fmap_ext. intros _ line _.
    simpl. by rewrite list_fmap_compose. }
  by rewrite !E, H.
Qed.

Lemma cores_skel cs cs' : cores cs' = cores cs -> skel cs' = skel cs.
Proof.
  intros H. apply (gridMap_from_cores (fun x => (x.1, bool_decide (x.2 = None)))) in H.
  exact H.
Qed.
Lemma cores_values cs cs' : cores cs' = cores cs -> values cs' = values cs.
Proof.
  intros H. apply (gridMap_from_cores (fun x => value <$> x.2)) in H. exact H.
Qed.
Lemma cores_locks cs cs' : cores cs' = cores cs -> locks cs' = locks cs.
Proof.
  intros H. apply (gridMap_from_cores (fun x => readOnly <$> x.2)) in H. exact H.
Qed.

Lemma getLetter_values cs r c :
  getLetter cs r c = default "" (mjoin (at2 (values cs) r c)).
Proof.
  unfold getLetter, getCell, values. rewrite at2_gridMap.
  destruct (at2 cs r c) as [cell|]; simpl; [|done].
  unfold pValue. by destruct (input cell).
Qed.

Lemma isLocked_locks cs r c :
  isLocked cs r c = default false (mjoin (at2 (locks cs) r c)).
Proof.
  unfold isLocked, getCell, locks. rewrite at2_gridMap.
  destruct (at2 cs r c) as [cell|]; simpl; [|done].
  unfold pLock. by destruct (input cell).
Qed.

Lemma getLetter_ext cs cs' r c : values cs' = values cs -> getLetter cs' r c = getLetter cs r c.
Proof. intros H. by rewrite !getLetter_values, H. Qed.
Lemma isLocked_ext cs cs' r c : locks cs' = locks cs -> isLocked cs' r c = isLocked cs r c.
Proof. intros H. by rewrite !isLocked_locks, H. Qed.

(** What the operations on cells keep. *)
Lemma cores_setCellClass r c k cs : cores (setCellClass r c k cs) = cores cs.
Proof. by apply gridMap_alter2. Qed.
Lemma cores_clearHighlights cs : cores (clearHighlights cs) = cores cs.
Proof. apply gridMap_map. intros x. by destruct (isBlack x). Qed.
Lemma cores_highlightWord p w cs : cores (highlightWord p w cs) = cores cs.
Proof.
  unfold highlightWord. destruct (w ≫= _) as [word|]; [|done].
  by apply (gridMap_fold_alter2 cellCore (fun _ => addClass Highlighted) (fun rc => rc)).
Qed.
Lemma values_lockCell r c cs : values (lockCell r c cs) = values cs.
Proof. apply gridMap_alter2. intros x. unfold pValue. simpl. by destruct (input x). Qed.
Lemma skel_lockCell r c cs : skel (lockCell r c cs) = skel cs.
Proof.
  apply gridMap_alter2. intros x. unfold skeleton. simpl. destruct (input x); done.
Qed.
Lemma locks_setLetter r c l cs : locks (setLetter r c l cs) = locks cs.
Proof.
  unfold setLetter. destruct (getCell cs r c) as [cell|]; [|done].
  destruct (isBlack cell); [done|].
  apply gridMap_alter2. intros x. unfold pLock. simpl. by destruct (input x).
Qed.
Lemma skel_setLetter r c l cs : skel (setLetter r c l cs) = skel cs.
Proof.
  unfold setLetter. destruct (getCell cs r c) as [cell|]; [|done].
  destruct (isBlack cell); [done|].
  apply gridMap_alter2. intros x. unfold skeleton. simpl. by destruct (input x).
Qed.

Lemma getLetter_setLetter r c l cs r' c' :
  getLetter (setLetter r c l cs) r' c' =
  if decide ((r, c) = (r', c')) then
    match getCell cs r c with
    | Some cell => if isBlack cell then getLetter cs r c
                   else match input cell with Some _ => l | None => "" end
    | None => ""
    end
  else getLetter cs r' c'.
Proof.
  unfold setLetter, getLetter, getCell.
  destruct (at2 cs r c) as [cell|] eqn:E.
  - destruct (isBlack cell) eqn:Hb.
    + case_decide as H; [|done]. injection H as <- <-. by rewrite E.
    + rewrite at2_alter2. case_decide as H; [|done]. injection H as <- <-.
      rewrite E. simpl. by destruct (input cell).
  - case_decide as H; [|done]. injection H as <- <-. by rewrite E.
Qed.

(** A letter written into a cell replaces what was written before. *)
Lemma setLetter_twice r c l v cs :
  setLetter r c l (setLetter r c v cs) = setLetter r c l cs.
Proof.
  unfold setLetter, getCell. destruct (at2 cs r c) as [cell|] eqn:E.
  - destruct (isBlack cell) eqn:Hb.
    + by rewrite E, Hb.
    + rewrite at2_alter2, decide_True, E by done. simpl. rewrite Hb.
      rewrite alter2_compose. apply alter2_ext. intros x.
      unfold setInput. simpl. f_equal. by destruct (input x).
  - by rewrite E.
Qed.

(** ** Navigation *)



Lemma navStep_refl s : navStep s s.
Proof. split; [done|done|]. exists []. by rewrite app_nil_r. Qed.

Lemma navStep_trans s1 s2 s3 : navStep s1 s2 -> navStep s2 s3 -> navStep s1 s3.
Proof.
  intros [Hc1 Hg1 (l1 & Hl1 & Hf1)] [Hc2 Hg2 (l2 & Hl2 & Hf2)].
  split; [congruence|congruence|].
  exists (l1 ++ l2). split; [by rewrite Hl2, Hl1, app_assoc|].
  by rewrite forallb_app, Hf1, Hf2.
Qed.

Section Nav.
Variable p : PuzzleData.

Lemma navStep_setActiveCell row col dir s : navStep s (setActiveCell p row col dir s).
Proof.
  split; simpl; [|done|eexists; split; [done|done]].
  rewrite cores_highlightWord. unfold cores. rewrite gridMap_alter2 by done.
  apply cores_clearHighlights.
Qed.

Lemma navStep_withDirection d s : navStep s (withDirection d s).
Proof. split; [done|done|]. exists []. by rewrite app_nil_r. Qed.

Lemma navStep_toggleDirection s : navStep s (toggleDirection p s).
Proof.
  unfold toggleDirection. destruct (wordIdxAt p _ _ _); [|apply navStep_refl].
  eapply navStep_trans; [apply navStep_withDirection|apply navStep_setActiveCell].
Qed.

Lemma navStep_moveToNextCell s : navStep s (moveToNextCell p s).
Proof.
  unfold moveToNextCell. destruct (getActiveWord p s); [|apply navStep_refl].
  destruct (_ <? _)%Z; [|apply navStep_refl].
  destruct (at_ _ _); [apply navStep_setActiveCell|apply navStep_refl].
Qed.

Lemma navStep_moveToPrevCell s : navStep s (moveToPrevCell p s).
Proof.
  unfold moveToPrevCell. destruct (getActiveWord p s); [|apply navStep_refl].
  destruct (_ <? _)%Z; [|apply navStep_refl].
  destruct (at_ _ _); [apply navStep_setActiveCell|apply navStep_refl].
Qed.

Lemma navStep_moveToNextWord reverse s : navStep s (moveToNextWord p reverse s).
Proof.
  unfold moveToNextWord. destruct (wordIdxAt p _ _ _); [|apply navStep_refl].
  destruct (at_ _ _); [|apply navStep_refl].
  destruct (entryCell _ _); [apply navStep_setActiveCell|apply navStep_refl].
Qed.

Lemma navStep_moveArrowFrom fuel dr dc r c s : navStep s (moveArrowFrom p fuel dr dc r c s).
Proof.
  revert r c. induction fuel as [|fuel IH]; intros r c; simpl; [apply navStep_refl|].
  destruct (inGrid p r c); [|apply navStep_refl].
  destruct (getCell _ _ _) as [cell|]; [|apply navStep_refl].
  destruct (isBlack cell); [apply IH|apply navStep_setActiveCell].
Qed.

Lemma navStep_moveArrow dr dc s : navStep s (moveArrow p dr dc s).
Proof. apply navStep_moveArrowFrom. Qed.

(** The scan of [moveArrow] never runs out of iterations: more of them
    change nothing. *)
Lemma moveArrowFrom_fuel fuel extra dr dc r c s :
  unitStep dr dc -> arrowRoom p dr dc r c < fuel ->
  moveArrowFrom p (fuel + extra) dr dc r c s = moveArrowFrom p fuel dr dc r c s.
Proof.
  intros Hu. revert r c. induction fuel as [|fuel IH]; intros r c Hroom; [lia|].
  simpl. unfold arrowRoom in Hroom.
  destruct (inGrid p r c) eqn:Hin; [|done].
  destruct (getCell (cells s) r c) as [cell|]; [|done].
  destruct (isBlack cell); [|done].
  apply IH. unfold arrowRoom.
  destruct (inGrid p (r + dr) (c + dc)) eqn:Hin'; unfold inGrid in *;
    destruct Hu as [[-> ->]|[[-> ->]|[[-> ->]|[-> ->]]]]; simpl in *; lia.
Qed.

Lemma moveArrow_fuel extra dr dc s :
  unitStep dr dc ->
  moveArrowFrom p (S (walkFuel p) + extra) dr dc
    (activeRow s + dr)%Z (activeCol s + dc)%Z s
  = moveArrow p dr dc s.
Proof.
  intros Hu. unfold moveArrow. apply moveArrowFrom_fuel; [done|].
  unfold arrowRoom, walkFuel.
  destruct (inGrid p (activeRow s + dr) (activeCol s + dc)) eqn:Hin; [|lia].
  unfold inGrid in Hin.
  destruct Hu as [[-> ->]|[[-> ->]|[[-> ->]|[-> ->]]]]; simpl; lia.
Qed.

Lemma navStep_handleCellFocus row col s : navStep s (handleCellFocus p row col s).
Proof.
  unfold handleCellFocus. destruct (_ && _); [apply navStep_refl|apply navStep_setActiveCell].
Qed.

Lemma navStep_handleClick row col s : navStep s (handleClick p row col s).
Proof.
  unfold handleClick. destruct (_ && _); [apply navStep_toggleDirection|apply navStep_refl].
Qed.

Lemma navStep_focusFirstCell s : navStep s (focusFirstCell p s).
Proof.
  unfold focusFirstCell. destruct (List.find _ _); [apply navStep_setActiveCell|apply navStep_refl].
Qed.

Lemma navStep_selectWord i s : navStep s (selectWord p i s).
Proof.
  unfold selectWord. destruct (words p !! i); [|apply navStep_refl].
  destruct (entryCell _ _); [apply navStep_setActiveCell|apply navStep_refl].
Qed.


End Nav.

(** ** Validation of a word *)

Section Validation.
Variable p : PuzzleData.
Context {stats : StatsEntry}.


Lemma values_lockWordCells word cs : values (lockWordCells word cs) = values cs.
Proof.
  unfold lockWordCells. generalize (wcells word) as l. intros l. revert cs.
  induction l as [|a l IH]; intros cs; simpl; [done|].
  rewrite IH, values_lockCell. apply cores_values, cores_setCellClass.
Qed.

Lemma skel_lockWordCells word cs : skel (lockWordCells word cs) = skel cs.
Proof.
  unfold lockWordCells. generalize (wcells word) as l. intros l. revert cs.
  induction l as [|a l IH]; intros cs; simpl; [done|].
  rewrite IH, skel_lockCell. apply cores_skel, cores_setCellClass.
Qed.

Lemma markWordCorrect_eq i a s word :
  words p !! i = Some word ->
  markWordCorrect p i a s =
  emit (WordCorrect i a) (withCells (lockWordCells word) s).
Proof. intros H. unfold markWordCorrect. by rewrite H. Qed.

Lemma values_markWordCorrect i a s :
  values (cells (markWordCorrect p i a s)) = values (cells s).
Proof.
  unfold markWordCorrect. destruct (words p !! i) as [word|]; [|done].
  simpl. apply values_lockWordCells.
Qed.

Lemma skel_markWordCorrect i a s :
  skel (cells (markWordCorrect p i a s)) = skel (cells s).
Proof.
  unfold markWordCorrect. destruct (words p !! i) as [word|]; [|done].
  simpl. apply skel_lockWordCells.
Qed.

Lemma game_markWordCorrect i a s : game (markWordCorrect p i a s) = game s.
Proof. unfold markWordCorrect. by destruct (words p !! i). Qed.

Lemma cells_checkCompletion now s : cells (checkCompletion p now s) = cells s.
Proof.
  unfold checkCompletion, checkCompletionE. destruct (completed (game s)); [done|].
  destruct (bool_decide _); [|done]. by destruct statsUpdatable.
Qed.

Lemma correctWords_checkCompletion now s :
  correctWords (game (checkCompletion p now s)) = correctWords (game s).
Proof.
  unfold checkCompletion, checkCompletionE. destruct (completed (game s)); [done|].
  destruct (bool_decide _); [|done]. by destruct statsUpdatable.
Qed.

Lemma checkWord_unfold now i s :
  checkWord p now i s =
  if bool_decide (i ∈ correctWords (game s)) then s
  else match words p !! i with
       | None => s
       | Some word =>
           if negb (allFilled (cells s) word) then s
           else if allCorrect p (cells s) word then validated p now i s else s
       end.
Proof.
  unfold checkWord, checkWordE, validated, checkCompletion.
  destruct (bool_decide _); [done|]. destruct (words p !! i) as [word|]; [|done].
  destruct (negb _); [done|]. by destruct (allCorrect _ _ _).
Qed.


Lemma forallb_elem_of {A} (f : A -> bool) (l : list A) :
  forallb f l = true <-> forall x, x ∈ l -> f x = true.
Proof.
  rewrite forallb_forall. split; intros H x Hx; apply H; by apply list_elem_of_In.
Qed.

Lemma allFilled_spec cs word :
  allFilled cs word = true <->
  forall rc, rc ∈ wcells word -> getLetter cs rc.1 rc.2 <> "".
Proof.
  unfold allFilled. rewrite forallb_elem_of. split; intros H rc Hrc.
  - apply H in Hrc. by apply negb_true_iff, bool_decide_eq_false in Hrc.
  - apply negb_true_iff, bool_decide_eq_false. by apply H.
Qed.

Lemma allCorrect_spec cs word :
  allCorrect p cs word = true <->
  forall rc, rc ∈ wcells word -> getLetter cs rc.1 rc.2 = solutionAt p rc.1 rc.2.
Proof.
  unfold allCorrect. rewrite forallb_elem_of. split; intros H rc Hrc.
  - apply H in Hrc. by apply bool_decide_eq_true in Hrc.
  - apply bool_decide_eq_true. by apply H.
Qed.

Lemma checkWord_cases now i s :
  checkWord p now i s = s \/
  ((i ∉ correctWords (game s)) /\
   exists word, words p !! i = Some word /\
     allFilled (cells s) word = true /\ allCorrect p (cells s) word = true /\
     checkWord p now i s = validated p now i s).
Proof.
  rewrite checkWord_unfold. case_bool_decide as Hin; [by left|].
  destruct (words p !! i) as [word|] eqn:Hw; [|by left].
  destruct (allFilled (cells s) word) eqn:Hf; simpl; [|by left].
  destruct (allCorrect p (cells s) word) eqn:Hc; [|by left].
  right. split; [done|]. by exists word.
Qed.

Lemma correctWords_validated now i s :
  correctWords (game (validated p now i s)) = correctWords (game s) ++ [i].
Proof.
  unfold validated. by rewrite correctWords_checkCompletion, game_markWordCorrect.
Qed.

Lemma values_checkWord now i s :
  values (cells (checkWord p now i s)) = values (cells s).
Proof.
  destruct (checkWord_cases now i s) as [->|(_ & _ & _ & _ & _ & ->)]; [done|].
  unfold validated. by rewrite cells_checkCompletion, values_markWordCorrect.
Qed.

Lemma skel_checkWord now i s :
  skel (cells (checkWord p now i s)) = skel (cells s).
Proof.
  destruct (checkWord_cases now i s) as [->|(_ & _ & _ & _ & _ & ->)]; [done|].
  unfold validated. by rewrite cells_checkCompletion, skel_markWordCorrect.
Qed.

(** *** Calls that throw *)

Lemma game_finish_emit r e : game (finish r (emit e)) = game (after r).
Proof. by destruct r. Qed.

Lemma cells_finish_emit r e : cells (finish r (emit e)) = cells (after r).
Proof. by destruct r. Qed.

Lemma finish_cases r f :
  finish r f = f (after r) \/ (threw r = true /\ finish r f = after r).
Proof. destruct r; [by left|by right]. Qed.

Lemma threw_andThen r f :
  threw (andThen r f) = true ->
  (threw r = true /\ andThen r f = r) \/
  (threw r = false /\ threw (f (after r)) = true).
Proof. destruct r; simpl; [by right|by left]. Qed.

Lemma checkCompletionE_interrupted now s :
  threw (checkCompletionE p now s) = true ->
  interrupted p s (checkCompletion p now s).
Proof.
  unfold checkCompletion, checkCompletionE. destruct (completed (game s)); [done|].
  case_bool_decide as Hn; [|done]. destruct statsUpdatable eqn:Hu; [done|].
  intros _. split; [done|]. split; [done|]. split; [done|]. by exists [].
Qed.

Lemma interrupted_after s1 s2 s3 :
  (exists l, log s2 = log s1 ++ l) -> interrupted p s2 s3 -> interrupted p s1 s3.
Proof.
  intros (l1 & E1) (H1 & H2 & H3 & l2 & E2).
  split; [done|]. split; [done|]. split; [done|].
  exists (l1 ++ l2). by rewrite E2, E1, <- !app_assoc.
Qed.

Lemma log_markWordCorrect i a s :
  exists l, log (markWordCorrect p i a s) = log s ++ l.
Proof.
  unfold markWordCorrect. destruct (words p !! i); [by eexists|].
  exists []. by rewrite app_nil_r.
Qed.

Lemma log_checkCompletion now s :
  exists l, log (checkCompletion p now s) = log s ++ l.
Proof.
  unfold checkCompletion, checkCompletionE.
  destruct (completed (game s)); [exists []; by rewrite app_nil_r|].
  destruct (bool_decide _); [|exists []; by rewrite app_nil_r].
  destruct statsUpdatable; simpl; rewrite <- ?app_assoc; by eexists.
Qed.

Lemma log_checkWord now i s :
  exists l, log (checkWord p now i s) = log s ++ l.
Proof.
  rewrite checkWord_unfold. destruct (bool_decide _); [exists []; by rewrite app_nil_r|].
  destruct (words p !! i); [|exists []; by rewrite app_nil_r].
  destruct (negb _); [exists []; by rewrite app_nil_r|].
  destruct (allCorrect _ _ _); [|exists []; by rewrite app_nil_r].
  unfold validated.
  destruct (log_checkCompletion now (markWordCorrect p i true (withGame (pushCorrect i) s)))
    as (l2 & ->).
  destruct (log_markWordCorrect i true (withGame (pushCorrect i) s)) as (l1 & ->).
  exists (l1 ++ l2). by rewrite app_assoc.
Qed.

Lemma checkWordE_interrupted now i s :
  threw (checkWordE p now i s) = true -> interrupted p s (checkWord p now i s).
Proof.
  unfold checkWord, checkWordE. destruct (bool_decide _); [done|].
  destruct (words p !! i) as [word|]; [|done]. destruct (negb _); [done|].
  destruct (allCorrect _ _ _); [|done]. intros H.
  eapply interrupted_after; [|by apply checkCompletionE_interrupted].
  apply (log_markWordCorrect i true (withGame (pushCorrect i) s)).
Qed.

(** What holds along the calls of [checkWord] holds for the two checks of
    [onLetterInput] and [revealLetter], and for the last loop of
    [revealAll], whether they are left by an exception or not. *)
Section Chain.
Variable R : Session -> Session -> Prop.
Variable now : Z.
Hypothesis R_refl : forall s, R s s.
Hypothesis R_trans : forall s1 s2 s3, R s1 s2 -> R s2 s3 -> R s1 s3.
Hypothesis R_checkWord : forall i s, R s (checkWord p now i s).

Lemma checkWordsAt_chain row col s : R s (checkWordsAt p now row col s).
Proof.
  unfold checkWordsAt, checkWordsAtE. destruct (at2 _ _ _) as [cw|]; [|apply R_refl].
  assert (H1 : R s (after (match cw_across cw with
                           | Some i => checkWordE p now i s
                           | None => Done s
                           end))).
  { destruct (cw_across cw); [apply R_checkWord|apply R_refl]. }
  destruct (match cw_across cw with Some i => _ | None => _ end) as [s1|s1];
    simpl in *; [|done].
  eapply R_trans; [exact H1|].
  destruct (cw_down cw); [apply R_checkWord|apply R_refl].
Qed.

Lemma checkOpenWords_chain l s : R s (after (checkOpenWords p now l s)).
Proof.
  revert s. induction l as [|i l IH]; intros s; simpl; [apply R_refl|].
  destruct (bool_decide _); simpl; [apply IH|].
  pose proof (R_checkWord i s) as H. unfold checkWord in H.
  destruct (checkWordE p now i s) as [s1|s1]; simpl in *; [|done].
  eapply R_trans; [exact H|apply IH].
Qed.
End Chain.

Lemma checkWordsAtE_interrupted now row col s :
  threw (checkWordsAtE p now row col s) = true ->
  interrupted p s (checkWordsAt p now row col s).
Proof.
  unfold checkWordsAt, checkWordsAtE. destruct (at2 _ _ _) as [cw|]; [|done].
  intros [[H ->]|[H1 H2]]%threw_andThen.
  - destruct (cw_across cw); [by apply checkWordE_interrupted|done].
  - assert (Hl : exists l, log (after (match cw_across cw with
                                       | Some i => checkWordE p now i s
                                       | None => Done s
                                       end)) = log s ++ l).
    { destruct (cw_across cw); [apply log_checkWord|].
      exists []. by rewrite app_nil_r. }
    destruct (match cw_across cw with Some i => _ | None => _ end) as [s1|s1];
      simpl in *; [|done].
    eapply interrupted_after; [exact Hl|].
    destruct (cw_down cw); [by apply checkWordE_interrupted|done].
Qed.

Lemma checkOpenWords_interrupted now l s :
  threw (checkOpenWords p now l s) = true ->
  interrupted p s (after (checkOpenWords p now l s)).
Proof.
  revert s. induction l as [|i l IH]; intros s; simpl; [done|].
  destruct (bool_decide _); simpl; [apply IH|].
  pose proof (checkWordE_interrupted now i s) as H.
  pose proof (log_checkWord now i s) as Hl. unfold checkWord in H, Hl.
  destruct (checkWordE p now i s) as [s1|s1]; simpl in *; [|done].
  intros Ht. eapply interrupted_after; [exact Hl|by apply IH].
Qed.

Lemma values_checkWordsAt now row col s :
  values (cells (checkWordsAt p now row col s)) = values (cells s).
Proof.
  apply (checkWordsAt_chain (fun s s' => values (cells s') = values (cells s)));
    [done|congruence|]. intros. apply values_checkWord.
Qed.

Lemma skel_checkWordsAt now row col s :
  skel (cells (checkWordsAt p now row col s)) = skel (cells s).
Proof.
  apply (checkWordsAt_chain (fun s s' => skel (cells s') = skel (cells s)));
    [done|congruence|]. intros. apply skel_checkWord.
Qed.

Lemma onLetterInput_eq now row col letter s :
  onLetterInput p now row col letter s =
  finish (checkWordsAtE p now row col
            (storeLetter row col letter (startClock now s)))
         (emit ScheduleSave).
Proof.
  unfold onLetterInput, onLetterInputE.
  fold (startClock now s). fold (storeLetter row col letter (startClock now s)).
  by destruct (checkWordsAtE _ _ _ _ _).
Qed.

(** [onLetterInput] is left before [scheduleSave] when a check throws. *)
Lemma onLetterInput_cases now row col letter s :
  let s2 := checkWordsAt p now row col
              (storeLetter row col letter (startClock now s)) in
  (threw (onLetterInputE p now row col letter s) = false /\
   onLetterInput p now row col letter s = emit ScheduleSave s2) \/
  (threw (onLetterInputE p now row col letter s) = true /\
   onLetterInput p now row col letter s = s2 /\
   interrupted p (storeLetter row col letter (startClock now s)) s2).
Proof.
  cbv zeta. unfold onLetterInput, onLetterInputE, checkWordsAt.
  fold (startClock now s). fold (storeLetter row col letter (startClock now s)).
  pose proof (checkWordsAtE_interrupted now row col
                (storeLetter row col letter (startClock now s))) as H.
  unfold checkWordsAt in H.
  destruct (checkWordsAtE p now row col _) as [s2|s2]; simpl in *; [by left|].
  right. auto.
Qed.

Lemma values_onLetterInput now row col letter s :
  values (cells (onLetterInput p now row col letter s)) = values (cells s).
Proof.
  destruct (onLetterInput_cases now row col letter s) as [[_ ->]|(_ & -> & _)];
    simpl; rewrite values_checkWordsAt; unfold storeLetter, startClock;
    destruct (bool_decide _), (falsyTime _); done.
Qed.

Lemma skel_onLetterInput now row col letter s :
  skel (cells (onLetterInput p now row col letter s)) = skel (cells s).
Proof.
  destruct (onLetterInput_cases now row col letter s) as [[_ ->]|(_ & -> & _)];
    simpl; rewrite skel_checkWordsAt; unfold storeLetter, startClock;
    destruct (bool_decide _), (falsyTime _); done.
Qed.

Lemma occurrences_app f l1 l2 :
  occurrences f (l1 ++ l2) = occurrences f l1 + occurrences f l2.
Proof. unfold occurrences. by rewrite List.filter_app, length_app. Qed.

Lemma log_validated now i s word :
  words p !! i = Some word ->
  exists l, log (validated p now i s) = log s ++ WordCorrect i true :: l /\
            occurrences (isWordCorrect i) l = 0.
Proof.
  intros Hw. unfold validated. rewrite (markWordCorrect_eq _ _ _ _ Hw).
  unfold checkCompletion, checkCompletionE. simpl. destruct (completed (game s)); simpl.
  - exists []. done.
  - destruct (bool_decide _); simpl.
    + destruct statsUpdatable; simpl.
      * eexists. rewrite <- !app_assoc. simpl. split; [done|]. done.
      * eexists. rewrite <- !app_assoc. simpl. split; [done|]. done.
    + exists []. done.
Qed.

Lemma checkWord_outcome now i s :
  let s' := checkWord p now i s in
  (i ∈ correctWords (game s) -> s' = s) /\
  (forall word, words p !! i = Some word -> i ∉ correctWords (game s) ->
     (i ∈ correctWords (game s') <->
        forall rc, rc ∈ wcells word ->
          getLetter (cells s) rc.1 rc.2 <> "" /\
          getLetter (cells s) rc.1 rc.2 = solutionAt p rc.1 rc.2) /\
     (i ∈ correctWords (game s') ->
        correctWords (game s') = correctWords (game s) ++ [i] /\
        occurrences (isWordCorrect i) (log s')
          = S (occurrences (isWordCorrect i) (log s))) /\
     (i ∉ correctWords (game s') -> s' = s) /\
     ((exists rc, rc ∈ wcells word /\ getLetter (cells s) rc.1 rc.2 = "") -> s' = s)).
Proof.
  simpl. split.
  { intros Hin. rewrite checkWord_unfold. by rewrite bool_decide_eq_true_2. }
  intros word Hw Hnin.
  assert (Hchar : (forall rc, rc ∈ wcells word ->
            getLetter (cells s) rc.1 rc.2 <> "" /\
            getLetter (cells s) rc.1 rc.2 = solutionAt p rc.1 rc.2) <->
          allFilled (cells s) word = true /\ allCorrect p (cells s) word = true).
  { rewrite allFilled_spec, allCorrect_spec. naive_solver. }
  destruct (checkWord_cases now i s) as [E|(_ & word' & Hw' & Hf & Hc & E)].
  - assert (Hno : ~ (allFilled (cells s) word = true /\ allCorrect p (cells s) word = true)).
    { intros [Hf Hc]. revert E. rewrite checkWord_unfold.
      rewrite bool_decide_eq_false_2, Hw, Hf, Hc by done. simpl.
      intros E. apply Hnin. rewrite <- E at 1.
      rewrite correctWords_validated.
      apply elem_of_app. right. by left. }
    rewrite E. split; [|split; [|split]]; try done.
    split; [done|]. intros H. by apply Hchar in H.
  - assert (word' = word) as -> by congruence.
    assert (Hin' : i ∈ correctWords (game (checkWord p now i s))).
    { rewrite E, correctWords_validated. apply elem_of_app. right. by left. }
    split; [|split; [|split]].
    + split; [intros _; by apply Hchar|done].
    + intros _. split; [by rewrite E, correctWords_validated|].
      rewrite E. destruct (log_validated now i s word Hw) as (l & -> & Hl).
      rewrite occurrences_app. change (WordCorrect i true :: l) with ([WordCorrect i true] ++ l).
      rewrite occurrences_app, Hl. unfold occurrences at 2. simpl.
      rewrite bool_decide_eq_true_2 by done. simpl. lia.
    + done.
    + intros (rc & Hrc & Hempty). pose proof (proj1 (allFilled_spec _ _) Hf rc Hrc). done.
Qed.
End Validation.

(** ** Hints *)

Lemma filter_ext_in {A} (P1 P2 : A -> Prop)
    `{!forall x, Decision (P1 x), !forall x, Decision (P2 x)} (l : list A) :
  (forall x, x ∈ l -> P1 x <-> P2 x) -> filter P1 l = filter P2 l.
Proof.
  induction l as [|a l IH]; intros Hext; [done|].
  rewrite !filter_cons. rewrite IH by (intros x Hx; apply Hext; by right).
  destruct (decide (P1 a)) as [H1|H1], (decide (P2 a)) as [H2|H2]; try done;
    exfalso; pose proof (Hext a ltac:(by left)); tauto.
Qed.

Lemma length_filter_complement {A} (P : A -> Prop) `{!forall x, Decision (P x)}
    (l : list A) :
  length (filter (fun x => ~ P x) l) = length l - length (filter P l).
Proof.
  pose proof (filter_app_complement P l) as Hperm.
  apply Permutation_length in Hperm. rewrite length_app in Hperm. lia.
Qed.

Section Reveal.
Variable p : PuzzleData.
Context {stats : StatsEntry}.





Lemma unlocked_stable : stableGuard unlocked.
Proof. intros cs cs' rc Hl _. unfold unlocked. by rewrite (isLocked_ext cs cs'). Qed.

Lemma revealable_stable : stableGuard revealable.
Proof.
  intros cs cs' rc Hl Hs. unfold revealable, getCell.
  rewrite (isLocked_ext cs cs') by done.
  pose proof (at2_skel cs rc.1 rc.2) as H1. pose proof (at2_skel cs' rc.1 rc.2) as H2.
  rewrite Hs, H1 in H2.
  destruct (at2 cs rc.1 rc.2) as [x|], (at2 cs' rc.1 rc.2) as [y|]; simpl in H2; try done.
  injection H2 as Hb _. by rewrite Hb.
Qed.

Lemma revealWord_loop s word :
  fold_left (revealWordCell p) (wcells word) s = revealLoop p unlocked (wcells word) s.
Proof.
  unfold revealLoop. generalize (wcells word). intros l. revert s.
  induction l as [|a l IH]; intros s; simpl; [done|].
  rewrite <- IH. f_equal. unfold revealWordCell, unlocked. by destruct (isLocked _ _ _).
Qed.

Lemma revealAll_loop s :
  fold_left (revealAllCell p) (allCoords p) s = revealLoop p revealable (allCoords p) s.
Proof.
  unfold revealLoop. generalize (allCoords p). intros l. revert s.
  induction l as [|a l IH]; intros s; simpl; [done|].
  rewrite <- IH. f_equal. unfold revealAllCell, revealable.
  destruct (getCell _ _ _) as [cell|]; [|done]. by destruct (_ || _).
Qed.

Lemma locks_revealCell s rc : locks (cells (revealCell p s rc)) = locks (cells s).
Proof.
  unfold revealCell. simpl.
  destruct (bool_decide _); simpl;
    (etrans; [apply cores_locks, cores_setCellClass|apply locks_setLetter]).
Qed.

Lemma skel_revealCell s rc : skel (cells (revealCell p s rc)) = skel (cells s).
Proof.
  unfold revealCell. simpl.
  destruct (bool_decide _); simpl;
    (etrans; [apply cores_skel, cores_setCellClass|apply skel_setLetter]).
Qed.

Lemma hints_revealCell s rc :
  hintsUsed (game (revealCell p s rc))
  = hintsUsed (game s) + (if bool_decide (rc ∈ revealed (game s)) then 0 else 1).
Proof.
  unfold revealCell. simpl. destruct (bool_decide (rc ∈ revealed (game s))); simpl; lia.
Qed.

Lemma revealed_revealCell s rc :
  revealed (game (revealCell p s rc)) = {[rc]} ∪ revealed (game s).
Proof.
  unfold revealCell. simpl. case_bool_decide as H; simpl; [|done]. set_solver.
Qed.

Lemma log_revealCell s rc : log (revealCell p s rc) = log s.
Proof. unfold revealCell. simpl. by destruct (bool_decide _). Qed.

Lemma nav_revealCell s rc :
  activeRow (revealCell p s rc) = activeRow s /\
  activeCol (revealCell p s rc) = activeCol s /\
  activeDirection (revealCell p s rc) = activeDirection s.
Proof. unfold revealCell. simpl. by destruct (bool_decide _). Qed.


Lemma sameProgress_trans g1 g2 g3 :
  sameProgress g1 g2 -> sameProgress g2 g3 -> sameProgress g1 g3.
Proof.
  intros (A1 & A2 & A3 & A4) (B1 & B2 & B3 & B4).
  repeat split; etrans; eassumption.
Qed.

Lemma progress_revealCell s rc : sameProgress (game s) (game (revealCell p s rc)).
Proof. unfold revealCell. simpl. by destruct (bool_decide _). Qed.

Lemma revealLoop_spec g l s :
  stableGuard g -> NoDup l ->
  let s' := revealLoop p g l s in
  hintsUsed (game s') = hintsUsed (game s)
    + length (filter (fun rc => g (cells s) rc = true /\ rc ∉ revealed (game s)) l) /\
  revealed (game s') = revealed (game s)
    ∪ list_to_set (filter (fun rc => g (cells s) rc = true) l) /\
  locks (cells s') = locks (cells s) /\ skel (cells s') = skel (cells s) /\
  sameProgress (game s) (game s') /\ log s' = log s.
Proof.
  intros Hg. revert s. induction l as [|a l IH]; intros s Hnd; simpl.
  { split; [lia|]. split; [set_solver|]. done. }
  apply NoDup_cons in Hnd as [Hna Hnd].
  set (s1 := if g (cells s) a then revealCell p s a else s).
  destruct (IH s1 Hnd) as (Hh & Hr & Hl & Hs & Hp & Hlog).
  assert (Hl1 : locks (cells s1) = locks (cells s)).
  { unfold s1. destruct (g (cells s) a); [apply locks_revealCell|done]. }
  assert (Hs1 : skel (cells s1) = skel (cells s)).
  { unfold s1. destruct (g (cells s) a); [apply skel_revealCell|done]. }
  assert (Hg1 : forall rc, g (cells s1) rc = g (cells s) rc).
  { intros rc. by apply Hg. }
  assert (Hr1 : revealed (game s1) =
                if g (cells s) a then {[a]} ∪ revealed (game s) else revealed (game s)).
  { unfold s1. destruct (g (cells s) a); [apply revealed_revealCell|done]. }
  assert (Hfilt : filter (fun rc => g (cells s1) rc = true /\ rc ∉ revealed (game s1)) l
                  = filter (fun rc => g (cells s) rc = true /\ rc ∉ revealed (game s)) l).
  { apply filter_ext_in. intros rc Hrc. rewrite Hg1, Hr1.
    destruct (g (cells s) a); [|done].
    assert (rc <> a) by (intros ->; done). set_solver. }
  assert (Hfilt2 : filter (fun rc => g (cells s1) rc = true) l
                   = filter (fun rc => g (cells s) rc = true) l).
  { apply list_filter_iff. intros rc. by rewrite Hg1. }
  fold (revealLoop p g l s1).
  split; [|split; [|split; [|split; [|split]]]].
  - rewrite Hh, Hfilt. rewrite filter_cons. unfold s1.
    destruct (g (cells s) a) eqn:Ha.
    + rewrite hints_revealCell. case_bool_decide as Hin.
      * rewrite decide_False by tauto. simpl. lia.
      * rewrite decide_True by done. simpl. lia.
    + rewrite decide_False by (intros [? _]; done). done.
  - rewrite Hr, Hfilt2, Hr1. rewrite filter_cons.
    destruct (g (cells s) a) eqn:Ha.
    + rewrite decide_True by done. set_solver.
    + rewrite decide_False by done. done.
  - congruence.
  - congruence.
  - unfold s1 in Hp. destruct (g (cells s) a); [|done].
    eapply sameProgress_trans; [apply progress_revealCell|exact Hp].
  - rewrite Hlog. unfold s1. destruct (g (cells s) a); [apply log_revealCell|done].
Qed.

(** Fields of the game state that validation leaves alone. *)
Lemma hints_checkCompletion now s :
  hintsUsed (game (checkCompletion p now s)) = hintsUsed (game s) /\
  revealed (game (checkCompletion p now s)) = revealed (game s) /\
  startTime (game (checkCompletion p now s)) = startTime (game s).
Proof.
  unfold checkCompletion, checkCompletionE. destruct (completed (game s)); [done|].
  destruct (bool_decide _); [|done]. by destruct statsUpdatable.
Qed.

Lemma hints_checkWord now i s :
  hintsUsed (game (checkWord p now i s)) = hintsUsed (game s) /\
  revealed (game (checkWord p now i s)) = revealed (game s) /\
  startTime (game (checkWord p now i s)) = startTime (game s).
Proof.
  destruct (checkWord_cases p now i s) as [->|(_ & _ & _ & _ & _ & ->)]; [done|].
  unfold validated.
  destruct (hints_checkCompletion now (markWordCorrect p i true (withGame (pushCorrect i) s)))
    as (-> & -> & ->).
  by rewrite game_markWordCorrect.
Qed.

Lemma getActiveWord_word s word :
  getActiveWord p s = Some word -> words p !! id word = Some word.
Proof.
  unfold getActiveWord. destruct (_ <? _)%Z; [done|].
  destruct (wordIdxAt p _ _ _) as [i|]; simpl; [|done].
  intros H. by rewrite (proj1 (words_lookup p i word H)).
Qed.

Lemma revealWord_count now s :
  let s' := revealWord p now s in
  (getActiveWord p s = None -> s' = s) /\
  (forall word, getActiveWord p s = Some word ->
     (id word ∈ correctWords (game s) -> s' = s) /\
     (id word ∉ correctWords (game s) ->
        hintsUsed (game s') = hintsUsed (game s)
          + length (filter (fun rc => isLocked (cells s) rc.1 rc.2 = false /\
                                      rc ∉ revealed (game s)) (wcells word)) /\
        revealed (game s') = revealed (game s)
          ∪ list_to_set (filter (fun rc => isLocked (cells s) rc.1 rc.2 = false)
                                (wcells word)) /\
        ((forall rc, rc ∈ wcells word -> isLocked (cells s) rc.1 rc.2 = false) ->
         hintsUsed (game s') = hintsUsed (game s)
           + (length (wcells word)
              - length (filter (fun rc => rc ∈ revealed (game s)) (wcells word)))))).
Proof.
  simpl. unfold revealWord. split; [by intros ->|].
  intros word Hw. rewrite Hw. split.
  { intros Hin. by rewrite bool_decide_eq_true_2. }
  intros Hnin. rewrite bool_decide_eq_false_2 by done.
  rewrite game_finish_emit. fold (checkWord p now (id word)
                (fold_left (revealWordCell p) (wcells word) s)).
  destruct (hints_checkWord now (id word) (fold_left (revealWordCell p) (wcells word) s))
    as (-> & -> & _).
  rewrite revealWord_loop.
  pose proof (getActiveWord_word s word Hw) as Hlk.
  pose proof (words_NoDup p _ _ Hlk) as Hnd.
  destruct (revealLoop_spec unlocked (wcells word) s unlocked_stable Hnd)
    as (Hh & Hr & _).
  assert (E1 : filter (fun rc => unlocked (cells s) rc = true /\ rc ∉ revealed (game s))
                 (wcells word)
               = filter (fun rc => isLocked (cells s) rc.1 rc.2 = false /\
                                   rc ∉ revealed (game s)) (wcells word)).
  { apply list_filter_iff. intros rc. unfold unlocked. by rewrite negb_true_iff. }
  assert (E2 : filter (fun rc => unlocked (cells s) rc = true) (wcells word)
               = filter (fun rc => isLocked (cells s) rc.1 rc.2 = false) (wcells word)).
  { apply list_filter_iff. intros rc. unfold unlocked. by rewrite negb_true_iff. }
  rewrite E1 in Hh. rewrite E2 in Hr.
  split; [done|]. split; [done|].
  intros Hall. rewrite Hh. f_equal.
  assert (E3 : filter (fun rc => isLocked (cells s) rc.1 rc.2 = false /\
                                 rc ∉ revealed (game s)) (wcells word)
               = filter (fun rc => rc ∉ revealed (game s)) (wcells word)).
  { apply filter_ext_in. intros rc Hrc. specialize (Hall rc Hrc). tauto. }
  rewrite E3.
  apply (length_filter_complement (fun rc => rc ∈ revealed (game s))).
Qed.
End Reveal.

(** ** Progress relations *)













Lemma game_ok_inv p g : game_ok p g = true <-> gameInv p g.
Proof.
  unfold game_ok, gameInv. rewrite !andb_true_iff, bool_decide_eq_true, forallb_elem_of.
  split.
  - intros [[H1 H2] H3]. split; [done|]. split.
    + intros i Hi. apply H2 in Hi. by apply Nat.ltb_lt in Hi.
    + intros Hc. rewrite Hc in H3. simpl in H3. by apply Nat.eqb_eq in H3.
  - intros (H1 & H2 & H3). split; [split; [done|]|].
    + intros i Hi. apply Nat.ltb_lt. by apply H2.
    + destruct (completed g); [|done]. simpl. apply Nat.eqb_eq. by apply H3.
Qed.

Lemma NoDup_bounded_length (l : list nat) (n : nat) :
  NoDup l -> (forall i, i ∈ l -> i < n) -> length l <= n.
Proof.
  intros Hnd Hb.
  assert (H : length l <= length (seq 0 n)).
  { apply submseteq_length, NoDup_submseteq; [done|].
    intros i Hi. apply elem_of_seq. apply Hb in Hi. lia. }
  by rewrite length_seq in H.
Qed.

Lemma count_le_total p g :
  gameInv p g -> length (correctWords g) <= length (words p).
Proof. intros (Hnd & Hb & _). by apply NoDup_bounded_length. Qed.

Lemma occurrences_quiet f l :
  (forall e, f e = true -> counted e = true) ->
  forallb (fun e => negb (counted e)) l = true -> occurrences f l = 0.
Proof.
  intros Hf Hl. unfold occurrences. induction l as [|e l IH]; [done|].
  simpl in *. apply andb_true_iff in Hl as [He Hl].
  destruct (f e) eqn:E; [|by apply IH].
  apply Hf in E. by rewrite E in He.
Qed.

Lemma counted_complete e : isComplete e = true -> counted e = true.
Proof. by destruct e. Qed.
Lemma counted_stats e : isStatsUpdate e = true -> counted e = true.
Proof. by destruct e. Qed.
Lemma counted_save e : isSaveProgress e = true -> counted e = true.
Proof. by destruct e. Qed.
Lemma counted_timer e : isTimerStart e = true -> counted e = true.
Proof. by destruct e. Qed.

Lemma quiet_refl s : quiet s s.
Proof. split; [done|done|]. exists []. by rewrite app_nil_r. Qed.

Lemma quiet_trans s1 s2 s3 : quiet s1 s2 -> quiet s2 s3 -> quiet s1 s3.
Proof.
  intros [Hs1 Hp1 (l1 & Hl1 & Hf1)] [Hs2 Hp2 (l2 & Hl2 & Hf2)].
  split; [congruence|by eapply sameProgress_trans|].
  exists (l1 ++ l2). split; [by rewrite Hl2, Hl1, app_assoc|].
  by rewrite forallb_app, Hf1, Hf2.
Qed.

Lemma navStep_quiet s s' : navStep s s' -> quiet s s'.
Proof.
  intros [Hc Hg (l & Hl & Hf)]. split.
  - by apply cores_skel.
  - by rewrite Hg.
  - exists l. split; [done|]. apply forallb_elem_of. intros e He.
    pose proof (proj1 (forallb_elem_of _ _) Hf e He) as H. by destruct e.
Qed.

Lemma reaches_same p s s' :
  validatedCount s' = validatedCount s -> reaches p s s' = false.
Proof. unfold reaches. intros ->. by destruct (_ =? _). Qed.

Lemma advances_refl p {stats : StatsEntry} now s :
  gameInv p (game s) -> advances p now s s.
Proof.
  intros Hi. pose proof (reaches_same p s s eq_refl) as Hr.
  split; rewrite ?Hr; simpl; try done; try lia. by rewrite orb_false_r.
Qed.

Lemma evolves_refl p {stats : StatsEntry} now s : evolves p now s s.
Proof. split; [done|]. apply advances_refl. Qed.

Lemma reaches_compose p s1 s2 s3 :
  validatedCount s1 <= validatedCount s2 -> validatedCount s2 <= validatedCount s3 ->
  validatedCount s3 <= length (words p) ->
  bump (reaches p s1 s3) = bump (reaches p s1 s2) + bump (reaches p s2 s3) /\
  reaches p s1 s3 = reaches p s1 s2 || reaches p s2 s3 /\
  (reaches p s1 s2 = true -> reaches p s2 s3 = false).
Proof.
  unfold reaches. intros H1 H2 H3.
  destruct (validatedCount s1 =? length (words p)) eqn:E1;
  destruct (validatedCount s2 =? length (words p)) eqn:E2;
  destruct (validatedCount s3 =? length (words p)) eqn:E3; simpl; try done;
  rewrite ?Nat.eqb_eq, ?Nat.eqb_neq in *; lia.
Qed.

Lemma advances_trans p {stats : StatsEntry} now s1 s2 s3 :
  advances p now s1 s2 -> advances p now s2 s3 -> advances p now s1 s3.
Proof.
  intros [A1 A2 A3 A4 A5 A6 A7] [B1 B2 B3 B4 B5 B6 B7].
  pose proof (count_le_total p _ B1) as Hle.
  destruct (reaches_compose p s1 s2 s3 A2 B2 Hle) as (Hb & Hr & Hx).
  assert (Hb' : bump (reaches p s1 s3 && statsUpdatable)
                = bump (reaches p s1 s2 && statsUpdatable)
                  + bump (reaches p s2 s3 && statsUpdatable)).
  { destruct statsUpdatable; [by rewrite !andb_true_r|by rewrite !andb_false_r]. }
  split; try done.
  - lia.
  - rewrite B3, A3, Hb'. lia.
  - rewrite B4, A4, Hb'. lia.
  - rewrite B5, A5, Hb. lia.
  - rewrite B6, A6, Hr. by rewrite orb_assoc.
  - rewrite B7, A7, Hr. destruct (reaches p s1 s2) eqn:E; simpl.
    + by rewrite Hx.
    + done.
Qed.

Lemma evolves_trans p {stats : StatsEntry} now s1 s2 s3 :
  evolves p now s1 s2 -> evolves p now s2 s3 -> evolves p now s1 s3.
Proof.
  intros [Hs1 Ha1] [Hs2 Ha2]. split; [congruence|].
  intros Hi. specialize (Ha1 Hi). eapply advances_trans; [done|].
  apply Ha2. apply Ha1.
Qed.

Lemma quiet_evolves p {stats : StatsEntry} now s s' :
  quiet s s' -> evolves p now s s'.
Proof.
  intros [Hs (Hcw & Hc & Hat & _) (l & Hl & Hf)]. split; [done|].
  intros (Hnd & Hb & Hfull).
  assert (Hcount : validatedCount s' = validatedCount s).
  { unfold validatedCount. by rewrite Hcw. }
  pose proof (reaches_same p s s' Hcount) as Hr.
  split; rewrite ?Hr; simpl.
  - unfold gameInv. rewrite Hcw, Hc. done.
  - lia.
  - rewrite Hl, occurrences_app, (occurrences_quiet _ l counted_complete Hf). lia.
  - rewrite Hl, occurrences_app, (occurrences_quiet _ l counted_stats Hf). lia.
  - rewrite Hl, occurrences_app, (occurrences_quiet _ l counted_save Hf). lia.
  - by rewrite Hc, orb_false_r.
  - done.
Qed.

Lemma quiet_timer s s' : quiet s s' -> timerQuiet s s'.
Proof.
  intros [_ (_ & _ & _ & Hst) (l & Hl & Hf)]. split; [done|].
  rewrite Hl, occurrences_app, (occurrences_quiet _ l counted_timer Hf). lia.
Qed.


Lemma timerQuiet_trans s1 s2 s3 : timerQuiet s1 s2 -> timerQuiet s2 s3 -> timerQuiet s1 s3.
Proof. intros [A1 A2] [B1 B2]. split; congruence. Qed.



(** ** Every operation advances the session *)

Lemma sameProgress_refl g : sameProgress g g.
Proof. done. Qed.

Lemma quiet_withCells f s :
  skel (f (cells s)) = skel (cells s) -> quiet s (withCells f s).
Proof. intros H. split; [done|done|]. exists []. by rewrite app_nil_r. Qed.

Lemma quiet_withGame f s :
  sameProgress (game s) (f (game s)) -> quiet s (withGame f s).
Proof. intros H. split; [done|done|]. exists []. by rewrite app_nil_r. Qed.

Lemma quiet_emit e s : counted e = false -> quiet s (emit e s).
Proof.
  intros H. split; [done|done|]. exists [e]. split; [done|]. simpl. by rewrite H.
Qed.

Section Progress.
Variable p : PuzzleData.
Context {stats : StatsEntry}.

Lemma quiet_markWordCorrect i a s : quiet s (markWordCorrect p i a s).
Proof.
  split.
  - apply skel_markWordCorrect.
  - by rewrite game_markWordCorrect.
  - unfold markWordCorrect. destruct (words p !! i).
    + by exists [WordCorrect i a].
    + exists []. by rewrite app_nil_r.
Qed.

Lemma quiet_setLetter row col letter s :
  quiet s (withCells (setLetter row col letter) s).
Proof. apply quiet_withCells, skel_setLetter. Qed.

Lemma quiet_revealCell s rc : quiet s (revealCell p s rc).
Proof.
  split.
  - apply skel_revealCell.
  - apply progress_revealCell.
  - exists []. by rewrite log_revealCell, app_nil_r.
Qed.

Lemma quiet_revealLoop g l s : quiet s (revealLoop p g l s).
Proof.
  revert s. induction l as [|a l IH]; intros s; [apply quiet_refl|].
  simpl. eapply quiet_trans; [|apply IH].
  destruct (g (cells s) a); [apply quiet_revealCell|apply quiet_refl].
Qed.

Lemma quiet_updateElapsed secs s : quiet s (updateElapsed secs s).
Proof. by apply quiet_withGame. Qed.

(** *** A word becomes validated *)

Lemma evolves_validated now i s word :
  words p !! i = Some word -> i ∉ correctWords (game s) ->
  evolves p now s (validated p now i s).
Proof.
  intros Hw Hnin. split.
  { unfold validated. by rewrite cells_checkCompletion, skel_markWordCorrect. }
  intros (Hnd & Hb & Hfull).
  assert (Hi : i < length (words p)) by (by apply lookup_lt_Some in Hw).
  set (s1 := markWordCorrect p i true (withGame (pushCorrect i) s)).
  assert (Hg1 : game s1 = pushCorrect i (game s)).
  { unfold s1. by rewrite game_markWordCorrect. }
  assert (Hl1 : log s1 = log s ++ [WordCorrect i true]).
  { unfold s1. by rewrite (markWordCorrect_eq p _ _ _ _ Hw). }
  assert (Hnd' : NoDup (correctWords (game s) ++ [i])).
  { apply NoDup_app. split; [done|]. split; [|apply NoDup_singleton].
    intros x Hx Hx'. apply list_elem_of_singleton in Hx'. by subst. }
  assert (Hb' : forall j, j ∈ correctWords (game s) ++ [i] -> j < length (words p)).
  { intros j Hj. apply elem_of_app in Hj as [Hj|Hj]; [by apply Hb|].
    apply list_elem_of_singleton in Hj. by subst. }
  assert (Hlt : length (correctWords (game s)) < length (words p)).
  { pose proof (NoDup_bounded_length _ _ Hnd' Hb') as Hle.
    rewrite length_app in Hle. simpl in Hle. lia. }
  assert (Hnc : completed (game s) = false).
  { destruct (completed (game s)) eqn:E; [|done]. specialize (Hfull eq_refl). lia. }
  unfold validated. fold s1. unfold checkCompletion, checkCompletionE.
  rewrite Hg1. simpl. rewrite Hnc.
  assert (Hcnt : (validatedCount s =? length (words p)) = false).
  { apply Nat.eqb_neq. unfold validatedCount. lia. }
  case_bool_decide as Hfull'.
  - destruct statsUpdatable eqn:Hu; simpl;
      match goal with |- advances _ _ _ ?x => set (s2 := x) end;
      (assert (Hr : reaches p s s2 = true);
       [unfold reaches; rewrite Hcnt; simpl; unfold validatedCount, s2; simpl;
        rewrite Hg1; simpl; by apply Nat.eqb_eq|]);
      (split; rewrite ?Hr, ?Hu; unfold s2; simpl; rewrite ?Hg1, ?Hl1; simpl;
       [ unfold gameInv; simpl; split; [done|]; split; [done|]; done
       | unfold validatedCount; simpl; rewrite Hg1; simpl; rewrite length_app; lia
       | rewrite !occurrences_app, ?Hr, ?Hu; unfold occurrences; simpl; lia
       | rewrite !occurrences_app, ?Hr, ?Hu; unfold occurrences; simpl; lia
       | rewrite !occurrences_app, ?Hr, ?Hu; unfold occurrences; simpl; lia
       | by rewrite orb_true_r
       | done ]).
  - simpl. assert (Hr : reaches p s s1 = false).
    { unfold reaches. rewrite Hcnt. simpl. unfold validatedCount. rewrite Hg1. simpl.
      by apply Nat.eqb_neq. }
    split; rewrite ?Hr; simpl; rewrite ?Hg1, ?Hl1; simpl.
    + unfold gameInv. simpl. split; [done|]. split; [done|]. intros Hc. congruence.
    + unfold validatedCount. rewrite Hg1. simpl. rewrite length_app. lia.
    + rewrite !occurrences_app, ?Hr. unfold occurrences. simpl. lia.
    + rewrite !occurrences_app, ?Hr. unfold occurrences. simpl. lia.
    + rewrite !occurrences_app, ?Hr. unfold occurrences. simpl. lia.
    + by rewrite orb_false_r.
    + done.
Qed.

Lemma timerQuiet_validated now i s : timerQuiet s (validated p now i s).
Proof.
  unfold validated.
  set (s1 := markWordCorrect p i true (withGame (pushCorrect i) s)).
  assert (H1 : timerQuiet s s1).
  { eapply timerQuiet_trans; [|apply quiet_timer, quiet_markWordCorrect]. done. }
  eapply timerQuiet_trans; [exact H1|].
  unfold checkCompletion, checkCompletionE. destruct (completed (game s1)); [done|].
  destruct (bool_decide _); [|done].
  destruct statsUpdatable; (split; [done|]); simpl;
    rewrite !occurrences_app; unfold occurrences; simpl; lia.
Qed.

Lemma evolves_checkWord now i s : evolves p now s (checkWord p now i s).
Proof.
  destruct (checkWord_cases p now i s) as [->|(Hnin & word & Hw & _ & _ & ->)].
  - apply evolves_refl.
  - by eapply evolves_validated.
Qed.

Lemma timerQuiet_checkWord now i s : timerQuiet s (checkWord p now i s).
Proof.
  destruct (checkWord_cases p now i s) as [->|(Hnin & word & Hw & _ & _ & ->)].
  - done.
  - apply timerQuiet_validated.
Qed.

Lemma evolves_checkWordsAt now row col s : evolves p now s (checkWordsAt p now row col s).
Proof.
  apply (checkWordsAt_chain p (evolves p now) now);
    [apply evolves_refl|apply evolves_trans|apply evolves_checkWord].
Qed.


(** *** A completed puzzle *)

Lemma all_validated g i :
  gameInv p g -> length (correctWords g) = length (words p) ->
  i < length (words p) -> i ∈ correctWords g.
Proof.
  intros (Hnd & Hb & _) Hlen Hi.
  assert (Hp : correctWords g ≡ₚ seq 0 (length (words p))).
  { apply submseteq_length_Permutation; [|by rewrite length_seq, Hlen].
    apply NoDup_submseteq; [done|]. intros j Hj. apply elem_of_seq.
    apply Hb in Hj. lia. }
  rewrite Hp. apply elem_of_seq. lia.
Qed.

(** When every word is validated, a check of a word does nothing. *)
Lemma checkWord_full now i s :
  gameInv p (game s) -> length (correctWords (game s)) = length (words p) ->
  checkWord p now i s = s.
Proof.
  intros Hi Hlen. rewrite checkWord_unfold. case_bool_decide as Hin; [done|].
  destruct (words p !! i) as [word|] eqn:Hw; [|done].
  exfalso. apply Hin. apply all_validated; [done|done|]. by apply lookup_lt_Some in Hw.
Qed.

(** On a game with distinct validated words, the checks that an exception
    skips would have done nothing: the words were all validated. *)
Lemma checkWordsAt_eq now row col s :
  gameInv p (game s) ->
  checkWordsAt p now row col s =
  match at2 (cellToWords p) row col with
  | None => s
  | Some cw =>
      let s1 := match cw_across cw with
                | Some i => checkWord p now i s
                | None => s
                end in
      match cw_down cw with
      | Some i => checkWord p now i s1
      | None => s1
      end
  end.
Proof.
  intros Hi. unfold checkWordsAt, checkWordsAtE.
  destruct (at2 _ _ _) as [cw|]; [|done]. cbv zeta.
  destruct (cw_across cw) as [i|]; simpl; [|by destruct (cw_down cw)].
  pose proof (checkWordE_interrupted p now i s) as Ht.
  pose proof (proj2 (evolves_checkWord now i s) Hi) as [Hi' _ _ _ _ _ _].
  unfold checkWord in *.
  destruct (checkWordE p now i s) as [s1|s1]; simpl in *; [by destruct (cw_down cw)|].
  destruct (Ht eq_refl) as (_ & _ & Hlen & _).
  destruct (cw_down cw) as [j|]; [|done].
  symmetry. by apply (checkWord_full now j s1).
Qed.

Lemma checkIfOpen_full now i s :
  gameInv p (game s) -> length (correctWords (game s)) = length (words p) ->
  checkIfOpen p now s i = s.
Proof.
  intros Hi Hlen. unfold checkIfOpen. destruct (bool_decide _); [done|].
  by apply checkWord_full.
Qed.

Lemma checkOpenWords_eq now l s :
  gameInv p (game s) ->
  after (checkOpenWords p now l s) = fold_left (checkIfOpen p now) l s.
Proof.
  revert s. induction l as [|i l IH]; intros s Hi; simpl; [done|].
  unfold checkIfOpen at 2. destruct (bool_decide _); simpl; [by apply IH|].
  pose proof (checkWordE_interrupted p now i s) as Ht.
  pose proof (proj2 (evolves_checkWord now i s) Hi) as [Hi' _ _ _ _ _ _].
  unfold checkWord in *.
  destruct (checkWordE p now i s) as [s1|s1]; simpl in *; [by apply IH|].
  destruct (Ht eq_refl) as (_ & _ & Hlen & _).
  clear IH Ht. induction l as [|j l IH]; simpl; [done|].
  by rewrite (checkIfOpen_full now j s1).
Qed.

(** *** Letter input *)

Lemma quiet_storeLetter row col letter s : quiet s (storeLetter row col letter s).
Proof. unfold storeLetter. destruct (bool_decide _); by apply quiet_withGame. Qed.

Lemma evolves_startClock now s : evolves p now s (startClock now s).
Proof.
  unfold startClock. destruct (falsyTime _); [|apply evolves_refl].
  split; [done|]. intros Hi.
  assert (Hr : reaches p s (emit TimerStart (withGame (setStartTime now) s)) = false).
  { by apply reaches_same. }
  split; rewrite ?Hr; simpl; try done.
  - rewrite occurrences_app. unfold occurrences. simpl. lia.
  - rewrite occurrences_app. unfold occurrences. simpl. lia.
  - rewrite occurrences_app. unfold occurrences. simpl. lia.
  - by rewrite orb_false_r.
Qed.


Lemma evolves_onLetterInput now row col letter s :
  evolves p now s (onLetterInput p now row col letter s).
Proof.
  eapply evolves_trans; [apply evolves_startClock|].
  eapply evolves_trans; [apply quiet_evolves, quiet_storeLetter|].
  destruct (onLetterInput_cases p now row col letter s) as [[_ ->]|(_ & -> & _)];
    [|apply evolves_checkWordsAt].
  eapply evolves_trans; [apply evolves_checkWordsAt|].
  by apply quiet_evolves, quiet_emit.
Qed.


(** *** Hints *)

Lemma revealLetter_cases now s :
  revealLetter p now s = s \/
  exists s1, quiet s s1 /\
    (let s2 := checkWordsAt p now (activeRow s) (activeCol s) s1 in
     revealLetter p now s = emit ScheduleSave s2 \/
     (revealLetter p now s = s2 /\ interrupted p s1 s2)).
Proof.
  unfold revealLetter. destruct (_ || _)%Z; [by left|].
  destruct (getCell _ _ _) as [cell|]; [|by left].
  destruct (isBlack cell); [by left|]. destruct (isLocked _ _ _); [by left|].
  destruct (_ || _); [by left|]. right.
  set (row := activeRow s). set (col := activeCol s).
  set (letter := solutionAt p row col).
  set (s1 := withCells (setLetter row col letter) s).
  set (s2 := withGame (withGridMap <[(row, col) := letter]>) s1).
  set (s3 := withGame (markRevealed (row, col)) s2).
  exists (withCells (setCellClass row col Revealed) s3). split.
  2:{ cbv zeta. fold row col.
      pose proof (checkWordsAtE_interrupted p now row col
                    (withCells (setCellClass row col Revealed) s3)) as Ht.
      unfold checkWordsAt in *.
      destruct (checkWordsAtE p now row col _) as [s5|s5]; simpl in *;
        [by left|right; auto]. }
  eapply quiet_trans; [apply (quiet_setLetter row col letter)|]. fold s1.
  eapply quiet_trans; [apply (quiet_withGame (withGridMap <[(row, col) := letter]>) s1); done|].
  fold s2.
  eapply quiet_trans; [apply (quiet_withGame (markRevealed (row, col)) s2); done|].
  fold s3. apply quiet_withCells. simpl. apply cores_skel, cores_setCellClass.
Qed.

Lemma evolves_revealLetter now s : evolves p now s (revealLetter p now s).
Proof.
  destruct (revealLetter_cases now s) as [->|(s1 & Hq & [->|[-> _]])];
    [apply evolves_refl| |].
  - eapply evolves_trans; [apply quiet_evolves, Hq|].
    eapply evolves_trans; [apply evolves_checkWordsAt|].
    by apply quiet_evolves, quiet_emit.
  - eapply evolves_trans; [apply quiet_evolves, Hq|apply evolves_checkWordsAt].
Qed.


(** [revealWord] on an open active word: the loop over the cells, the
    check of the word, and the save unless the check has thrown. *)
Lemma revealWord_cases now s :
  revealWord p now s = s \/
  exists word, getActiveWord p s = Some word /\
    (id word ∉ correctWords (game s)) /\
    (let s2 := checkWord p now (id word) (revealLoop p unlocked (wcells word) s) in
     revealWord p now s = emit ScheduleSave s2 \/
     (revealWord p now s = s2 /\
      interrupted p (revealLoop p unlocked (wcells word) s) s2)).
Proof.
  unfold revealWord. destruct (getActiveWord p s) as [word|]; [|by left].
  case_bool_decide as Hin; [by left|]. right. exists word.
  split; [done|]. split; [done|]. rewrite revealWord_loop. cbv zeta.
  pose proof (checkWordE_interrupted p now (id word)
                (revealLoop p unlocked (wcells word) s)) as Ht.
  unfold checkWord in *.
  destruct (checkWordE p now (id word) _) as [s2|s2]; simpl in *;
    [by left|right; auto].
Qed.

Lemma evolves_revealWord now s : evolves p now s (revealWord p now s).
Proof.
  destruct (revealWord_cases now s) as [->|(word & _ & _ & [->|[-> _]])];
    [apply evolves_refl| |].
  - eapply evolves_trans; [apply quiet_evolves, quiet_revealLoop|].
    eapply evolves_trans; [apply evolves_checkWord|].
    by apply quiet_evolves, quiet_emit.
  - eapply evolves_trans; [apply quiet_evolves, quiet_revealLoop|].
    apply evolves_checkWord.
Qed.



Lemma evolves_checkAll now l s : evolves p now s (fold_left (checkIfOpen p now) l s).
Proof.
  revert s. induction l as [|i l IH]; intros s; [apply evolves_refl|].
  simpl. eapply evolves_trans; [|apply IH].
  unfold checkIfOpen. destruct (bool_decide _); [apply evolves_refl|apply evolves_checkWord].
Qed.

Lemma timerQuiet_checkAll now l s : timerQuiet s (fold_left (checkIfOpen p now) l s).
Proof.
  revert s. induction l as [|i l IH]; intros s; [done|].
  simpl. eapply timerQuiet_trans; [|apply IH].
  unfold checkIfOpen. destruct (bool_decide _); [done|apply timerQuiet_checkWord].
Qed.

(** [revealAll]: the loop over the cells, the loop over the open words,
    and the save unless a check has thrown. *)
Lemma revealAll_cases now s :
  let s2 := after (checkOpenWords p now (seq 0 (length (words p)))
                     (revealLoop p revealable (allCoords p) s)) in
  revealAll p now s = emit ScheduleSave s2 \/
  (revealAll p now s = s2 /\
   interrupted p (revealLoop p revealable (allCoords p) s) s2).
Proof.
  unfold revealAll. rewrite revealAll_loop. cbv zeta.
  pose proof (checkOpenWords_interrupted p now (seq 0 (length (words p)))
                (revealLoop p revealable (allCoords p) s)) as Ht.
  destruct (checkOpenWords p now _ _) as [s2|s2]; simpl in *; [by left|right; auto].
Qed.

Lemma revealAll_eq now s :
  revealAll p now s =
  finish (checkOpenWords p now (seq 0 (length (words p)))
            (revealLoop p revealable (allCoords p) s))
         (emit ScheduleSave).
Proof. unfold revealAll. by rewrite revealAll_loop. Qed.

(** On a game with distinct validated words the loop over the open words
    ends as it does without an exception. *)
Lemma revealAll_full now s :
  gameInv p (game s) ->
  let s2 := fold_left (checkIfOpen p now) (seq 0 (length (words p)))
              (revealLoop p revealable (allCoords p) s) in
  revealAll p now s = emit ScheduleSave s2 \/
  (revealAll p now s = s2 /\
   interrupted p (revealLoop p revealable (allCoords p) s) s2).
Proof.
  intros Hi. cbv zeta.
  assert (Hi' : gameInv p (game (revealLoop p revealable (allCoords p) s))).
  { by apply (proj2 (quiet_evolves p now _ _
                       (quiet_revealLoop revealable (allCoords p) s))). }
  rewrite <- (checkOpenWords_eq now _ _ Hi'). apply revealAll_cases.
Qed.

Lemma evolves_checkOpenWords now l s :
  evolves p now s (after (checkOpenWords p now l s)).
Proof.
  apply (checkOpenWords_chain p (evolves p now) now);
    [apply evolves_refl|apply evolves_trans|apply evolves_checkWord].
Qed.


Lemma evolves_revealAll now s : evolves p now s (revealAll p now s).
Proof.
  eapply evolves_trans; [apply quiet_evolves, quiet_revealLoop|].
  destruct (revealAll_cases now s) as [->|[-> _]].
  - eapply evolves_trans; [apply evolves_checkOpenWords|].
    by apply quiet_evolves, quiet_emit.
  - apply evolves_checkOpenWords.
Qed.


(** *** Events *)
Context {text : TextLib}.


Lemma evolves_typed now row col letter s : evolves p now s (typed p now row col letter s).
Proof.
  unfold typed. eapply evolves_trans; [apply quiet_evolves, quiet_setLetter|].
  apply evolves_onLetterInput.
Qed.


Lemma nav_evolves now s s' : navStep s s' -> evolves p now s s'.
Proof. intros H. by apply quiet_evolves, navStep_quiet. Qed.


Lemma navStep_finish_typed now row col letter s :
  navStep (typed p now row col letter s)
    (finish (onLetterInputE p now row col letter
               (withCells (setLetter row col letter) s))
            (moveToNextCell p)).
Proof.
  unfold typed, onLetterInput. destruct (onLetterInputE _ _ _ _ _ _); simpl;
    [apply navStep_moveToNextCell|apply navStep_refl].
Qed.

(** The input listener on a text that is not empty: the letter is written
    over the text that the browser left in the field. *)
Lemma handleInput_value now v row col s :
  v <> "" ->
  handleInput p now v row col s =
  finish (onLetterInputE p now row col (normalizeUpper (lastChar v))
            (withCells (setLetter row col (normalizeUpper (lastChar v))) s))
         (moveToNextCell p).
Proof.
  intros Hv. unfold handleInput. rewrite bool_decide_eq_false_2 by done.
  cbv zeta. f_equal. f_equal. unfold withCells. simpl. f_equal.
  by rewrite !setLetter_twice.
Qed.

Lemma handleKeyDown_cases now key row col s :
  navStep s (handleKeyDown p now key row col s) \/
  exists s1 r c letter s2,
    navStep s s1 /\ s2 = typed p now r c letter s1 /\
    navStep s2 (handleKeyDown p now key row col s).
Proof.
  destruct key; simpl.
  - left. apply navStep_moveArrow.
  - left. apply navStep_moveArrow.
  - left. apply navStep_moveArrow.
  - left. apply navStep_moveArrow.
  - left. apply navStep_moveToNextWord.
  - left. apply navStep_moveToNextWord.
  - destruct (hasValue s row col).
    + right. exists s, row, col, "", (typed p now row col "" s).
      split; [apply navStep_refl|]. split; [done|apply navStep_refl].
    + destruct (_ && _)%Z.
      * right. eexists (moveToPrevCell p s), _, _, "", _.
        split; [apply navStep_moveToPrevCell|]. split; [done|apply navStep_refl].
      * left. apply navStep_moveToPrevCell.
  - right. exists s, row, col, "", (typed p now row col "" s).
    split; [apply navStep_refl|]. split; [done|apply navStep_refl].
  - destruct (bool_decide _); [left; apply navStep_toggleDirection|].
    destruct (isLetterKey key); [|left; apply navStep_refl].
    right. eexists s, row, col, (normalizeUpper key), _.
    split; [apply navStep_refl|]. split; [done|apply navStep_finish_typed].
Qed.

(** The input listener: the field has been emptied and nothing else
    happens, or a letter is typed. *)
Lemma handleInput_cases now v row col s :
  handleInput p now v row col s = withCells (setLetter row col "") s \/
  exists s1 r c letter s2,
    navStep s s1 /\ s2 = typed p now r c letter s1 /\
    navStep s2 (handleInput p now v row col s).
Proof.
  destruct (decide (v = "")) as [->|Hv]; [by left|].
  right. rewrite handleInput_value by done. eexists s, row, col, _, _.
  split; [apply navStep_refl|]. split; [done|apply navStep_finish_typed].
Qed.

Lemma evolves_step s ev : evolves p ev.1 s (step p s ev).
Proof.
  destruct ev as [now e]. simpl. destruct e; unfold step; simpl.
  - apply nav_evolves, navStep_handleCellFocus.
  - apply nav_evolves, navStep_handleClick.
  - destruct (handleKeyDown_cases now key row col s)
      as [H|(s1 & r & c & l & s2 & H1 & -> & H2)]; [by apply nav_evolves|].
    eapply evolves_trans; [by apply nav_evolves|].
    eapply evolves_trans; [apply evolves_typed|by apply nav_evolves].
  - destruct (handleInput_cases now v row col s)
      as [->|(s1 & r & c & l & s2 & H1 & -> & H2)];
      [apply quiet_evolves, quiet_setLetter|].
    eapply evolves_trans; [by apply nav_evolves|].
    eapply evolves_trans; [apply evolves_typed|by apply nav_evolves].
  - apply evolves_revealLetter.
  - apply evolves_revealWord.
  - apply evolves_revealAll.
  - apply quiet_evolves, quiet_updateElapsed.
  - apply nav_evolves, navStep_selectWord.
Qed.

End Progress.

(** ** Runs of a session *)

Section Runs.
Variable p : PuzzleData.
Context {stats : StatsEntry} {text : TextLib}.

Lemma skel_fold_setLetter (l : list (Coord * string)) cs :
  skel (fold_left (fun m kv => setLetter kv.1.1 kv.1.2 kv.2 m) l cs) = skel cs.
Proof.
  revert cs. induction l as [|a l IH]; intros cs; simpl; [done|].
  by rewrite IH, skel_setLetter.
Qed.

Lemma skel_fold_setCellClass k (l : list Coord) cs :
  skel (fold_left (fun m rc => setCellClass rc.1 rc.2 k m) l cs) = skel cs.
Proof.
  revert cs. induction l as [|a l IH]; intros cs; simpl; [done|].
  rewrite IH. apply cores_skel, cores_setCellClass.
Qed.

Lemma quiet_fold_markWordCorrect a l s :
  quiet s (fold_left (fun s' i => markWordCorrect p i a s') l s).
Proof.
  revert s. induction l as [|i l IH]; intros s; simpl; [apply quiet_refl|].
  eapply quiet_trans; [apply quiet_markWordCorrect|apply IH].
Qed.

(** The session right after [initPuzzle]. *)
Lemma initPuzzle_facts saved :
  let s0 := initPuzzle p saved in
  skel (cells s0) = skel (render p) /\
  game s0 = default (initialState p) saved /\
  forallb (fun e => negb (counted e)) (log s0) = true.
Proof.
  simpl. unfold initPuzzle, createGame.
  set (s1 := loadSaved p saved (createGrid p)).
  assert (H1 : skel (cells s1) = skel (render p) /\
               game s1 = default (initialState p) saved /\
               forallb (fun e => negb (counted e)) (log s1) = true).
  { unfold s1, loadSaved. destruct saved as [sv|]; [|done].
    match goal with |- context [fold_left _ (correctWords sv) ?x] => set (s2 := x) end.
    pose proof (quiet_fold_markWordCorrect false (correctWords sv) s2)
      as [Hs (Hcw & Hc & Hat & Hst) (l & Hl & Hf)].
    simpl. split; [|split].
    - rewrite Hs. unfold s2. simpl.
      by rewrite skel_fold_setCellClass, skel_fold_setLetter.
    - assert (Hg : forall a l s, game (fold_left (fun s' i => markWordCorrect p i a s') l s) = game s).
      { intros a l0. induction l0 as [|i l0 IH]; intros s; simpl; [done|].
        by rewrite IH, game_markWordCorrect. }
      by rewrite Hg.
    - rewrite Hl. unfold s2. simpl. by rewrite forallb_app, Hf. }
  destruct H1 as (Hs1 & Hg1 & Hl1).
  pose proof (navStep_focusFirstCell p s1) as [Hc Hg (l & Hl & Hf)].
  split; [|split].
  - rewrite <- Hs1. by apply cores_skel.
  - by rewrite Hg.
  - rewrite Hl, forallb_app, Hl1. simpl.
    apply forallb_elem_of. intros e He.
    pose proof (proj1 (forallb_elem_of _ _) Hf e He) as H. by destruct e.
Qed.


Lemma run_skel evs s : skel (cells (run p evs s)) = skel (cells s).
Proof.
  revert s. induction evs as [|ev evs IH]; intros s; simpl; [done|].
  unfold run in *. simpl. rewrite IH. apply (evolves_step p s ev).
Qed.

Lemma run_gameInv evs s : gameInv p (game s) -> gameInv p (game (run p evs s)).
Proof.
  revert s. induction evs as [|ev evs IH]; intros s Hi; simpl; [done|].
  unfold run in *. simpl. apply IH.
  destruct (evolves_step p s ev) as [_ H]. by destruct (H Hi).
Qed.

Lemma run_count_mono evs s :
  gameInv p (game s) -> validatedCount s <= validatedCount (run p evs s).
Proof.
  revert s. induction evs as [|ev evs IH]; intros s Hi; simpl; [done|].
  unfold run in *. simpl.
  destruct (evolves_step p s ev) as [_ H]. destruct (H Hi) as [Hi' Hm _ _ _ _ _].
  specialize (IH _ Hi'). lia.
Qed.





Lemma init_gameInv saved :
  saved_ok p saved = true -> gameInv p (game (initPuzzle p saved)).
Proof.
  intros Hok. destruct (initPuzzle_facts saved) as (_ & -> & _).
  destruct saved as [g|]; simpl in *; [by apply game_ok_inv|].
  split; [apply NoDup_nil_2|]. split; [|done]. intros i Hi. by apply elem_of_nil in Hi.
Qed.



Lemma falsyTime_now now : (now =? 0)%Z = false -> falsyTime (Some now) = false.
Proof. done. Qed.





(** Claim C10.  In every state of a session, for coordinates outside of
    the grid or of a black cell, [getLetter] gives the empty string and
    [setLetter] changes no cell. *)
Theorem unplayable_cells_inert saved evs r c letter :
  inGrid p r c = false \/ puzzleAt p r c = Block ->
  let cs := cells (run p evs (initPuzzle p saved)) in
  getLetter cs r c = "" /\ setLetter r c letter cs = cs.
Proof.
  intros H. simpl. apply (getLetter_setLetter_unplayable p); [|done].
  rewrite run_skel. by destruct (initPuzzle_facts saved) as (? & _).
Qed.
End Runs.

(** ** Reveal-all and the active direction *)

Lemma allCoords_NoDup p : NoDup (allCoords p).
Proof.
  unfold allCoords. apply NoDup_bind.
  - intros r1 r2 [r c] _ _ H1 H2.
    apply list_elem_of_fmap in H1 as (c1 & E1 & _).
    apply list_elem_of_fmap in H2 as (c2 & E2 & _). congruence.
  - intros r _. apply NoDup_fmap_2; [|apply NoDup_seqZ].
    intros c1 c2 E. congruence.
  - apply NoDup_seqZ.
Qed.

Section More.
Variable p : PuzzleData.
Context {stats : StatsEntry}.

Lemma hints_checkAll now l s :
  hintsUsed (game (fold_left (checkIfOpen p now) l s)) = hintsUsed (game s) /\
  revealed (game (fold_left (checkIfOpen p now) l s)) = revealed (game s).
Proof.
  revert s. induction l as [|i l IH]; intros s; simpl; [done|].
  destruct (IH (checkIfOpen p now s i)) as [-> ->].
  unfold checkIfOpen. destruct (bool_decide _); [done|].
  by destruct (hints_checkWord p now i s) as (-> & -> & _).
Qed.

Lemma hints_checkOpenWords now l s :
  hintsUsed (game (after (checkOpenWords p now l s))) = hintsUsed (game s) /\
  revealed (game (after (checkOpenWords p now l s))) = revealed (game s).
Proof.
  apply (checkOpenWords_chain p
           (fun s s' => hintsUsed (game s') = hintsUsed (game s) /\
                        revealed (game s') = revealed (game s)) now).
  - done.
  - intros s1 s2 s3 [H1 H2] [H3 H4]. split; congruence.
  - intros i s0. by destruct (hints_checkWord p now i s0) as (-> & -> & _).
Qed.

Lemma revealAll_hints now s :
  let s' := revealAll p now s in
  hintsUsed (game s') = hintsUsed (game s)
    + length (filter (fun rc => revealable (cells s) rc = true /\
                                rc ∉ revealed (game s)) (allCoords p)) /\
  revealed (game s') = revealed (game s)
    ∪ list_to_set (filter (fun rc => revealable (cells s) rc = true) (allCoords p)).
Proof.
  cbv zeta.
  assert (H : hintsUsed (game (revealAll p now s))
              = hintsUsed (game (revealLoop p revealable (allCoords p) s)) /\
              revealed (game (revealAll p now s))
              = revealed (game (revealLoop p revealable (allCoords p) s))).
  { destruct (revealAll_cases p now s) as [->|[-> _]]; simpl;
      apply hints_checkOpenWords. }
  destruct H as [-> ->].
  destruct (revealLoop_spec p revealable (allCoords p) s revealable_stable
              (allCoords_NoDup p)) as (Hh & Hr & _).
  done.
Qed.


(** Claim C5 (amended).  [revealWord] does nothing without an active word
    or on a validated word; otherwise it adds to the hint counter the number
    of cells of the active word that are not locked and not yet revealed,
    and marks the unlocked cells revealed; when no cell of the word is
    locked this is n - k for a word of n cells, k of them revealed before.
    [revealAll] adds the number of playable, unlocked cells of the grid not
    yet revealed.  In both, a cell already revealed is not counted again. *)
Theorem reveal_counts_new_cells now s :
  (let s' := revealWord p now s in
   (getActiveWord p s = None -> s' = s) /\
   (forall word, getActiveWord p s = Some word ->
      (id word ∈ correctWords (game s) -> s' = s) /\
      (id word ∉ correctWords (game s) ->
         hintsUsed (game s') = hintsUsed (game s)
           + length (filter (fun rc => isLocked (cells s) rc.1 rc.2 = false /\
                                       rc ∉ revealed (game s)) (wcells word)) /\
         revealed (game s') = revealed (game s)
           ∪ list_to_set (filter (fun rc => isLocked (cells s) rc.1 rc.2 = false)
                                 (wcells word)) /\
         ((forall rc, rc ∈ wcells word -> isLocked (cells s) rc.1 rc.2 = false) ->
          hintsUsed (game s') = hintsUsed (game s)
            + (length (wcells word)
               - length (filter (fun rc => rc ∈ revealed (game s))
                                (wcells word))))))) /\
  (let s' := revealAll p now s in
   hintsUsed (game s') = hintsUsed (game s)
     + length (filter (fun rc => revealable (cells s) rc = true /\
                                 rc ∉ revealed (game s)) (allCoords p)) /\
   revealed (game s') = revealed (game s)
     ∪ list_to_set (filter (fun rc => revealable (cells s) rc = true)
                           (allCoords p))).
Proof. split; [apply revealWord_count|apply revealAll_hints]. Qed.

(** Claim C8 (amended).  After [setActiveCell] the active cell is the given
    one, and if it takes part in a word of some direction then it takes part
    in a word of the active direction; on a cell of the grid that takes part
    in no word, the direction ends as the opposite of the requested (or
    else the previous) direction.  After [toggleDirection] the active cell
    is the same, its direction is one it supports if it supports any, and
    on a cell that supports none nothing changes. *)
Theorem active_direction_supported s :
  (forall row col dir,
     let s' := setActiveCell p row col dir s in
     activeRow s' = row /\ activeCol s' = col /\
     (supports p row col across \/ supports p row col down ->
      supports p row col (activeDirection s')) /\
     (inGrid p row col = true ->
      ~ supports p row col across -> ~ supports p row col down ->
      activeDirection s' = flip (default (activeDirection s) dir))) /\
  (let s' := toggleDirection p s in
   activeRow s' = activeRow s /\ activeCol s' = activeCol s /\
   (supports p (activeRow s) (activeCol s) across \/
    supports p (activeRow s) (activeCol s) down ->
    supports p (activeRow s') (activeCol s') (activeDirection s')) /\
   (~ supports p (activeRow s) (activeCol s) across ->
    ~ supports p (activeRow s) (activeCol s) down -> s' = s)).
Proof.
  split.
  - intros row col dir. cbv zeta. split; [done|]. split; [done|].
    unfold supports, wordIdxAt. simpl.
    pose proof (cellToWords_shape p row col) as Hshape.
    destruct (at2 (cellToWords p) row col) as [cw|]; simpl.
    + set (d0 := default (activeDirection s) dir). split.
      * intros H. destruct (cwDir cw d0) eqn:E; [by rewrite E|].
        destruct d0; simpl in *; destruct H as [H|H]; try done;
          rewrite E in H; by destruct H.
      * intros _ Ha Hd. destruct (cwDir cw d0) eqn:E; [|done].
        destruct d0; simpl in *; [destruct Ha|destruct Hd]; by eexists.
    + split; [intros [[? H]|[? H]]; done|].
      intros Hin. apply Hshape in Hin. by destruct Hin.
  - cbv zeta. unfold toggleDirection, supports.
    destruct (wordIdxAt p (activeRow s) (activeCol s) (flip (activeDirection s)))
      as [i|] eqn:E.
    + split; [done|]. split; [done|]. split.
      * intros _. simpl. unfold wordIdxAt in *.
        destruct (at2 (cellToWords p) (activeRow s) (activeCol s)) as [cw|]; [|done].
        simpl in *. rewrite E. simpl. rewrite E. by eexists.
      * intros Ha Hd. exfalso.
        destruct (activeDirection s); simpl in E; [apply Hd|apply Ha]; by eexists.
    + split; [done|]. split; [done|]. split; [|done].
      intros [H|H]; destruct (activeDirection s); simpl in E; try done;
        rewrite E in H; by destruct H.
Qed.
End More.

(** ** Typing into a cell *)




Section Typing.
Variable p : PuzzleData.
Context {stats : StatsEntry} {text : TextLib}.

Lemma playable_cell cs r c :
  skel cs = skel (render p) -> isPlayable p r c = true ->
  exists cell i, getCell cs r c = Some cell /\ isBlack cell = false /\
                 input cell = Some i.
Proof.
  intros Hs Hp. apply isPlayable_spec in Hp as [Hin Hnb].
  destruct (skel_cell p cs r c Hs) as [[_ Hout]|(cell & Hc & _ & Hb & Hi)]; [congruence|].
  destruct (input cell) as [i|] eqn:E.
  - exists cell, i. split; [done|]. split; [|done].
    rewrite Hb. by apply bool_decide_eq_false_2.
  - exfalso. apply Hnb. by apply Hi.
Qed.

Lemma typed_value now r c letter s :
  skel (cells s) = skel (render p) -> isPlayable p r c = true ->
  getLetter (cells (typed p now r c letter s)) r c = letter.
Proof.
  intros Hs Hp. unfold typed.
  rewrite (getLetter_ext _ _ _ _ (values_onLetterInput p now r c letter _)). simpl.
  rewrite getLetter_setLetter, decide_True by done.
  destruct (playable_cell (cells s) r c Hs Hp) as (cell & i & -> & -> & ->). done.
Qed.

Lemma nav_values s s' : navStep s s' -> values (cells s') = values (cells s).
Proof. intros [H _ _]. by apply cores_values. Qed.

(** Whatever the lock flag of the cell says, a letter key stores its
    normalized letter and Delete empties the cell. *)
Lemma key_overwrites now row col s :
  skel (cells s) = skel (render p) -> isPlayable p row col = true ->
  (forall k, k <> " " -> isLetterKey k = true ->
     getLetter (cells (handleKeyDown p now (KeyText k) row col s)) row col
     = normalizeUpper k) /\
  getLetter (cells (handleKeyDown p now Delete row col s)) row col = "".
Proof.
  intros Hs Hp. split.
  - intros k Hk Hl. cbn [handleKeyDown].
    rewrite bool_decide_eq_false_2, Hl by done.
    rewrite (getLetter_ext _ _ _ _
               (nav_values _ _ (navStep_finish_typed p now row col _ s))).
    by apply typed_value.
  - change (handleKeyDown p now Delete row col s) with (typed p now row col "" s).
    by apply typed_value.
Qed.
(** Claim C1.  [checkWord] leaves a word that is already validated alone.
    For a word not yet validated, the word is validated (added to the
    validated set, with the word-correct callback) if and only if every cell
    of the word holds a non-empty letter that equals the letter of the
    solution at that cell; otherwise nothing at all changes, in particular
    when a cell of the word is still empty.  The letters compared are the
    stored ones: a letter key stores its letter after upper-casing and
    removal of diacritics. *)
Theorem checkWord_validates now i s :
  let s' := checkWord p now i s in
  (i ∈ correctWords (game s) -> s' = s) /\
  (forall word, words p !! i = Some word -> i ∉ correctWords (game s) ->
     (i ∈ correctWords (game s') <->
        forall rc, rc ∈ wcells word ->
          getLetter (cells s) rc.1 rc.2 <> "" /\
          getLetter (cells s) rc.1 rc.2 = solutionAt p rc.1 rc.2) /\
     (i ∈ correctWords (game s') ->
        correctWords (game s') = correctWords (game s) ++ [i] /\
        occurrences (isWordCorrect i) (log s')
          = S (occurrences (isWordCorrect i) (log s))) /\
     (i ∉ correctWords (game s') -> s' = s) /\
     ((exists rc, rc ∈ wcells word /\ getLetter (cells s) rc.1 rc.2 = "") ->
      s' = s)) /\
  (forall k row col s0,
     k <> " " -> isLetterKey k = true ->
     skel (cells s0) = skel (render p) -> isPlayable p row col = true ->
     getLetter (cells (handleKeyDown p now (KeyText k) row col s0)) row col
     = normalizeUpper k).
Proof.
  cbv zeta. destruct (checkWord_outcome p now i s) as [H1 H2].
  split; [exact H1|]. split; [exact H2|].
  intros k row col s0 Hk Hl Hs Hp.
  by apply (proj1 (key_overwrites now row col s0 Hs Hp)).
Qed.
End Typing.

(** Claim C4 at a failing input.  The cells of the validated across word
    are locked and hold A and B; Delete on the second cell empties it and
    the key z on the first cell stores Z there. *)
Lemma locked_cell_overwritten :
  isLocked (cells crossAcrossSolved) 0 1 = true /\
  getLetter (cells crossAcrossSolved) 0 1 = "B" /\
  getLetter
    (cells (handleKeyDown crossPuzzle (text := asciiText) (stats := firstVisit) 3 Delete 0 1
              crossAcrossSolved)) 0 1 = "" /\
  getLetter
    (cells (handleKeyDown crossPuzzle (text := asciiText) (stats := firstVisit) 3 (KeyText "z") 0 0
              crossAcrossSolved)) 0 0 = "Z".
Proof. vm_compute. done. Qed.




(** Claim C5, as worded, fails: with the across word validated, the down
    word has two cells, none revealed, and [revealWord] adds one to the
    counter, not two, as its first cell is locked. *)
Lemma revealWord_skips_locked_cells :
  ~ revealWord_counts_all crossPuzzle 3 crossDownActive.
Proof.
  intros H.
  assert (Hw : getActiveWord crossPuzzle crossDownActive
               = Some {| id := 1; number := 1; direction := down;
                         wcells := [(0%Z, 0%Z); (1%Z, 0%Z)];
                         clue := "first column" |}) by (vm_compute; reflexivity).
  apply H in Hw. vm_compute in Hw. discriminate.
Qed.


(** Claim C8, as worded, fails: on the only cell of [loneCellPuzzle], which
    takes part in no word, [setActiveCell] called by [focusFirstCell] with
    direction across leaves the direction down. *)
Lemma isolated_direction_flips : ~ isolated_direction_unchanged loneCellPuzzle.
Proof.
  intros H.
  assert (H1 : inGrid loneCellPuzzle 0 0 = true) by (vm_compute; reflexivity).
  assert (H2 : wordIdxAt loneCellPuzzle 0 0 across = None) by (vm_compute; reflexivity).
  assert (H3 : wordIdxAt loneCellPuzzle 0 0 down = None) by (vm_compute; reflexivity).
  specialize (H (createGame loneCellPuzzle None) 0%Z 0%Z (Some across) H1 H2 H3).
  vm_compute in H. discriminate.
Qed.



(** ** Persistence *)

Import Storage.
Lemma Math_round_div_exact k : Math_round_div (k * msPerDay) msPerDay = k.
Proof. unfold Math_round_div, msPerDay. Z.div_mod_to_equations. lia. Qed.

Lemma diffDays_valid a b :
  validDate a = true -> validDate b = true ->
  diffDays a b = Some (epochDay b - epochDay a)%Z.
Proof.
  intros Ha Hb. unfold diffDays, Date_parse. rewrite Ha, Hb. f_equal.
  rewrite <- Z.mul_sub_distr_r. apply Math_round_div_exact.
Qed.

Lemma diffDays_invalid a b :
  validDate a = false \/ validDate b = false -> diffDays a b = None.
Proof.
  unfold diffDays, Date_parse. intros [->| ->]; [done|]. by destruct (validDate a).
Qed.

Lemma epochDay_nextDay d :
  validDate d = true -> epochDay (nextDay d) = (epochDay d + 1)%Z.
Proof.
  destruct d as [y m dd]. unfold validDate, nextDay, epochDay, daysInMonth, isLeap.
  cbn [year month day]. intros Hv.
  assert (Hm : (m = 1 \/ m = 2 \/ m = 3 \/ m = 4 \/ m = 5 \/ m = 6 \/ m = 7 \/ m = 8
                \/ m = 9 \/ m = 10 \/ m = 11 \/ m = 12)%Z) by lia.
  destruct Hm as [->|[->|[->|[->|[->|[->|[->|[->|[->|[->|[->| ->]]]]]]]]]]];
    cbn [Z.eqb Z.ltb Z.leb Z.compare Pos.compare Pos.compare_cont Pos.eqb orb andb negb] in *;
    repeat match goal with
           | |- context [if ?b then _ else _] => destruct b eqn:?; cbn [year month day Z.eqb Z.ltb Z.leb Z.compare Pos.compare Pos.compare_cont Pos.eqb orb andb negb] in *
           | H : context [if ?b then _ else _] |- _ => destruct b eqn:?; cbn [year month day Z.eqb Z.ltb Z.leb Z.compare Pos.compare Pos.compare_cont Pos.eqb orb andb negb] in *
           end;
    try (Z.div_mod_to_equations; lia).
Qed.

Lemma year_nextDay d : (year d <= year (nextDay d))%Z.
Proof.
  unfold nextDay. destruct (_ <? _)%Z; [done|].
  destruct (_ <? _)%Z; simpl; lia.
Qed.

Lemma validDate_nextDay d :
  validDate d = true -> (year (nextDay d) <= 9999)%Z ->
  validDate (nextDay d) = true.
Proof.
  destruct d as [y m dd]. unfold validDate, nextDay. cbn [year month day].
  intros Hv Hy.
  destruct (dd <? daysInMonth y m)%Z eqn:E1; cbn [year month day] in *.
  - lia.
  - destruct (m <? 12)%Z eqn:E2; cbn [year month day] in *.
    + assert (1 <= daysInMonth y (m + 1))%Z.
      { unfold daysInMonth. repeat destruct (_ =? _)%Z; simpl;
          repeat destruct (isLeap _); lia. }
      lia.
    + assert (1 <= daysInMonth (y + 1) 1)%Z by (by unfold daysInMonth).
      lia.
Qed.

(** The day number of the k-th calendar day after a date. *)
Lemma epochDay_iter_nextDay k d :
  validDate d = true -> (year (Nat.iter k nextDay d) <= 9999)%Z ->
  validDate (Nat.iter k nextDay d) = true /\
  epochDay (Nat.iter k nextDay d) = (epochDay d + Z.of_nat k)%Z.
Proof.
  intros Hd. induction k as [|k IH]; simpl; intros Hy.
  - split; [done|lia].
  - pose proof (year_nextDay (Nat.iter k nextDay d)) as Hle.
    destruct IH as [Hv He]; [lia|]. split.
    + by apply validDate_nextDay.
    + rewrite epochDay_nextDay by done. lia.
Qed.

Lemma validDate_year d : validDate d = true -> (year d <= 9999)%Z.
Proof. unfold validDate. lia. Qed.

(** The rounded difference of the k-th calendar day after a date and the
    date is k. *)
Lemma diffDays_iter_nextDay k d :
  validDate d = true -> validDate (Nat.iter k nextDay d) = true ->
  diffDays d (Nat.iter k nextDay d) = Some (Z.of_nat k).
Proof.
  intros Hd Hk. rewrite diffDays_valid by done.
  destruct (epochDay_iter_nextDay k d Hd (validDate_year _ Hk)) as [_ ->].
  f_equal. lia.
Qed.

(** Claim C6.  [updateStatsOnComplete], called on the calendar day [today],
    sets the current streak to the previous one plus one when today is the
    calendar day after the last-played date, to 1 when today is two or
    more calendar days after it, leaves it when the last-played date is
    today, and sets it to 1 when there is no last-played date; the best
    streak becomes the larger of the previous best and the new current
    streak, and today becomes the last-played date. *)
Theorem streak_recomputed stats lvl dt secs hints today :
  validDate today = true ->
  let stats' := updateStatsOnComplete stats lvl dt secs hints today in
  (forall lastP, lastPlayed stats = Some lastP -> validDate lastP = true ->
     today = nextDay lastP ->
     streakCurrent stats' = (streakCurrent stats + 1)%Z) /\
  (forall lastP k, lastPlayed stats = Some lastP -> validDate lastP = true ->
     today = Nat.iter k nextDay lastP -> 1 < k ->
     streakCurrent stats' = 1%Z) /\
  (lastPlayed stats = Some today -> streakCurrent stats' = streakCurrent stats) /\
  (lastPlayed stats = None -> streakCurrent stats' = 1%Z) /\
  streakBest stats' = Z.max (streakBest stats) (streakCurrent stats') /\
  lastPlayed stats' = Some today.
Proof.
  intros Ht. simpl. unfold nextStreak.
  split; [|split; [|split; [|split; [|split]]]].
  - intros lastP -> Hl ->.
    pose proof (diffDays_iter_nextDay 1 lastP Hl Ht) as E.
    change (Nat.iter 1 nextDay lastP) with (nextDay lastP) in E.
    by rewrite E.
  - intros lastP k -> Hl -> Hk.
    rewrite (diffDays_iter_nextDay k lastP Hl Ht).
    destruct (Z.of_nat k =? 1)%Z eqn:E1; [lia|].
    by replace (1 <? Z.of_nat k)%Z with true by lia.
  - intros ->. pose proof (diffDays_iter_nextDay 0 today Ht Ht) as E.
    change (Nat.iter 0 nextDay today) with today in E. by rewrite E.
  - intros ->. done.
  - destruct (_ <? _)%Z eqn:E; lia.
  - done.
Qed.

(** Claim C7, as worded, fails: with text that is not JSON under the
    statistics key, [loadStats] throws. *)
Lemma load_not_tolerant : ~ load_tolerant.
Proof.
  intros H. destruct (H corruptStore "daily" "2026-02-15") as [_ Hs].
  assert (Hu : unreadable (corruptStore !! statsKey)) by (by vm_compute).
  apply Hs in Hu. vm_compute in Hu. discriminate.
Qed.

(** Claim C7 (amended).  With nothing, or the empty string, under the key,
    [loadProgress] returns [null] and [loadStats] returns the default
    statistics; with any other text they return what [JSON.parse] returns
    and throw its SyntaxError when the text is not JSON. *)
Theorem load_absent_or_throws (localStorage : gmap string string)
    (lvl dt : string) :
  (localStorage !! progressKey lvl dt = None \/
   localStorage !! progressKey lvl dt = Some "" ->
   loadProgress localStorage lvl dt = Returned None) /\
  (localStorage !! statsKey = None \/ localStorage !! statsKey = Some "" ->
   loadStats localStorage = Returned defaultStatsJson) /\
  (forall text, localStorage !! progressKey lvl dt = Some text -> text <> "" ->
     loadProgress localStorage lvl dt
     = match JSON_parse text with
       | Some v => Returned (Some v)
       | None => Thrown SyntaxError
       end) /\
  (forall text, localStorage !! statsKey = Some text -> text <> "" ->
     loadStats localStorage
     = match JSON_parse text with
       | Some v => Returned v
       | None => Thrown SyntaxError
       end).
Proof.
  unfold loadProgress, loadStats, parseOr.
  split; [|split; [|split]].
  - by intros [-> | ->].
  - by intros [-> | ->].
  - intros text -> Hne. by rewrite bool_decide_eq_false_2.
  - intros text -> Hne. by rewrite bool_decide_eq_false_2.
Qed.

(** ** The example puzzles *)

(** The grids of the example puzzles have the shape of their dimensions. *)
Lemma examples_well_formed :
  wf_puzzle overlapPuzzle = true /\ wf_puzzle crossPuzzle = true /\
  wf_puzzle loneCellPuzzle = true.
Proof. vm_compute. done. Qed.

(** [revealLetter] does not look at the revealed marks: on the same unlocked
    cell it counts a hint each time, where [revealWord] and [revealAll]
    count the cell once. *)
Lemma revealLetter_counts_again :
  let s0 := initPuzzle crossPuzzle None in
  let s2 := revealLetter crossPuzzle (stats := firstVisit) 2
              (revealLetter crossPuzzle (stats := firstVisit) 1 s0) in
  hintsUsed (game s2) = 2 /\ elements (revealed (game s2)) = [(0%Z, 0%Z)].
Proof. vm_compute. done. Qed.

(** A whole game on [crossPuzzle]: the two letters of the across word are
    typed, then everything is revealed.  The clock starts once, with the
    first key; the completion callback is called once, by the reveal, and
    one more reveal does not call it again. *)
Lemma crossPuzzle_game :
  let s1 := crossAcrossSolved in
  let s2 := step crossPuzzle (text := asciiText) (stats := firstVisit) s1 (3%Z, EvRevealAll) in
  let s3 := step crossPuzzle (text := asciiText) (stats := firstVisit) s2 (4%Z, EvRevealAll) in
  (correctWords (game s1), completed (game s1),
   occurrences isComplete (log s1), occurrences isTimerStart (log s1))
  = ([0], false, 0, 1) /\
  (correctWords (game s2), completed (game s2), completedAt (game s2),
   occurrences isComplete (log s2), occurrences isStatsUpdate (log s2),
   hintsUsed (game s2))
  = ([0; 1], true, Some 3%Z, 1, 1, 1) /\
  (occurrences isComplete (log s3), occurrences isTimerStart (log s3),
   startTime (game s3))
  = (1, 1, Some 1%Z).
Proof. vm_compute. done. Qed.

(** ** The properties on the example puzzles *)

Lemma checkWord_validates_witness :
  words crossPuzzle !! 0 = Some acrossWord /\
  (0 ∉ correctWords (game crossAcrossFilled)) /\
  (0 ∈ correctWords
         (game (checkWord crossPuzzle (stats := firstVisit) 2 0
                  crossAcrossFilled)) <->
   forall rc, rc ∈ wcells acrossWord ->
     getLetter (cells crossAcrossFilled) rc.1 rc.2 <> "" /\
     getLetter (cells crossAcrossFilled) rc.1 rc.2
     = solutionAt crossPuzzle rc.1 rc.2).
Proof.
  assert (H1 : words crossPuzzle !! 0 = Some acrossWord)
    by (vm_compute; reflexivity).
  assert (H2 : 0 ∉ correctWords (game crossAcrossFilled)).
  { replace (correctWords (game crossAcrossFilled)) with (@nil nat)
      by (vm_compute; reflexivity).
    apply not_elem_of_nil. }
  split; [exact H1|]. split; [exact H2|].
  exact (proj1 (proj1 (proj2
           (@checkWord_validates crossPuzzle firstVisit asciiText 2%Z 0
              crossAcrossFilled))
           acrossWord H1 H2)).
Defined.


Lemma buildWords_spec_witness :
  wordIdxAt crossPuzzle 0 1 across = Some 0 /\
  inWord crossPuzzle 0 across (0%Z, 1%Z).
Proof.
  assert (H : wordIdxAt crossPuzzle 0 1 across = Some 0)
    by (vm_compute; reflexivity).
  split; [exact H|].
  exact (proj1 (proj2 (proj2 (proj2 (buildWords_spec crossPuzzle))))
           0%Z 1%Z across 0 H).
Defined.

Lemma reveal_counts_new_cells_witness :
  getActiveWord crossPuzzle crossDownActive = Some downWord /\
  (id downWord ∉ correctWords (game crossDownActive)) /\
  hintsUsed (game (revealWord crossPuzzle (stats := firstVisit) 3
                     crossDownActive))
  = hintsUsed (game crossDownActive)
    + length (filter (fun rc => isLocked (cells crossDownActive) rc.1 rc.2 = false /\
                                rc ∉ revealed (game crossDownActive))
                     (wcells downWord)).
Proof.
  assert (H1 : getActiveWord crossPuzzle crossDownActive = Some downWord)
    by (vm_compute; reflexivity).
  assert (H2 : id downWord ∉ correctWords (game crossDownActive)).
  { replace (correctWords (game crossDownActive)) with [0]
      by (vm_compute; reflexivity).
    intros H. apply list_elem_of_singleton in H. discriminate H. }
  split; [exact H1|]. split; [exact H2|].
  exact (proj1 (proj2 (proj2 (proj1
           (@reveal_counts_new_cells crossPuzzle firstVisit 3%Z
              crossDownActive))
           downWord H1) H2)).
Defined.

Lemma streak_recomputed_witness :
  (validDate feb29 = true /\ lastPlayed streakStats = Some feb28 /\
   validDate feb28 = true /\ feb29 = nextDay feb28 /\
   streakCurrent
     (updateStatsOnComplete streakStats "daily" "2024-02-29" 300 0 feb29)
   = (streakCurrent streakStats + 1)%Z) /\
  (validDate mar2 = true /\ mar2 = Nat.iter 3 nextDay feb28 /\ 1 < 3 /\
   streakCurrent
     (updateStatsOnComplete streakStats "daily" "2024-03-02" 300 0 mar2)
   = 1%Z).
Proof.
  assert (H0 : validDate feb29 = true) by reflexivity.
  assert (H1 : lastPlayed streakStats = Some feb28) by reflexivity.
  assert (H2 : validDate feb28 = true) by reflexivity.
  assert (H3 : feb29 = nextDay feb28) by reflexivity.
  assert (H4 : validDate mar2 = true) by reflexivity.
  assert (H5 : mar2 = Nat.iter 3 nextDay feb28) by reflexivity.
  assert (H6 : 1 < 3) by lia.
  split.
  - split; [exact H0|]. split; [exact H1|]. split; [exact H2|].
    split; [exact H3|].
    exact (proj1 (streak_recomputed streakStats "daily" "2024-02-29" 300%Z 0
                    feb29 H0)
             feb28 H1 H2 H3).
  - split; [exact H4|]. split; [exact H5|]. split; [exact H6|].
    exact (proj1 (proj2 (streak_recomputed streakStats "daily" "2024-03-02"
                           300%Z 0 mar2 H4))
             feb28 3 H1 H2 H5 H6).
Defined.

Lemma load_absent_or_throws_witness :
  ((∅ : gmap string string) !! progressKey "daily" "2026-02-15" = None \/
   (∅ : gmap string string) !! progressKey "daily" "2026-02-15" = Some "") /\
  loadProgress ∅ "daily" "2026-02-15" = Returned None.
Proof.
  assert (H : (∅ : gmap string string) !! progressKey "daily" "2026-02-15" = None \/
              (∅ : gmap string string) !! progressKey "daily" "2026-02-15" = Some "")
    by (left; apply lookup_empty).
  split; [exact H|].
  exact (proj1 (load_absent_or_throws ∅ "daily" "2026-02-15") H).
Defined.

Lemma active_direction_supported_witness :
  (supports crossPuzzle 0 1 across \/ supports crossPuzzle 0 1 down) /\
  supports crossPuzzle 0 1
    (activeDirection
       (setActiveCell crossPuzzle 0 1 (Some down) (createGame crossPuzzle None))).
Proof.
  assert (H : supports crossPuzzle 0 1 across \/ supports crossPuzzle 0 1 down).
  { left. exists 0. vm_compute. reflexivity. }
  split; [exact H|].
  exact (proj1 (proj2 (proj2 (proj1
           (active_direction_supported crossPuzzle (createGame crossPuzzle None))
           0%Z 1%Z (Some down)))) H).
Defined.


Lemma unplayable_cells_inert_witness :
  (inGrid crossPuzzle 1 1 = false \/ puzzleAt crossPuzzle 1 1 = Block) /\
  getLetter
    (cells (run crossPuzzle (text := asciiText) (stats := firstVisit)
            typeAB (initPuzzle crossPuzzle None)))
    1 1 = "" /\
  setLetter 1 1 "X"
    (cells (run crossPuzzle (text := asciiText) (stats := firstVisit)
            typeAB (initPuzzle crossPuzzle None)))
  = cells (run crossPuzzle (text := asciiText) (stats := firstVisit)
          typeAB (initPuzzle crossPuzzle None)).
Proof.
  assert (H : inGrid crossPuzzle 1 1 = false \/ puzzleAt crossPuzzle 1 1 = Block)
    by (right; vm_compute; reflexivity).
  split; [exact H|].
  exact (@unplayable_cells_inert crossPuzzle firstVisit asciiText None typeAB
           1%Z 1%Z "X" H).
Defined.

(** * Further properties of the code *)

(** ** The clock *)

Section TimerFacts.
Import Timer.

Lemma length_append (a b : string) :
  String.length (a +:+ b) = String.length a + String.length b.
Proof. induction a as [|c a IH]; simpl; [done|]. by rewrite IH. Qed.

Lemma append_inj (a a' b b' : string) :
  String.length a = String.length a' -> a +:+ b = a' +:+ b' -> a = a' /\ b = b'.
Proof.
  revert a'. induction a as [|c a IH]; intros [|c' a'] Hl H; simpl in *; try done.
  injection H as -> H. destruct (IH a') as [-> ->]; [lia|done|done].
Qed.

Lemma colons_append a b : colons (a +:+ b) = colons a + colons b.
Proof. induction a as [|c a IH]; simpl; [done|]. rewrite IH. lia. Qed.

Lemma colons_uint d : colons (NilEmpty.string_of_uint d) = 0.
Proof. induction d; simpl; done. Qed.

Lemma colons_String_of_Z z : (0 <= z)%Z -> colons (String_of_Z z) = 0.
Proof.
  intros Hz. unfold String_of_Z. destruct z as [|q|q]; [done| |lia].
  simpl. unfold NilZero.string_of_uint.
  destruct (Pos.to_uint q); try done; apply (colons_uint (_ _)).
Qed.

Lemma colons_padStart n s : colons (padStart n "0" s) = colons s.
Proof.
  unfold padStart. rewrite colons_append.
  induction (n - String.length s) as [|k IH]; simpl; [done|]. apply IH.
Qed.

Lemma String_of_Z_inj a b : String_of_Z a = String_of_Z b -> a = b.
Proof.
  unfold String_of_Z. intros H. apply DecimalZ.to_int_inj.
  assert (Hn : forall z, Z.to_int z <> Decimal.Pos Decimal.Nil /\
                         Z.to_int z <> Decimal.Neg Decimal.Nil).
  { intros [|q|q]; simpl; split; try done; intros E; injection E;
      apply DecimalPos.Unsigned.to_uint_nonnil. }
  assert (E : NilZero.int_of_string (NilZero.string_of_int (Z.to_int a))
              = NilZero.int_of_string (NilZero.string_of_int (Z.to_int b)))
    by (by rewrite H).
  rewrite !NilZero.isi in E by apply Hn. congruence.
Qed.

Lemma String_of_Z_nonempty z : 0 < String.length (String_of_Z z).
Proof.
  assert (Hu : forall d, d <> Decimal.Nil -> 0 < String.length (NilZero.string_of_uint d)).
  { intros d Hd. destruct d; simpl; lia. }
  unfold String_of_Z. destruct z as [|q|q]; simpl; [lia| |lia].
  apply Hu, DecimalPos.Unsigned.to_uint_nonnil.
Qed.

Lemma clockFields_lookup k :
  k < 60 -> clockFields !! k = Some (padStart 2 "0" (String_of_Z (Z.of_nat k))).
Proof.
  intros Hk. unfold clockFields. rewrite list_lookup_fmap, lookup_seq_lt by done. done.
Qed.

Lemma clockFields_NoDup : NoDup clockFields.
Proof.
  assert (H : bool_decide (NoDup clockFields) = true) by (vm_compute; reflexivity).
  by apply bool_decide_eq_true in H.
Qed.

Lemma clockFields_length :
  Forall (fun s => String.length s = 2) clockFields.
Proof.
  assert (H : forallb (fun s => String.length s =? 2) clockFields = true)
    by (vm_compute; reflexivity).
  apply Forall_forall. intros s Hs.
  rewrite forallb_forall in H. apply Nat.eqb_eq, H. by apply list_elem_of_In.
Qed.

Lemma field_length m :
  (0 <= m < 60)%Z -> String.length (padStart 2 "0" (String_of_Z m)) = 2.
Proof.
  intros Hm. pose proof (clockFields_lookup (Z.to_nat m) ltac:(lia)) as H.
  rewrite Z2Nat.id in H by lia.
  pose proof clockFields_length as Hf. rewrite Forall_lookup in Hf. by eapply Hf.
Qed.

Lemma field_inj m m' :
  (0 <= m < 60)%Z -> (0 <= m' < 60)%Z ->
  padStart 2 "0" (String_of_Z m) = padStart 2 "0" (String_of_Z m') -> m = m'.
Proof.
  intros Hm Hm' E.
  pose proof (clockFields_lookup (Z.to_nat m) ltac:(lia)) as H.
  pose proof (clockFields_lookup (Z.to_nat m') ltac:(lia)) as H'.
  rewrite Z2Nat.id in H, H' by lia. rewrite <- E in H'.
  pose proof (NoDup_lookup _ _ _ _ clockFields_NoDup H H'). lia.
Qed.

(** The fields of a number of seconds that is not negative. *)
Lemma fields_of (a : Z) :
  (0 <= a)%Z ->
  let h := (a / 3600)%Z in
  let m := (Z.rem a 3600 / 60)%Z in
  let s := Z.rem a 60 in
  (0 <= h)%Z /\ (0 <= m < 60)%Z /\ (0 <= s < 60)%Z /\ a = (3600 * h + 60 * m + s)%Z.
Proof.
  intros Ha. cbv zeta. rewrite !Z.rem_mod_nonneg by lia.
  repeat split; try (apply Z.div_pos; lia); try (apply Z.mod_pos_bound; lia).
  - apply Z.div_pos; [|lia]. apply Z.mod_pos_bound. lia.
  - apply Z.div_lt_upper_bound; [lia|]. pose proof (Z.mod_pos_bound a 3600). lia.
  - pose proof (Z.div_mod a 3600 ltac:(lia)).
    pose proof (Z.div_mod (a mod 3600) 60 ltac:(lia)).
    assert (E : ((a mod 3600) mod 60 = a mod 60)%Z).
    { symmetry. rewrite (Z.div_mod a 3600) at 1 by lia.
      replace (3600 * (a / 3600) + a mod 3600)%Z
        with (a mod 3600 + (60 * (a / 3600)) * 60)%Z by lia.
      by rewrite Z.mod_add by lia. }
    lia.
Qed.

Lemma formatTime_eq a :
  formatTime a =
  let h := (a / 3600)%Z in
  let rest := padStart 2 "0" (String_of_Z (Z.rem a 3600 / 60)) +:+ ":"
                +:+ padStart 2 "0" (String_of_Z (Z.rem a 60)) in
  if (0 <? h)%Z then String_of_Z h +:+ ":" +:+ rest else rest.
Proof. done. Qed.

(** Property X1.
    Distinct times are shown as distinct texts. *)
Theorem formatTime_injective (a b : Z) :
  (0 <= a)%Z -> (0 <= b)%Z -> formatTime a = formatTime b -> a = b.
Proof.
  intros Ha Hb. rewrite !formatTime_eq. cbv zeta.
  destruct (fields_of a Ha) as (Hh & Hm & Hs & Ea).
  destruct (fields_of b Hb) as (Hh' & Hm' & Hs' & Eb).
  set (h := (a / 3600)%Z) in *. set (m := (Z.rem a 3600 / 60)%Z) in *.
  set (s := Z.rem a 60) in *.
  set (h' := (b / 3600)%Z) in *. set (m' := (Z.rem b 3600 / 60)%Z) in *.
  set (s' := Z.rem b 60) in *.
  assert (Hrest : forall x y x' y',
    (0 <= x < 60)%Z -> (0 <= y < 60)%Z -> (0 <= x' < 60)%Z -> (0 <= y' < 60)%Z ->
    padStart 2 "0" (String_of_Z x) +:+ ":" +:+ padStart 2 "0" (String_of_Z y)
    = padStart 2 "0" (String_of_Z x') +:+ ":" +:+ padStart 2 "0" (String_of_Z y') ->
    x = x' /\ y = y').
  { intros x y x' y' Hx Hy Hx' Hy' E.
    apply append_inj in E as [E1 E2]; [|by rewrite !field_length].
    simpl in E2. injection E2 as E2. split; by apply field_inj. }
  assert (Hlen : forall x y, (0 <= x < 60)%Z -> (0 <= y < 60)%Z ->
    String.length (padStart 2 "0" (String_of_Z x) +:+ ":"
                     +:+ padStart 2 "0" (String_of_Z y)) = 5).
  { intros x y Hx Hy. rewrite !length_append, !field_length by done. done. }
  destruct (0 <? h)%Z eqn:E1, (0 <? h')%Z eqn:E2; intros E.
  - assert (El : String.length (String_of_Z h) = String.length (String_of_Z h')).
    { apply (f_equal String.length) in E.
      rewrite !(length_append (String_of_Z _)), !(length_append ":"), !Hlen in E by done.
      lia. }
    apply append_inj in E as [E3 E4]; [|done].
    apply String_of_Z_inj in E3. apply append_inj in E4 as [_ E4]; [|done].
    apply Hrest in E4 as [? ?]; try done. lia.
  - apply (f_equal String.length) in E.
    rewrite !(length_append (String_of_Z _)), !(length_append ":"), !Hlen in E by done.
    pose proof (String_of_Z_nonempty h). simpl in E. lia.
  - apply (f_equal String.length) in E.
    rewrite !(length_append (String_of_Z _)), !(length_append ":"), !Hlen in E by done.
    pose proof (String_of_Z_nonempty h'). simpl in E. lia.
  - apply Hrest in E as [? ?]; try done. lia.
Qed.

(** Property X2.
    [formatTimeFallback] shows the same text as [formatTime] exactly for
    the times below one hour. *)
Theorem formatTimeFallback_agrees (a : Z) :
  (0 <= a)%Z -> (formatTimeFallback a = formatTime a <-> (a < 3600)%Z).
Proof.
  intros Ha. rewrite formatTime_eq. unfold formatTimeFallback. cbv zeta.
  destruct (fields_of a Ha) as (Hh & Hm & Hs & Ea).
  destruct (0 <? a / 3600)%Z eqn:E; split.
  - intros H. apply (f_equal colons) in H.
    assert (0 <= a / 60)%Z by (apply Z.div_pos; lia).
    destruct Hm as [Hm _]. destruct Hs as [Hs _].
    rewrite !colons_append, !colons_padStart, !colons_String_of_Z in H by assumption.
    simpl in H. lia.
  - intros Hlt. apply Z.ltb_lt in E. rewrite Z.div_small in E by lia. lia.
  - intros _. apply Z.ltb_ge in E.
    assert ((a / 3600 = 0)%Z) as E0 by lia.
    apply Z.div_small_iff in E0; lia.
  - intros Hlt. by rewrite (Z.rem_small a 3600) by lia.
Qed.

Section Ops.
Context {W : Type}.
Variable onTick : option (Z -> W -> W).

Lemma tidy_start t : tidy t -> tidy (start t).
Proof.
  unfold tidy, start. destruct (running t) eqn:E; [by rewrite E|]. simpl.
  destruct (intervalId t); intros [? Hi]; [done|]. split; [done|].
  rewrite Hi. set_solver.
Qed.

Lemma tidy_pause t : tidy t -> tidy (pause t).
Proof.
  unfold tidy, pause. destruct (running t) eqn:E; simpl; [|by rewrite E].
  destruct (intervalId t); intros [? Hi]; [|done]. split; [done|].
  rewrite Hi. set_solver.
Qed.

Lemma tick_fields n (tw : State * W) :
  let tw' := Nat.iter n (tick onTick) tw in
  elapsed tw'.1 = (elapsed tw.1 + Z.of_nat n)%Z /\
  intervalId tw'.1 = intervalId tw.1 /\ running tw'.1 = running tw.1 /\
  started tw'.1 = started tw.1 /\ intervals tw'.1 = intervals tw.1 /\
  (textContent tw.1 = formatTime (elapsed tw.1) ->
   textContent tw'.1 = formatTime (elapsed tw'.1)).
Proof.
  induction n as [|n IH]; simpl; [repeat split; try done; lia|].
  destruct IH as (E1 & E2 & E3 & E4 & E5 & E6).
  rewrite E1, E2, E3, E4, E5. repeat split; try done. lia.
Qed.

Lemma tidy_apply tw op : tidy tw.1 -> tidy (apply onTick tw op).1.
Proof.
  intros H. destruct op; simpl.
  - by apply tidy_start.
  - by apply tidy_pause.
  - by apply tidy_pause.
  - done.
  - unfold visibilityChange. destruct (negb _); [done|].
    destruct hidden; [by apply tidy_pause|by apply tidy_start].
  - unfold second. destruct (tick_fields (size (intervals tw.1)) tw)
      as (_ & E2 & E3 & _ & E5 & _).
    unfold tidy in *. by rewrite E2, E3, E5.
Qed.

Lemma tidy_runOps ops tw : tidy tw.1 -> tidy (runOps onTick ops tw).1.
Proof.
  revert tw. induction ops as [|op ops IH]; intros tw H; [done|].
  simpl. apply IH. by apply tidy_apply.
Qed.

(** Property X3.
    Whatever was done to a timer since it was made, at most one interval
    is set, and a second that passes adds one to the time of a running
    timer and nothing to the time of a timer that does not run. *)
Theorem timer_single_interval ops (w : W) :
  let tw := runOps onTick ops (createTimer, w) in
  size (intervals tw.1) = (if running tw.1 then 1 else 0) /\
  elapsed (second onTick tw).1
  = (elapsed tw.1 + (if running tw.1 then 1 else 0))%Z.
Proof.
  cbv zeta. set (tw := runOps onTick ops (createTimer, w)).
  assert (Ht : tidy tw.1) by (by apply tidy_runOps).
  assert (Hs : size (intervals tw.1) = (if running tw.1 then 1 else 0)).
  { unfold tidy in Ht. destruct (intervalId tw.1); destruct Ht as [-> ->].
    - apply size_singleton.
    - apply size_empty. }
  split; [done|]. unfold second.
  destruct (tick_fields (size (intervals tw.1)) tw) as (-> & _).
  rewrite Hs. by destruct (running tw.1).
Qed.

Lemma shown_apply tw op : shown tw.1 -> shown (apply onTick tw op).1.
Proof.
  intros H. destruct op; simpl; unfold shown in *.
  - unfold start. by destruct (running _).
  - unfold pause. by destruct (negb _).
  - unfold stop, pause. by destruct (negb _).
  - done.
  - unfold visibilityChange, pause, start.
    destruct (negb (started _)); [done|]. destruct hidden.
    + by destruct (negb _).
    + by destruct (running _).
  - unfold second. by apply tick_fields.
Qed.

(** Property X4.
    The display always shows the time of the timer. *)
Theorem timer_display_current ops (w : W) :
  let t := (runOps onTick ops (createTimer, w)).1 in
  textContent t = formatTime (elapsed t).
Proof.
  cbv zeta. assert (H : forall tw, shown tw.1 -> shown (runOps onTick ops tw).1).
  { induction ops as [|op ops' IH]; intros tw Hs; [done|].
    simpl. apply IH. by apply shown_apply. }
  by apply H.
Qed.

End Ops.

End TimerFacts.

(** ** Writing to localStorage *)

Section SavingFacts.
Import Storage Saving.

Lemma append_cancel_l (a b b' : string) : a +:+ b = a +:+ b' -> b = b'.
Proof. induction a as [|c a IH]; simpl; [done|]. intros H. injection H as H. auto. Qed.

Lemma progressKey_not_statsKey lvl dt : progressKey lvl dt <> statsKey.
Proof. unfold progressKey, statsKey, PREFIX. simpl. discriminate. Qed.

Lemma progressKey_not_theme lvl dt : progressKey lvl dt <> THEME_KEY.
Proof. unfold progressKey, THEME_KEY, PREFIX. simpl. discriminate. Qed.

Lemma statsKey_not_theme : statsKey <> THEME_KEY.
Proof. unfold statsKey, THEME_KEY, PREFIX. simpl. discriminate. Qed.

Lemma progressKey_inj_date lvl dt dt' : progressKey lvl dt = progressKey lvl dt' -> dt = dt'.
Proof.
  unfold progressKey. intros H.
  do 4 apply append_cancel_l in H. done.
Qed.

Section Stringify.
Context {V : Type}.
Variable JSON_stringify : V -> string.

(** Property X5.
    Saving the progress of a puzzle changes neither the statistics nor
    the progress of the same level on another date nor the theme, and
    saving the statistics changes no progress; what was saved is what is
    read next. *)
Theorem saving_keeps_other_entries (localStorage : gmap string string)
    (lvl dt dt' : string) (v : V) :
  let saved := saveProgress JSON_stringify localStorage lvl dt v in
  loadStats saved = loadStats localStorage /\
  (dt' <> dt -> loadProgress saved lvl dt' = loadProgress localStorage lvl dt') /\
  saved !! THEME_KEY = localStorage !! THEME_KEY /\
  loadProgress (saveStats JSON_stringify localStorage v) lvl dt
    = loadProgress localStorage lvl dt /\
  loadProgress saved lvl dt = parseOr (Some (JSON_stringify v)) None Some /\
  loadStats (saveStats JSON_stringify localStorage v)
    = parseOr (Some (JSON_stringify v)) defaultStatsJson (fun j => j).
Proof.
  cbv zeta. unfold loadStats, loadProgress, saveProgress, saveStats.
  repeat split.
  - rewrite lookup_insert_ne; [done|apply progressKey_not_statsKey].
  - intros Hd. rewrite lookup_insert_ne; [done|].
    intros E. by apply progressKey_inj_date in E.
  - rewrite lookup_insert_ne; [done|apply progressKey_not_theme].
  - rewrite lookup_insert_ne; [done|]. intros E. symmetry in E.
    by apply progressKey_not_statsKey in E.
  - by rewrite lookup_insert_eq.
  - by rewrite lookup_insert_eq.
Qed.
End Stringify.

(** *** Statistics *)

Lemma afterCompletions_snoc cs c :
  afterCompletions (cs ++ [c]) = recordCompletion (afterCompletions cs) c.
Proof. unfold afterCompletions. by rewrite fold_left_app. Qed.

Lemma take_cons_take {A} n (x : A) (l : list A) :
  take (S n) (x :: take (S n) l) = take (S n) (x :: l).
Proof. simpl. f_equal. rewrite take_take. f_equal. lia. Qed.

Lemma foldr_add_acc (l : list Z) (x : Z) :
  foldr Z.add x l = (foldr Z.add 0 l + x)%Z.
Proof. induction l as [|y l IH]; simpl; lia. Qed.

(** Property X6.
    After a list of completions the counter is their number, the total
    time is the sum of their times, the history holds the latest 50 of
    them with the newest first, and the last day played is the day of the
    last one. *)
Theorem stats_after_completions (cs : list Completion) :
  let stats := afterCompletions cs in
  totalCompleted stats = Z.of_nat (length cs) /\
  totalTime stats = foldr Z.add 0%Z (c_secs <$> cs) /\
  history stats = take 50 (entryOf <$> reverse cs) /\
  lastPlayed stats = c_today <$> last cs.
Proof.
  cbv zeta. induction cs as [|c cs IH] using rev_ind; [done|].
  rewrite afterCompletions_snoc. destruct IH as (E1 & E2 & E3 & E4).
  unfold recordCompletion, updateStatsOnComplete. simpl.
  rewrite E1, E2, E3. repeat split.
  - rewrite length_app. simpl. lia.
  - rewrite fmap_app, foldr_app. simpl. rewrite (foldr_add_acc _ (c_secs c + 0)). lia.
  - rewrite reverse_snoc. rewrite fmap_cons.
    fold (entryOf c).
    change ({| h_date := c_date c; h_level := c_level c; h_time := c_secs c;
               h_hints := c_hints c; h_noHints := bool_decide (c_hints c = 0) |})
      with (entryOf c).
    destruct (50 <? _)%Z eqn:E.
    + apply take_cons_take.
    + apply Z.ltb_ge in E. simpl in E. rewrite length_take in E.
      rewrite (take_ge (entryOf <$> reverse cs)) by lia.
      rewrite take_ge by (simpl; lia). done.
  - by rewrite last_snoc.
Qed.

Lemma nextStreak_range current lastP today :
  (0 <= current)%Z ->
  (0 <= nextStreak current lastP today <= current + 1)%Z /\
  (lastP = None -> nextStreak current lastP today = 1%Z).
Proof.
  intros Hc. unfold nextStreak. destruct lastP as [l|]; [|split; [lia|done]].
  split; [|done]. destruct (diffDays l today) as [d|]; [|lia].
  destruct (d =? 1)%Z; [lia|]. destruct (1 <? d)%Z; lia.
Qed.

Lemma nextStreak_positive current lastP today :
  (1 <= current)%Z -> (1 <= nextStreak current lastP today)%Z.
Proof.
  intros Hc. unfold nextStreak. destruct lastP as [l|]; [|lia].
  destruct (diffDays l today) as [d|]; [|lia].
  destruct (d =? 1)%Z; [lia|]. destruct (1 <? d)%Z; lia.
Qed.

(** Property X7.
    After one completion or more the current streak is at least 1, the
    best streak is at least the current one, and neither is more than the
    number of completions. *)
Theorem streak_bounds (cs : list Completion) :
  cs <> [] ->
  let stats := afterCompletions cs in
  (1 <= streakCurrent stats)%Z /\
  (streakCurrent stats <= streakBest stats)%Z /\
  (streakBest stats <= Z.of_nat (length cs))%Z.
Proof.
  intros Hne. cbv zeta.
  assert (H : forall cs,
    let stats := afterCompletions cs in
    (0 <= streakCurrent stats <= streakBest stats)%Z /\
    (streakBest stats <= Z.of_nat (length cs))%Z /\
    (cs = [] -> lastPlayed stats = None) /\
    (cs <> [] -> (1 <= streakCurrent stats)%Z)).
  { clear. intros cs. cbv zeta. induction cs as [|c cs IH] using rev_ind.
    - repeat split; simpl; try lia; done.
    - rewrite afterCompletions_snoc. destruct IH as ((H0 & H1) & H2 & H3 & H4).
      unfold recordCompletion, updateStatsOnComplete. simpl.
      set (st := afterCompletions cs) in *.
      destruct (nextStreak_range (streakCurrent st) (lastPlayed st) (c_today c) H0)
        as [Hr Hn].
      rewrite length_app. simpl.
      split; [|split; [|split]].
      + destruct (_ <? _)%Z eqn:E; [lia|]. apply Z.ltb_ge in E. lia.
      + destruct (_ <? _)%Z eqn:E; lia.
      + intros E. by destruct cs.
      + intros _. destruct cs as [|c0 cs0].
        * rewrite Hn by (by apply H3). lia.
        * apply nextStreak_positive, H4. done. }
  destruct (H cs) as ((H0 & H1) & H2 & _ & H4). split; [by apply H4|]. lia.
Qed.

Lemma least_snoc l x :
  least (l ++ [x]) = Some (match least l with Some m => Z.min m x | None => x end).
Proof.
  destruct l as [|y l]; [done|]. simpl. f_equal.
  revert y. induction l as [|z l IH]; intros y; simpl; [lia|].
  rewrite IH. lia.
Qed.

Lemma least_positive l m : Forall (fun x => 0 < x)%Z l -> least l = Some m -> (0 < m)%Z.
Proof.
  destruct l as [|y l]; [done|]. simpl. intros H E. injection E as <-.
  apply Forall_cons in H as [Hy Hl]. revert y Hy.
  induction Hl as [|z l Hz Hl IH]; intros y Hy; simpl; [done|].
  specialize (IH y Hy). lia.
Qed.

(** Property X8.
    When every completion took more than 0 seconds, the best time kept
    for a level is the least time of the completions of that level, and
    no best time is kept for a level never completed.  A level whose name
    is one that every object inherits ([constructor], [toString] and the
    like) never gets a best time: the test of the [if] finds the inherited
    value. *)
Theorem bestTime_least (cs : list Completion) (lvl : string) :
  Forall (fun c => 0 < c_secs c)%Z cs ->
  bestTime (afterCompletions cs) !! lvl
  = if inherited lvl then None else least (timesOf lvl cs).
Proof.
  induction cs as [|c cs IH] using rev_ind; intros Hpos;
    [by destruct (inherited lvl)|].
  apply Forall_app in Hpos as [Hcs Hc]. apply Forall_singleton in Hc.
  specialize (IH Hcs). rewrite afterCompletions_snoc.
  unfold recordCompletion, updateStatsOnComplete. simpl.
  set (st := afterCompletions cs) in *.
  unfold timesOf. rewrite filter_app, fmap_app. fold (timesOf lvl cs).
  rewrite filter_cons, filter_nil.
  destruct (decide (c_level c = lvl)) as [El|Hl].
  - simpl. rewrite least_snoc. rewrite El.
    destruct (inherited lvl) eqn:Ei.
    { by rewrite IH. }
    rewrite <- IH.
    destruct (bestTime st !! lvl) as [b|] eqn:Eb.
    + assert (Hb : (0 < b)%Z).
      { eapply (least_positive (timesOf lvl cs)); [|by rewrite <- IH].
        unfold timesOf. apply Forall_fmap, Forall_forall. intros x Hx.
        apply list_elem_of_filter in Hx as [_ Hx].
        rewrite Forall_forall in Hcs. by apply Hcs. }
      destruct (b =? 0)%Z eqn:E0; [lia|]. simpl.
      destruct (c_secs c <? b)%Z eqn:E1.
      * rewrite lookup_insert_eq. f_equal. lia.
      * rewrite Eb. f_equal. lia.
    + by rewrite lookup_insert_eq.
  - simpl. rewrite app_nil_r, <- IH.
    destruct (bestTime st !! c_level c) as [b|].
    + destruct (_ || _); [|done]. by rewrite lookup_insert_ne.
    + destruct (inherited (c_level c)); [done|]. by rewrite lookup_insert_ne.
Qed.

(** *** Theme *)

Lemma getEffectiveTheme_insert (st : gmap string string) pd x :
  x <> "" -> getEffectiveTheme (<[THEME_KEY := x]> st) pd = x.
Proof.
  intros Hx. unfold getEffectiveTheme. rewrite lookup_insert_eq.
  by rewrite bool_decide_eq_false_2.
Qed.

(** Property X9.
    A click on the theme button stores and applies the other theme: after
    it the effective theme is the class of the document, it is light if
    the effective theme was dark and dark otherwise, and a second click
    brings back a theme that was dark or light.  No other entry of the
    storage changes. *)
Theorem themeClick_flips (prefersDark : bool) (pg : Page) :
  let before := getEffectiveTheme (storage pg) prefersDark in
  let pg1 := themeClick prefersDark pg in
  let pg2 := themeClick prefersDark pg1 in
  getEffectiveTheme (storage pg1) prefersDark = className pg1 /\
  className pg1 = (if bool_decide (before = "dark") then "light" else "dark") /\
  (before = "dark" \/ before = "light" -> className pg2 = before) /\
  (forall key, key <> THEME_KEY -> storage pg1 !! key = storage pg !! key).
Proof.
  cbv zeta. unfold themeClick. simpl.
  set (before := getEffectiveTheme (storage pg) prefersDark).
  split; [|split; [done|split]].
  - rewrite getEffectiveTheme_insert; [done|]. by destruct (bool_decide _).
  - rewrite getEffectiveTheme_insert by (by destruct (bool_decide _)).
    intros [E|E]; rewrite E; done.
  - intros key Hk. by rewrite lookup_insert_ne.
Qed.

End SavingFacts.

(** ** Moving the cursor *)

Section NavFacts.
Variable p : PuzzleData.

Lemma findIndexFrom_spec {A} (f : A -> bool) (l : list A) (base : Z) i x :
  l !! i = Some x -> f x = true ->
  (forall j y, j < i -> l !! j = Some y -> f y = false) ->
  findIndexFrom f l base = (base + Z.of_nat i)%Z.
Proof.
  revert base i. induction l as [|a l IH]; intros base i Hi Hx Hbefore; [done|].
  destruct i as [|i]; simpl in *.
  - injection Hi as ->. rewrite Hx. lia.
  - rewrite (Hbefore 0 a) by (done || lia).
    rewrite (IH (base + 1)%Z i); [lia|done|done|].
    intros j y Hj Hy. apply (Hbefore (S j) y); [lia|done].
Qed.

Lemma findIndex_unique {A} (f : A -> bool) (l : list A) i x :
  l !! i = Some x -> f x = true ->
  (forall j y, l !! j = Some y -> f y = true -> j = i) ->
  findIndex f l = Z.of_nat i.
Proof.
  intros Hi Hx Hu. unfold findIndex.
  rewrite (findIndexFrom_spec f l 0 i x); [lia|done|done|].
  intros j y Hj Hy. destruct (f y) eqn:E; [|done].
  specialize (Hu j y Hy E). lia.
Qed.

Lemma isActive_spec s rc :
  isActive s rc = true <-> rc = (activeRow s, activeCol s).
Proof.
  unfold isActive. rewrite andb_true_iff, !bool_decide_eq_true.
  destruct rc as [r c]. simpl. split; [intros [-> ->]; done|intros [= -> ->]; done].
Qed.

Lemma at_nat {A} (l : list A) (i : nat) : at_ l (Z.of_nat i) = l !! i.
Proof.
  unfold at_. destruct (Z.ltb_spec (Z.of_nat i) 0); [lia|]. by rewrite Nat2Z.id.
Qed.

Lemma getActiveWord_idx s w :
  getActiveWord p s = Some w ->
  (0 <= activeRow s)%Z /\
  wordIdxAt p (activeRow s) (activeCol s) (activeDirection s) = Some (id w) /\
  words p !! id w = Some w /\ direction w = activeDirection s /\
  (activeRow s, activeCol s) ∈ wcells w.
Proof.
  intros H. pose proof (getActiveWord_word p s w H) as Hw.
  unfold getActiveWord in H. destruct (activeRow s <? 0)%Z eqn:E; [done|].
  destruct (wordIdxAt p _ _ _) as [i|] eqn:Hi; simpl in H; [|done].
  pose proof (words_lookup p i w H) as [Hid _]. subst i.
  destruct (wordIdxAt_sound p _ _ _ _ Hi) as (w' & Hw' & Hd & Hin).
  assert (w' = w) as -> by congruence.
  repeat split; try done. lia.
Qed.

(** The direction stays when the cursor goes to a cell of a word of the
    active direction. *)
Lemma setActiveCell_in_word s i w rc dir :
  words p !! i = Some w -> rc ∈ wcells w ->
  default (activeDirection s) dir = direction w ->
  let s' := setActiveCell p rc.1 rc.2 dir s in
  activeRow s' = rc.1 /\ activeCol s' = rc.2 /\
  activeDirection s' = direction w /\
  exists j, wordIdxAt p rc.1 rc.2 (direction w) = Some j /\ i <= j.
Proof.
  intros Hw Hrc Hd. cbv zeta.
  destruct (wordIdxAt_complete p i w rc Hw Hrc) as (j & Hj & Hle).
  split; [done|]. split; [done|]. split; [|by exists j].
  unfold setActiveCell. cbn [activeDirection]. rewrite Hd.
  unfold wordIdxAt in Hj. destruct (at2 (cellToWords p) rc.1 rc.2) as [cw|]; [|done].
  simpl in Hj. by rewrite Hj.
Qed.

Lemma moveToNextCell_step s w :
  getActiveWord p s = Some w ->
  exists i, wcells w !! i = Some (activeRow s, activeCol s) /\
    let s' := moveToNextCell p s in
    match wcells w !! S i with
    | Some next =>
        s' = setActiveCell p next.1 next.2 None s /\
        (activeRow s', activeCol s') = next /\
        activeDirection s' = activeDirection s
    | None => s' = s
    end.
Proof.
  intros Hg. destruct (getActiveWord_idx s w Hg) as (Hr & Hi & Hw & Hd & Hin).
  apply list_elem_of_lookup in Hin as [i Hin]. exists i. split; [done|].
  cbv zeta. unfold moveToNextCell. rewrite Hg.
  pose proof (words_NoDup p _ _ Hw) as Hnd.
  rewrite (findIndex_unique (isActive s) (wcells w) i (activeRow s, activeCol s));
    [|done|by apply isActive_spec|].
  2:{ intros j y Hj Hy. apply isActive_spec in Hy. subst y.
      by eapply NoDup_lookup. }
  replace (Z.of_nat i + 1)%Z with (Z.of_nat (S i)) by lia. rewrite at_nat.
  destruct (wcells w !! S i) as [next|] eqn:En.
  - apply lookup_lt_Some in En as Hlt.
    replace (Z.of_nat i <? Z.of_nat (length (wcells w)) - 1)%Z with true
      by (unfold Coord in *; lia).
    split; [done|].
    destruct (setActiveCell_in_word s (id w) w next None Hw) as (E1 & E2 & E3 & _).
    { by eapply list_elem_of_lookup_2. }
    { simpl. done. }
    rewrite E1, E2, E3. split; [by destruct next|done].
  - apply lookup_ge_None in En.
    by replace (Z.of_nat i <? Z.of_nat (length (wcells w)) - 1)%Z with false
      by (unfold Coord in *; lia).
Qed.

(** Property X10.
    Typing moves on along the active word: [moveToNextCell] puts the
    cursor on the cell that follows the active cell in the cell sequence
    of the active word and keeps the direction; on the last cell of the
    word nothing changes. *)
Theorem moveToNextCell_successor s w :
  getActiveWord p s = Some w ->
  exists i, wcells w !! i = Some (activeRow s, activeCol s) /\
    let s' := moveToNextCell p s in
    match wcells w !! S i with
    | Some next =>
        s' = setActiveCell p next.1 next.2 None s /\
        (activeRow s', activeCol s') = next /\
        activeDirection s' = activeDirection s
    | None => s' = s
    end.
Proof. exact (moveToNextCell_step s w). Qed.

Lemma moveToPrevCell_predecessor s w i :
  getActiveWord p s = Some w ->
  wcells w !! i = Some (activeRow s, activeCol s) ->
  let s' := moveToPrevCell p s in
  match i with
  | S i' =>
      exists prev, wcells w !! i' = Some prev /\
        s' = setActiveCell p prev.1 prev.2 None s /\
        (activeRow s', activeCol s') = prev /\
        activeDirection s' = activeDirection s
  | 0 => s' = s
  end.
Proof.
  intros Hg Hin. destruct (getActiveWord_idx s w Hg) as (Hr & Hi & Hw & Hd & _).
  cbv zeta. unfold moveToPrevCell. rewrite Hg.
  pose proof (words_NoDup p _ _ Hw) as Hnd.
  rewrite (findIndex_unique (isActive s) (wcells w) i (activeRow s, activeCol s));
    [|done|by apply isActive_spec|].
  2:{ intros j y Hj Hy. apply isActive_spec in Hy. subst y.
      by eapply NoDup_lookup. }
  destruct i as [|i']; [done|].
  destruct (Z.ltb_spec 0 (Z.of_nat (S i'))); [|lia].
  replace (Z.of_nat (S i') - 1)%Z with (Z.of_nat i') by lia. rewrite at_nat.
  destruct (wcells w !! i') as [prev|] eqn:Ep.
  2:{ apply lookup_ge_None in Ep. apply lookup_lt_Some in Hin. unfold Coord in *. lia. }
  exists prev. split; [done|]. split; [done|].
  destruct (setActiveCell_in_word s (id w) w prev None Hw) as (E1 & E2 & E3 & _).
  { by eapply list_elem_of_lookup_2. }
  { simpl. done. }
  rewrite E1, E2, E3. split; [by destruct prev|done].
Qed.

(** The active word after the cursor went to a cell of word [w], when
    the words of one direction share no cell. *)
Lemma getActiveWord_in_word s w rc dir :
  sameDirDisjoint p ->
  words p !! id w = Some w -> rc ∈ wcells w ->
  default (activeDirection s) dir = direction w ->
  getActiveWord p (setActiveCell p rc.1 rc.2 dir s) = Some w.
Proof.
  intros Hdis Hw Hrc Hd.
  destruct (setActiveCell_in_word s (id w) w rc dir Hw Hrc Hd) as (E1 & E2 & E3 & j & Hj & _).
  unfold getActiveWord. rewrite E1, E2, E3.
  pose proof (words_cells_playable p _ _ _ Hw Hrc) as Hp.
  apply isPlayable_inGrid in Hp. unfold inGrid in Hp.
  replace (rc.1 <? 0)%Z with false by lia.
  rewrite Hj. simpl.
  destruct (wordIdxAt_sound p _ _ _ _ Hj) as (w' & Hw' & Hd' & Hin').
  assert (j = id w) as ->; [|done].
  eapply (Hdis j (id w) w' w rc); try done. by destruct rc.
Qed.

(** Property X11.
    Going on by one cell and back by one cell brings the cursor back,
    when the words of one direction share no cell. *)
Theorem next_then_prev_returns s w i next :
  sameDirDisjoint p ->
  getActiveWord p s = Some w ->
  wcells w !! i = Some (activeRow s, activeCol s) ->
  wcells w !! S i = Some next ->
  let s' := moveToPrevCell p (moveToNextCell p s) in
  activeRow s' = activeRow s /\ activeCol s' = activeCol s /\
  activeDirection s' = activeDirection s /\ getActiveWord p s' = Some w.
Proof.
  intros Hdis Hg Hi Hn. cbv zeta.
  destruct (getActiveWord_idx s w Hg) as (Hr & Hidx & Hw & Hd & Hin).
  destruct (moveToNextCell_step s w Hg) as (i' & Hi' & Hnext).
  assert (i' = i) as ->.
  { eapply NoDup_lookup; [by eapply words_NoDup|done|done]. }
  cbv zeta in Hnext. unfold Coord in *. rewrite Hn in Hnext.
  destruct Hnext as (E & Hpos & Hdir).
  set (s1 := moveToNextCell p s) in *.
  assert (Hg1 : getActiveWord p s1 = Some w).
  { rewrite E. apply getActiveWord_in_word; try done.
    by eapply list_elem_of_lookup_2. }
  pose proof (moveToPrevCell_predecessor s1 w (S i) Hg1) as Hprev.
  rewrite Hpos in Hprev. specialize (Hprev Hn). cbv zeta in Hprev.
  destruct Hprev as (prev & Hp & E2 & Hpos2 & Hdir2).
  assert (prev = (activeRow s, activeCol s)) as ->
    by (unfold Coord in *; congruence).
  injection Hpos2 as -> ->. rewrite Hdir2, Hdir.
  repeat split; try done.
  rewrite E2. apply getActiveWord_in_word; try done. simpl. congruence.
Qed.

(** *** Words of one direction *)

Lemma entryCell_in cs w :
  wcells w <> [] -> exists target, entryCell cs w = Some target /\ target ∈ wcells w.
Proof.
  intros Hne. unfold entryCell.
  destruct (List.find (isEmptyCell cs) (wcells w)) as [x|] eqn:E.
  - exists x. split; [done|]. apply find_some in E as [E _]. by apply list_elem_of_In.
  - destruct (wcells w) as [|x l]; [done|]. exists x. split; [done|]. by left.
Qed.

Lemma word_cells_nonempty i w : words p !! i = Some w -> wcells w <> [].
Proof.
  intros H. destruct (word_run p i w H) as (r & c & k & _ & _ & _ & Hk & -> & _).
  destruct k; [lia|]. done.
Qed.

Lemma filter_lookup_Some {A} (f : A -> bool) (l : list A) k x :
  List.filter f l !! k = Some x -> f x = true /\ exists i, l !! i = Some x.
Proof.
  intros H. apply list_elem_of_lookup_2, list_elem_of_In, filter_In in H as [H1 H2].
  split; [done|]. by apply list_elem_of_In, list_elem_of_lookup in H1.
Qed.

Lemma filter_NoDup_ids (f : Word -> bool) :
  forall j k x y, List.filter f (words p) !! j = Some x ->
                  List.filter f (words p) !! k = Some y -> id x = id y -> j = k.
Proof.
  assert (Hnd : NoDup (id <$> words p)).
  { apply NoDup_alt. intros i j n Hi Hj.
    rewrite list_lookup_fmap in Hi, Hj.
    destruct (words p !! i) as [x|] eqn:Ex; [|done].
    destruct (words p !! j) as [y|] eqn:Ey; [|done].
    simpl in *. apply words_lookup in Ex as [Ex _]. apply words_lookup in Ey as [Ey _].
    congruence. }
  assert (Hf : NoDup (id <$> List.filter f (words p))).
  { revert Hnd. generalize (words p). induction l as [|a l IH]; simpl; [done|].
    intros Hnd. apply NoDup_cons in Hnd as [Ha Hnd].
    destruct (f a); simpl; [|by apply IH].
    apply NoDup_cons. split; [|by apply IH].
    intros Hin. apply Ha. apply list_elem_of_fmap in Hin as (x & Ex & Hx).
    apply list_elem_of_fmap. exists x. split; [done|].
    apply list_elem_of_In, filter_In in Hx as [Hx _]. by apply list_elem_of_In. }
  intros j k x y Hj Hk E. eapply NoDup_lookup; [exact Hf| |].
  - rewrite list_lookup_fmap, Hj. done.
  - rewrite list_lookup_fmap, Hk. simpl. by rewrite E.
Qed.

(** Property X12.
    Tab and Enter go round the words of the active direction, in the
    order of the word list: the cursor goes to the first empty cell of the
    word after the current one (before it with the shift key, wrapping at
    both ends), or to its first cell when the word is full, and the
    direction stays. *)
Theorem moveToNextWord_cycles reverse s i :
  wordIdxAt p (activeRow s) (activeCol s) (activeDirection s) = Some i ->
  exists k cur w' target,
    sameDir p s !! k = Some cur /\ id cur = i /\
    sameDir p s !! nextPos reverse k (length (sameDir p s)) = Some w' /\
    entryCell (cells s) w' = Some target /\ target ∈ wcells w' /\
    let s' := moveToNextWord p reverse s in
    s' = setActiveCell p target.1 target.2 (Some (direction w')) s /\
    (activeRow s', activeCol s') = target /\
    activeDirection s' = activeDirection s.
Proof.
  intros Hi. destruct (wordIdxAt_sound p _ _ _ _ Hi) as (cur & Hcur & Hd & Hin).
  pose proof (words_lookup p i cur Hcur) as [Hid _].
  (* the current word is one of the words of the direction *)
  assert (Hmem : cur ∈ sameDir p s).
  { apply list_elem_of_In, filter_In. split; [|by apply bool_decide_eq_true].
    apply list_elem_of_In. by eapply list_elem_of_lookup_2. }
  apply list_elem_of_lookup in Hmem as [k Hk].
  assert (Hfind : findIndex (fun w => bool_decide (id w = i)) (sameDir p s) = Z.of_nat k).
  { eapply findIndex_unique; [exact Hk|by apply bool_decide_eq_true|].
    intros j y Hj Hy. apply bool_decide_eq_true in Hy.
    eapply filter_NoDup_ids; [exact Hj|exact Hk|congruence]. }
  pose proof (lookup_lt_Some _ _ _ Hk) as Hlt.
  set (n := length (sameDir p s)) in *.
  assert (Hnext : nextPos reverse k n < n).
  { unfold nextPos. destruct reverse; [destruct k; lia|].
    destruct (S k <? n) eqn:E; [apply Nat.ltb_lt in E|]; lia. }
  destruct (lookup_lt_is_Some_2 (sameDir p s) _ Hnext) as [w' Hw'].
  destruct (filter_lookup_Some _ _ _ _ Hw') as [Hdw' [j Hj]].
  apply bool_decide_eq_true in Hdw'.
  destruct (entryCell_in (cells s) w' (word_cells_nonempty j w' Hj)) as (target & Ht & Htin).
  exists k, cur, w', target. do 5 (split; [done|]).
  assert (E : moveToNextWord p reverse s
              = setActiveCell p target.1 target.2 (Some (direction w')) s).
  { unfold moveToNextWord. rewrite Hi. fold (sameDir p s). rewrite Hfind. fold n.
    assert (Epos : (if reverse
                    then (if (0 <? Z.of_nat k)%Z then Z.of_nat k - 1 else Z.of_nat n - 1)
                    else (if (Z.of_nat k <? Z.of_nat n - 1)%Z then Z.of_nat k + 1 else 0))%Z
                   = Z.of_nat (nextPos reverse k n)).
    { unfold nextPos. destruct reverse.
      - destruct k; [simpl; lia|]. destruct (Z.ltb_spec 0 (Z.of_nat (S k))); simpl; lia.
      - destruct (S k <? n) eqn:E1.
        + apply Nat.ltb_lt in E1. replace (Z.of_nat k <? Z.of_nat n - 1)%Z with true by lia. lia.
        + apply Nat.ltb_ge in E1. replace (Z.of_nat k <? Z.of_nat n - 1)%Z with false by lia. lia. }
    rewrite Epos, at_nat, Hw', Ht. done. }
  cbv zeta. rewrite E. split; [done|].
  destruct (setActiveCell_in_word s j w' target (Some (direction w')) Hj Htin)
    as (E1 & E2 & E3 & _); [done|].
  rewrite E1, E2, E3. split; [by destruct target|done].
Qed.

(** Property X13.
    A click on a clue makes its word the active word, when the words of
    one direction share no cell: the cursor goes to the first empty cell
    of the word, or to its first cell when the word is full, in the
    direction of the word.  A number that is no word id changes nothing. *)
Theorem selectWord_activates s i :
  sameDirDisjoint p ->
  match words p !! i with
  | Some w =>
      exists target, entryCell (cells s) w = Some target /\ target ∈ wcells w /\
        let s' := selectWord p i s in
        (activeRow s', activeCol s') = target /\
        activeDirection s' = direction w /\
        getActiveWord p s' = Some w
  | None => selectWord p i s = s
  end.
Proof.
  intros Hdis. unfold selectWord. destruct (words p !! i) as [w|] eqn:Hw; [|done].
  destruct (entryCell_in (cells s) w (word_cells_nonempty i w Hw)) as (target & Ht & Htin).
  exists target. split; [done|]. split; [done|]. rewrite Ht. cbv zeta.
  destruct (setActiveCell_in_word s i w target (Some (direction w)) Hw Htin)
    as (E1 & E2 & E3 & _); [done|].
  rewrite E1, E2, E3. split; [by destruct target|]. split; [done|].
  pose proof (words_lookup p i w Hw) as [Hid _].
  apply getActiveWord_in_word; try done. by rewrite Hid.
Qed.

(** *** Arrows *)

Lemma moveArrowFrom_skip s dr dc k fuel r c :
  skel (cells s) = skel (render p) ->
  (forall j, j < k ->
     inGrid p (r + Z.of_nat j * dr) (c + Z.of_nat j * dc) = true /\
     puzzleAt p (r + Z.of_nat j * dr) (c + Z.of_nat j * dc) = Block) ->
  moveArrowFrom p (k + fuel) dr dc r c s
  = moveArrowFrom p fuel dr dc (r + Z.of_nat k * dr) (c + Z.of_nat k * dc) s.
Proof.
  intros Hs. revert r c. induction k as [|k IH]; intros r c Hb.
  - simpl. f_equal; lia.
  - destruct (Hb 0 ltac:(lia)) as [Hin Hblk].
    replace (r + Z.of_nat 0 * dr)%Z with r in * by lia.
    replace (c + Z.of_nat 0 * dc)%Z with c in * by lia.
    simpl. rewrite Hin.
    destruct (skel_cell p (cells s) r c Hs) as [[_ Hout]|(cell & Hc & _ & Hbl & _)]; [congruence|].
    unfold getCell. rewrite Hc, Hbl, bool_decide_eq_true_2 by done.
    rewrite IH.
    + f_equal; lia.
    + intros j Hj. specialize (Hb (S j) ltac:(lia)).
      replace (r + dr + Z.of_nat j * dr)%Z with (r + Z.of_nat (S j) * dr)%Z by lia.
      replace (c + dc + Z.of_nat j * dc)%Z with (c + Z.of_nat (S j) * dc)%Z by lia.
      done.
Qed.

(** Property X14.
    An arrow key puts the cursor on the nearest cell in its direction
    that is not black, and leaves everything as it is when only black
    cells lie between the active cell and the edge of the grid. *)
Theorem moveArrow_nearest s dr dc k :
  skel (cells s) = skel (render p) -> unitStep dr dc -> 0 < k ->
  (forall j, 0 < j < k ->
     inGrid p (arrowCell s dr dc j).1 (arrowCell s dr dc j).2 = true /\
     puzzleAt p (arrowCell s dr dc j).1 (arrowCell s dr dc j).2 = Block) ->
  let target := arrowCell s dr dc k in
  (isPlayable p target.1 target.2 = true ->
     moveArrow p dr dc s = setActiveCell p target.1 target.2 None s) /\
  (inGrid p target.1 target.2 = false -> moveArrow p dr dc s = s).
Proof.
  intros Hs Hu Hk Hb. cbv zeta.
  assert (E : moveArrow p dr dc s
              = moveArrowFrom p (S (walkFuel p)) dr dc
                  (arrowCell s dr dc k).1 (arrowCell s dr dc k).2 s).
  { rewrite <- (moveArrow_fuel p (k - 1) dr dc s Hu).
    replace (S (walkFuel p) + (k - 1)) with ((k - 1) + S (walkFuel p)) by lia.
    rewrite moveArrowFrom_skip; [|done|].
    - unfold arrowCell. cbn [fst snd].
      replace (Z.of_nat (k - 1)) with (Z.of_nat k - 1)%Z by lia.
      f_equal; lia.
    - intros j Hj. specialize (Hb (S j) ltac:(lia)). unfold arrowCell in Hb. simpl in Hb.
      replace (activeRow s + dr + Z.of_nat j * dr)%Z
        with (activeRow s + Z.of_nat (S j) * dr)%Z by lia.
      replace (activeCol s + dc + Z.of_nat j * dc)%Z
        with (activeCol s + Z.of_nat (S j) * dc)%Z by lia.
      done. }
  rewrite E. set (target := arrowCell s dr dc k). split.
  - intros Hp. apply isPlayable_spec in Hp as [Hin Hnb]. cbn [moveArrowFrom]. rewrite Hin.
    destruct (skel_cell p (cells s) target.1 target.2 Hs)
      as [[_ Hout]|(cell & Hc & _ & Hbl & _)]; [congruence|].
    unfold getCell. by rewrite Hc, Hbl, bool_decide_eq_false_2.
  - intros Hout. cbn [moveArrowFrom]. by rewrite Hout.
Qed.

(** *** The first cell *)

Lemma find_first {A} (f : A -> bool) (l : list A) :
  match List.find f l with
  | Some x => exists l1 l2, l = l1 ++ x :: l2 /\ f x = true /\
                            forall y, y ∈ l1 -> f y = false
  | None => forall y, y ∈ l -> f y = false
  end.
Proof.
  induction l as [|a l IH]; simpl.
  - intros y Hy. by apply elem_of_nil in Hy.
  - destruct (f a) eqn:E.
    + exists [], l. split; [done|]. split; [done|]. intros y Hy. by apply elem_of_nil in Hy.
    + destruct (List.find f l) as [x|].
      * destruct IH as (l1 & l2 & -> & Hx & Hb). exists (a :: l1), l2.
        split; [done|]. split; [done|]. intros y Hy.
        apply elem_of_cons in Hy as [->|Hy]; [done|by apply Hb].
      * intros y Hy. apply elem_of_cons in Hy as [->|Hy]; [done|by apply IH].
Qed.

Lemma seq_sorted a n : StronglySorted lt (seq a n).
Proof.
  revert a. induction n as [|n IH]; intros a; simpl; [constructor|].
  constructor; [apply IH|]. apply Forall_forall. intros x Hx.
  apply elem_of_seq in Hx. lia.
Qed.

Lemma seqZ_sorted m n : StronglySorted Z.lt (seqZ m n).
Proof.
  unfold seqZ. eapply StronglySorted_fmap; [|apply seq_sorted].
  intros x y Hxy. simpl. lia.
Qed.

Lemma allCoords_sorted : StronglySorted rowMajor (allCoords p).
Proof.
  unfold allCoords.
  assert (H : forall rows, StronglySorted Z.lt rows ->
    StronglySorted rowMajor (r ← rows; (fun c => (r, c)) <$> seqZ 0 (width p))).
  { intros rows Hrows. induction Hrows as [|r rows Hrows IH Hr]; simpl; [constructor|].
    apply StronglySorted_app_2; [| |done].
    - intros x1 x2 H1 H2. apply list_elem_of_fmap in H1 as (c1 & -> & _).
      apply list_elem_of_bind in H2 as (r2 & H2 & Hr2).
      apply list_elem_of_fmap in H2 as (c2 & -> & _).
      left. simpl. rewrite Forall_forall in Hr. by apply Hr.
    - eapply StronglySorted_fmap; [|apply seqZ_sorted].
      intros x y Hxy. right. done. }
  apply H, seqZ_sorted.
Qed.

Lemma allCoords_split l1 l2 x :
  allCoords p = l1 ++ x :: l2 ->
  forall y, inGrid p y.1 y.2 = true -> y ∈ l1 \/ y = x \/ rowMajor x y.
Proof.
  intros E y Hy.
  assert (Hin : y ∈ allCoords p) by (destruct y; by apply elem_of_allCoords).
  pose proof allCoords_sorted as Hs. rewrite E in Hs, Hin.
  apply elem_of_app in Hin as [Hin|Hin]; [by left|].
  apply elem_of_cons in Hin as [->|Hin]; [right; by left|].
  right. right. apply StronglySorted_app_1_r, StronglySorted_inv in Hs as [_ Hs].
  rewrite Forall_forall in Hs. by apply Hs.
Qed.

Lemma focusFirstCell_cases s :
  skel (cells s) = skel (render p) ->
  let s' := focusFirstCell p s in
  (exists r c, isPlayable p r c = true /\
     s' = setActiveCell p r c (Some across) s /\
     forall r' c', isPlayable p r' c' = true ->
       (r', c') = (r, c) \/ rowMajor (r, c) (r', c')) \/
  ((forall r c, isPlayable p r c = false) /\ s' = s).
Proof.
  intros Hs. cbv zeta. unfold focusFirstCell.
  assert (Hplay : forall rc, inGrid p rc.1 rc.2 = true ->
            isPlayableCell (cells s) rc = isPlayable p rc.1 rc.2).
  { intros rc Hin. unfold isPlayableCell, getCell.
    destruct (skel_cell p (cells s) rc.1 rc.2 Hs) as [[_ Hout]|(cell & -> & _ & Hb & _)];
      [congruence|].
    rewrite Hb. unfold isPlayable. unfold inGrid in Hin.
    replace ((rc.1 <? 0) || (height p <=? rc.1) || (rc.2 <? 0) || (width p <=? rc.2))%Z
      with false by lia. done. }
  pose proof (find_first (isPlayableCell (cells s)) (allCoords p)) as H.
  destruct (List.find _ _) as [[r c]|].
  - left. destruct H as (l1 & l2 & E & Hx & Hb). exists r, c.
    assert (Hin : inGrid p r c = true).
    { apply elem_of_allCoords. rewrite E. apply elem_of_app. right. by left. }
    split; [pose proof (Hplay (r, c) Hin) as Hrc; simpl in Hrc; by rewrite <- Hrc|].
    split; [done|].
    intros r' c' Hp.
    destruct (allCoords_split l1 l2 (r, c) E (r', c')) as [Hl|[Heq|Hlt]].
    + by apply isPlayable_inGrid.
    + apply Hb in Hl.
      pose proof (Hplay (r', c') (isPlayable_inGrid p r' c' Hp)) as Hrc.
      simpl in Hrc. congruence.
    + by left.
    + by right.
  - right. split; [|done]. intros r c.
    destruct (isPlayable p r c) eqn:Hp; [|done].
    pose proof (isPlayable_inGrid p r c Hp) as Hin.
    specialize (H (r, c) (proj2 (elem_of_allCoords p r c) Hin)).
    pose proof (Hplay (r, c) Hin) as Hrc. simpl in Hrc. congruence.
Qed.

(** Property X15.
    [focusFirstCell] selects, in the across direction, the first cell in
    reading order that is not black: every cell of the grid before it, row
    by row and from left to right, is black.  In a grid with black cells
    only nothing is selected. *)
Theorem focusFirstCell_first s :
  skel (cells s) = skel (render p) ->
  let s' := focusFirstCell p s in
  (exists r c, isPlayable p r c = true /\
     s' = setActiveCell p r c (Some across) s /\
     forall r' c', isPlayable p r' c' = true ->
       (r', c') = (r, c) \/ rowMajor (r, c) (r', c')) \/
  ((forall r c, isPlayable p r c = false) /\ s' = s).
Proof. exact (focusFirstCell_cases s). Qed.

End NavFacts.

(** ** Classes of cells *)

Lemma lockWordCells_eq word cs :
  lockWordCells word cs
  = fold_left (fun m rc => alter2 lockAndMark rc.1 rc.2 m) (wcells word) cs.
Proof.
  unfold lockWordCells. generalize (wcells word) as l. intros l. revert cs.
  induction l as [|rc l IH]; intros cs; simpl; [done|].
  rewrite IH. unfold lockCell, setCellClass. by rewrite alter2_compose.
Qed.

(** A loop that applies an idempotent change to the cells of a list. *)
Lemma at2_fold_alter2 (h : Cell -> Cell) (l : list Coord) cs r c :
  (forall x, h (h x) = h x) ->
  at2 (fold_left (fun m rc => alter2 h rc.1 rc.2 m) l cs) r c
  = if bool_decide ((r, c) ∈ l) then h <$> at2 cs r c else at2 cs r c.
Proof.
  intros Hh. revert cs. induction l as [|a l IH]; intros cs; cbn [fold_left].
  - case_bool_decide as H; [by apply elem_of_nil in H|done].
  - rewrite IH, at2_alter2. destruct a as [ra ca]. cbn [fst snd].
    destruct (decide ((ra, ca) = (r, c))) as [E|E].
    + injection E as -> ->. rewrite (bool_decide_eq_true_2 ((r, c) ∈ (r, c) :: l))
        by (by left).
      case_bool_decide; [|done]. destruct (at2 cs r c); simpl; [|done]. by rewrite Hh.
    + assert (Hiff : (r, c) ∈ (ra, ca) :: l <-> (r, c) ∈ l).
      { rewrite elem_of_cons. naive_solver. }
      by rewrite (bool_decide_ext _ _ Hiff).
Qed.

Lemma addClass_idem k x : addClass k (addClass k x) = addClass k x.
Proof.
  unfold addClass. simpl. destruct (decide (k ∈ classList x)) as [H1|H1].
  - by rewrite !(bool_decide_eq_true_2 (k ∈ classList x)).
  - rewrite (bool_decide_eq_false_2 (k ∈ classList x)) by done.
    rewrite bool_decide_eq_true_2; [done|]. apply elem_of_app. right. by left.
Qed.

Lemma lockAndMark_idem x : lockAndMark (lockAndMark x) = lockAndMark x.
Proof.
  unfold lockAndMark, setInput, addClass. simpl.
  destruct (decide (Correct ∈ classList x)) as [H1|H1].
  - rewrite !(bool_decide_eq_true_2 (Correct ∈ classList x)) by done.
    by destruct (input x).
  - rewrite (bool_decide_eq_false_2 (Correct ∈ classList x)) by done.
    rewrite bool_decide_eq_true_2; [by destruct (input x)|].
    apply elem_of_app. right. by left.
Qed.

Lemma elem_of_addClass k k' x :
  k' ∈ classList (addClass k x) <-> k' ∈ classList x \/ k' = k.
Proof.
  unfold addClass. simpl. case_bool_decide as H.
  - split; [by left|]. intros [Hk|Hk]; [done|by subst].
  - rewrite elem_of_app, list_elem_of_singleton. done.
Qed.

Lemma classesAt_at2 cs r c :
  classesAt cs r c = default [] (classList <$> at2 cs r c).
Proof. unfold classesAt, getCell. by destruct (at2 cs r c). Qed.

Lemma classesAt_clearHighlights cs r c k :
  k <> Active -> k <> Highlighted ->
  (k ∈ classesAt (clearHighlights cs) r c <-> k ∈ classesAt cs r c).
Proof.
  intros H1 H2. rewrite !classesAt_at2. unfold clearHighlights.
  rewrite at2_fmap. destruct (at2 cs r c) as [x|]; simpl; [|done].
  destruct (isBlack x); [done|]. unfold removeClass. simpl.
  rewrite !list_elem_of_filter. naive_solver.
Qed.

Lemma classesAt_clearHighlights_nav cs r c k :
  (k = Active \/ k = Highlighted) ->
  (exists x, at2 cs r c = Some x /\ isBlack x = false) ->
  k ∉ classesAt (clearHighlights cs) r c.
Proof.
  intros Hk (x & Hx & Hb). rewrite classesAt_at2. unfold clearHighlights.
  rewrite at2_fmap, Hx. simpl. rewrite Hb. unfold removeClass. simpl.
  rewrite !list_elem_of_filter. naive_solver.
Qed.

Section Marks.
Variable p : PuzzleData.

Lemma classesAt_highlightWord wordIdx cs r c k :
  k ∈ classesAt (highlightWord p wordIdx cs) r c <->
  k ∈ classesAt cs r c \/
  (k = Highlighted /\ is_Some (at2 cs r c) /\
   exists i w, wordIdx = Some i /\ words p !! i = Some w /\ (r, c) ∈ wcells w).
Proof.
  unfold highlightWord. destruct wordIdx as [i|]; simpl; [|naive_solver].
  destruct (words p !! i) as [w|] eqn:Hw; [|naive_solver].
  rewrite !classesAt_at2, at2_fold_alter2 by apply addClass_idem.
  case_bool_decide as Hin.
  - destruct (at2 cs r c) as [x|]; cbn [fmap option_fmap option_map from_option Datatypes.id].
    + rewrite elem_of_addClass. split.
      * intros [?| ->]; [by left|]. right. split; [done|]. split; [done|]. by exists i, w.
      * intros [?|(-> & _)]; [by left|by right].
    + split; [intros H; by apply elem_of_nil in H|].
      intros [H|(_ & [? ?] & _)]; [by apply elem_of_nil in H|done].
  - split; [by left|]. intros [?|(_ & _ & i' & w' & [= <-] & Hw' & Hin')]; [done|].
    rewrite Hw in Hw'. injection Hw' as <-. done.
Qed.

(** Property X16.
    After [setActiveCell] on a playable cell, a playable cell carries the
    class active exactly when it is the selected cell, and the class
    highlighted exactly when it lies in the active word; the other classes
    of the cells are as before. *)
Theorem setActiveCell_marks s row col dir r c :
  skel (cells s) = skel (render p) ->
  isPlayable p row col = true -> isPlayable p r c = true ->
  let s' := setActiveCell p row col dir s in
  (Active ∈ classesAt (cells s') r c <-> (r, c) = (row, col)) /\
  (Highlighted ∈ classesAt (cells s') r c <->
     exists w, getActiveWord p s' = Some w /\ (r, c) ∈ wcells w) /\
  (forall k, kept k = true ->
     (k ∈ classesAt (cells s') r c <-> k ∈ classesAt (cells s) r c)).
Proof.
  intros Hs Hp Hrc. cbv zeta.
  destruct (playable_cell p (cells s) r c Hs Hrc) as (x & inp & Hx & Hb & _).
  unfold getCell in Hx.
  set (d0 := default (activeDirection s) dir).
  set (cw := at2 (cellToWords p) row col).
  set (d1 := match cw with
             | Some w => match cwDir w d0 with None => flip d0 | Some _ => d0 end
             | None => d0
             end).
  set (wordIdx := cw ≫= fun w => cwDir w d1).
  assert (Ecells : cells (setActiveCell p row col dir s)
                   = highlightWord p wordIdx
                       (alter2 (addClass Active) row col (clearHighlights (cells s))))
    by done.
  assert (Hword : getActiveWord p (setActiveCell p row col dir s)
                  = wordIdx ≫= fun i => words p !! i).
  { unfold getActiveWord. cbn [activeRow activeCol activeDirection setActiveCell].
    apply isPlayable_inGrid in Hp. unfold inGrid in Hp.
    replace (row <? 0)%Z with false by lia. done. }
  assert (Hmid : forall k,
    k ∈ classesAt (alter2 (addClass Active) row col (clearHighlights (cells s))) r c <->
    (k ∈ classesAt (clearHighlights (cells s)) r c \/ (k = Active /\ (r, c) = (row, col)))).
  { intros k. rewrite !classesAt_at2, at2_alter2.
    assert (Hcl : exists y, at2 (clearHighlights (cells s)) r c = Some y).
    { unfold clearHighlights. rewrite at2_fmap, Hx. by eexists. }
    destruct Hcl as [y Hy]. rewrite Hy.
    destruct (decide ((row, col) = (r, c))) as [E|E];
      cbn [fmap option_fmap option_map from_option Datatypes.id].
    - rewrite elem_of_addClass. naive_solver.
    - naive_solver. }
  assert (Hsome : is_Some (at2 (alter2 (addClass Active) row col (clearHighlights (cells s))) r c)).
  { rewrite at2_alter2. unfold clearHighlights. rewrite at2_fmap, Hx.
    case_decide; by eexists. }
  rewrite Ecells. split; [|split].
  - rewrite classesAt_highlightWord, Hmid. split.
    + intros [[H|[_ ?]]|[? _]]; [|done|done].
      exfalso. revert H. apply classesAt_clearHighlights_nav; [by left|by exists x].
    + intros E. left. right. done.
  - rewrite classesAt_highlightWord, Hmid, Hword. split.
    + intros [[H|[? _]]|(_ & _ & i & w & Ei & Hw & Hin)]; [|done|].
      * exfalso. revert H. apply classesAt_clearHighlights_nav; [by right|by exists x].
      * exists w. rewrite Ei. simpl. done.
    + intros (w & Hw & Hin). right. split; [done|]. split; [done|].
      destruct wordIdx as [i|]; simpl in Hw; [|done]. by exists i, w.
  - intros k Hk. rewrite classesAt_highlightWord, Hmid.
    rewrite classesAt_clearHighlights by (by destruct k).
    destruct k; naive_solver.
Qed.

(** The classes that stay are not touched by [setActiveCell], on any
    cell. *)
Lemma kept_setActiveCell s row col dir r c k :
  kept k = true ->
  (k ∈ classesAt (cells (setActiveCell p row col dir s)) r c
   <-> k ∈ classesAt (cells s) r c).
Proof.
  intros Hk. cbn [cells setActiveCell].
  rewrite classesAt_highlightWord.
  assert (Hmid : forall cs,
    k ∈ classesAt (alter2 (addClass Active) row col cs) r c <-> k ∈ classesAt cs r c).
  { intros cs. rewrite !classesAt_at2, at2_alter2.
    destruct (decide ((row, col) = (r, c))); [|done].
    destruct (at2 cs r c); cbn [fmap option_fmap option_map from_option Datatypes.id]; [|done].
    rewrite elem_of_addClass. destruct k; naive_solver. }
  rewrite Hmid, classesAt_clearHighlights by (by destruct k).
  destruct k; naive_solver.
Qed.

End Marks.

(** ** Cells under the operations of the grid *)

Lemma isLocked_at2 cs r c :
  isLocked cs r c = true <->
  exists x i, at2 cs r c = Some x /\ input x = Some i /\ readOnly i = true.
Proof.
  unfold isLocked, getCell. destruct (at2 cs r c) as [x|].
  - destruct (input x) as [i|] eqn:Ei.
    + split; [intros H; by exists x, i|].
      intros (x' & i' & [= <-] & Hi & Hr). congruence.
    + split; [done|]. intros (x' & i' & [= <-] & Hi & Hr). congruence.
  - split; [done|]. intros (x' & i' & [=] & _).
Qed.

Lemma classesAt_setLetter r c l cs r' c' :
  classesAt (setLetter r c l cs) r' c' = classesAt cs r' c'.
Proof.
  unfold setLetter. destruct (getCell cs r c) as [cell|]; [|done].
  destruct (isBlack cell); [done|].
  rewrite !classesAt_at2, at2_alter2.
  destruct (decide ((r, c) = (r', c'))); [|done]. by destruct (at2 cs r' c').
Qed.

Lemma classesAt_setCellClass r c k cs r' c' k' :
  k' ∈ classesAt (setCellClass r c k cs) r' c' <->
  k' ∈ classesAt cs r' c' \/
  (k' = k /\ (r', c') = (r, c) /\ is_Some (at2 cs r c)).
Proof.
  unfold setCellClass. rewrite !classesAt_at2, at2_alter2.
  destruct (decide ((r, c) = (r', c'))) as [E|E].
  - injection E as <- <-.
    destruct (at2 cs r c) as [x|]; cbn [fmap option_fmap option_map from_option Datatypes.id].
    + rewrite elem_of_addClass. naive_solver.
    + split; [by left|]. intros [?|(_ & _ & [? ?])]; done.
  - split; [by left|]. intros [?|(_ & ? & _)]; [done|congruence].
Qed.

Lemma isLocked_setCellClass r c k cs r' c' :
  isLocked (setCellClass r c k cs) r' c' = isLocked cs r' c'.
Proof. apply isLocked_ext, cores_locks, cores_setCellClass. Qed.

Lemma isLocked_setLetter r c l cs r' c' :
  isLocked (setLetter r c l cs) r' c' = isLocked cs r' c'.
Proof. apply isLocked_ext, locks_setLetter. Qed.

Lemma classesAt_lockWordCells word cs r c k :
  k ∈ classesAt (lockWordCells word cs) r c <->
  k ∈ classesAt cs r c \/
  (k = Correct /\ (r, c) ∈ wcells word /\ is_Some (at2 cs r c)).
Proof.
  rewrite lockWordCells_eq, !classesAt_at2, at2_fold_alter2 by apply lockAndMark_idem.
  case_bool_decide as Hin; [|naive_solver].
  destruct (at2 cs r c) as [x|]; cbn [fmap option_fmap option_map from_option Datatypes.id].
  - unfold lockAndMark. cbn [classList setInput]. rewrite elem_of_addClass. naive_solver.
  - split; [by left|]. intros [?|(_ & _ & [? ?])]; done.
Qed.

Lemma isLocked_lockWordCells word cs r c :
  isLocked (lockWordCells word cs) r c = true <->
  isLocked cs r c = true \/
  ((r, c) ∈ wcells word /\ exists x i, at2 cs r c = Some x /\ input x = Some i).
Proof.
  rewrite lockWordCells_eq.
  unfold isLocked, getCell. rewrite at2_fold_alter2 by apply lockAndMark_idem.
  case_bool_decide as Hin.
  - destruct (at2 cs r c) as [x|]; cbn [fmap option_fmap option_map].
    + unfold lockAndMark, setInput. cbn [input addClass].
      destruct (input x) as [i|] eqn:Ei;
        cbn [fmap option_fmap option_map readOnly setReadOnly].
      * split; [|done]. intros _. right. split; [done|]. by exists x, i.
      * split; [done|]. intros [?|(_ & x' & i' & [= <-] & ?)]; [done|congruence].
    + split; [done|]. intros [?|(_ & x' & i' & ? & _)]; done.
  - split; [by left|]. intros [?|[? _]]; done.
Qed.

(** ** What grows *)

Lemma progress_refl s : progress s s.
Proof. split; try done. Qed.

Lemma progress_trans s1 s2 s3 : progress s1 s2 -> progress s2 s3 -> progress s1 s3.
Proof.
  intros [A1 A2 A3 A4 A5 A6 A7 A8 A9] [B1 B2 B3 B4 B5 B6 B7 B8 B9].
  split; try congruence; try (etrans; eassumption); auto.
Qed.

Lemma calm_refl s : calm s s.
Proof. split; [done|]. exists []. by rewrite app_nil_r. Qed.

Lemma calm_same s s' :
  elapsed (game s') = elapsed (game s) -> log s' = log s -> calm s s'.
Proof. intros H1 H2. split; [done|]. exists []. by rewrite app_nil_r. Qed.

Lemma calm_trans s1 s2 s3 : calm s1 s2 -> calm s2 s3 -> calm s1 s3.
Proof.
  intros [A1 (l1 & A2 & A3)] [B1 (l2 & B2 & B3)]. split; [congruence|].
  exists (l1 ++ l2). split; [by rewrite B2, A2, app_assoc|].
  by rewrite forallb_app, A3, B3.
Qed.

Lemma grows_refl s : grows s s.
Proof. split; [apply progress_refl|apply calm_refl]. Qed.

Lemma grows_trans s1 s2 s3 : grows s1 s2 -> grows s2 s3 -> grows s1 s3.
Proof.
  intros [A1 A2] [B1 B2]. split; [by eapply progress_trans|by eapply calm_trans].
Qed.

(** A change of the cells that keeps the inputs and the marks. *)
Lemma grows_withCells f s :
  skel (f (cells s)) = skel (cells s) ->
  (forall r c, isLocked (cells s) r c = true -> isLocked (f (cells s)) r c = true) ->
  (forall r c k, kept k = true ->
     k ∈ classesAt (cells s) r c -> k ∈ classesAt (f (cells s)) r c) ->
  grows s (withCells f s).
Proof. intros H1 H2 H3. split; [split; try done|by apply calm_same]. Qed.

Lemma grows_withGame f s :
  elapsed (f (game s)) = elapsed (game s) ->
  st_level (f (game s)) = st_level (game s) ->
  st_date (f (game s)) = st_date (game s) ->
  hintsUsed (game s) <= hintsUsed (f (game s)) ->
  revealed (game s) ⊆ revealed (f (game s)) ->
  correctWords (game s) `prefix_of` correctWords (f (game s)) ->
  (completed (game s) = true -> completed (f (game s)) = true) ->
  grows s (withGame f s).
Proof. intros. split; [split; try done|by apply calm_same]. Qed.

Lemma grows_emit e s : notRestore e = true -> grows s (emit e s).
Proof.
  intros He. split; [split; try done|]. split; [done|]. exists [e]. split; [done|].
  simpl. by rewrite He.
Qed.

Lemma grows_setLetter r c l s : grows s (withCells (setLetter r c l) s).
Proof.
  apply grows_withCells.
  - apply skel_setLetter.
  - intros r' c'. by rewrite isLocked_setLetter.
  - intros r' c' k _. by rewrite classesAt_setLetter.
Qed.

Lemma grows_setCellClass r c k s : grows s (withCells (setCellClass r c k) s).
Proof.
  apply grows_withCells.
  - apply cores_skel, cores_setCellClass.
  - intros r' c'. by rewrite isLocked_setCellClass.
  - intros r' c' k' _ H. apply classesAt_setCellClass. by left.
Qed.

Section Grows.
Variable p : PuzzleData.
Context {stats : StatsEntry}.

Lemma grows_markWordCorrect i a s : grows s (markWordCorrect p i a s).
Proof.
  unfold markWordCorrect. destruct (words p !! i) as [word|]; [|apply grows_refl].
  eapply grows_trans; [|by apply grows_emit].
  fold (lockWordCells word). apply grows_withCells.
  - apply skel_lockWordCells.
  - intros r c H. apply isLocked_lockWordCells. by left.
  - intros r c k _ H. apply classesAt_lockWordCells. by left.
Qed.

Lemma grows_checkCompletion now s : grows s (checkCompletion p now s).
Proof.
  unfold checkCompletion, checkCompletionE.
  destruct (completed (game s)); [apply grows_refl|].
  destruct (bool_decide _); [|apply grows_refl].
  destruct statsUpdatable; simpl.
  - do 3 (eapply grows_trans; [|by apply grows_emit]).
    apply (grows_withGame (completeNow now)); solve_game.
  - eapply grows_trans; [|by apply grows_emit].
    apply (grows_withGame (completeNow now)); solve_game.
Qed.

(** The save at the end of a function, which an exception skips. *)
Lemma grows_finish r s :
  grows s (after r) -> grows s (finish r (emit ScheduleSave)).
Proof.
  destruct r; simpl; [|done]. intros H.
  eapply grows_trans; [exact H|by apply grows_emit].
Qed.

Lemma grows_validated now i s : grows s (validated p now i s).
Proof.
  unfold validated.
  eapply grows_trans; [apply (grows_withGame (pushCorrect i)); solve_game|].
  eapply grows_trans; [apply grows_markWordCorrect|apply grows_checkCompletion].
Qed.

Lemma grows_checkWord now i s : grows s (checkWord p now i s).
Proof.
  destruct (checkWord_cases p now i s) as [->|(_ & _ & _ & _ & _ & ->)];
    [apply grows_refl|apply grows_validated].
Qed.

Lemma grows_checkWordsAt now row col s : grows s (checkWordsAt p now row col s).
Proof.
  apply (checkWordsAt_chain p grows now);
    [apply grows_refl|apply grows_trans|apply grows_checkWord].
Qed.

Lemma grows_checkOpenWords now l s : grows s (after (checkOpenWords p now l s)).
Proof.
  apply (checkOpenWords_chain p grows now);
    [apply grows_refl|apply grows_trans|apply grows_checkWord].
Qed.

Lemma grows_startClock now s : grows s (startClock now s).
Proof.
  unfold startClock. destruct (falsyTime _); [|apply grows_refl].
  eapply grows_trans; [apply (grows_withGame (setStartTime now)); solve_game|].
  by apply grows_emit.
Qed.

Lemma grows_storeLetter row col letter s : grows s (storeLetter row col letter s).
Proof. unfold storeLetter. destruct (bool_decide _); apply grows_withGame; solve_game. Qed.

Lemma grows_onLetterInput now row col letter s :
  grows s (onLetterInput p now row col letter s).
Proof.
  rewrite onLetterInput_eq. apply grows_finish.
  eapply grows_trans; [apply grows_startClock|].
  eapply grows_trans; [apply grows_storeLetter|].
  apply grows_checkWordsAt.
Qed.

Lemma grows_typed now row col letter s : grows s (typed p now row col letter s).
Proof.
  unfold typed. eapply grows_trans; [apply grows_setLetter|apply grows_onLetterInput].
Qed.

Lemma grows_markRevealed rc s : grows s (withGame (markRevealed rc) s).
Proof. apply grows_withGame; solve_game. Qed.

Lemma grows_revealCell s rc : grows s (revealCell p s rc).
Proof.
  unfold revealCell. cbv zeta.
  set (s1 := withCells (setLetter rc.1 rc.2 (solutionAt p rc.1 rc.2)) s).
  set (s2 := withGame (withGridMap <[rc := solutionAt p rc.1 rc.2]>) s1).
  apply (grows_trans _ s1); [apply grows_setLetter|].
  apply (grows_trans _ s2); [apply grows_withGame; solve_game|].
  eapply grows_trans; [|apply grows_setCellClass].
  destruct (bool_decide _); [apply grows_refl|apply grows_markRevealed].
Qed.

Lemma grows_revealLoop g l s : grows s (revealLoop p g l s).
Proof.
  unfold revealLoop. revert s. induction l as [|rc l IH]; intros s; [apply grows_refl|].
  simpl. eapply grows_trans; [|apply IH].
  destruct (g _ _); [apply grows_revealCell|apply grows_refl].
Qed.

Lemma grows_revealLetter now s : grows s (revealLetter p now s).
Proof.
  unfold revealLetter. destruct (_ || _)%Z; [apply grows_refl|].
  destruct (getCell _ _ _) as [cell|]; [|apply grows_refl].
  destruct (isBlack cell); [apply grows_refl|].
  destruct (isLocked _ _ _); [apply grows_refl|].
  destruct (_ || _); [apply grows_refl|].
  cbv zeta. apply grows_finish.
  eapply grows_trans; [|apply grows_checkWordsAt].
  eapply grows_trans; [|apply grows_setCellClass].
  eapply grows_trans; [|apply grows_markRevealed].
  eapply grows_trans; [apply grows_setLetter|].
  apply grows_withGame; solve_game.
Qed.

Lemma grows_revealWord now s : grows s (revealWord p now s).
Proof.
  unfold revealWord. destruct (getActiveWord p s) as [word|]; [|apply grows_refl].
  destruct (bool_decide _); [apply grows_refl|].
  rewrite revealWord_loop. apply grows_finish.
  eapply grows_trans; [apply grows_revealLoop|apply grows_checkWord].
Qed.

Lemma grows_checkAll now l s : grows s (fold_left (checkIfOpen p now) l s).
Proof.
  revert s. induction l as [|i l IH]; intros s; [apply grows_refl|].
  simpl. eapply grows_trans; [|apply IH].
  unfold checkIfOpen. destruct (bool_decide _); [apply grows_refl|apply grows_checkWord].
Qed.

Lemma grows_revealAll now s : grows s (revealAll p now s).
Proof.
  rewrite revealAll_eq. apply grows_finish.
  eapply grows_trans; [apply grows_revealLoop|apply grows_checkOpenWords].
Qed.

Lemma grows_setActiveCell row col dir s : grows s (setActiveCell p row col dir s).
Proof.
  destruct (navStep_setActiveCell p row col dir s) as [Hc Hg (l & Hl & Hf)].
  split; [split|split].
  - by apply cores_skel.
  - by rewrite Hg.
  - by rewrite Hg.
  - by rewrite Hg.
  - by rewrite Hg.
  - by rewrite Hg.
  - by rewrite Hg.
  - intros r c. by rewrite (isLocked_ext _ _ _ _ (cores_locks _ _ Hc)).
  - intros r c k Hk. by rewrite kept_setActiveCell.
  - by rewrite Hg.
  - exists l. split; [done|]. apply forallb_elem_of. intros e He.
    pose proof (proj1 (forallb_elem_of _ _) Hf e He). by destruct e.
Qed.

(** *** Navigation selects a playable cell *)

Lemma selects_word s i w rc dir :
  words p !! i = Some w -> rc ∈ wcells w ->
  selects p s (setActiveCell p rc.1 rc.2 dir s).
Proof.
  intros Hw Hrc. right. exists rc.1, rc.2, dir. split; [done|]. intros _.
  by eapply words_cells_playable.
Qed.

Lemma selects_toggleDirection s : selects p s (toggleDirection p s).
Proof.
  unfold toggleDirection. destruct (wordIdxAt p _ _ _) as [i|] eqn:E; [|by left].
  destruct (wordIdxAt_sound p _ _ _ _ E) as (w & Hw & _ & Hin).
  right. exists (activeRow s), (activeCol s), (Some (flip (activeDirection s))).
  split; [done|]. intros _. by apply (words_cells_playable p i w _ Hw Hin).
Qed.

Lemma at_elem_of {A} (l : list A) i x : at_ l i = Some x -> x ∈ l.
Proof.
  unfold at_. destruct (i <? 0)%Z; [done|]. apply list_elem_of_lookup_2.
Qed.

Lemma selects_moveToNextCell s : selects p s (moveToNextCell p s).
Proof.
  unfold moveToNextCell. destruct (getActiveWord p s) as [w|] eqn:Hg; [|by left].
  destruct (_ <? _)%Z; [|by left].
  destruct (at_ _ _) as [next|] eqn:En; [|by left].
  apply (selects_word s (id w) w next None); [by eapply getActiveWord_word|].
  by apply at_elem_of in En.
Qed.

Lemma selects_moveToPrevCell s : selects p s (moveToPrevCell p s).
Proof.
  unfold moveToPrevCell. destruct (getActiveWord p s) as [w|] eqn:Hg; [|by left].
  destruct (_ <? _)%Z; [|by left].
  destruct (at_ _ _) as [prev|] eqn:En; [|by left].
  apply (selects_word s (id w) w prev None); [by eapply getActiveWord_word|].
  by apply at_elem_of in En.
Qed.

Lemma entryCell_elem_of cs w target : entryCell cs w = Some target -> target ∈ wcells w.
Proof.
  unfold entryCell. destruct (List.find _ _) as [x|] eqn:E.
  - intros [= <-]. apply find_some in E as [E _]. by apply list_elem_of_In.
  - destruct (wcells w); [done|]. intros [= <-]. by left.
Qed.

Lemma selects_moveToNextWord reverse s : selects p s (moveToNextWord p reverse s).
Proof.
  unfold moveToNextWord. destruct (wordIdxAt p _ _ _); [|by left].
  destruct (at_ _ _) as [w|] eqn:Ew; [|by left].
  destruct (entryCell _ _) as [target|] eqn:Et; [|by left].
  apply at_elem_of, list_elem_of_In, filter_In in Ew as [Ew _].
  apply list_elem_of_In, list_elem_of_lookup in Ew as [i Hi].
  apply (selects_word s i w target _ Hi). by eapply entryCell_elem_of.
Qed.

Lemma selects_cell s r c dir :
  (skel (cells s) = skel (render p) -> isPlayable p r c = true) ->
  selects p s (setActiveCell p r c dir s).
Proof. intros H. right. by exists r, c, dir. Qed.

Lemma live_playable s r c cell :
  skel (cells s) = skel (render p) ->
  inGrid p r c = true -> getCell (cells s) r c = Some cell -> isBlack cell = false ->
  isPlayable p r c = true.
Proof.
  intros Hs Hin Hc Hb. apply isPlayable_spec. split; [done|].
  destruct (skel_cell p (cells s) r c Hs) as [[_ Hout]|(cell' & Hc' & _ & Hb' & _)];
    [congruence|].
  unfold getCell in Hc. assert (cell' = cell) as -> by congruence.
  rewrite Hb in Hb'. symmetry in Hb'. by apply bool_decide_eq_false in Hb'.
Qed.

Lemma selects_moveArrowFrom fuel dr dc r c s :
  selects p s (moveArrowFrom p fuel dr dc r c s).
Proof.
  revert r c. induction fuel as [|fuel IH]; intros r c; simpl; [by left|].
  destruct (inGrid p r c) eqn:Hin; [|by left].
  destruct (getCell _ _ _) as [cell|] eqn:Hc; [|by left].
  destruct (isBlack cell) eqn:Hb; [apply IH|].
  apply selects_cell. intros Hs. by eapply live_playable.
Qed.

Lemma selects_handleCellFocus row col s :
  isPlayable p row col = true -> selects p s (handleCellFocus p row col s).
Proof.
  intros Hp. unfold handleCellFocus. destruct (_ && _); [by left|].
  by apply selects_cell.
Qed.

Lemma selects_handleClick row col s : selects p s (handleClick p row col s).
Proof.
  unfold handleClick. destruct (_ && _); [apply selects_toggleDirection|by left].
Qed.

Lemma selects_focusFirstCell s : selects p s (focusFirstCell p s).
Proof.
  unfold focusFirstCell. destruct (List.find _ _) as [rc|] eqn:E; [|by left].
  apply selects_cell. intros Hs. apply find_some in E as [Hin E].
  apply list_elem_of_In in Hin. destruct rc as [r c]. apply elem_of_allCoords in Hin.
  unfold isPlayableCell in E. simpl in *.
  destruct (getCell (cells s) r c) as [cell|] eqn:Hc; [|done].
  eapply live_playable; try done. by apply negb_true_iff in E.
Qed.

Lemma selects_selectWord i s : selects p s (selectWord p i s).
Proof.
  unfold selectWord. destruct (words p !! i) as [w|] eqn:Hw; [|by left].
  destruct (entryCell _ _) as [target|] eqn:Et; [|by left].
  apply (selects_word s i w target _ Hw). by eapply entryCell_elem_of.
Qed.

Lemma grows_selects s s' : selects p s s' -> grows s s'.
Proof.
  intros [->|(r & c & dir & -> & _)]; [apply grows_refl|apply grows_setActiveCell].
Qed.

Lemma navStep_selects s s' : selects p s s' -> navStep s s'.
Proof.
  intros [->|(r & c & dir & -> & _)]; [apply navStep_refl|apply navStep_setActiveCell].
Qed.

End Grows.

(** ** The cursor *)

Section Cursor.
Variable p : PuzzleData.
Context {stats : StatsEntry}.

Lemma sameCursor_refl s : sameCursor s s.
Proof. done. Qed.

Lemma sameCursor_trans s1 s2 s3 :
  sameCursor s1 s2 -> sameCursor s2 s3 -> sameCursor s1 s3.
Proof. intros (A1 & A2 & A3) (B1 & B2 & B3). repeat split; congruence. Qed.

Lemma sameCursor_emit e s s' : sameCursor s s' -> sameCursor s (emit e s').
Proof. done. Qed.

Lemma sameCursor_checkCompletion now s : sameCursor s (checkCompletion p now s).
Proof.
  unfold checkCompletion, checkCompletionE. destruct (completed (game s)); [done|].
  destruct (bool_decide _); [|done]. by destruct statsUpdatable.
Qed.

Lemma sameCursor_finish r s :
  sameCursor s (after r) -> sameCursor s (finish r (emit ScheduleSave)).
Proof. by destruct r. Qed.

Lemma sameCursor_markWordCorrect i a s : sameCursor s (markWordCorrect p i a s).
Proof. unfold markWordCorrect. by destruct (words p !! i). Qed.

Lemma sameCursor_validated now i s : sameCursor s (validated p now i s).
Proof.
  unfold validated. eapply sameCursor_trans; [|apply sameCursor_checkCompletion].
  eapply sameCursor_trans; [|apply sameCursor_markWordCorrect]. done.
Qed.

Lemma sameCursor_checkWord now i s : sameCursor s (checkWord p now i s).
Proof.
  destruct (checkWord_cases p now i s) as [->|(_ & _ & _ & _ & _ & ->)];
    [done|apply sameCursor_validated].
Qed.

Lemma sameCursor_checkWordsAt now row col s :
  sameCursor s (checkWordsAt p now row col s).
Proof.
  apply (checkWordsAt_chain p sameCursor now);
    [apply sameCursor_refl|apply sameCursor_trans|apply sameCursor_checkWord].
Qed.

Lemma sameCursor_checkOpenWords now l s :
  sameCursor s (after (checkOpenWords p now l s)).
Proof.
  apply (checkOpenWords_chain p sameCursor now);
    [apply sameCursor_refl|apply sameCursor_trans|apply sameCursor_checkWord].
Qed.

Lemma sameCursor_typed now row col letter s :
  sameCursor s (typed p now row col letter s).
Proof.
  unfold typed. rewrite onLetterInput_eq. apply sameCursor_finish.
  eapply sameCursor_trans; [|apply (sameCursor_checkWordsAt now row col)].
  unfold storeLetter, startClock. simpl.
  destruct (bool_decide _), (falsyTime _); done.
Qed.

Lemma sameCursor_revealCell s rc : sameCursor s (revealCell p s rc).
Proof. unfold revealCell. cbv zeta. by destruct (bool_decide _). Qed.

Lemma sameCursor_revealLoop g l s : sameCursor s (revealLoop p g l s).
Proof.
  unfold revealLoop. revert s. induction l as [|rc l IH]; intros s; [done|].
  simpl. eapply sameCursor_trans; [|apply IH].
  destruct (g _ _); [apply sameCursor_revealCell|done].
Qed.

Lemma sameCursor_revealLetter now s : sameCursor s (revealLetter p now s).
Proof.
  unfold revealLetter. destruct (_ || _)%Z; [done|].
  destruct (getCell _ _ _) as [cell|]; [|done].
  destruct (isBlack cell); [done|]. destruct (isLocked _ _ _); [done|].
  destruct (_ || _); [done|]. cbv zeta.
  apply sameCursor_finish.
  eapply sameCursor_trans; [|apply sameCursor_checkWordsAt]. done.
Qed.

Lemma sameCursor_revealWord now s : sameCursor s (revealWord p now s).
Proof.
  unfold revealWord. destruct (getActiveWord p s) as [word|]; [|done].
  destruct (bool_decide _); [done|]. rewrite revealWord_loop.
  apply sameCursor_finish.
  eapply sameCursor_trans; [|apply sameCursor_checkWord].
  apply sameCursor_revealLoop.
Qed.

Lemma sameCursor_checkAll now l s : sameCursor s (fold_left (checkIfOpen p now) l s).
Proof.
  revert s. induction l as [|i l IH]; intros s; [done|].
  simpl. eapply sameCursor_trans; [|apply IH].
  unfold checkIfOpen. destruct (bool_decide _); [done|apply sameCursor_checkWord].
Qed.

Lemma sameCursor_revealAll now s : sameCursor s (revealAll p now s).
Proof.
  rewrite revealAll_eq.
  apply sameCursor_finish.
  eapply sameCursor_trans; [|apply sameCursor_checkOpenWords].
  apply sameCursor_revealLoop.
Qed.

Lemma cursorOk_same s s' : sameCursor s s' -> cursorOk p s -> cursorOk p s'.
Proof. intros (E1 & E2 & _). unfold cursorOk. by rewrite E1, E2. Qed.

Lemma steady_selects s s' : steady p s -> selects p s s' -> steady p s'.
Proof.
  intros [Hb Hc] [->|(r & c & dir & -> & Hp)]; [done|]. split.
  - rewrite <- Hb. apply cores_skel, navStep_setActiveCell.
  - right. by apply Hp.
Qed.

Lemma steady_game s s' :
  steady p s -> skel (cells s') = skel (cells s) -> sameCursor s s' -> steady p s'.
Proof.
  intros [Hb Hc] Hs Hcur. split; [congruence|by eapply cursorOk_same].
Qed.

Lemma steady_typed now r c l s : steady p s -> steady p (typed p now r c l s).
Proof.
  intros H. eapply steady_game; [done| |apply sameCursor_typed].
  unfold typed. rewrite skel_onLetterInput. simpl. apply skel_setLetter.
Qed.

Context {text : TextLib}.

Lemma selects_finish_typed now row col letter s :
  selects p (typed p now row col letter s)
    (finish (onLetterInputE p now row col letter
               (withCells (setLetter row col letter) s))
            (moveToNextCell p)).
Proof.
  unfold typed, onLetterInput. destruct (onLetterInputE _ _ _ _ _ _); simpl;
    [apply selects_moveToNextCell|by left].
Qed.

(** What the key and input handlers do: they move the cursor, or they
    move it, write a letter and move it again; a letter that is not empty
    is written into the cell of the event.  The input handler after an
    edit that has emptied the field does nothing more. *)
Lemma handleKeyDown_selects now key row col s :
  selects p s (handleKeyDown p now key row col s) \/
  exists s1 r c letter,
    selects p s s1 /\ (letter = "" \/ (r, c) = (row, col)) /\
    selects p (typed p now r c letter s1) (handleKeyDown p now key row col s).
Proof.
  destruct key; simpl.
  - left. apply selects_moveArrowFrom.
  - left. apply selects_moveArrowFrom.
  - left. apply selects_moveArrowFrom.
  - left. apply selects_moveArrowFrom.
  - left. apply selects_moveToNextWord.
  - left. apply selects_moveToNextWord.
  - destruct (hasValue s row col).
    + right. exists s, row, col, "". split; [by left|]. split; [by left|by left].
    + destruct (_ && _)%Z.
      * right. exists (moveToPrevCell p s), (activeRow (moveToPrevCell p s)),
          (activeCol (moveToPrevCell p s)), "".
        split; [apply selects_moveToPrevCell|]. split; [by left|by left].
      * left. apply selects_moveToPrevCell.
  - right. exists s, row, col, "". split; [by left|]. split; [by left|by left].
  - destruct (bool_decide _); [left; apply selects_toggleDirection|].
    destruct (isLetterKey key); [|left; by left].
    right. exists s, row, col, (normalizeUpper key).
    split; [by left|]. split; [by right|apply selects_finish_typed].
Qed.

Lemma handleInput_selects now v row col s :
  (v = "" /\ handleInput p now v row col s = withCells (setLetter row col "") s) \/
  exists s1 r c letter,
    selects p s s1 /\ (letter = "" \/ (r, c) = (row, col)) /\
    selects p (typed p now r c letter s1) (handleInput p now v row col s).
Proof.
  destruct (decide (v = "")) as [->|Hv]; [by left|].
  right. rewrite handleInput_value by done.
  exists s, row, col, (normalizeUpper (lastChar v)).
  split; [by left|]. split; [by right|apply selects_finish_typed].
Qed.

Lemma steady_step s ev :
  validEvent p ev = true -> steady p s -> steady p (step p s ev).
Proof.
  intros Hv Hs. destruct ev as [now e]. unfold validEvent, playableAt in Hv.
  apply andb_true_iff in Hv as [_ Hv]. simpl in Hv. unfold step. simpl.
  destruct e.
  - eapply steady_selects; [done|by apply selects_handleCellFocus].
  - eapply steady_selects; [done|apply selects_handleClick].
  - destruct (handleKeyDown_selects now key row col s)
      as [H|(s1 & r & c & l & H1 & _ & H2)]; [by eapply steady_selects|].
    eapply steady_selects; [|exact H2]. apply steady_typed. by eapply steady_selects.
  - destruct (handleInput_selects now v row col s)
      as [[_ ->]|(s1 & r & c & l & H1 & _ & H2)];
      [by eapply steady_game; [done|apply skel_setLetter|]|].
    eapply steady_selects; [|exact H2]. apply steady_typed. by eapply steady_selects.
  - eapply steady_game; [done| |apply sameCursor_revealLetter].
    apply (evolves_revealLetter p now s).
  - eapply steady_game; [done| |apply sameCursor_revealWord].
    apply (evolves_revealWord p now s).
  - eapply steady_game; [done| |apply sameCursor_revealAll].
    apply (evolves_revealAll p now s).
  - done.
  - eapply steady_selects; [done|apply selects_selectWord].
Qed.

Lemma steady_init saved : steady p (initPuzzle p saved).
Proof.
  unfold initPuzzle. set (s0 := createGame p saved).
  assert (Hb : skel (cells s0) = skel (render p)).
  { pose proof (navStep_focusFirstCell p s0) as [Hc _ _].
    destruct (initPuzzle_facts p saved) as (Hs & _). unfold initPuzzle in Hs.
    rewrite <- Hs. symmetry. by apply cores_skel. }
  assert (Hcur : activeRow s0 = (-1)%Z /\ activeCol s0 = (-1)%Z).
  { unfold s0, createGame, loadSaved. destruct saved as [sv|]; [|done].
    simpl.
    assert (Hg : forall a l s, sameCursor s (fold_left (fun s' i => markWordCorrect p i a s') l s)).
    { intros a l. induction l as [|i l IH]; intros s; simpl; [done|].
      eapply sameCursor_trans; [apply sameCursor_markWordCorrect|apply IH]. }
    match goal with |- context [fold_left _ (correctWords sv) ?x] =>
      destruct (Hg false (correctWords sv) x) as (E1 & E2 & _) end.
    rewrite E1, E2. done. }
  destruct (focusFirstCell_cases p s0 Hb) as [(r & c & Hp & E & _)|[Hnone E]].
  - split.
    + rewrite <- Hb. apply cores_skel, navStep_focusFirstCell.
    + right. rewrite E. done.
  - rewrite E. split; [done|]. left. by destruct Hcur.
Qed.

Lemma steady_run evs s :
  forallb (validEvent p) evs = true -> steady p s -> steady p (run p evs s).
Proof.
  revert s. induction evs as [|ev evs IH]; intros s Hv Hs; [done|].
  simpl in Hv. apply andb_true_iff in Hv as [Hv1 Hv2].
  unfold run in *. simpl. apply IH; [done|]. by apply steady_step.
Qed.

(** Property X17.
    In every state of a session, new or restored, the active cell is a
    playable cell of the grid, unless the grid has no playable cell at all
    (then there is no active cell): the cursor never rests outside of the
    grid or on a black cell. *)
Theorem cursor_stays_playable saved evs :
  forallb (validEvent p) evs = true ->
  let s := run p evs (initPuzzle p saved) in
  (activeRow s = (-1)%Z /\ activeCol s = (-1)%Z /\
   forall r c, isPlayable p r c = false) \/
  isPlayable p (activeRow s) (activeCol s) = true.
Proof.
  intros Hv. cbv zeta. by destruct (steady_run evs _ Hv (steady_init saved)).
Qed.

End Cursor.

(** ** The board follows the state *)

Section Sound.
Variable p : PuzzleData.
Variable erased : bool.
Context {stats : StatsEntry}.

(** Nothing that the invariant reads has changed. *)
Lemma sound_frame s s' :
  sound p erased s ->
  cores (cells s') = cores (cells s) ->
  (forall r c k, kept k = true ->
     (k ∈ classesAt (cells s') r c <-> k ∈ classesAt (cells s) r c)) ->
  grid (game s') = grid (game s) ->
  correctWords (game s') = correctWords (game s) ->
  revealed (game s') = revealed (game s) ->
  sound p erased s'.
Proof.
  intros [Hb Hm Hl Hk Hy] Hcores Hcls Hg Hcw Hrv. split.
  - rewrite <- Hb. by apply cores_skel.
  - intros r c. rewrite (getLetter_ext _ _ _ _ (cores_values _ _ Hcores)), Hg. apply Hm.
  - intros r c. rewrite (isLocked_ext _ _ _ _ (cores_locks _ _ Hcores)), Hcw. apply Hl.
  - intros r c. rewrite !Hcls by done.
    rewrite (isLocked_ext _ _ _ _ (cores_locks _ _ Hcores)), Hrv. apply Hk.
  - intros r c. rewrite Hg. apply Hy.
Qed.

Lemma sound_selects s s' : sound p erased s -> selects p s s' -> sound p erased s'.
Proof.
  intros Hs [->|(r & c & dir & -> & _)]; [done|].
  destruct (navStep_setActiveCell p r c dir s) as [Hc Hg _].
  apply (sound_frame s); try done; try (by rewrite Hg).
  intros r' c' k Hk. by apply kept_setActiveCell.
Qed.

Lemma sound_emit e s : sound p erased s -> sound p erased (emit e s).
Proof. intros Hs. by apply (sound_frame s). Qed.

Lemma sound_updateElapsed secs s : sound p erased s -> sound p erased (updateElapsed secs s).
Proof. intros Hs. by apply (sound_frame s). Qed.

Lemma validated_facts now i s w :
  words p !! i = Some w ->
  let s' := validated p now i s in
  cells s' = lockWordCells w (cells s) /\
  grid (game s') = grid (game s) /\
  revealed (game s') = revealed (game s) /\
  correctWords (game s') = correctWords (game s) ++ [i].
Proof.
  intros Hw. cbv zeta. unfold validated. rewrite (markWordCorrect_eq p _ _ _ _ Hw).
  unfold checkCompletion, checkCompletionE. simpl.
  destruct (completed (game s)); [done|]. destruct (bool_decide _); [|done].
  by destruct statsUpdatable.
Qed.

Lemma word_cell_input cs i w r c :
  skel cs = skel (render p) ->
  words p !! i = Some w -> (r, c) ∈ wcells w ->
  exists x inp, at2 cs r c = Some x /\ input x = Some inp.
Proof.
  intros Hb Hw Hin.
  pose proof (words_cells_playable p i w (r, c) Hw Hin) as Hp.
  destruct (playable_cell p cs r c Hb Hp) as (x & inp & Hx & _ & Hi).
  by exists x, inp.
Qed.

Lemma sound_validated now i s w :
  sound p erased s -> words p !! i = Some w -> sound p erased (validated p now i s).
Proof.
  intros Hs Hw. pose proof Hs as [Hb Hm Hl Hk Hy].
  destruct (validated_facts now i s w Hw) as (Ecells & Egrid & Erev & Ecw).
  assert (Hinput : forall r c, (r, c) ∈ wcells w ->
            exists x inp, at2 (cells s) r c = Some x /\ input x = Some inp).
  { intros r c. by apply (word_cell_input (cells s) i w). }
  assert (Hlock : forall r c,
    isLocked (cells (validated p now i s)) r c = true <->
    isLocked (cells s) r c = true \/ (r, c) ∈ wcells w).
  { intros r c. rewrite Ecells, isLocked_lockWordCells. split.
    - intros [?|[? _]]; [by left|by right].
    - intros [?|Hin]; [by left|]. right. split; [done|by apply Hinput]. }
  split.
  - rewrite Ecells, skel_lockWordCells. done.
  - intros r c. rewrite Ecells, Egrid.
    rewrite (getLetter_ext _ _ _ _ (values_lockWordCells w (cells s))). apply Hm.
  - intros r c. rewrite Hlock, Ecw, (Hl r c). split.
    + intros [(j & w' & Hj & Hw' & Hin)|Hin].
      * exists j, w'. split; [|done]. apply elem_of_app. by left.
      * exists i, w. split; [|done]. apply elem_of_app. right. by left.
    + intros (j & w' & Hj & Hw' & Hin). apply elem_of_app in Hj as [Hj|Hj].
      * left. by exists j, w'.
      * apply list_elem_of_singleton in Hj as ->. right. congruence.
  - intros r c. split.
    + rewrite Hlock, Ecells, classesAt_lockWordCells, (proj1 (Hk r c)). split.
      * intros [?|(_ & ? & _)]; [by left|by right].
      * intros [?|Hin]; [by left|]. right. split; [done|]. split; [done|].
        destruct (Hinput r c Hin) as (x & _ & -> & _). by eexists.
    + rewrite Ecells, classesAt_lockWordCells, Erev, <- (proj2 (Hk r c)). split.
      * intros [?|(? & _)]; done.
      * intros ?. by left.
  - intros r c. rewrite Egrid. apply Hy.
Qed.

Lemma sound_checkWord now i s : sound p erased s -> sound p erased (checkWord p now i s).
Proof.
  intros Hs. destruct (checkWord_cases p now i s) as [->|(_ & w & Hw & _ & _ & ->)];
    [done|by eapply sound_validated].
Qed.

Lemma sound_checkWordsAt now row col s :
  sound p erased s -> sound p erased (checkWordsAt p now row col s).
Proof.
  apply (checkWordsAt_chain p (fun s s' => sound p erased s -> sound p erased s') now);
    [done|auto|apply sound_checkWord].
Qed.

Lemma sound_checkOpenWords now l s :
  sound p erased s -> sound p erased (after (checkOpenWords p now l s)).
Proof.
  apply (checkOpenWords_chain p (fun s s' => sound p erased s -> sound p erased s') now);
    [done|auto|apply sound_checkWord].
Qed.

Lemma sound_finish r :
  sound p erased (after r) -> sound p erased (finish r (emit ScheduleSave)).
Proof. destruct r; simpl; [apply sound_emit|done]. Qed.

Lemma sound_checkAll now l s :
  sound p erased s -> sound p erased (fold_left (checkIfOpen p now) l s).
Proof.
  revert s. induction l as [|i l IH]; intros s Hs; [done|].
  simpl. apply IH. unfold checkIfOpen.
  destruct (bool_decide _); [done|by apply sound_checkWord].
Qed.

(** The letter on a cell after [setLetter], on a board of the puzzle. *)
Lemma getLetter_written cs r c l r' c' :
  skel cs = skel (render p) ->
  l = "" \/ isPlayable p r c = true ->
  getLetter (setLetter r c l cs) r' c'
  = if decide ((r, c) = (r', c')) then l else getLetter cs r' c'.
Proof.
  intros Hb Hl. rewrite getLetter_setLetter.
  destruct (decide ((r, c) = (r', c'))) as [E|E]; [|done].
  destruct Hl as [->|Hp].
  - unfold getLetter, getCell.
    destruct (skel_cell p cs r c Hb) as [[-> _]|(cell & -> & _ & Hbl & Hi)]; [done|].
    destruct (isBlack cell); [|by destruct (input cell)].
    symmetry in Hbl. apply bool_decide_eq_true, Hi in Hbl. by rewrite Hbl.
  - destruct (playable_cell p cs r c Hb Hp) as (cell & i & -> & -> & ->). done.
Qed.

(** The state after a letter was written and stored, before the words of
    the cell are checked. *)
Lemma sound_letter s s1 r c l :
  sound p erased s -> l = "" \/ isPlayable p r c = true ->
  cells s1 = setLetter r c l (cells s) ->
  grid (game s1) = (if bool_decide (l = "") then delete (r, c) (grid (game s))
                    else <[(r, c) := l]> (grid (game s))) ->
  revealed (game s1) = revealed (game s) ->
  correctWords (game s1) = correctWords (game s) ->
  sound p erased s1.
Proof.
  intros [Hb Hm Hl Hk Hy] Hrc Ecells Egrid Erev Ecw. split.
  - by rewrite Ecells, skel_setLetter.
  - intros r' c'. rewrite Ecells, getLetter_written, Egrid by done.
    destruct (decide ((r, c) = (r', c'))) as [E|E].
    + left. injection E as <- <-. case_bool_decide as El.
      * by rewrite lookup_delete_eq.
      * by rewrite lookup_insert_eq.
    + replace (default "" ((if bool_decide (l = "")
                            then delete (r, c) (grid (game s))
                            else <[(r, c) := l]> (grid (game s))) !! (r', c')))
        with (default "" (grid (game s) !! (r', c'))); [apply Hm|].
      case_bool_decide.
      * by rewrite lookup_delete_ne.
      * by rewrite lookup_insert_ne.
  - intros r' c'. rewrite Ecells, isLocked_setLetter, Ecw. apply Hl.
  - intros r' c'. rewrite Ecells, !classesAt_setLetter, isLocked_setLetter, Erev. apply Hk.
  - intros r' c'. rewrite Egrid. case_bool_decide as El.
    + intros H. apply Hy. destruct (decide ((r, c) = (r', c'))) as [E|E].
      * rewrite <- E, lookup_delete_eq in H. by destruct H.
      * by rewrite lookup_delete_ne in H.
    + destruct (decide ((r, c) = (r', c'))) as [E|E].
      * intros _. injection E as <- <-. by destruct Hrc.
      * rewrite lookup_insert_ne by done. apply Hy.
Qed.

(** An edit that empties the field of a cell. *)
Lemma sound_emptied s r c :
  sound p true s -> sound p true (withCells (setLetter r c "") s).
Proof.
  intros [Hb Hm Hl Hk Hy]. split.
  - cbn [cells withCells]. by rewrite skel_setLetter.
  - intros r' c'. cbn [cells withCells game].
    rewrite getLetter_written by (done || by left).
    destruct (decide ((r, c) = (r', c'))) as [E|E]; [by right|apply Hm].
  - intros r' c'. cbn [cells withCells game].
    rewrite isLocked_setLetter. apply Hl.
  - intros r' c'. cbn [cells withCells game].
    rewrite !classesAt_setLetter, isLocked_setLetter. apply Hk.
  - done.
Qed.

Lemma sound_typed now r c l s :
  sound p erased s -> l = "" \/ isPlayable p r c = true -> sound p erased (typed p now r c l s).
Proof.
  intros Hs Hl. unfold typed. rewrite onLetterInput_eq.
  apply sound_finish, sound_checkWordsAt.
  apply (sound_letter s _ r c l Hs Hl); unfold storeLetter, startClock; simpl;
    destruct (bool_decide (l = "")), (falsyTime _); done.
Qed.

(** The state after a cell was revealed, before its words are checked. *)
Lemma sound_revealed s s1 r c l :
  sound p erased s -> isPlayable p r c = true ->
  cells s1 = setCellClass r c Revealed (setLetter r c l (cells s)) ->
  grid (game s1) = <[(r, c) := l]> (grid (game s)) ->
  revealed (game s1) = {[(r, c)]} ∪ revealed (game s) ->
  correctWords (game s1) = correctWords (game s) ->
  sound p erased s1.
Proof.
  intros [Hb Hm Hl Hk Hy] Hp Ecells Egrid Erev Ecw.
  assert (Hcell : is_Some (at2 (setLetter r c l (cells s)) r c)).
  { destruct (playable_cell p (setLetter r c l (cells s)) r c) as (x & _ & Hx & _);
      [by rewrite skel_setLetter|done|]. unfold getCell in Hx. by rewrite Hx. }
  split.
  - rewrite Ecells. rewrite <- Hb, <- (skel_setLetter r c l (cells s)).
    apply cores_skel, cores_setCellClass.
  - intros r' c'. rewrite Ecells.
    rewrite (getLetter_ext _ _ _ _ (cores_values _ _ (cores_setCellClass r c Revealed _))).
    rewrite getLetter_written, Egrid by (done || by right).
    destruct (decide ((r, c) = (r', c'))) as [E|E].
    + left. injection E as <- <-. by rewrite lookup_insert_eq.
    + rewrite lookup_insert_ne by done. apply Hm.
  - intros r' c'. rewrite Ecells, isLocked_setCellClass, isLocked_setLetter, Ecw. apply Hl.
  - intros r' c'. rewrite Ecells, isLocked_setCellClass, isLocked_setLetter.
    rewrite !classesAt_setCellClass, !classesAt_setLetter, Erev. split.
    + rewrite <- (proj1 (Hk r' c')). split; [|by left].
      intros [?|(? & _)]; done.
    + rewrite elem_of_union, elem_of_singleton, <- (proj2 (Hk r' c')). split.
      * intros [?|(_ & ? & _)]; [by right|by left].
      * intros [E|?]; [|by left]. right. done.
  - intros r' c'. rewrite Egrid.
    destruct (decide ((r, c) = (r', c'))) as [E|E].
    + intros _. by injection E as <- <-.
    + rewrite lookup_insert_ne by done. apply Hy.
Qed.

Lemma sound_revealCell s rc :
  sound p erased s -> isPlayable p rc.1 rc.2 = true -> sound p erased (revealCell p s rc).
Proof.
  intros Hs Hp. destruct rc as [r c]. simpl in Hp.
  apply (sound_revealed s _ r c (solutionAt p r c) Hs Hp);
    unfold revealCell; cbv zeta; simpl.
  - by destruct (bool_decide _).
  - by destruct (bool_decide _).
  - case_bool_decide as Hin; simpl; [|done]. apply set_eq. set_solver.
  - by destruct (bool_decide _).
Qed.

Lemma sound_revealLoop g l s :
  sound p erased s ->
  (forall rc s', rc ∈ l -> sound p erased s' -> g (cells s') rc = true ->
     isPlayable p rc.1 rc.2 = true) ->
  sound p erased (revealLoop p g l s).
Proof.
  unfold revealLoop. revert s. induction l as [|rc l IH]; intros s Hs Hg; [done|].
  simpl. apply IH.
  - destruct (g (cells s) rc) eqn:E; [|done].
    apply sound_revealCell; [done|]. apply (Hg rc s); [by left|done|done].
  - intros rc' s' Hin. apply Hg. by right.
Qed.

Lemma cell_playable cs r c cell :
  skel cs = skel (render p) ->
  getCell cs r c = Some cell -> isBlack cell = false ->
  isPlayable p r c = true.
Proof.
  intros Hb Hc Hbl. apply isPlayable_spec.
  destruct (skel_cell p cs r c Hb) as [[Hn _]|(cell' & Hc' & Hin & Hb' & _)].
  - unfold getCell in Hc. congruence.
  - split; [done|]. unfold getCell in Hc. assert (cell' = cell) as -> by congruence.
    rewrite Hbl in Hb'. symmetry in Hb'. by apply bool_decide_eq_false in Hb'.
Qed.

Lemma sound_revealLetter now s : sound p erased s -> sound p erased (revealLetter p now s).
Proof.
  intros Hs. unfold revealLetter. destruct (_ || _)%Z; [done|].
  destruct (getCell _ _ _) as [cell|] eqn:Hc; [|done].
  destruct (isBlack cell) eqn:Hb; [done|]. destruct (isLocked _ _ _); [done|].
  destruct (_ || _); [done|]. cbv zeta.
  apply sound_finish, sound_checkWordsAt.
  apply (sound_revealed s _ (activeRow s) (activeCol s)
           (solutionAt p (activeRow s) (activeCol s)) Hs); try done.
  eapply cell_playable; [apply Hs|done|done].
Qed.

Lemma sound_revealWord now s : sound p erased s -> sound p erased (revealWord p now s).
Proof.
  intros Hs. unfold revealWord. destruct (getActiveWord p s) as [word|] eqn:Hg; [|done].
  destruct (bool_decide _); [done|]. rewrite revealWord_loop.
  apply sound_finish, sound_checkWord, sound_revealLoop; [done|].
  intros rc s' Hin _ _. apply (words_cells_playable p (id word) word rc); [|done].
  by eapply getActiveWord_word.
Qed.

Lemma sound_revealAll now s : sound p erased s -> sound p erased (revealAll p now s).
Proof.
  intros Hs. rewrite revealAll_eq.
  apply sound_finish, sound_checkOpenWords, sound_revealLoop; [done|].
  intros rc s' _ Hs' Hg. unfold revealable in Hg.
  destruct (getCell (cells s') rc.1 rc.2) as [cell|] eqn:Hc; [|done].
  apply negb_true_iff, orb_false_iff in Hg as [Hb _].
  eapply cell_playable; [apply Hs'|done|done].
Qed.

Context {text : TextLib}.

Lemma sound_step s ev :
  validEvent p ev = true -> erased = true \/ emptyInput ev = false ->
  sound p erased s -> sound p erased (step p s ev).
Proof.
  intros Hv He Hs. destruct ev as [now e]. unfold validEvent, playableAt in Hv.
  apply andb_true_iff in Hv as [_ Hv]. simpl in Hv. unfold step. simpl.
  destruct e.
  - eapply sound_selects; [done|by apply selects_handleCellFocus].
  - eapply sound_selects; [done|apply selects_handleClick].
  - destruct (handleKeyDown_selects p now key row col s)
      as [H|(s1 & r & c & l & H1 & Hl & H2)]; [by eapply sound_selects|].
    eapply sound_selects; [|exact H2]. apply sound_typed; [by eapply sound_selects|].
    destruct Hl as [->|[= -> ->]]; [by left|by right].
  - destruct (handleInput_selects p now v row col s)
      as [[-> ->]|(s1 & r & c & l & H1 & Hl & H2)].
    { destruct He as [->|He]; [by apply sound_emptied|].
      unfold emptyInput in He. simpl in He. done. }
    eapply sound_selects; [|exact H2]. apply sound_typed; [by eapply sound_selects|].
    destruct Hl as [->|[= -> ->]]; [by left|by right].
  - by apply sound_revealLetter.
  - by apply sound_revealWord.
  - by apply sound_revealAll.
  - by apply sound_updateElapsed.
  - eapply sound_selects; [done|apply selects_selectWord].
Qed.

Lemma sound_run evs s :
  forallb (validEvent p) evs = true ->
  erased = true \/ noEmptyInput evs = true ->
  sound p erased s -> sound p erased (run p evs s).
Proof.
  revert s. induction evs as [|ev evs IH]; intros s Hv He Hs; [done|].
  simpl in Hv. apply andb_true_iff in Hv as [Hv1 Hv2].
  assert (He1 : erased = true \/ emptyInput ev = false).
  { destruct He as [?|He]; [by left|right].
    simpl in He. apply andb_true_iff in He as [He _]. by apply negb_true_iff. }
  assert (He2 : erased = true \/ noEmptyInput evs = true).
  { destruct He as [?|He]; [by left|right].
    simpl in He. by apply andb_true_iff in He as [_ He]. }
  unfold run in *. simpl. apply IH; [done|done|]. by apply sound_step.
Qed.

Lemma render_cell r c x :
  at2 (render p) r c = Some x -> classList x = [] /\
  (forall i, input x = Some i -> value i = "" /\ readOnly i = false).
Proof.
  rewrite at2_render. destruct (inGrid p r c); [|done]. intros [= <-].
  unfold renderCell. simpl. split; [done|]. intros i.
  destruct (bool_decide _); [done|]. by intros [= <-].
Qed.

Lemma render_blank r c :
  getLetter (render p) r c = "" /\ isLocked (render p) r c = false /\
  classesAt (render p) r c = [].
Proof.
  unfold getLetter, isLocked, classesAt, getCell.
  destruct (at2 (render p) r c) as [x|] eqn:Hx; [|done].
  destruct (render_cell r c x Hx) as [Hcl Hi]. rewrite Hcl.
  destruct (input x) as [i|]; [|done]. by destruct (Hi i eq_refl) as [-> ->].
Qed.

Lemma sound_createGrid : sound p erased (createGrid p).
Proof.
  split.
  - done.
  - intros r c. change (cells (createGrid p)) with (render p).
    destruct (render_blank r c) as (-> & _). by left.
  - intros r c. change (cells (createGrid p)) with (render p).
    destruct (render_blank r c) as (_ & -> & _). split; [done|].
    intros (i & w & Hi & _). by apply elem_of_nil in Hi.
  - intros r c. change (cells (createGrid p)) with (render p).
    destruct (render_blank r c) as (_ & -> & ->). split; split; try done.
    + intros H. by apply elem_of_nil in H.
    + intros H. by apply elem_of_nil in H.
  - intros r c [l Hl]. simpl in Hl. by rewrite lookup_empty in Hl.
Qed.

Lemma sound_init : sound p erased (initPuzzle p None).
Proof.
  unfold initPuzzle. eapply sound_selects; [|apply selects_focusFirstCell].
  apply sound_createGrid.
Qed.

End Sound.

(** ** Runs of events *)

Section RunFacts.
Variable p : PuzzleData.
Context {stats : StatsEntry} {text : TextLib}.

Lemma grows_step s ev : userEvent ev = true -> grows s (step p s ev).
Proof.
  destruct ev as [now e]. unfold userEvent, step. simpl. intros Hu. destruct e.
  - unfold handleCellFocus. destruct (_ && _); [apply grows_refl|apply grows_setActiveCell].
  - apply (grows_selects p), selects_handleClick.
  - destruct (handleKeyDown_selects p now key row col s)
      as [H|(s1 & r & c & l & H1 & _ & H2)]; [by apply (grows_selects p)|].
    eapply grows_trans; [by apply (grows_selects p)|].
    eapply grows_trans; [apply grows_typed|by apply (grows_selects p)].
  - destruct (handleInput_selects p now v row col s)
      as [[_ ->]|(s1 & r & c & l & H1 & _ & H2)]; [apply grows_setLetter|].
    eapply grows_trans; [by apply (grows_selects p)|].
    eapply grows_trans; [apply grows_typed|by apply (grows_selects p)].
  - apply grows_revealLetter.
  - apply grows_revealWord.
  - apply grows_revealAll.
  - done.
  - apply (grows_selects p), selects_selectWord.
Qed.

Lemma progress_step s ev : progress s (step p s ev).
Proof.
  destruct (userEvent ev) eqn:E; [by apply grows_step|].
  destruct ev as [now e]. destruct e; done.
Qed.

Lemma progress_run evs s : progress s (run p evs s).
Proof.
  revert s. induction evs as [|ev evs IH]; intros s; [apply progress_refl|].
  unfold run in *. simpl. eapply progress_trans; [apply progress_step|apply IH].
Qed.

(** Property X18.
    Whatever the events, from any state of a session: the hint counter
    does not decrease, no key leaves the revealed set, the validated words
    stay validated (new ones are added at the end), a completed puzzle
    stays completed, a locked cell stays locked, and a cell marked correct
    or revealed keeps its mark. *)
Theorem progress_never_lost evs s :
  let s' := run p evs s in
  hintsUsed (game s) <= hintsUsed (game s') /\
  revealed (game s) ⊆ revealed (game s') /\
  correctWords (game s) `prefix_of` correctWords (game s') /\
  (completed (game s) = true -> completed (game s') = true) /\
  (forall r c, isLocked (cells s) r c = true -> isLocked (cells s') r c = true) /\
  (forall r c, Correct ∈ classesAt (cells s) r c -> Correct ∈ classesAt (cells s') r c) /\
  (forall r c, Revealed ∈ classesAt (cells s) r c -> Revealed ∈ classesAt (cells s') r c).
Proof.
  cbv zeta. destruct (progress_run evs s) as [_ _ _ H1 H2 H3 H4 H5 H6].
  repeat split; try done; intros r c; by apply H6.
Qed.

(** Property X19.
    In a session that began without saved progress, every cell shows the
    letter stored for it in the grid of the state, or nothing.  When no
    input event has followed an edit that emptied a field, it is the stored
    letter (the empty string for a cell without one): what the next save
    writes is what the board shows.  An edit that empties a field reaches
    no function of the game, and the letter stays in the state. *)
Theorem board_mirrors_state evs r c :
  forallb (validEvent p) evs = true ->
  let s := run p evs (initPuzzle p None) in
  (getLetter (cells s) r c = default "" (grid (game s) !! (r, c)) \/
   getLetter (cells s) r c = "") /\
  (noEmptyInput evs = true ->
   getLetter (cells s) r c = default "" (grid (game s) !! (r, c))).
Proof.
  intros Hv. cbv zeta. split.
  - destruct (sound_run p true evs _ Hv (or_introl eq_refl) (sound_init p true))
      as [_ Hm _ _ _].
    destruct (Hm r c) as [?|[_ ?]]; [by left|by right].
  - intros He.
    destruct (sound_run p false evs _ Hv (or_intror He) (sound_init p false))
      as [_ Hm _ _ _].
    by destruct (Hm r c) as [?|[? _]].
Qed.

(** Property X20.
    In a session that began without saved progress, the locked cells are
    exactly the cells of the validated words; a cell carries the mark
    correct exactly when it is locked, and the mark revealed exactly when
    its key is in the revealed set of the state. *)
Theorem locks_follow_validated_words evs r c :
  forallb (validEvent p) evs = true ->
  let s := run p evs (initPuzzle p None) in
  (isLocked (cells s) r c = true <->
     exists i w, i ∈ correctWords (game s) /\ words p !! i = Some w /\
                 (r, c) ∈ wcells w) /\
  (Correct ∈ classesAt (cells s) r c <-> isLocked (cells s) r c = true) /\
  (Revealed ∈ classesAt (cells s) r c <-> (r, c) ∈ revealed (game s)).
Proof.
  intros Hv. cbv zeta.
  destruct (sound_run p true evs _ Hv (or_introl eq_refl) (sound_init p true))
    as [_ _ Hl Hk _].
  split; [apply Hl|apply Hk].
Qed.

End RunFacts.

(** ** Restoring a saved game *)

Section Restore.
Variable p : PuzzleData.

(** Two boards of the same shape with the same letters and locks have the
    same inputs. *)
Lemma cores_ext cs cs' :
  skel cs = skel cs' ->
  (forall r c, getLetter cs r c = getLetter cs' r c) ->
  (forall r c, isLocked cs r c = isLocked cs' r c) ->
  cores cs = cores cs'.
Proof.
  intros Hs Hv Hl. unfold cores, gridMap. apply list_eq. intros i.
  rewrite !list_lookup_fmap.
  assert (Hrow : (fun line : list Cell => skeleton <$> line) <$> cs !! i
               = (fun line : list Cell => skeleton <$> line) <$> cs' !! i).
  { rewrite <- !list_lookup_fmap. unfold skel, gridMap in Hs. by rewrite Hs. }
  destruct (cs !! i) as [line|] eqn:E1, (cs' !! i) as [line'|] eqn:E2; try done.
  simpl in *. injection Hrow as Hrow. f_equal. apply list_eq. intros j.
  rewrite !list_lookup_fmap.
  assert (Hcell : skeleton <$> line !! j = skeleton <$> line' !! j).
  { by rewrite <- !list_lookup_fmap, Hrow. }
  assert (Hat : forall g : list (list Cell),
            at2 g (Z.of_nat i) (Z.of_nat j) = g !! i ≫= fun l => l !! j).
  { intros g. unfold at2. rewrite at_nat.
    destruct (g !! i); simpl; [|done]. by rewrite at_nat. }
  specialize (Hv (Z.of_nat i) (Z.of_nat j)). specialize (Hl (Z.of_nat i) (Z.of_nat j)).
  unfold getLetter, isLocked, getCell in Hv, Hl. rewrite !Hat, E1, E2 in Hv, Hl.
  simpl in Hv, Hl.
  destruct (line !! j) as [x|], (line' !! j) as [x'|]; try done.
  simpl in *. injection Hcell as Hb Hi. f_equal. unfold cellCore. f_equal; [done|].
  destruct (input x) as [a|], (input x') as [a'|]; try done.
  destruct a, a'. simpl in *. by subst.
Qed.

Lemma fold_setLetter_other (l : list (Coord * string)) cs r c :
  (r, c) ∉ l.*1 ->
  getLetter (fold_left (fun m kv => setLetter kv.1.1 kv.1.2 kv.2 m) l cs) r c
  = getLetter cs r c.
Proof.
  revert cs. induction l as [|[k v] l IH]; intros cs Hn; [done|].
  simpl in *. apply not_elem_of_cons in Hn as [Hk Hn].
  rewrite IH by done. rewrite getLetter_setLetter.
  destruct (decide (_ = _)) as [E|E]; [|done]. destruct k. simpl in *. congruence.
Qed.

Lemma fold_setLetter_key (l : list (Coord * string)) cs r c v :
  skel cs = skel (render p) -> isPlayable p r c = true ->
  NoDup l.*1 -> ((r, c), v) ∈ l ->
  getLetter (fold_left (fun m kv => setLetter kv.1.1 kv.1.2 kv.2 m) l cs) r c = v.
Proof.
  intros Hb Hp. revert cs Hb. induction l as [|[k v'] l IH]; intros cs Hb Hnd Hin.
  - by apply elem_of_nil in Hin.
  - simpl in *. apply NoDup_cons in Hnd as [Hk Hnd].
    apply elem_of_cons in Hin as [E|Hin].
    + injection E as <- <-. rewrite fold_setLetter_other by done.
      simpl. rewrite (getLetter_written p) by (done || by right).
      by rewrite decide_True.
    + apply IH; [by rewrite skel_setLetter|done|done].
Qed.

Lemma fold_setLetter_views (l : list (Coord * string)) cs :
  locks (fold_left (fun m kv => setLetter kv.1.1 kv.1.2 kv.2 m) l cs) = locks cs /\
  forall r c, classesAt (fold_left (fun m kv => setLetter kv.1.1 kv.1.2 kv.2 m) l cs) r c
              = classesAt cs r c.
Proof.
  revert cs. induction l as [|kv l IH]; intros cs; [done|].
  cbn [fold_left]. destruct (IH (setLetter kv.1.1 kv.1.2 kv.2 cs)) as [E H]. split.
  - etrans; [exact E|]. apply locks_setLetter.
  - intros r c. etrans; [apply H|]. apply classesAt_setLetter.
Qed.

Lemma cells_fold_markWordCorrect a l s :
  cells (fold_left (fun s' i => markWordCorrect p i a s') l s)
  = fold_left (fun cs i => match words p !! i with
                           | Some w => lockWordCells w cs
                           | None => cs
                           end) l (cells s).
Proof.
  revert s. induction l as [|i l IH]; intros s; [done|].
  simpl. rewrite IH. f_equal. unfold markWordCorrect.
  by destruct (words p !! i).
Qed.

Lemma fold_lock_facts l cs r c :
  skel cs = skel (render p) ->
  let cs' := fold_left (fun cs i => match words p !! i with
                                    | Some w => lockWordCells w cs
                                    | None => cs
                                    end) l cs in
  skel cs' = skel (render p) /\
  values cs' = values cs /\
  (isLocked cs' r c = true <->
     isLocked cs r c = true \/
     exists i w, i ∈ l /\ words p !! i = Some w /\ (r, c) ∈ wcells w) /\
  (forall k, k ∈ classesAt cs' r c <->
     k ∈ classesAt cs r c \/
     (k = Correct /\ exists i w, i ∈ l /\ words p !! i = Some w /\ (r, c) ∈ wcells w)).
Proof.
  revert cs. induction l as [|i l IH]; intros cs Hb; cbv zeta.
  - simpl. split; [done|]. split; [done|]. split.
    + split; [by left|]. intros [?|(i & w & Hi & _)]; [done|by apply elem_of_nil in Hi].
    + intros k. split; [by left|].
      intros [?|(_ & i & w & Hi & _)]; [done|by apply elem_of_nil in Hi].
  - simpl. destruct (words p !! i) as [w|] eqn:Hw.
    + destruct (IH (lockWordCells w cs)) as (H1 & H2 & H3 & H4);
        [by rewrite skel_lockWordCells|].
      cbv zeta in *. split; [done|]. split; [by rewrite H2, values_lockWordCells|].
      split.
      * rewrite H3, isLocked_lockWordCells. split.
        -- intros [[?|[Hin _]]|(j & w' & Hj & Hw' & Hin)].
           ++ by left.
           ++ right. exists i, w. split; [by left|done].
           ++ right. exists j, w'. split; [by right|done].
        -- intros [?|(j & w' & Hj & Hw' & Hin)]; [left; by left|].
           apply elem_of_cons in Hj as [->|Hj].
           ++ left. right. assert (w' = w) as -> by congruence. split; [done|].
              by apply (word_cell_input p cs i w).
           ++ right. by exists j, w'.
      * intros k. rewrite H4, classesAt_lockWordCells. split.
        -- intros [[?|(-> & Hin & _)]|(-> & j & w' & Hj & Hw' & Hin)].
           ++ by left.
           ++ right. split; [done|]. exists i, w. split; [by left|done].
           ++ right. split; [done|]. exists j, w'. split; [by right|done].
        -- intros [?|(-> & j & w' & Hj & Hw' & Hin)]; [left; by left|].
           apply elem_of_cons in Hj as [->|Hj].
           ++ left. right. assert (w' = w) as -> by congruence.
              split; [done|]. split; [done|].
              destruct (word_cell_input p cs i w r c Hb Hw Hin) as (x & _ & -> & _).
              by eexists.
           ++ right. split; [done|]. by exists j, w'.
    + destruct (IH cs Hb) as (H1 & H2 & H3 & H4). cbv zeta in *.
      split; [done|]. split; [done|]. split.
      * rewrite H3. split.
        -- intros [?|(j & w' & Hj & Hw' & Hin)]; [by left|].
           right. exists j, w'. split; [by right|done].
        -- intros [?|(j & w' & Hj & Hw' & Hin)]; [by left|].
           apply elem_of_cons in Hj as [->|Hj]; [congruence|].
           right. by exists j, w'.
      * intros k. rewrite H4. split.
        -- intros [?|(-> & j & w' & Hj & Hw' & Hin)]; [by left|].
           right. split; [done|]. exists j, w'. split; [by right|done].
        -- intros [?|(-> & j & w' & Hj & Hw' & Hin)]; [by left|].
           apply elem_of_cons in Hj as [->|Hj]; [congruence|].
           right. split; [done|]. by exists j, w'.
Qed.

Lemma fold_reveal_classes (l : list Coord) cs r c k :
  k ∈ classesAt (fold_left (fun m rc => setCellClass rc.1 rc.2 Revealed m) l cs) r c <->
  k ∈ classesAt cs r c \/ (k = Revealed /\ (r, c) ∈ l /\ is_Some (at2 cs r c)).
Proof.
  unfold setCellClass.
  rewrite !classesAt_at2, at2_fold_alter2 by apply addClass_idem.
  case_bool_decide as Hin.
  - destruct (at2 cs r c) as [x|]; cbn [fmap option_fmap option_map from_option Datatypes.id].
    + rewrite elem_of_addClass. split.
      * intros [?| ->]; [by left|]. right. split; [done|]. split; [done|]. by eexists.
      * intros [?|(-> & _)]; [by left|by right].
    + split; [by left|]. intros [?|(_ & _ & [? ?])]; done.
  - split; [by left|]. intros [?|(_ & ? & _)]; done.
Qed.

Lemma cores_fold_reveal (l : list Coord) cs :
  cores (fold_left (fun m rc => setCellClass rc.1 rc.2 Revealed m) l cs) = cores cs.
Proof.
  revert cs. induction l as [|rc l IH]; intros cs; [done|].
  simpl. by rewrite IH, cores_setCellClass.
Qed.

Context {stats : StatsEntry} {text : TextLib}.

(** Property X21.
    A game restored from the state of a session that began without saved
    progress has the state of that session and shows it: every cell shows
    the letter that the state holds for it (also a cell whose field an
    edit had emptied), the locks are the same, and so are the marks for
    correct and revealed cells.  When no input event has followed an edit
    that emptied a field, the restored board is the board of the session:
    the same letters and the same locks in the same cells. *)
Theorem restore_shows_saved_board evs :
  forallb (validEvent p) evs = true ->
  let s := run p evs (initPuzzle p None) in
  let restored := createGame p (Some (game s)) in
  game restored = game s /\
  (forall r c,
     getLetter (cells restored) r c = default "" (grid (game s) !! (r, c))) /\
  (forall r c, isLocked (cells restored) r c = isLocked (cells s) r c) /\
  (forall r c k, kept k = true ->
     (k ∈ classesAt (cells restored) r c <-> k ∈ classesAt (cells s) r c)) /\
  (noEmptyInput evs = true -> cores (cells restored) = cores (cells s)).
Proof.
  intros Hv. cbv zeta. set (s := run p evs (initPuzzle p None)).
  destruct (sound_run p true evs _ Hv (or_introl eq_refl) (sound_init p true))
    as [Hb _ Hl Hk Hy].
  fold s in Hb, Hl, Hk, Hy.
  set (g := game s) in *.
  set (cs1 := fold_left (fun m kv => setLetter kv.1.1 kv.1.2 kv.2 m)
                (map_to_list (grid g)) (render p)).
  set (cs2 := fold_left (fun m rc => setCellClass rc.1 rc.2 Revealed m)
                (elements (revealed g)) cs1).
  assert (Hb1 : skel cs1 = skel (render p)) by apply skel_fold_setLetter.
  assert (Hb2 : skel cs2 = skel (render p)).
  { unfold cs2. by rewrite (cores_skel _ _ (cores_fold_reveal _ cs1)). }
  assert (Ecells : cells (createGame p (Some g))
    = fold_left (fun cs i => match words p !! i with
                             | Some w => lockWordCells w cs
                             | None => cs
                             end) (correctWords g) cs2).
  { unfold createGame, loadSaved. cbn [cells emit]. by rewrite cells_fold_markWordCorrect. }
  assert (Egame : game (createGame p (Some g)) = g).
  { pose proof (quiet_fold_markWordCorrect p false (correctWords g)) as Hq.
    unfold createGame, loadSaved. cbn [game emit].
    assert (Hg : forall a l s0, game (fold_left (fun s' i => markWordCorrect p i a s') l s0) = game s0).
    { intros a l. induction l as [|i l IH]; intros s0; simpl; [done|].
      by rewrite IH, game_markWordCorrect. }
    by rewrite Hg. }
  (* the letters of the restored board *)
  assert (Hlet1 : forall r c, getLetter cs1 r c = default "" (grid g !! (r, c))).
  { intros r c. destruct (isPlayable p r c) eqn:Hp.
    - destruct (grid g !! (r, c)) as [v|] eqn:Ev.
      + apply (fold_setLetter_key _ _ r c v); [done|done|apply NoDup_fst_map_to_list|].
        by apply elem_of_map_to_list.
      + unfold cs1. rewrite fold_setLetter_other.
        * by destruct (render_blank p r c) as (-> & _).
        * intros Hin. apply list_elem_of_fmap in Hin as ([k v] & Ek & Hin).
          simpl in Ek. subst k. apply elem_of_map_to_list in Hin.
          discriminate (eq_trans (eq_sym Ev) Hin).
    - assert (Hnone : grid g !! (r, c) = None).
      { destruct (grid g !! (r, c)) as [v|] eqn:Ev; [|done].
        assert (isPlayable p r c = true) by (apply Hy; exists v; exact Ev).
        congruence. }
      rewrite Hnone.
      assert (Hun : inGrid p r c = false \/ puzzleAt p r c = Block).
      { destruct (inGrid p r c) eqn:Hin; [|by left]. right.
        destruct (decide (puzzleAt p r c = Block)) as [?|Hn]; [done|].
        assert (isPlayable p r c = true) by (by apply isPlayable_spec). congruence. }
      by destruct (getLetter_setLetter_unplayable p cs1 r c "" Hb1 Hun) as [-> _]. }
  destruct (fold_setLetter_views (map_to_list (grid g)) (render p)) as [Hlk1 Hcl1].
  fold cs1 in Hlk1, Hcl1.
  assert (Hlocked2 : forall r c, isLocked cs2 r c = false).
  { intros r c. unfold cs2.
    rewrite (isLocked_ext _ _ _ _ (cores_locks _ _ (cores_fold_reveal _ cs1))).
    rewrite (isLocked_ext _ _ _ _ Hlk1). by destruct (render_blank p r c) as (_ & -> & _). }
  assert (Hclass2 : forall r c k, k ∈ classesAt cs2 r c <->
            k = Revealed /\ (r, c) ∈ revealed g /\ is_Some (at2 cs1 r c)).
  { intros r c k. unfold cs2. rewrite fold_reveal_classes, Hcl1.
    destruct (render_blank p r c) as (_ & _ & ->). rewrite elem_of_elements. split.
    - intros [H|?]; [by apply elem_of_nil in H|done].
    - intros ?. by right. }
  assert (Hsome : forall r c, (r, c) ∈ revealed g -> is_Some (at2 cs1 r c)).
  { intros r c Hin. apply (proj2 (Hk r c)) in Hin.
    assert (Hc : is_Some (at2 (cells s) r c)).
    { rewrite classesAt_at2 in Hin. destruct (at2 (cells s) r c); [by eexists|].
      by apply elem_of_nil in Hin. }
    assert (E : at2 (skel cs1) r c = at2 (skel (cells s)) r c) by (by rewrite Hb1, Hb).
    rewrite !at2_skel in E. destruct Hc as [x Hx]. rewrite Hx in E.
    destruct (at2 cs1 r c); [by eexists|done]. }
  assert (Hletters : forall r c,
            getLetter (cells (createGame p (Some g))) r c
            = default "" (grid g !! (r, c))).
  { intros r c. rewrite Ecells.
    destruct (fold_lock_facts (correctWords g) cs2 r c Hb2) as (_ & Hval & _).
    rewrite (getLetter_ext _ _ _ _ Hval). unfold cs2.
    rewrite (getLetter_ext _ _ _ _ (cores_values _ _ (cores_fold_reveal _ cs1))).
    apply Hlet1. }
  assert (Hlocks : forall r c,
            isLocked (cells (createGame p (Some g))) r c = isLocked (cells s) r c).
  { intros r c. rewrite Ecells.
    destruct (fold_lock_facts (correctWords g) cs2 r c Hb2) as (_ & _ & Hlock & _).
    apply eq_true_iff_eq. rewrite Hlock, Hlocked2, (Hl r c). split.
    - intros [?|?]; done.
    - intros ?. by right. }
  split; [done|]. split; [done|]. split; [done|]. split.
  - intros r c k Hkept. rewrite Ecells.
    destruct (fold_lock_facts (correctWords g) cs2 r c Hb2) as (_ & _ & _ & Hcls).
    rewrite Hcls, Hclass2. destruct k; try done.
    + rewrite (proj1 (Hk r c)), (Hl r c). split.
      * intros [(? & _)|(_ & ?)]; done.
      * intros ?. by right.
    + rewrite (proj2 (Hk r c)). split.
      * intros [(_ & ? & _)|(? & _)]; done.
      * intros Hin. left. split; [done|]. split; [done|by apply Hsome].
  - intros He.
    destruct (sound_run p false evs _ Hv (or_intror He) (sound_init p false))
      as [_ Hm _ _ _].
    fold s in Hm. apply cores_ext.
    + rewrite Ecells. destruct (fold_lock_facts (correctWords g) cs2 0 0 Hb2) as (-> & _).
      done.
    + intros r c. rewrite Hletters. by destruct (Hm r c) as [->|[? _]].
    + done.
Qed.

End Restore.

(** ** Reveal-all solves the puzzle *)

Section RevealAll.
Variable p : PuzzleData.
Context {stats : StatsEntry}.

Lemma letter_revealCell s a r c :
  skel (cells s) = skel (render p) -> isPlayable p a.1 a.2 = true ->
  getLetter (cells (revealCell p s a)) r c
  = if decide (a = (r, c)) then solutionAt p a.1 a.2 else getLetter (cells s) r c.
Proof.
  intros Hb Hp. destruct a as [ar ac]. simpl in *.
  assert (E : values (cells (revealCell p s (ar, ac)))
            = values (setLetter ar ac (solutionAt p ar ac) (cells s))).
  { unfold revealCell. simpl. destruct (bool_decide _); simpl;
      apply cores_values, cores_setCellClass. }
  rewrite (getLetter_ext _ _ _ _ E). apply (getLetter_written p); [done|by right].
Qed.

Lemma revealLoop_letters l s r c :
  skel (cells s) = skel (render p) -> isPlayable p r c = true ->
  (isLocked (cells s) r c = true -> getLetter (cells s) r c = solutionAt p r c) ->
  (r, c) ∈ l \/ getLetter (cells s) r c = solutionAt p r c ->
  getLetter (cells (revealLoop p revealable l s)) r c = solutionAt p r c.
Proof.
  intros Hb Hp. revert s Hb. induction l as [|a l IH]; intros s Hb Hlock Hin.
  { destruct Hin as [Hin|?]; [by apply elem_of_nil in Hin|done]. }
  unfold revealLoop. simpl. fold (revealLoop p revealable l).
  set (s1 := if revealable (cells s) a then revealCell p s a else s).
  assert (Hb1 : skel (cells s1) = skel (render p)).
  { unfold s1. destruct (revealable _ _); [|done]. by rewrite skel_revealCell. }
  assert (Hl1 : isLocked (cells s1) r c = isLocked (cells s) r c).
  { unfold s1. destruct (revealable _ _); [|done].
    apply isLocked_ext, locks_revealCell. }
  assert (Hplay : revealable (cells s) a = true -> isPlayable p a.1 a.2 = true).
  { unfold revealable. destruct (getCell (cells s) a.1 a.2) as [cell|] eqn:Hc; [|done].
    intros H. apply negb_true_iff, orb_false_iff in H as [H _].
    by apply (cell_playable p (cells s) a.1 a.2 cell). }
  assert (Hlet : getLetter (cells s1) r c
               = if revealable (cells s) a && bool_decide (a = (r, c))
                 then solutionAt p r c else getLetter (cells s) r c).
  { unfold s1. destruct (revealable (cells s) a) eqn:E; [|done].
    rewrite letter_revealCell by auto. simpl.
    case_bool_decide as Ea; [rewrite decide_True by done; by subst a|].
    by rewrite decide_False. }
  apply IH; [done| |].
  - rewrite Hl1, Hlet. intros HL. destruct (_ && _); [done|by apply Hlock].
  - rewrite Hlet. destruct (revealable (cells s) a && bool_decide (a = (r, c))) eqn:E;
      [by right|].
    destruct Hin as [Hin|?]; [|by right].
    apply elem_of_cons in Hin as [Ea|?]; [|by left]. right. subst a.
    rewrite bool_decide_eq_true_2, andb_true_r in E by done.
    apply Hlock. unfold revealable in E. simpl in E.
    destruct (playable_cell p (cells s) r c Hb Hp) as (cell & i & Hc & Hbl & _).
    rewrite Hc, Hbl in E. simpl in E. by apply negb_false_iff in E.
Qed.

Lemma checkAll_validates now l s i :
  skel (cells s) = skel (render p) ->
  (forall r c, isPlayable p r c = true ->
     getLetter (cells s) r c = solutionAt p r c /\ solutionAt p r c <> "") ->
  i ∈ l -> i < length (words p) ->
  i ∈ correctWords (game (fold_left (checkIfOpen p now) l s)).
Proof.
  intros Hb Hlet Hin Hi. revert s Hb Hlet. induction l as [|j l IH]; intros s Hb Hlet.
  { by apply elem_of_nil in Hin. }
  simpl. set (s1 := checkIfOpen p now s j).
  apply elem_of_cons in Hin as [->|Hin].
  - assert (H1 : j ∈ correctWords (game s1)).
    { unfold s1, checkIfOpen. case_bool_decide as E; [done|].
      destruct (lookup_lt_is_Some_2 (words p) j Hi) as [w Hw].
      destruct (checkWord_outcome p now j s) as (_ & H). cbv zeta in H.
      destruct (H w Hw E) as (Hiff & _). apply Hiff. intros rc Hrc.
      pose proof (words_cells_playable p j w rc Hw Hrc) as Hp.
      destruct (Hlet rc.1 rc.2 Hp) as [E1 E2]. split; [by rewrite E1|done]. }
    destruct (grows_checkAll p now l s1) as [[_ _ _ _ _ Hpre _ _ _] _].
    destruct Hpre as [k ->]. apply elem_of_app. by left.
  - apply IH; [done| |].
    + unfold s1, checkIfOpen. destruct (bool_decide _); [done|].
      by rewrite skel_checkWord.
    + intros r c Hp. destruct (Hlet r c Hp) as [E1 E2]. split; [|done].
      unfold s1, checkIfOpen. destruct (bool_decide _); [done|].
      by rewrite (getLetter_ext _ _ _ _ (values_checkWord p now j s)).
Qed.

Lemma full_length (l : list nat) n :
  NoDup l -> (forall i, i ∈ l -> i < n) -> (forall i, i < n -> i ∈ l) -> length l = n.
Proof.
  intros Hnd Hlt Hall.
  assert (Hp : l ≡ₚ seq 0 n).
  { apply NoDup_Permutation; [done|apply NoDup_seq|].
    intros i. rewrite elem_of_seq. split; [intros H%Hlt; lia|intros H; apply Hall; lia]. }
  by rewrite Hp, length_seq.
Qed.

(** Property X22.
    [revealAll] solves the puzzle.  On a board of the puzzle whose locked
    cells hold the letters of the solution, and for a solution that has a
    letter for every playable cell, after [revealAll] every playable cell
    shows its letter of the solution and every word is validated; when a
    word was still open before, the puzzle is completed by this call, at
    the time of the call. *)
Theorem revealAll_solves now s :
  skel (cells s) = skel (render p) ->
  gameInv p (game s) ->
  (forall r c, isPlayable p r c = true -> solutionAt p r c <> "") ->
  (forall r c, isLocked (cells s) r c = true ->
     getLetter (cells s) r c = solutionAt p r c) ->
  let s' := revealAll p now s in
  (forall r c, isPlayable p r c = true ->
     getLetter (cells s') r c = solutionAt p r c) /\
  (forall i, i < length (words p) -> i ∈ correctWords (game s')) /\
  validatedCount s' = length (words p) /\
  (validatedCount s < length (words p) ->
   completed (game s') = true /\ completedAt (game s') = Some now).
Proof.
  intros Hb Hinv Hsol Hlock. cbv zeta.
  destruct (evolves_revealAll p now s) as [_ Hadv]. specialize (Hadv Hinv).
  set (s1 := revealLoop p revealable (allCoords p) s).
  set (s2 := fold_left (checkIfOpen p now) (seq 0 (length (words p))) s1).
  assert (Hs2 : cells (revealAll p now s) = cells s2 /\
                game (revealAll p now s) = game s2).
  { destruct (revealAll_full p now s Hinv) as [->|[-> _]]; done. }
  destruct Hs2 as [Ec Eg].
  assert (Hb1 : skel (cells s1) = skel (render p)).
  { destruct (quiet_revealLoop p revealable (allCoords p) s) as [E _ _].
    fold s1 in E. by rewrite E. }
  assert (H1 : forall r c, isPlayable p r c = true ->
            getLetter (cells s1) r c = solutionAt p r c).
  { intros r c Hp. apply revealLoop_letters; [done|done|by apply Hlock|].
    left. apply elem_of_allCoords. by apply isPlayable_spec in Hp as [? _]. }
  assert (H2 : forall r c, isPlayable p r c = true ->
            getLetter (cells s2) r c = solutionAt p r c).
  { intros r c Hp. rewrite <- (H1 r c Hp). apply getLetter_ext.
    unfold s2. generalize s1 as s0. generalize (seq 0 (length (words p))) as l.
    induction l as [|i l IH]; intros s0; [done|]. simpl. rewrite IH.
    unfold checkIfOpen. destruct (bool_decide _); [done|apply values_checkWord]. }
  assert (H3 : forall i, i < length (words p) -> i ∈ correctWords (game s2)).
  { intros i Hi. apply checkAll_validates; [done| |by apply elem_of_seq; lia|done].
    intros r c Hp. split; [by apply H1|by apply Hsol]. }
  assert (H4 : length (correctWords (game s2)) = length (words p)).
  { destruct Hadv as [(Hnd & Hlt & _) _ _ _ _ _ _]. rewrite Eg in Hnd, Hlt.
    by apply full_length. }
  unfold validatedCount. rewrite Ec, Eg.
  split; [done|]. split; [done|]. split; [done|].
  intros Hopen. destruct Hadv as [_ _ _ _ _ Hflag Hat].
  assert (Hr : reaches p s (revealAll p now s) = true).
  { unfold reaches, validatedCount. rewrite Eg, H4, Nat.eqb_refl, andb_true_r.
    apply negb_true_iff, Nat.eqb_neq. lia. }
  rewrite Hr, Eg in Hflag, Hat. rewrite orb_true_r in Hflag. done.
Qed.

End RevealAll.

(** ** The page: game and timer *)

(** *** Order of the calls on the timer *)

Section Order.
Variable p : PuzzleData.
Context {stats : StatsEntry}.

Lemma settles_refl s : settles s s.
Proof.
  exists []. rewrite app_nil_r. split; [done|]. split; [done|].
  split; [done|]. congruence.
Qed.

Lemma settles_trans s1 s2 s3 : settles s1 s2 -> settles s2 s3 -> settles s1 s3.
Proof.
  intros (l1 & A1 & A2 & A3 & A4) (l2 & B1 & B2 & B3 & B4). exists (l1 ++ l2).
  split; [by rewrite B1, A1, app_assoc|]. split; [by rewrite forallb_app, A2, B2|].
  split.
  - intros Hu. by rewrite existsb_app, A3, B3.
  - intros H1 H3 Hu. rewrite existsb_app. destruct (completed (game s2)) eqn:E.
    + by rewrite A4.
    + rewrite B4 by done. apply orb_true_r.
Qed.

Lemma settles_same s s' :
  log s' = log s -> completed (game s') = completed (game s) -> settles s s'.
Proof.
  intros H1 H2. exists []. rewrite app_nil_r. split; [done|]. split; [done|].
  split; [done|]. congruence.
Qed.

Lemma settles_emit e s :
  noStart e = true -> isComplete e = false -> settles s (emit e s).
Proof.
  intros He Hc. exists [e]. split; [done|]. split; [simpl; by rewrite He|].
  split; [simpl; by rewrite Hc|]. simpl. congruence.
Qed.

Lemma settles_finish r s :
  settles s (after r) -> settles s (finish r (emit ScheduleSave)).
Proof.
  destruct r; simpl; [|done]. intros H.
  eapply settles_trans; [exact H|by apply settles_emit].
Qed.

Lemma opens_refl s : opens s s.
Proof. exists []. by rewrite app_nil_r. Qed.

Lemma opens_trans s1 s2 s3 : opens s1 s2 -> opens s2 s3 -> opens s1 s3.
Proof.
  intros (l1 & A1 & A2 & A3) (l2 & B1 & B2 & B3). exists (l1 ++ l2).
  split; [by rewrite B1, A1, app_assoc|]. split; [by rewrite forallb_app, A2, B2|].
  congruence.
Qed.

Lemma ordered_settles s s' : settles s s' -> ordered s s'.
Proof. intros H. exists s. split; [apply opens_refl|done]. Qed.

Lemma ordered_then s1 s2 s3 : ordered s1 s2 -> settles s2 s3 -> ordered s1 s3.
Proof.
  intros (s & H1 & H2) H3. exists s. split; [done|by eapply settles_trans].
Qed.

Lemma ordered_after s1 s2 s3 : opens s1 s2 -> ordered s2 s3 -> ordered s1 s3.
Proof.
  intros H1 (s & H2 & H3). exists s. split; [by eapply opens_trans|done].
Qed.

Lemma navStep_moves s s' : navStep s s' -> opens s s' /\ settles s s'.
Proof.
  intros [_ Hg (l & Hl & Hf)].
  assert (H : forallb inert l = true).
  { apply forallb_elem_of. intros e He.
    pose proof (proj1 (forallb_elem_of _ _) Hf e He). by destruct e. }
  split; exists l; (split; [done|]).
  - split; [|by rewrite Hg]. apply forallb_elem_of. intros e He.
    pose proof (proj1 (forallb_elem_of _ _) H e He) as Hi.
    by apply andb_true_iff in Hi as [_ ?].
  - split; [|split].
    + apply forallb_elem_of. intros e He.
      pose proof (proj1 (forallb_elem_of _ _) H e He) as Hi.
      by apply andb_true_iff in Hi as [? _].
    + intros _. apply not_true_is_false. intros Hex.
      apply existsb_exists in Hex as (e & He & Hc). apply list_elem_of_In in He.
      pose proof (proj1 (forallb_elem_of _ _) H e He) as Hi. by destruct e.
    + rewrite Hg. congruence.
Qed.

Lemma settles_markWordCorrect i a s : settles s (markWordCorrect p i a s).
Proof.
  unfold markWordCorrect. destruct (words p !! i); [|apply settles_refl].
  eapply settles_trans; [|by apply settles_emit]. by apply settles_same.
Qed.

Lemma settles_checkCompletion now s : settles s (checkCompletion p now s).
Proof.
  unfold checkCompletion, checkCompletionE.
  destruct (completed (game s)) eqn:E; [apply settles_refl|].
  destruct (bool_decide _); [|apply settles_refl].
  destruct statsUpdatable eqn:Hu; simpl.
  - eexists [_; _; _]. simpl. split; [by rewrite <- !app_assoc|].
    split; [done|]. split; [congruence|done].
  - eexists [_]. simpl. split; [done|]. split; [done|]. split; [done|congruence].
Qed.

Lemma settles_checkWord now i s : settles s (checkWord p now i s).
Proof.
  destruct (checkWord_cases p now i s) as [->|(_ & _ & _ & _ & _ & ->)];
    [apply settles_refl|].
  unfold validated.
  eapply settles_trans; [|apply settles_checkCompletion].
  eapply settles_trans; [|apply settles_markWordCorrect]. by apply settles_same.
Qed.

Lemma settles_checkWordsAt now row col s : settles s (checkWordsAt p now row col s).
Proof.
  apply (checkWordsAt_chain p settles now);
    [apply settles_refl|apply settles_trans|apply settles_checkWord].
Qed.

Lemma settles_checkOpenWords now l s :
  settles s (after (checkOpenWords p now l s)).
Proof.
  apply (checkOpenWords_chain p settles now);
    [apply settles_refl|apply settles_trans|apply settles_checkWord].
Qed.

Lemma opens_startClock now s : opens s (startClock now s).
Proof.
  unfold startClock. destruct (falsyTime _); [|apply opens_refl]. by exists [TimerStart].
Qed.

Lemma ordered_typed now row col letter s : ordered s (typed p now row col letter s).
Proof.
  unfold typed. rewrite onLetterInput_eq.
  exists (startClock now (withCells (setLetter row col letter) s)). split.
  - eapply opens_trans; [|apply opens_startClock]. exists []. by rewrite app_nil_r.
  - apply settles_finish.
    eapply settles_trans; [|apply settles_checkWordsAt].
    unfold storeLetter. destruct (bool_decide _); by apply settles_same.
Qed.

Lemma settles_revealLoop g l s : settles s (revealLoop p g l s).
Proof.
  unfold revealLoop. revert s. induction l as [|rc l IH]; intros s; [apply settles_refl|].
  simpl. eapply settles_trans; [|apply IH].
  destruct (g _ _); [|apply settles_refl]. apply settles_same.
  - apply log_revealCell.
  - by destruct (progress_revealCell p s rc) as (_ & -> & _).
Qed.

Lemma settles_revealLetter now s : settles s (revealLetter p now s).
Proof.
  unfold revealLetter. destruct (_ || _)%Z; [apply settles_refl|].
  destruct (getCell _ _ _) as [cell|]; [|apply settles_refl].
  destruct (isBlack cell); [apply settles_refl|].
  destruct (isLocked _ _ _); [apply settles_refl|].
  destruct (_ || _); [apply settles_refl|].
  cbv zeta. apply settles_finish.
  eapply settles_trans; [|apply settles_checkWordsAt]. by apply settles_same.
Qed.

Lemma settles_revealWord now s : settles s (revealWord p now s).
Proof.
  unfold revealWord. destruct (getActiveWord p s) as [word|]; [|apply settles_refl].
  destruct (bool_decide _); [apply settles_refl|].
  rewrite revealWord_loop. apply settles_finish.
  eapply settles_trans; [apply settles_revealLoop|apply settles_checkWord].
Qed.

Lemma settles_checkAll now l s : settles s (fold_left (checkIfOpen p now) l s).
Proof.
  revert s. induction l as [|i l IH]; intros s; [apply settles_refl|].
  simpl. eapply settles_trans; [|apply IH].
  unfold checkIfOpen. destruct (bool_decide _); [apply settles_refl|apply settles_checkWord].
Qed.

Lemma settles_revealAll now s : settles s (revealAll p now s).
Proof.
  rewrite revealAll_eq. apply settles_finish.
  eapply settles_trans; [apply settles_revealLoop|apply settles_checkOpenWords].
Qed.

Context {text : TextLib}.

Lemma ordered_step s ev : ordered s (step p s ev).
Proof.
  destruct ev as [now e]. unfold step. simpl. destruct e.
  - apply ordered_settles, navStep_moves, navStep_handleCellFocus.
  - apply ordered_settles, navStep_moves, navStep_handleClick.
  - destruct (handleKeyDown_selects p now key row col s)
      as [H|(s1 & r & c & l & H1 & _ & H2)].
    + by apply ordered_settles, navStep_moves, (navStep_selects p).
    + eapply ordered_after; [by apply navStep_moves, (navStep_selects p)|].
      eapply ordered_then; [apply ordered_typed|].
      by apply navStep_moves, (navStep_selects p).
  - destruct (handleInput_selects p now v row col s)
      as [[_ ->]|(s1 & r & c & l & H1 & _ & H2)].
    + by apply ordered_settles, settles_same.
    + eapply ordered_after; [by apply navStep_moves, (navStep_selects p)|].
      eapply ordered_then; [apply ordered_typed|].
      by apply navStep_moves, (navStep_selects p).
  - apply ordered_settles, settles_revealLetter.
  - apply ordered_settles, settles_revealWord.
  - apply ordered_settles, settles_revealAll.
  - by apply ordered_settles, settles_same.
  - apply ordered_settles, navStep_moves, navStep_selectWord.
Qed.

End Order.

(** *** The timer follows the game *)

Section Wiring.

Lemma callbacks_app l1 l2 t : App.callbacks (l1 ++ l2) t = App.callbacks l2 (App.callbacks l1 t).
Proof. unfold App.callbacks. by rewrite fold_left_app. Qed.

Lemma callbacks_inert l t : forallb inert l = true -> App.callbacks l t = t.
Proof.
  revert t. induction l as [|e l IH]; intros t H; [done|].
  simpl in H. apply andb_true_iff in H as [He H]. cbn [App.callbacks fold_left].
  assert (App.callback e t = t) as -> by (by destruct e). by apply IH.
Qed.

(** Calls that do not restore the timer keep its time and its display. *)
Lemma callbacks_calm l t :
  forallb notRestore l = true ->
  Timer.elapsed (App.callbacks l t) = Timer.elapsed t /\
  (Timer.shown t -> Timer.shown (App.callbacks l t)) /\
  (Timer.tidy t -> Timer.tidy (App.callbacks l t)) /\
  ((Timer.running t = true -> Timer.started t = true) ->
   (Timer.running (App.callbacks l t) = true -> Timer.started (App.callbacks l t) = true) /\
   Timer.started (App.callbacks l t) = Timer.started t || existsb isTimerStart l).
Proof.
  revert t. induction l as [|e l IH]; intros t H.
  { simpl. split; [done|]. split; [done|]. split; [done|]. intros Hr.
    split; [done|by rewrite orb_false_r]. }
  simpl in H. apply andb_true_iff in H as [He H]. simpl.
  destruct (IH (App.callback e t) H) as (E1 & E2 & E3 & E4).
  assert (F : Timer.elapsed (App.callback e t) = Timer.elapsed t /\
              (Timer.shown t -> Timer.shown (App.callback e t)) /\ (Timer.tidy t -> Timer.tidy (App.callback e t)) /\
              ((Timer.running t = true -> Timer.started t = true) ->
               (Timer.running (App.callback e t) = true ->
                Timer.started (App.callback e t) = true) /\
               Timer.started (App.callback e t) = Timer.started t || isTimerStart e)).
  { destruct e; try discriminate He;
      try (simpl; split; [done|]; split; [done|]; split; [done|]; intros Hr;
           split; [done|]; by rewrite orb_false_r).
    - cbn [App.callback isTimerStart]. rewrite orb_true_r.
      split; [|split; [|split; [apply tidy_start|]]].
      + unfold Timer.start. by destruct (Timer.running t).
      + unfold Timer.start, Timer.shown. by destruct (Timer.running t).
      + intros Hr. unfold Timer.start. destruct (Timer.running t) eqn:Er; [|done].
        assert (Hst : Timer.started t = true) by (by apply Hr). by rewrite Hst.
    - cbn [App.callback isTimerStart]. rewrite orb_false_r. unfold Timer.stop.
      split; [|split; [|split; [apply tidy_pause|]]].
      + unfold Timer.pause. by destruct (negb _).
      + unfold Timer.pause, Timer.shown. by destruct (negb _).
      + intros Hr. unfold Timer.pause. destruct (Timer.running t) eqn:Er; simpl.
        * done.
        * rewrite Er. done. }
  destruct F as (F1 & F2 & F3 & F4).
  split; [congruence|]. split; [auto|]. split; [auto|].
  intros Hr. destruct (F4 Hr) as [G1 G2]. destruct (E4 G1) as [G3 G4].
  split; [done|]. rewrite G4, G2. by rewrite orb_assoc.
Qed.

(** Calls that do not start the timer leave it stopped, and stop it when
    the completion is among them. *)
Lemma callbacks_settle l t :
  forallb noStart l = true ->
  Timer.running (App.callbacks l t) = Timer.running t && negb (existsb isComplete l).
Proof.
  revert t. induction l as [|e l IH]; intros t H; [by rewrite andb_true_r|].
  simpl in H. apply andb_true_iff in H as [He H]. simpl. rewrite IH by done.
  destruct e; try done; try discriminate He; cbn [App.callback isComplete existsb orb negb].
  rewrite andb_false_r. unfold Timer.stop, Timer.pause.
  destruct (Timer.running t) eqn:Er; simpl; [done|by rewrite Er].
Qed.

(** Calls that do not stop the timer leave a running timer running. *)
Lemma callbacks_open l t :
  forallb noStop l = true -> Timer.running t = true ->
  Timer.running (App.callbacks l t) = true.
Proof.
  revert t. induction l as [|e l IH]; intros t H Hr; [done|].
  simpl in H. apply andb_true_iff in H as [He H]. simpl. apply IH; [done|].
  destruct e; try done; try discriminate He. cbn [App.callback].
  unfold Timer.start. by rewrite Hr.
Qed.

Variable p : PuzzleData.
Context {stats : StatsEntry} {text : TextLib}.

Lemma log_fold_markWordCorrect a l s :
  exists l', log (fold_left (fun s' i => markWordCorrect p i a s') l s) = log s ++ l' /\
             forallb inert l' = true.
Proof.
  revert s. induction l as [|i l IH]; intros s.
  { exists []. by rewrite app_nil_r. }
  simpl. destruct (IH (markWordCorrect p i a s)) as (l' & -> & Hl').
  unfold markWordCorrect. destruct (words p !! i).
  - simpl. eexists (_ :: l'). split; [by rewrite <- app_assoc|]. done.
  - by exists l'.
Qed.

(** The timer right after [initPuzzle]. *)
Lemma init_timer saved :
  App.timer (App.init p saved)
  = match saved with
    | Some g => App.callback (TimerRestore (elapsed g) (startTime g)) Timer.createTimer
    | None => Timer.createTimer
    end.
Proof.
  unfold App.init. cbn [App.timer]. unfold initPuzzle.
  destruct (navStep_focusFirstCell p (createGame p saved)) as [_ _ (l & -> & Hl)].
  assert (Hi : forallb inert l = true).
  { apply forallb_elem_of. intros e He.
    pose proof (proj1 (forallb_elem_of _ _) Hl e He). by destruct e. }
  rewrite callbacks_app, (callbacks_inert l) by done.
  unfold createGame, loadSaved. destruct saved as [g|]; [|done].
  cbn [log emit]. rewrite callbacks_app.
  match goal with |- context [fold_left _ (correctWords g) ?x] => set (s2 := x) end.
  destruct (log_fold_markWordCorrect false (correctWords g) s2) as (l' & -> & Hl').
  by rewrite callbacks_app, (callbacks_inert l') by done.
Qed.

Lemma wired_init saved : wired (App.init p saved).
Proof.
  assert (Hg : game (App.session (App.init p saved)) = default (initialState p) saved).
  { by destruct (initPuzzle_facts p saved) as (_ & ? & _). }
  split; rewrite ?Hg, init_timer; destruct saved as [g|]; try done.
  - simpl. destruct (0 <? elapsed g)%Z; simpl; by destruct (elapsed g =? 0)%Z eqn:E; [lia|].
  - simpl. by destruct (0 <? elapsed g)%Z.
  - simpl. by destruct (0 <? elapsed g)%Z.
  - simpl. destruct (0 <? elapsed g)%Z eqn:E; simpl; [done|done].
Qed.

Lemma step_suffix s ev :
  userEvent ev = true ->
  exists l, log (step p s ev) = log s ++ l /\
            drop (length (log s)) (log (step p s ev)) = l /\
            forallb notRestore l = true /\
            elapsed (game (step p s ev)) = elapsed (game s).
Proof.
  intros Hu. destruct (grows_step p s ev Hu) as [_ [He (l & Hl & Hf)]].
  exists l. split; [done|]. split; [|done]. by rewrite Hl, drop_app_length.
Qed.

Lemma ticks_game n (t : Timer.State) (s : Session) :
  let tw := Nat.iter n (Timer.tick (Some updateElapsed)) (t, s) in
  startTime (game tw.2) = startTime (game s) /\
  completed (game tw.2) = completed (game s).
Proof. induction n as [|n IH]; [done|]. exact IH. Qed.

Lemma wired_step a ev : App.pageEvent p ev = true -> wired a -> wired (App.pageStep p a ev).
Proof.
  intros Hev [H1 H2 H3 H4]. destruct ev as [e| |hidden]; cbn [App.pageStep].
  - simpl in Hev. apply andb_true_iff in Hev as [Hu _].
    destruct (step_suffix (App.session a) e Hu) as (l & _ & -> & Hf & He).
    destruct (callbacks_calm l (App.timer a) Hf) as (E1 & E2 & E3 & E4).
    split; cbn [App.session App.timer]; [congruence|auto|auto|by apply E4].
  - destruct (tick_fields (Some updateElapsed) (size (Timer.intervals (App.timer a)))
                (App.timer a, App.session a)) as (E1 & E2 & E3 & E4 & E5 & E6).
    cbn [fst snd] in *. unfold Timer.second. cbn [fst snd App.session App.timer].
    split; cbn [App.session App.timer].
    + clear -H1. by induction (size _) as [|n IH].
    + by apply E6.
    + unfold Timer.tidy in *. by rewrite E2, E3, E5.
    + by rewrite E3, E4.
  - split; cbn [App.session App.timer]; unfold Timer.visibilityChange.
    + destruct (negb _); [done|]. destruct hidden; unfold Timer.pause, Timer.start.
      * by destruct (negb _).
      * by destruct (Timer.running _).
    + destruct (negb _); [done|]. destruct hidden; unfold Timer.pause, Timer.start, Timer.shown in *.
      * by destruct (negb _).
      * by destruct (Timer.running _).
    + destruct (negb _); [done|]. destruct hidden; [by apply tidy_pause|by apply tidy_start].
    + destruct (Timer.started (App.timer a)) eqn:Es; simpl; [|by rewrite Es].
      intros _. destruct hidden; unfold Timer.pause, Timer.start.
      * by destruct (negb _).
      * by destruct (Timer.running _).
Qed.

Lemma wired_run evs a :
  forallb (App.pageEvent p) evs = true -> wired a -> wired (App.pageRun p evs a).
Proof.
  revert a. induction evs as [|ev evs IH]; intros a Hv Ha; [done|].
  simpl in Hv. apply andb_true_iff in Hv as [Hev Hv].
  unfold App.pageRun in *. simpl. apply IH; [done|by apply wired_step].
Qed.


(** Property X24.
    The event that completes the puzzle leaves the timer stopped, with no
    interval set, when the statistics can be updated: the letter that
    starts the timer and completes the puzzle at once starts the timer
    first.  When the statistics cannot be updated, the completion callback
    is not reached, and the event does not stop a timer that runs. *)
Theorem completion_stops_timer saved evs ev :
  forallb (App.pageEvent p) evs = true -> App.pageEvent p ev = true ->
  let a := App.pageRun p evs (App.init p saved) in
  let a' := App.pageStep p a ev in
  completed (game (App.session a)) = false ->
  completed (game (App.session a')) = true ->
  (statsUpdatable = true ->
   Timer.running (App.timer a') = false /\ Timer.intervals (App.timer a') = ∅) /\
  (statsUpdatable = false ->
   Timer.running (App.timer a) = true -> Timer.running (App.timer a') = true).
Proof.
  intros Hv Hev. cbv zeta. set (a := App.pageRun p evs (App.init p saved)).
  intros Hc Hc'.
  pose proof (wired_step a ev Hev (wired_run evs _ Hv (wired_init saved))) as [_ _ Ht _].
  assert (Hr : (statsUpdatable = true ->
                Timer.running (App.timer (App.pageStep p a ev)) = false) /\
               (statsUpdatable = false -> Timer.running (App.timer a) = true ->
                Timer.running (App.timer (App.pageStep p a ev)) = true)).
  { destruct ev as [e| |hidden]; cbn [App.pageStep App.session App.timer] in *.
    - destruct (ordered_step p (App.session a) e)
        as (s1 & (l1 & A1 & A2 & A3) & (l2 & B1 & B2 & B3 & B4)).
      rewrite B1, A1, <- app_assoc, drop_app_length, callbacks_app.
      rewrite callbacks_settle by done.
      split.
      + intros Hu. rewrite B4; [apply andb_false_r|by rewrite A3|done|done].
      + intros Hu Hrun. rewrite B3 by done.
        rewrite andb_true_r. by apply callbacks_open.
    - exfalso. revert Hc'. unfold Timer.second. cbn [fst snd].
      destruct (ticks_game (size (Timer.intervals (App.timer a))) (App.timer a) (App.session a))
        as [_ ->]. congruence.
    - congruence. }
  destruct Hr as [Hr1 Hr2]. split; [|done].
  intros Hu. specialize (Hr1 Hu). split; [done|].
  unfold Timer.tidy in Ht. rewrite Hr1 in Ht.
  destruct (Timer.intervalId _); by destruct Ht.
Qed.


(** Property X26.
    Opening a puzzle with saved progress puts the saved time on the
    timer and on display, and starts the timer when that time is positive,
    whether or not the saved puzzle is completed. *)
Theorem restore_resumes_timer g :
  let t := App.timer (App.init p (Some g)) in
  Timer.elapsed t = elapsed g /\
  Timer.textContent t = Timer.formatTime (elapsed g) /\
  Timer.running t = (0 <? elapsed g)%Z /\
  Timer.started t = (0 <? elapsed g)%Z /\
  size (Timer.intervals t) = (if (0 <? elapsed g)%Z then 1 else 0).
Proof.
  cbv zeta. rewrite init_timer. simpl.
  assert (E : (if (elapsed g =? 0)%Z then 0%Z else elapsed g) = elapsed g).
  { destruct (Z.eqb_spec (elapsed g) 0); congruence. }
  destruct (0 <? elapsed g)%Z eqn:Hpos; simpl; rewrite ?E, ?Hpos; repeat split; done.
Qed.

End Wiring.

(** ** Typing a word *)

Section TypingWord.
Variable p : PuzzleData.
Context {stats : StatsEntry} {text : TextLib}.

Lemma wordIdxAt_exact i w rc :
  sameDirDisjoint p -> words p !! i = Some w -> rc ∈ wcells w ->
  wordIdxAt p rc.1 rc.2 (direction w) = Some i.
Proof.
  intros Hd Hw Hin. destruct (wordIdxAt_complete p i w rc Hw Hin) as (j & Hj & _).
  destruct (wordIdxAt_sound p _ _ _ _ Hj) as (w' & Hw' & Hdir & Hin').
  destruct rc as [r c]. simpl in *.
  by rewrite (Hd i j w w' (r, c) Hw Hw' (eq_sym Hdir) Hin Hin').
Qed.

Lemma checkWord_solved now i w s :
  words p !! i = Some w ->
  (forall rc, rc ∈ wcells w ->
     getLetter (cells s) rc.1 rc.2 = solutionAt p rc.1 rc.2 /\
     solutionAt p rc.1 rc.2 <> "") ->
  i ∈ correctWords (game (checkWord p now i s)).
Proof.
  intros Hw Hall. destruct (checkWord_outcome p now i s) as [H1 H2]. cbv zeta in *.
  destruct (decide (i ∈ correctWords (game s))) as [Hin|Hout].
  - by rewrite (H1 Hin).
  - destruct (H2 w Hw Hout) as (Hiff & _). apply Hiff. intros rc Hrc.
    destruct (Hall rc Hrc) as [E1 E2]. split; [by rewrite E1|done].
Qed.

(** The check of the second word of a cell is skipped when the check of
    the first has thrown; this happens when the first was the last open
    word, and then the second is a validated word. *)
Lemma checkWordsAt_solved now i w rc s :
  gameInv p (game s) ->
  sameDirDisjoint p -> words p !! i = Some w -> rc ∈ wcells w ->
  (forall rc', rc' ∈ wcells w ->
     getLetter (cells s) rc'.1 rc'.2 = solutionAt p rc'.1 rc'.2 /\
     solutionAt p rc'.1 rc'.2 <> "") ->
  i ∈ correctWords (game (checkWordsAt p now rc.1 rc.2 s)).
Proof.
  intros Hi Hd Hw Hin Hall. pose proof (wordIdxAt_exact i w rc Hd Hw Hin) as Hidx.
  unfold wordIdxAt in Hidx. rewrite checkWordsAt_eq by done.
  destruct (at2 (cellToWords p) rc.1 rc.2) as [cw|]; [|done]. simpl in Hidx.
  cbv zeta.
  destruct (direction w); simpl in Hidx; rewrite Hidx.
  - assert (H1 : i ∈ correctWords (game (checkWord p now i s)))
      by (by apply (checkWord_solved now i w)).
    destruct (cw_down cw) as [j|]; [|done].
    destruct (grows_checkWord p now j (checkWord p now i s))
      as [[_ _ _ _ _ [k ->] _ _ _] _].
    apply elem_of_app. by left.
  - apply (checkWord_solved now i w); [done|].
    intros rc' Hrc'. destruct (Hall rc' Hrc') as [E1 E2]. split; [|done].
    rewrite <- E1. destruct (cw_across cw) as [j|]; [|done].
    apply getLetter_ext, values_checkWord.
Qed.

Lemma letter_typed now r c letter s r' c' :
  skel (cells s) = skel (render p) -> isPlayable p r c = true ->
  getLetter (cells (typed p now r c letter s)) r' c'
  = if decide ((r, c) = (r', c')) then letter else getLetter (cells s) r' c'.
Proof.
  intros Hb Hp. unfold typed.
  rewrite (getLetter_ext _ _ _ _ (values_onLetterInput p now r c letter _)). simpl.
  apply (getLetter_written p); [done|by right].
Qed.

(** One letter key: the letter of every cell after it, and the word that
    is validated when it completes the word. *)
Lemma key_step now k rc s i w :
  skel (cells s) = skel (render p) -> gameInv p (game s) -> sameDirDisjoint p ->
  words p !! i = Some w -> rc ∈ wcells w ->
  k <> " " -> isLetterKey k = true ->
  let s' := step p s (now, EvKeyDown (KeyText k) rc.1 rc.2) in
  skel (cells s') = skel (render p) /\
  (forall r' c', getLetter (cells s') r' c'
     = if decide (rc = (r', c')) then normalizeUpper k else getLetter (cells s) r' c') /\
  ((forall rc', rc' ∈ wcells w ->
      getLetter (cells s') rc'.1 rc'.2 = solutionAt p rc'.1 rc'.2 /\
      solutionAt p rc'.1 rc'.2 <> "") ->
   i ∈ correctWords (game s')).
Proof.
  intros Hb Hi Hd Hw Hin Hk Hl. cbv zeta. unfold step. cbn [fst snd handleKeyDown].
  rewrite bool_decide_eq_false_2, Hl by done.
  set (s2 := typed p now rc.1 rc.2 (normalizeUpper k) s).
  pose proof (navStep_finish_typed p now rc.1 rc.2 (normalizeUpper k) s) as Hnav.
  fold s2 in Hnav.
  pose proof (words_cells_playable p i w rc Hw Hin) as Hp.
  assert (Hlet : forall r' c', getLetter (cells s2) r' c'
            = if decide (rc = (r', c')) then normalizeUpper k else getLetter (cells s) r' c').
  { intros r' c'. unfold s2. rewrite letter_typed by done. by destruct rc. }
  split; [|split].
  - destruct Hnav as [Hc _ _]. rewrite (cores_skel _ _ Hc).
    unfold s2, typed. rewrite skel_onLetterInput. cbn [cells withCells].
    by rewrite skel_setLetter.
  - intros r' c'. rewrite (getLetter_ext _ _ _ _ (nav_values _ _ Hnav)). apply Hlet.
  - intros Hall. pose proof (nav_values _ _ Hnav) as Hval.
    destruct Hnav as [_ -> _]. unfold s2, typed. rewrite onLetterInput_eq.
    rewrite game_finish_emit.
    apply (checkWordsAt_solved now i w rc); [|done|done|done|].
    { destruct Hi as (H1 & H2 & H3). unfold storeLetter, startClock.
      destruct (bool_decide _), (falsyTime _); done. }
    intros rc' Hrc'. destruct (Hall rc' Hrc') as [E1 E2]. split; [|done].
    rewrite <- E1. rewrite (getLetter_ext _ _ _ _ Hval).
    unfold s2, typed.
    rewrite (getLetter_ext _ _ _ _ (values_onLetterInput p now rc.1 rc.2 _ _)).
    unfold storeLetter, startClock. destruct (bool_decide _), (falsyTime _); done.
Qed.

Lemma typing_loop i w keys done rest s :
  sameDirDisjoint p -> words p !! i = Some w ->
  wcells w = done ++ rest -> Forall2 (rightKey p) keys rest ->
  skel (cells s) = skel (render p) -> gameInv p (game s) ->
  (forall rc, rc ∈ done ->
     getLetter (cells s) rc.1 rc.2 = solutionAt p rc.1 rc.2 /\
     solutionAt p rc.1 rc.2 <> "") ->
  rest <> [] \/ i ∈ correctWords (game s) ->
  let s' := run p (typing keys rest) s in
  i ∈ correctWords (game s') /\
  forall rc, rc ∈ wcells w -> getLetter (cells s') rc.1 rc.2 = solutionAt p rc.1 rc.2.
Proof.
  intros Hd Hw. revert keys done s.
  induction rest as [|rc rest IH]; intros keys done s Hcells Hkeys Hb Hi Hdone Hlast;
    cbv zeta.
  - apply Forall2_nil_inv_r in Hkeys as ->. simpl.
    destruct Hlast as [?|Hin]; [done|]. split; [done|].
    intros rc Hrc. apply Hdone. by rewrite Hcells, app_nil_r in Hrc.
  - apply Forall2_cons_inv_r in Hkeys as (k & keys' & Hk & Hkeys & ->).
    destruct Hk as (Hnow & Hsp & Hlk & Hnorm & Hne).
    unfold typing, run. cbn [zip_with fold_left].
    fold (typing keys' rest). fold (run p (typing keys' rest)).
    assert (Hin : rc ∈ wcells w).
    { rewrite Hcells. apply elem_of_app. right. by left. }
    destruct (key_step k.1 k.2 rc s i w Hb Hi Hd Hw Hin Hsp Hlk) as (Hb1 & Hlet & Hval).
    cbv zeta in *.
    pose proof (proj2 (evolves_step p s (k.1, EvKeyDown (KeyText k.2) rc.1 rc.2)) Hi)
      as [Hi1 _ _ _ _ _ _].
    set (s1 := step p s (k.1, EvKeyDown (KeyText k.2) rc.1 rc.2)) in *.
    assert (Hdone1 : forall rc', rc' ∈ done ++ [rc] ->
              getLetter (cells s1) rc'.1 rc'.2 = solutionAt p rc'.1 rc'.2 /\
              solutionAt p rc'.1 rc'.2 <> "").
    { intros rc' Hrc'. rewrite Hlet. destruct (decide _) as [E|E].
      - rewrite Hnorm, E. simpl. split; [done|]. by rewrite E in Hne.
      - apply elem_of_app in Hrc' as [?|Hx]; [by apply Hdone|].
        apply list_elem_of_singleton in Hx. subst rc'. by destruct rc. }
    apply (IH keys' (done ++ [rc]) s1); [by rewrite <- app_assoc|done|done|done|done|].
    destruct rest as [|rc2 rest]; [|by left]. right. apply Hval.
    intros rc' Hrc'. apply Hdone1. by rewrite Hcells in Hrc'.
Qed.

(** Property X27.
    Typing a word solves it.  In a session that began without saved
    progress, in a puzzle whose words of one direction share no cell, the
    letter keys of the solution pressed in the cells of a word, one after
    the other, leave the word validated, its cells locked and showing the
    letters of the solution. *)
Theorem typing_solves_word evs i w keys :
  forallb (validEvent p) evs = true ->
  sameDirDisjoint p -> words p !! i = Some w ->
  Forall2 (rightKey p) keys (wcells w) ->
  let s' := run p (typing keys (wcells w)) (run p evs (initPuzzle p None)) in
  i ∈ correctWords (game s') /\
  forall rc, rc ∈ wcells w ->
    getLetter (cells s') rc.1 rc.2 = solutionAt p rc.1 rc.2 /\
    isLocked (cells s') rc.1 rc.2 = true.
Proof.
  intros Hv Hd Hw Hkeys. cbv zeta.
  set (s := run p evs (initPuzzle p None)).
  assert (Hs : sound p true s).
  { apply sound_run; [done|by left|apply sound_init]. }
  assert (Hi : gameInv p (game s)).
  { by apply run_gameInv, init_gameInv. }
  destruct (typing_loop i w keys [] (wcells w) s Hd Hw eq_refl Hkeys) as [H1 H2].
  { by destruct Hs. }
  { done. }
  { intros rc Hrc. by apply elem_of_nil in Hrc. }
  { left. by apply (word_cells_nonempty p i w). }
  cbv zeta in *. split; [done|]. intros rc Hrc. split; [by apply H2|].
  assert (Hv' : forallb (validEvent p) (typing keys (wcells w)) = true).
  { apply forallb_elem_of. intros ev Hev. unfold typing in Hev.
    apply elem_of_lookup_zip_with in Hev as (j & k & rc' & -> & Hk & Hrc').
    unfold validEvent, playableAt. cbn [fst snd].
    destruct (Forall2_lookup_lr _ _ _ _ _ _ Hkeys Hk Hrc') as (Hnow & _).
    apply andb_true_iff. split.
    - by apply negb_true_iff, Z.eqb_neq.
    - apply (words_cells_playable p i w); [done|]. by eapply list_elem_of_lookup_2. }
  destruct (sound_run p true _ s Hv' (or_introl eq_refl) Hs) as [_ _ Hl _ _].
  apply Hl.
  exists i, w. split; [done|]. split; [done|]. by destruct rc.
Qed.

End TypingWord.

(** ** Changes are saved *)

Section Saves.
Variable p : PuzzleData.
Context {stats : StatsEntry} {text : TextLib}.

Lemma savesLater_emit s s1 :
  (exists l, log s1 = log s ++ l) -> savesLater s (emit ScheduleSave s1).
Proof.
  intros (l & Hl). exists (l ++ [ScheduleSave]). simpl. split.
  - by rewrite Hl, app_assoc.
  - left. apply elem_of_app. right. by left.
Qed.

(** A call that an exception has left: the last call made was the save
    of the state. *)
Lemma savesLater_interrupted s s1 s2 :
  (exists l, log s1 = log s ++ l) -> interrupted p s1 s2 -> savesLater s s2.
Proof.
  intros (l1 & E1) (_ & _ & _ & l2 & E2). exists (l1 ++ l2 ++ [SaveProgress (game s2)]).
  split; [by rewrite E2, E1, <- !app_assoc|].
  right. by rewrite !last_app.
Qed.

Lemma savesLater_moved s s1 s2 :
  navStep s s1 -> savesLater s1 s2 -> savesLater s s2.
Proof.
  intros [_ _ (l1 & E1 & _)] (l2 & E2 & H). exists (l1 ++ l2).
  split; [by rewrite E2, E1, app_assoc|].
  destruct H as [H|H]; [left; apply elem_of_app; by right|right].
  rewrite last_app. by rewrite H.
Qed.

Lemma savesLater_then s s1 s2 :
  (exists l, log s1 = log s ++ l /\ ScheduleSave ∈ l) -> navStep s1 s2 ->
  savesLater s s2.
Proof.
  intros (l1 & E1 & H) [_ _ (l2 & E2 & _)]. exists (l1 ++ l2).
  split; [by rewrite E2, E1, app_assoc|]. left. apply elem_of_app. by left.
Qed.

Lemma grows_log s s' : grows s s' -> exists l, log s' = log s ++ l.
Proof. intros [_ [_ (l & Hl & _)]]. by exists l. Qed.

Lemma log_written now r c letter s :
  exists l, log (storeLetter r c letter
                   (startClock now (withCells (setLetter r c letter) s)))
            = log s ++ l.
Proof.
  apply grows_log.
  eapply grows_trans; [apply grows_setLetter|].
  eapply grows_trans; [apply grows_startClock|apply grows_storeLetter].
Qed.

Lemma savesLater_typed now r c letter s : savesLater s (typed p now r c letter s).
Proof.
  unfold typed.
  destruct (onLetterInput_cases p now r c letter (withCells (setLetter r c letter) s))
    as [[_ ->]|(_ & -> & Hi)].
  - apply savesLater_emit, grows_log.
    eapply grows_trans; [apply grows_setLetter|].
    eapply grows_trans; [apply grows_startClock|].
    eapply grows_trans; [apply grows_storeLetter|apply grows_checkWordsAt].
  - eapply savesLater_interrupted; [apply log_written|exact Hi].
Qed.

(** A letter key, or an input of text: when the letter input returns,
    the cursor moves on after the save was scheduled. *)
Lemma savesLater_letter now r c letter s :
  savesLater s
    (finish (onLetterInputE p now r c letter (withCells (setLetter r c letter) s))
            (moveToNextCell p)).
Proof.
  destruct (onLetterInput_cases p now r c letter (withCells (setLetter r c letter) s))
    as [[Ht E]|(Ht & E & Hi)]; unfold onLetterInput in E;
    destruct (onLetterInputE _ _ _ _ _ _) as [s2|s2]; try done; simpl in *; subst s2.
  - eapply savesLater_then; [|apply navStep_moveToNextCell].
    destruct (grows_log _ _ (grows_checkWordsAt p now r c
                (storeLetter r c letter
                   (startClock now (withCells (setLetter r c letter) s)))))
      as (l2 & E2).
    destruct (log_written now r c letter s) as (l1 & E1).
    exists (l1 ++ l2 ++ [ScheduleSave]). simpl.
    split; [by rewrite E2, E1, <- !app_assoc|].
    apply elem_of_app. right. apply elem_of_app. right. by left.
  - eapply savesLater_interrupted; [apply log_written|exact Hi].
Qed.

(** Property X28.
    Every change of the state of the game by the grid or a button is
    saved: after an event that leaves the state of the game different, a
    save has been scheduled, or, when the completion was left by an
    exception, the last call made is the save of the state as it is now.
    (The seconds counted by the timer change the elapsed time without a
    save.) *)
Theorem changes_schedule_save s ev :
  userEvent ev = true ->
  game (step p s ev) <> game s ->
  exists l, log (step p s ev) = log s ++ l /\
    (ScheduleSave ∈ l \/ last l = Some (SaveProgress (game (step p s ev)))).
Proof.
  intros Hu Hne. destruct ev as [now e]. unfold step in *. cbn [fst snd] in *.
  destruct e; try done.
  - destruct (navStep_handleCellFocus p row col s) as [_ Hg _]. done.
  - destruct (navStep_handleClick p row col s) as [_ Hg _]. done.
  - destruct key; cbn [handleKeyDown] in *;
      try (by destruct (navStep_moveArrow p 0 1 s) as [_ Hg _]);
      try (by destruct (navStep_moveArrow p 0 (-1) s) as [_ Hg _]);
      try (by destruct (navStep_moveArrow p 1 0 s) as [_ Hg _]);
      try (by destruct (navStep_moveArrow p (-1) 0 s) as [_ Hg _]);
      try (by destruct (navStep_moveToNextWord p shiftKey s) as [_ Hg _]);
      try (by destruct (navStep_moveToNextWord p false s) as [_ Hg _]).
    + destruct (hasValue s row col); [apply savesLater_typed|].
      destruct (_ && _)%Z.
      * eapply savesLater_moved; [apply navStep_moveToPrevCell|apply savesLater_typed].
      * by destruct (navStep_moveToPrevCell p s) as [_ Hg _].
    + apply savesLater_typed.
    + destruct (bool_decide _);
        [by destruct (navStep_toggleDirection p s) as [_ Hg _]|].
      destruct (isLetterKey _); [apply savesLater_letter|done].
  - destruct (decide (v = "")) as [->|Hv]; [done|].
    rewrite handleInput_value by done. apply savesLater_letter.
  - destruct (revealLetter_cases p now s) as [E|(s1 & Hq & [E|[E Hi]])];
      [by rewrite E in Hne| |]; rewrite E.
    + apply savesLater_emit.
      destruct Hq as [_ _ (l1 & E1 & _)].
      destruct (grows_log _ _ (grows_checkWordsAt p now (activeRow s) (activeCol s) s1))
        as (l2 & E2).
      exists (l1 ++ l2). by rewrite E2, E1, app_assoc.
    + eapply savesLater_interrupted; [|exact Hi].
      destruct Hq as [_ _ (l1 & E1 & _)]. by exists l1.
  - destruct (revealWord_cases p now s) as [E|(word & _ & _ & [E|[E Hi]])];
      [by rewrite E in Hne| |]; rewrite E.
    + apply savesLater_emit, grows_log.
      eapply grows_trans; [apply grows_revealLoop|apply grows_checkWord].
    + eapply savesLater_interrupted; [|exact Hi]. apply grows_log, grows_revealLoop.
  - destruct (revealAll_cases p now s) as [E|[E Hi]]; rewrite E.
    + apply savesLater_emit, grows_log.
      eapply grows_trans; [apply grows_revealLoop|apply grows_checkOpenWords].
    + eapply savesLater_interrupted; [|exact Hi]. apply grows_log, grows_revealLoop.
  - destruct (navStep_selectWord p wordIdx s) as [_ Hg _]. done.
Qed.

End Saves.

(** ** The scraper *)

Section ScraperFacts.
Import Scraper.
Context {P : Type}.
Variable fetchPuzzle : string -> Fetched P.









End ScraperFacts.

(** ** The example puzzle [crossPuzzle] *)

Lemma crossPuzzle_words : words crossPuzzle = [acrossWord; downWord].
Proof. vm_compute. reflexivity. Qed.

Lemma crossPuzzle_disjoint : sameDirDisjoint crossPuzzle.
Proof.
  intros i j w w' rc. rewrite crossPuzzle_words.
  destruct i as [|[|i]], j as [|[|j]]; simpl; try done;
    intros [= <-] [= <-]; done.
Qed.

Lemma crossPuzzle_cells r c :
  isPlayable crossPuzzle r c = true ->
  (r, c) = (0, 0)%Z \/ (r, c) = (0, 1)%Z \/ (r, c) = (1, 0)%Z.
Proof.
  intros Hp. apply isPlayable_spec in Hp as [Hin Hnb].
  assert (Hr : (0 <= r < 2 /\ 0 <= c < 2)%Z).
  { unfold inGrid in Hin. simpl in Hin. lia. }
  assert (Hrr : r = 0%Z \/ r = 1%Z) by lia.
  assert (Hcc : c = 0%Z \/ c = 1%Z) by lia.
  destruct Hrr as [-> | ->], Hcc as [-> | ->]; auto.
  exfalso. apply Hnb. reflexivity.
Qed.

Lemma crossPuzzle_solution r c :
  isPlayable crossPuzzle r c = true -> solutionAt crossPuzzle r c <> "".
Proof.
  intros Hp. destruct (crossPuzzle_cells r c Hp) as [E|[E|E]];
    injection E as -> ->; vm_compute; discriminate.
Qed.

Lemma crossPuzzle_fresh_board :
  skel (cells (initPuzzle crossPuzzle None)) = skel (render crossPuzzle).
Proof. vm_compute. reflexivity. Qed.

Lemma crossPuzzle_fresh_unlocked r c :
  isLocked (cells (initPuzzle crossPuzzle None)) r c = true ->
  getLetter (cells (initPuzzle crossPuzzle None)) r c = solutionAt crossPuzzle r c.
Proof.
  intros Hl. destruct (sound_init crossPuzzle true) as [_ _ Hlk _ _].
  apply Hlk in Hl as (i & w & Hi & _).
  replace (correctWords (game (initPuzzle crossPuzzle None))) with (@nil nat) in Hi
    by (vm_compute; reflexivity).
  by apply elem_of_nil in Hi.
Qed.

Lemma crossPuzzle_fresh_inv : gameInv crossPuzzle (game (initPuzzle crossPuzzle None)).
Proof.
  replace (game (initPuzzle crossPuzzle None)) with (initialState crossPuzzle)
    by (vm_compute; reflexivity).
  split; [constructor|]. split; [|done].
  intros i Hi. by apply elem_of_nil in Hi.
Qed.

Lemma gapPuzzle_fresh_board :
  skel (cells (initPuzzle gapPuzzle None)) = skel (render gapPuzzle).
Proof. vm_compute. reflexivity. Qed.

Lemma gapMiddle_board : skel (cells gapMiddle) = skel (render gapPuzzle).
Proof. vm_compute. reflexivity. Qed.

(** An edit that empties a field leaves the letter in the state: the cell
    of the board is empty, the saved grid holds the letter, and a game
    restored from this state shows the letter again. *)
Lemma emptied_field_keeps_letter :
  let s := run crossPuzzle (text := asciiText) (stats := firstVisit)
             typeThenEmpty (initPuzzle crossPuzzle None) in
  getLetter (cells s) 0 0 = "" /\
  grid (game s) !! (0%Z, 0%Z) = Some "A" /\
  getLetter (cells (createGame crossPuzzle (Some (game s)))) 0 0 = "A".
Proof. vm_compute. done. Qed.

(** With statistics that cannot be read, the reveal that completes
    [crossPuzzle] marks it complete and saves it, and the page is not told:
    the timer goes on. *)
Lemma completion_unreported :
  let a := App.pageRun crossPuzzle (text := asciiText) (stats := brokenStats)
             crossVisit (App.init crossPuzzle None) in
  let a' := App.pageStep crossPuzzle (text := asciiText) (stats := brokenStats)
              a (App.Ui (3%Z, EvRevealAll)) in
  completed (game (App.session a')) = true /\
  occurrences isSaveProgress (log (App.session a')) = 1 /\
  occurrences isComplete (log (App.session a')) = 0 /\
  occurrences isStatsUpdate (log (App.session a')) = 0 /\
  Timer.running (App.timer a') = true.
Proof. vm_compute. done. Qed.

(** ** The further properties on the examples *)

Lemma formatTime_injective_witness :
  (0 <= 3725)%Z /\ (0 <= 3600 + 125)%Z /\
  Timer.formatTime 3725 = Timer.formatTime (3600 + 125) /\
  3725%Z = (3600 + 125)%Z.
Proof.
  assert (H1 : (0 <= 3725)%Z) by lia.
  assert (H2 : (0 <= 3600 + 125)%Z) by lia.
  assert (H3 : Timer.formatTime 3725 = Timer.formatTime (3600 + 125))
    by (vm_compute; reflexivity).
  split; [exact H1|]. split; [exact H2|]. split; [exact H3|].
  exact (formatTime_injective 3725 (3600 + 125) H1 H2 H3).
Defined.

Lemma formatTimeFallback_agrees_witness :
  (0 <= 75)%Z /\
  (formatTimeFallback 75 = Timer.formatTime 75 <-> (75 < 3600)%Z).
Proof.
  assert (H : (0 <= 75)%Z) by lia.
  split; [exact H|]. exact (formatTimeFallback_agrees 75 H).
Defined.

Lemma streak_bounds_witness :
  twoCompletions <> [] /\
  (1 <= Storage.streakCurrent (Saving.afterCompletions twoCompletions))%Z /\
  (Storage.streakCurrent (Saving.afterCompletions twoCompletions)
   <= Storage.streakBest (Saving.afterCompletions twoCompletions))%Z /\
  (Storage.streakBest (Saving.afterCompletions twoCompletions)
   <= Z.of_nat (length twoCompletions))%Z.
Proof.
  assert (H : twoCompletions <> []) by discriminate.
  split; [exact H|]. exact (streak_bounds twoCompletions H).
Defined.

Lemma bestTime_least_witness :
  Forall (fun c => 0 < Saving.c_secs c)%Z oddCompletions /\
  Storage.bestTime (Saving.afterCompletions oddCompletions) !! "daily"
  = (if Storage.inherited "daily" then None
     else Saving.least (Saving.timesOf "daily" oddCompletions)) /\
  Storage.bestTime (Saving.afterCompletions oddCompletions) !! "constructor"
  = (if Storage.inherited "constructor" then None
     else Saving.least (Saving.timesOf "constructor" oddCompletions)).
Proof.
  assert (H : Forall (fun c => 0 < Saving.c_secs c)%Z oddCompletions).
  { repeat constructor. }
  split; [exact H|]. split.
  - exact (bestTime_least oddCompletions "daily" H).
  - exact (bestTime_least oddCompletions "constructor" H).
Defined.

Lemma moveToNextCell_successor_witness :
  getActiveWord crossPuzzle (initPuzzle crossPuzzle None) = Some acrossWord /\
  exists i,
    wcells acrossWord !! i
    = Some (activeRow (initPuzzle crossPuzzle None),
            activeCol (initPuzzle crossPuzzle None)) /\
    let s' := moveToNextCell crossPuzzle (initPuzzle crossPuzzle None) in
    match wcells acrossWord !! S i with
    | Some next =>
        s' = setActiveCell crossPuzzle next.1 next.2 None
               (initPuzzle crossPuzzle None) /\
        (activeRow s', activeCol s') = next /\
        activeDirection s' = activeDirection (initPuzzle crossPuzzle None)
    | None => s' = initPuzzle crossPuzzle None
    end.
Proof.
  assert (H : getActiveWord crossPuzzle (initPuzzle crossPuzzle None)
              = Some acrossWord) by (vm_compute; reflexivity).
  split; [exact H|].
  exact (moveToNextCell_successor crossPuzzle (initPuzzle crossPuzzle None)
           acrossWord H).
Defined.

Lemma next_then_prev_returns_witness :
  sameDirDisjoint crossPuzzle /\
  getActiveWord crossPuzzle (initPuzzle crossPuzzle None) = Some acrossWord /\
  let s := initPuzzle crossPuzzle None in
  let s' := moveToPrevCell crossPuzzle (moveToNextCell crossPuzzle s) in
  activeRow s' = activeRow s /\ activeCol s' = activeCol s /\
  activeDirection s' = activeDirection s /\
  getActiveWord crossPuzzle s' = Some acrossWord.
Proof.
  assert (H1 : getActiveWord crossPuzzle (initPuzzle crossPuzzle None)
               = Some acrossWord) by (vm_compute; reflexivity).
  assert (H2 : wcells acrossWord !! 0
               = Some (activeRow (initPuzzle crossPuzzle None),
                       activeCol (initPuzzle crossPuzzle None)))
    by (vm_compute; reflexivity).
  assert (H3 : wcells acrossWord !! 1 = Some (0%Z, 1%Z)) by reflexivity.
  split; [exact crossPuzzle_disjoint|]. split; [exact H1|].
  exact (next_then_prev_returns crossPuzzle (initPuzzle crossPuzzle None)
           acrossWord 0 (0%Z, 1%Z) crossPuzzle_disjoint H1 H2 H3).
Defined.

Lemma moveToNextWord_cycles_witness :
  let s := initPuzzle gapPuzzle None in
  wordIdxAt gapPuzzle (activeRow s) (activeCol s) (activeDirection s) = Some 1 /\
  length (sameDir gapPuzzle s) = 2 /\
  (activeRow s, activeCol s) = (0, 0)%Z /\
  (activeRow (moveToNextWord gapPuzzle false s),
   activeCol (moveToNextWord gapPuzzle false s)) = (0, 2)%Z /\
  exists k cur w' target,
    sameDir gapPuzzle s !! k = Some cur /\ id cur = 1 /\
    sameDir gapPuzzle s !! nextPos false k (length (sameDir gapPuzzle s))
    = Some w' /\
    entryCell (cells s) w' = Some target /\ target ∈ wcells w' /\
    let s' := moveToNextWord gapPuzzle false s in
    s' = setActiveCell gapPuzzle target.1 target.2 (Some (direction w')) s /\
    (activeRow s', activeCol s') = target /\
    activeDirection s' = activeDirection s.
Proof.
  cbv zeta.
  assert (H : let s := initPuzzle gapPuzzle None in
              wordIdxAt gapPuzzle (activeRow s) (activeCol s) (activeDirection s)
              = Some 1) by (vm_compute; reflexivity).
  split; [exact H|].
  split; [vm_compute; reflexivity|].
  split; [vm_compute; reflexivity|].
  split; [vm_compute; reflexivity|].
  exact (moveToNextWord_cycles gapPuzzle false (initPuzzle gapPuzzle None) 1 H).
Defined.

Lemma selectWord_activates_witness :
  sameDirDisjoint crossPuzzle /\
  match words crossPuzzle !! 1 with
  | Some w =>
      exists target,
        entryCell (cells (initPuzzle crossPuzzle None)) w = Some target /\
        target ∈ wcells w /\
        let s' := selectWord crossPuzzle 1 (initPuzzle crossPuzzle None) in
        (activeRow s', activeCol s') = target /\
        activeDirection s' = direction w /\
        getActiveWord crossPuzzle s' = Some w
  | None => selectWord crossPuzzle 1 (initPuzzle crossPuzzle None)
            = initPuzzle crossPuzzle None
  end.
Proof.
  split; [exact crossPuzzle_disjoint|].
  exact (selectWord_activates crossPuzzle (initPuzzle crossPuzzle None) 1
           crossPuzzle_disjoint).
Defined.

Lemma moveArrow_nearest_witness :
  (let s := initPuzzle gapPuzzle None in
   skel (cells s) = skel (render gapPuzzle) /\ unitStep 0 1 /\ 0 < 2 /\
   (inGrid gapPuzzle (arrowCell s 0 1 1).1 (arrowCell s 0 1 1).2 = true /\
    puzzleAt gapPuzzle (arrowCell s 0 1 1).1 (arrowCell s 0 1 1).2 = Block) /\
   arrowCell s 0 1 2 = (0, 2)%Z /\
   isPlayable gapPuzzle (arrowCell s 0 1 2).1 (arrowCell s 0 1 2).2 = true /\
   moveArrow gapPuzzle 0 1 s
   = setActiveCell gapPuzzle (arrowCell s 0 1 2).1 (arrowCell s 0 1 2).2 None s) /\
  (let s := gapMiddle in
   skel (cells s) = skel (render gapPuzzle) /\ unitStep (-1) 0 /\ 0 < 2 /\
   (inGrid gapPuzzle (arrowCell s (-1) 0 1).1 (arrowCell s (-1) 0 1).2 = true /\
    puzzleAt gapPuzzle (arrowCell s (-1) 0 1).1 (arrowCell s (-1) 0 1).2 = Block) /\
   inGrid gapPuzzle (arrowCell s (-1) 0 2).1 (arrowCell s (-1) 0 2).2 = false /\
   moveArrow gapPuzzle (-1) 0 s = s).
Proof.
  cbv zeta. split.
  - assert (H2 : unitStep 0 1) by (left; done).
    assert (H3 : 0 < 2) by lia.
    assert (H4 : inGrid gapPuzzle (arrowCell (initPuzzle gapPuzzle None) 0 1 1).1
                   (arrowCell (initPuzzle gapPuzzle None) 0 1 1).2 = true /\
                 puzzleAt gapPuzzle (arrowCell (initPuzzle gapPuzzle None) 0 1 1).1
                   (arrowCell (initPuzzle gapPuzzle None) 0 1 1).2 = Block)
      by (vm_compute; split; reflexivity).
    assert (H5 : forall j, 0 < j < 2 ->
              inGrid gapPuzzle (arrowCell (initPuzzle gapPuzzle None) 0 1 j).1
                (arrowCell (initPuzzle gapPuzzle None) 0 1 j).2 = true /\
              puzzleAt gapPuzzle (arrowCell (initPuzzle gapPuzzle None) 0 1 j).1
                (arrowCell (initPuzzle gapPuzzle None) 0 1 j).2 = Block).
    { intros j Hj. assert (j = 1) as -> by lia. exact H4. }
    assert (H6 : isPlayable gapPuzzle (arrowCell (initPuzzle gapPuzzle None) 0 1 2).1
                   (arrowCell (initPuzzle gapPuzzle None) 0 1 2).2 = true)
      by (vm_compute; reflexivity).
    split; [exact gapPuzzle_fresh_board|]. split; [exact H2|]. split; [exact H3|].
    split; [exact H4|]. split; [vm_compute; reflexivity|]. split; [exact H6|].
    exact (proj1 (moveArrow_nearest gapPuzzle (initPuzzle gapPuzzle None) 0%Z 1%Z 2
                    gapPuzzle_fresh_board H2 H3 H5) H6).
  - assert (H2 : unitStep (-1) 0) by (right; right; right; done).
    assert (H3 : 0 < 2) by lia.
    assert (H4 : inGrid gapPuzzle (arrowCell gapMiddle (-1) 0 1).1
                   (arrowCell gapMiddle (-1) 0 1).2 = true /\
                 puzzleAt gapPuzzle (arrowCell gapMiddle (-1) 0 1).1
                   (arrowCell gapMiddle (-1) 0 1).2 = Block)
      by (vm_compute; split; reflexivity).
    assert (H5 : forall j, 0 < j < 2 ->
              inGrid gapPuzzle (arrowCell gapMiddle (-1) 0 j).1
                (arrowCell gapMiddle (-1) 0 j).2 = true /\
              puzzleAt gapPuzzle (arrowCell gapMiddle (-1) 0 j).1
                (arrowCell gapMiddle (-1) 0 j).2 = Block).
    { intros j Hj. assert (j = 1) as -> by lia. exact H4. }
    assert (H6 : inGrid gapPuzzle (arrowCell gapMiddle (-1) 0 2).1
                   (arrowCell gapMiddle (-1) 0 2).2 = false)
      by (vm_compute; reflexivity).
    split; [exact gapMiddle_board|]. split; [exact H2|]. split; [exact H3|].
    split; [exact H4|]. split; [exact H6|].
    exact (proj2 (moveArrow_nearest gapPuzzle gapMiddle (-1)%Z 0%Z 2
                    gapMiddle_board H2 H3 H5) H6).
Defined.

Lemma focusFirstCell_first_witness :
  skel (cells (createGame crossPuzzle None)) = skel (render crossPuzzle) /\
  let s := createGame crossPuzzle None in
  let s' := focusFirstCell crossPuzzle s in
  (exists r c, isPlayable crossPuzzle r c = true /\
     s' = setActiveCell crossPuzzle r c (Some across) s /\
     forall r' c', isPlayable crossPuzzle r' c' = true ->
       (r', c') = (r, c) \/ rowMajor (r, c) (r', c')) \/
  ((forall r c, isPlayable crossPuzzle r c = false) /\ s' = s).
Proof.
  assert (H : skel (cells (createGame crossPuzzle None)) = skel (render crossPuzzle))
    by (vm_compute; reflexivity).
  split; [exact H|].
  exact (focusFirstCell_first crossPuzzle (createGame crossPuzzle None) H).
Defined.

Lemma setActiveCell_marks_witness :
  let s := initPuzzle crossPuzzle None in
  let s' := setActiveCell crossPuzzle 1 0 None s in
  isPlayable crossPuzzle 1 0 = true /\ isPlayable crossPuzzle 0 0 = true /\
  (Active ∈ classesAt (cells s') 0 0 <-> (0, 0)%Z = (1, 0)%Z) /\
  (Highlighted ∈ classesAt (cells s') 0 0 <->
     exists w, getActiveWord crossPuzzle s' = Some w /\ (0, 0)%Z ∈ wcells w).
Proof.
  cbv zeta.
  assert (H1 : isPlayable crossPuzzle 1 0 = true) by (vm_compute; reflexivity).
  assert (H2 : isPlayable crossPuzzle 0 0 = true) by (vm_compute; reflexivity).
  split; [exact H1|]. split; [exact H2|].
  pose proof (setActiveCell_marks crossPuzzle (initPuzzle crossPuzzle None)
                1%Z 0%Z None 0%Z 0%Z crossPuzzle_fresh_board H1 H2) as H.
  split; [exact (proj1 H)|exact (proj1 (proj2 H))].
Defined.

Lemma cursor_stays_playable_witness :
  forallb (validEvent crossPuzzle) typeAB = true /\
  let s := run crossPuzzle (text := asciiText) (stats := firstVisit)
          typeAB (initPuzzle crossPuzzle None) in
  (activeRow s = (-1)%Z /\ activeCol s = (-1)%Z /\
   forall r c, isPlayable crossPuzzle r c = false) \/
  isPlayable crossPuzzle (activeRow s) (activeCol s) = true.
Proof.
  assert (H : forallb (validEvent crossPuzzle) typeAB = true)
    by (vm_compute; reflexivity).
  split; [exact H|].
  exact (@cursor_stays_playable crossPuzzle firstVisit asciiText None typeAB H).
Defined.

Lemma board_mirrors_state_witness :
  forallb (validEvent crossPuzzle) typeAB = true /\
  noEmptyInput typeAB = true /\
  getLetter (cells crossAcrossSolved) 0 1
  = default "" (grid (game crossAcrossSolved) !! (0%Z, 1%Z)).
Proof.
  assert (H : forallb (validEvent crossPuzzle) typeAB = true)
    by (vm_compute; reflexivity).
  assert (H2 : noEmptyInput typeAB = true) by reflexivity.
  split; [exact H|]. split; [exact H2|].
  exact (proj2 (@board_mirrors_state crossPuzzle firstVisit asciiText typeAB
                  0%Z 1%Z H) H2).
Defined.

Lemma locks_follow_validated_words_witness :
  forallb (validEvent crossPuzzle) typeAB = true /\
  (isLocked (cells crossAcrossSolved) 0 1 = true <->
   exists i w, i ∈ correctWords (game crossAcrossSolved) /\
               words crossPuzzle !! i = Some w /\ (0%Z, 1%Z) ∈ wcells w).
Proof.
  assert (H : forallb (validEvent crossPuzzle) typeAB = true)
    by (vm_compute; reflexivity).
  split; [exact H|].
  exact (proj1 (@locks_follow_validated_words crossPuzzle firstVisit asciiText
                  typeAB 0%Z 1%Z H)).
Defined.

Lemma restore_shows_saved_board_witness :
  (forallb (validEvent crossPuzzle) typeAB = true /\
   noEmptyInput typeAB = true /\
   cores (cells (createGame crossPuzzle (Some (game crossAcrossSolved))))
   = cores (cells crossAcrossSolved)) /\
  (forallb (validEvent crossPuzzle) typeThenEmpty = true /\
   let s := run crossPuzzle (text := asciiText) (stats := firstVisit)
              typeThenEmpty (initPuzzle crossPuzzle None) in
   getLetter (cells (createGame crossPuzzle (Some (game s)))) 0 0
   = default "" (grid (game s) !! (0%Z, 0%Z))).
Proof.
  assert (H : forallb (validEvent crossPuzzle) typeAB = true)
    by (vm_compute; reflexivity).
  assert (H2 : noEmptyInput typeAB = true) by reflexivity.
  assert (H3 : forallb (validEvent crossPuzzle) typeThenEmpty = true)
    by (vm_compute; reflexivity).
  split.
  - split; [exact H|]. split; [exact H2|].
    exact (proj2 (proj2 (proj2 (proj2
             (@restore_shows_saved_board crossPuzzle firstVisit asciiText
                typeAB H)))) H2).
  - split; [exact H3|].
    exact (proj1 (proj2
             (@restore_shows_saved_board crossPuzzle firstVisit asciiText
                typeThenEmpty H3)) 0%Z 0%Z).
Defined.

Lemma revealAll_solves_witness :
  let s := initPuzzle crossPuzzle None in
  gameInv crossPuzzle (game s) /\
  validatedCount (revealAll crossPuzzle (stats := firstVisit) 3 s)
  = length (words crossPuzzle) /\
  (validatedCount s < length (words crossPuzzle) ->
   completed (game (revealAll crossPuzzle (stats := firstVisit) 3 s)) = true /\
   completedAt (game (revealAll crossPuzzle (stats := firstVisit) 3 s))
   = Some 3%Z).
Proof.
  cbv zeta. split; [exact crossPuzzle_fresh_inv|].
  exact (proj2 (proj2
           (@revealAll_solves crossPuzzle firstVisit 3%Z
              (initPuzzle crossPuzzle None)
              crossPuzzle_fresh_board crossPuzzle_fresh_inv
              crossPuzzle_solution crossPuzzle_fresh_unlocked))).
Defined.


Lemma completion_stops_timer_witness :
  (let a := App.pageRun crossPuzzle (text := asciiText) (stats := firstVisit)
              crossVisit (App.init crossPuzzle None) in
   let a' := App.pageStep crossPuzzle (text := asciiText) (stats := firstVisit) a
               (App.Ui (3%Z, EvRevealAll)) in
   completed (game (App.session a)) = false /\
   completed (game (App.session a')) = true /\
   statsUpdatable (StatsEntry := firstVisit) = true /\
   Timer.running (App.timer a') = false /\
   Timer.intervals (App.timer a') = (∅ : gset nat)) /\
  (let a := App.pageRun crossPuzzle (text := asciiText) (stats := brokenStats)
              crossVisit (App.init crossPuzzle None) in
   let a' := App.pageStep crossPuzzle (text := asciiText) (stats := brokenStats) a
               (App.Ui (3%Z, EvRevealAll)) in
   completed (game (App.session a)) = false /\
   completed (game (App.session a')) = true /\
   statsUpdatable (StatsEntry := brokenStats) = false /\
   Timer.running (App.timer a) = true /\
   Timer.running (App.timer a') = true).
Proof.
  cbv zeta.
  assert (H1 : forallb (App.pageEvent crossPuzzle) crossVisit = true)
    by (vm_compute; reflexivity).
  assert (H2 : App.pageEvent crossPuzzle (App.Ui (3%Z, EvRevealAll)) = true)
    by (vm_compute; reflexivity).
  split.
  - assert (H3 : completed (game (App.session
                   (App.pageRun crossPuzzle (text := asciiText)
                      (stats := firstVisit) crossVisit
                      (App.init crossPuzzle None)))) = false)
      by (vm_compute; reflexivity).
    assert (H4 : completed (game (App.session
                   (App.pageStep crossPuzzle (text := asciiText)
                      (stats := firstVisit)
                      (App.pageRun crossPuzzle (text := asciiText)
                         (stats := firstVisit) crossVisit
                         (App.init crossPuzzle None))
                      (App.Ui (3%Z, EvRevealAll))))) = true)
      by (vm_compute; reflexivity).
    assert (H5 : statsUpdatable (StatsEntry := firstVisit) = true) by reflexivity.
    split; [exact H3|]. split; [exact H4|]. split; [exact H5|].
    exact (proj1 (@completion_stops_timer crossPuzzle firstVisit asciiText None
                    crossVisit (App.Ui (3%Z, EvRevealAll)) H1 H2 H3 H4) H5).
  - assert (H3 : completed (game (App.session
                   (App.pageRun crossPuzzle (text := asciiText)
                      (stats := brokenStats) crossVisit
                      (App.init crossPuzzle None)))) = false)
      by (vm_compute; reflexivity).
    assert (H4 : completed (game (App.session
                   (App.pageStep crossPuzzle (text := asciiText)
                      (stats := brokenStats)
                      (App.pageRun crossPuzzle (text := asciiText)
                         (stats := brokenStats) crossVisit
                         (App.init crossPuzzle None))
                      (App.Ui (3%Z, EvRevealAll))))) = true)
      by (vm_compute; reflexivity).
    assert (H5 : statsUpdatable (StatsEntry := brokenStats) = false) by reflexivity.
    assert (H6 : Timer.running (App.timer
                   (App.pageRun crossPuzzle (text := asciiText)
                      (stats := brokenStats) crossVisit
                      (App.init crossPuzzle None))) = true)
      by (vm_compute; reflexivity).
    split; [exact H3|]. split; [exact H4|]. split; [exact H5|].
    split; [exact H6|].
    exact (proj2 (@completion_stops_timer crossPuzzle brokenStats asciiText None
                    crossVisit (App.Ui (3%Z, EvRevealAll)) H1 H2 H3 H4) H5 H6).
Defined.


Lemma typing_solves_word_witness :
  sameDirDisjoint crossPuzzle /\
  Forall2 (rightKey crossPuzzle (text := asciiText)) abKeys (wcells acrossWord) /\
  0 ∈ correctWords
        (game (run crossPuzzle (text := asciiText) (stats := firstVisit)
                 (typing abKeys (wcells acrossWord))
                 (run crossPuzzle (text := asciiText) (stats := firstVisit) []
                    (initPuzzle crossPuzzle None)))).
Proof.
  assert (H1 : forallb (validEvent crossPuzzle) [] = true) by reflexivity.
  assert (H2 : words crossPuzzle !! 0 = Some acrossWord)
    by (vm_compute; reflexivity).
  assert (H3 : Forall2 (rightKey crossPuzzle (text := asciiText)) abKeys
                 (wcells acrossWord)).
  { repeat constructor; try discriminate; vm_compute; reflexivity. }
  split; [exact crossPuzzle_disjoint|]. split; [exact H3|].
  exact (proj1 (@typing_solves_word crossPuzzle firstVisit asciiText [] 0
                  acrossWord abKeys H1 crossPuzzle_disjoint H2 H3)).
Defined.

Lemma changes_schedule_save_witness :
  (userEvent (1%Z, EvKeyDown (KeyText "a") 0 0) = true /\
   let s := initPuzzle crossPuzzle None in
   let s' := step crossPuzzle (text := asciiText) (stats := firstVisit) s
               (1%Z, EvKeyDown (KeyText "a") 0 0) in
   game s' <> game s /\
   exists l, log s' = log s ++ l /\
     (ScheduleSave ∈ l \/ last l = Some (SaveProgress (game s')))) /\
  (userEvent (3%Z, EvRevealAll) = true /\
   let s := run crossPuzzle (text := asciiText) (stats := brokenStats) typeAB
              (initPuzzle crossPuzzle None) in
   let s' := step crossPuzzle (text := asciiText) (stats := brokenStats) s
               (3%Z, EvRevealAll) in
   game s' <> game s /\
   exists l, log s' = log s ++ l /\
     (ScheduleSave ∈ l \/ last l = Some (SaveProgress (game s')))).
Proof.
  cbv zeta. split.
  - assert (H1 : userEvent (1%Z, EvKeyDown (KeyText "a") 0 0) = true)
      by reflexivity.
    assert (H2 : game (step crossPuzzle (text := asciiText) (stats := firstVisit)
                         (initPuzzle crossPuzzle None)
                         (1%Z, EvKeyDown (KeyText "a") 0 0))
                 <> game (initPuzzle crossPuzzle None)).
    { intros E. apply (f_equal startTime) in E. vm_compute in E. discriminate E. }
    split; [exact H1|]. split; [exact H2|].
    exact (@changes_schedule_save crossPuzzle firstVisit asciiText
             (initPuzzle crossPuzzle None) (1%Z, EvKeyDown (KeyText "a") 0 0)
             H1 H2).
  - assert (H1 : userEvent (3%Z, EvRevealAll) = true) by reflexivity.
    assert (H2 : game (step crossPuzzle (text := asciiText) (stats := brokenStats)
                         (run crossPuzzle (text := asciiText)
                            (stats := brokenStats) typeAB
                            (initPuzzle crossPuzzle None))
                         (3%Z, EvRevealAll))
                 <> game (run crossPuzzle (text := asciiText)
                            (stats := brokenStats) typeAB
                            (initPuzzle crossPuzzle None))).
    { intros E. apply (f_equal completed) in E. vm_compute in E. discriminate E. }
    split; [exact H1|]. split; [exact H2|].
    exact (@changes_schedule_save crossPuzzle brokenStats asciiText
             (run crossPuzzle (text := asciiText) (stats := brokenStats) typeAB
                (initPuzzle crossPuzzle None))
             (3%Z, EvRevealAll) H1 H2).
Defined.
